(** * Seating optimisation (bordplassering): a shallow embedding of
    [src/lib/seating.ts] and the properties of its algorithms.

    The TypeScript module is embedded function by function.  Conventions:

    - a JS [number] is a value of [number]: a rational, [Infinity] or
      [NaN], and sums are not rounded.  That is what the source computes
      on small multiples of 1/4 or 1/8 (commonality distances, the 0.5
      penalty, numbers of participants), whose sums are doubles.  The
      average distance is a quotient of two small integers, and sums of
      such distances are rounded by the source: module [Double] has the
      doubles with their rounding, and the refiner and the total cost
      computed with them;
    - an array is a [list]; reading it out of range yields [undefined],
      which is [None] for an array of objects and [NaN] once it is used as
      a number;
    - a property access on [undefined] throws a [TypeError]: functions that
      can throw return a [result];
    - the [while (improved)] loop of [twoOpt] is the only loop without a
      syntactic bound, it takes fuel;
    - [Math.random()] is an input: a sequence of rationals in [0, 1). *)

From Stdlib Require Import QArith Qround Qabs Qpower Lqa Lia.
From Stdlib Require Floats.
From stdpp Require Import base option list strings gmap pretty.

Local Open Scope nat_scope.

(** ** Outcomes of a call *)

Inductive error : Type :=
  | TypeError
  | OutOfFuel.

Inductive result (A : Type) : Type :=
  | Ok (a : A)
  | Err (e : error).
Arguments Ok {A} a.
Arguments Err {A} e.

Definition bind {A B : Type} (m : result A) (f : A -> result B) : result B :=
  match m with
  | Ok a => f a
  | Err e => Err e
  end.

Definition rmap {A B : Type} (f : A -> B) (m : result A) : result B :=
  bind m (fun a => Ok (f a)).

Notation "'let*' x := m 'in' k" := (bind m (fun x => k))
  (at level 10, x name, m at level 100, k at level 200).

(** The callback returns [Some b] to leave the loop ([break]) and [None]
    to go on with the next index. *)
Fixpoint for_first {A B : Type} (body : A -> result (option B)) (l : list A)
  : result (option B) :=
  match l with
  | [] => Ok None
  | x :: l' =>
      let* r := body x in
      match r with
      | Some b => Ok (Some b)
      | None => for_first body l'
      end
  end.

Fixpoint foldlM {A S : Type} (body : S -> A -> result S) (s : S) (l : list A)
  : result S :=
  match l with
  | [] => Ok s
  | x :: l' => let* s' := body s x in foldlM body s' l'
  end.

(** ** JS numbers *)

Inductive number : Type :=
  | Fin (q : Q)
  | Infinity
  | NaN.

Definition Qltb (x y : Q) : bool := negb (Qle_bool y x).

Definition num_lt (a b : number) : bool :=
  match a, b with
  | Fin x, Fin y => Qltb x y
  | Fin _, Infinity => true
  | _, _ => false
  end.

(** [a + b] without rounding.  The source rounds every sum to a double;
    a sum that is a double itself is not changed by that, and such are
    the sums of the multiples of 1/4 that [commonalityDistance] returns.
    The rounded sum is [Double.add] below; what depends on the last bit
    of a sum is stated there, and on distances that are multiples of 1/4
    the refiner and the total cost computed with rounded sums are those
    computed here (lemmas [double_twoOpt_exact] and
    [double_calculateTotalCost_exact]). *)
Definition num_add (a b : number) : number :=
  match a, b with
  | Fin x, Fin y => Fin (x + y)
  | NaN, _ | _, NaN => NaN
  | _, _ => Infinity
  end.

(** ** Data model *)

(** The optional [label] of a person is never read by the module. *)
Record Person : Type := mkPerson {
  name : string;
  themes : list string   (* a [Set<string>] in insertion order *)
}.

Inductive DistanceFunction : Type := commonality | avg_distance.
Inductive OptimizationMode : Type := poor_connections | distance.

Record SeatingResult : Type := mkSeatingResult {
  order : option (list nat);   (* [None] is the [null] of [bestOverallOrder] *)
  score : number;
  people : list Person
}.

Definition CONSTANT_PAIRS_NAMES : list (string * string) :=
  [ ("Majbritt Jensen", "Boris Sidorevitj");
    ("Ragnhild Ås Harbo", "Janne Rygh") ]%string.

(** ** Arrays and maps *)

(** [Array.prototype.indexOf] and [findIndex]: the first position, or -1. *)
Fixpoint findIndex_from {A : Type} (f : A -> bool) (l : list A) (k : nat) : Z :=
  match l with
  | [] => (-1)%Z
  | x :: l' => if f x then Z.of_nat k else findIndex_from f l' (S k)
  end.

Definition findIndex {A : Type} (f : A -> bool) (l : list A) : Z :=
  findIndex_from f l 0.

Definition indexOf (l : list nat) (x : nat) : Z :=
  findIndex (fun y => bool_decide (y = x)) l.

(** [l.splice(start, deleteCount, ...items)] for [start >= 0]. *)
Definition splice {A : Type} (l : list A) (start deleteCount : nat)
    (items : list A) : list A :=
  take start l ++ items ++ drop (start + deleteCount) l.

(** A [Map<number, number>]: the entries in insertion order; [set] on a key
    already present replaces the value where the key stands. *)
Abbreviation JsMap := (list (nat * nat)).

Fixpoint map_get (m : JsMap) (k : nat) : option nat :=
  match m with
  | [] => None
  | (k', v) :: m' => if decide (k' = k) then Some v else map_get m' k
  end.

Fixpoint map_set (m : JsMap) (k v : nat) : JsMap :=
  match m with
  | [] => [(k, v)]
  | (k', v') :: m' =>
      if decide (k' = k) then (k, v) :: m' else (k', v') :: map_set m' k v
  end.

(** ** Distance functions *)

Definition has (s : list string) (x : string) : bool := bool_decide (x ∈ s).

Definition inter_count (a b : list string) : nat :=
  length (filter (fun x => has b x = true) a).

Definition commonalityDistance (a b : list string) : Q :=
  let inter := inter_count a b in
  let commonCount := Nat.min inter 4 in
  (Z.of_nat (4 - commonCount) # 4).

(** Quotient and difference are not rounded here; [Double.avgDistance]
    below has them rounded to doubles. *)
Definition avgDistance (a b : list string) : Q :=
  let inter := inter_count a b in
  let union := length (remove_dups (a ++ b)) in
  if decide (union = 0) then 1
  else (1 - (Z.of_nat inter # Pos.of_nat union))%Q.

Definition getDistanceFunction (type : DistanceFunction)
  : list string -> list string -> Q :=
  match type with
  | commonality => commonalityDistance
  | avg_distance => avgDistance
  end.

(** [personA] and [personB] are array reads: [None] is [undefined].  The
    callback of [some] reads [personB.themes] only when [personA] has a
    theme. *)
Definition themes_of (p : option Person) : result (list string) :=
  match p with
  | Some p => Ok (themes p)
  | None => Err TypeError
  end.

Definition hasCommonThemes (personA personB : option Person) : result bool :=
  let* ta := themes_of personA in
  match ta with
  | [] => Ok false
  | _ => let* tb := themes_of personB in Ok (existsb (has tb) ta)
  end.

(** ** Pair constraint registry *)

Definition name_is (n : string) (p : Person) : bool := bool_decide (name p = n).

Definition findConstantPairs_in (pairs : list (string * string))
    (people : list Person) : JsMap :=
  fold_left (fun pairMap '(name1, name2) =>
      let idx1 := findIndex (name_is name1) people in
      let idx2 := findIndex (name_is name2) people in
      if negb (idx1 =? -1)%Z && negb (idx2 =? -1)%Z then
        map_set (map_set pairMap (Z.to_nat idx1) (Z.to_nat idx2))
                (Z.to_nat idx2) (Z.to_nat idx1)
      else pairMap)
    pairs [].

Definition findConstantPairs (people : list Person) : JsMap :=
  findConstantPairs_in CONSTANT_PAIRS_NAMES people.

(** ** Distance matrix *)

Abbreviation Matrix := (list (list Q)).

Definition person_themes (people : list Person) (i : nat) : list string :=
  from_option themes [] (people !! i).

(** The value the loop body stores at [i][j] and [j][i], for [i < j]. *)
Definition matrix_cell (people : list Person)
    (distanceFunc : list string -> list string -> Q)
    (constantPairs : JsMap) (i j : nat) : Q :=
  if decide (map_get constantPairs i = Some j) then 0
  else distanceFunc (person_themes people i) (person_themes people j).

Definition createDistanceMatrix (people : list Person)
    (distanceFunc : list string -> list string -> Q)
    (constantPairs : JsMap) : Matrix :=
  let n := length people in
  (fun i =>
     (fun j =>
        if i <? j then matrix_cell people distanceFunc constantPairs i j
        else if j <? i then matrix_cell people distanceFunc constantPairs j i
        else 0%Q) <$> seq 0 n) <$> seq 0 n.

(** [distMatrix[r][c]] used as a number. *)
Definition mat_get (distMatrix : Matrix) (r c : nat) : result number :=
  match distMatrix !! r with
  | None => Err TypeError
  | Some row => Ok (from_option Fin NaN (row !! c))
  end.

(** ** Route constructor: nearest neighbour with common themes *)

(** State of a scan: [next] ([None] is -1) and [bestDist]. *)
Abbreviation Scan := (option nat * number)%type.

(** One iteration of the priority 2 loop; [&&] evaluates left to right. *)
Definition scan_common (distMatrix : Matrix) (people : list Person)
    (visited : gset nat) (current : nat) (st : Scan) (j : nat) : result Scan :=
  if bool_decide (j ∈ visited) then Ok st
  else
    let* common := hasCommonThemes (people !! current) (people !! j) in
    if common then
      let* d := mat_get distMatrix current j in
      if num_lt d st.2 then Ok (Some j, d) else Ok st
    else Ok st.

(** One iteration of the priority 3 loop. *)
Definition scan_nearest (distMatrix : Matrix)
    (visited : gset nat) (current : nat) (st : Scan) (j : nat) : result Scan :=
  if bool_decide (j ∈ visited) then Ok st
  else
    let* d := mat_get distMatrix current j in
    if num_lt d st.2 then Ok (Some j, d) else Ok st.

(** The fallback loop: the first index not visited. *)
Definition first_unvisited (visited : gset nat) (n : nat) : option nat :=
  snd <$> list_find (fun j => j ∉ visited) (seq 0 n).

(** Priorities 2 and 3: the [else] branch of the pair test. *)
Definition scan_priorities (distMatrix : Matrix) (people : list Person)
    (n : nat) (visited : gset nat) (current : nat) : result Scan :=
  let* st := foldlM (scan_common distMatrix people visited current)
               (None, Infinity) (seq 0 n) in
  match st.1 with
  | None => foldlM (scan_nearest distMatrix visited current) st (seq 0 n)
  | Some _ => Ok st
  end.

(** The body of the [while] loop up to the [break]: [None] is -1. *)
Definition choose_next (distMatrix : Matrix) (people : list Person)
    (constantPairs : JsMap) (n : nat) (visited : gset nat) (current : nat)
  : result (option nat) :=
  let* st :=
    match map_get constantPairs current with
    | Some pairIdx =>
        if negb (bool_decide (pairIdx ∈ visited)) then Ok (Some pairIdx, Fin 0)
        else scan_priorities distMatrix people n visited current
    | None => scan_priorities distMatrix people n visited current
    end in
  match st.1 with
  | Some next => Ok (Some next)
  | None => Ok (first_unvisited visited n)
  end.

(** [k] is [n - route.length]: the loop test [route.length < n] is [k <> 0],
    and every iteration that does not [break] pushes one index. *)
Fixpoint nn_loop (k : nat) (distMatrix : Matrix) (people : list Person)
    (constantPairs : JsMap) (n : nat) (route : list nat) (visited : gset nat)
    (current : nat) : result (list nat) :=
  match k with
  | 0 => Ok route
  | S k' =>
      let* next := choose_next distMatrix people constantPairs n visited current in
      match next with
      | None => Ok route
      | Some next =>
          nn_loop k' distMatrix people constantPairs n
            (route ++ [next]) ({[next]} ∪ visited) next
      end
  end.

Definition nearestNeighborWithCommonThemes (distMatrix : Matrix)
    (people : list Person) (constantPairs : JsMap) (startIdx : nat)
  : result (list nat) :=
  let n := length distMatrix in
  nn_loop (n - 1) distMatrix people constantPairs n [startIdx] {[startIdx]} startIdx.

(** ** Local search: 2-opt under pair constraints *)

(** The neighbour test written three times in the source. *)
Definition areNeighbors (pos1 pos2 n : Z) : bool :=
  ((Z.abs (pos1 - pos2) =? 1)
   || ((pos1 =? 0) && (pos2 =? n - 1))
   || ((pos2 =? 0) && (pos1 =? n - 1)))%Z.

Definition inSegment (pos i j : Z) : bool := ((i <=? pos) && (pos <=? j))%Z.

(** What one entry of the map says about the move; [true] is [return true]. *)
Definition entry_breaks (route : list nat) (i j : Z) (e : nat * nat) : bool :=
  let pos1 := indexOf route e.1 in
  let pos2 := indexOf route e.2 in
  let n := Z.of_nat (length route) in
  if ((pos1 =? -1) || (pos2 =? -1))%Z then false
  else if areNeighbors pos1 pos2 n then
    let pos1InSegment := inSegment pos1 i j in
    let pos2InSegment := inSegment pos2 i j in
    if negb (eqb pos1InSegment pos2InSegment) then true
    else if pos1InSegment && pos2InSegment then
      let newPos1 := (j - (pos1 - i))%Z in
      let newPos2 := (j - (pos2 - i))%Z in
      negb (areNeighbors newPos1 newPos2 n)
    else false
  else false.

Definition wouldBreakConstantPair (route : list nat) (i j : nat)
    (constantPairs : JsMap) : bool :=
  existsb (entry_breaks route (Z.of_nat i) (Z.of_nat j)) constantPairs.

(** [route.slice(i, j + 1).reverse()] spliced back at [i]; the delete
    count [j - i + 1] is clamped at 0 by [splice]. *)
Definition reverse_segment (route : list nat) (i j : nat) : list nat :=
  let segment := reverse (take (j + 1 - i) (drop i route)) in
  splice route i (j + 1 - i) segment.

(** [route[k]] used as an index of [distMatrix] or [people]. *)
Definition route_at (route : list nat) (k : nat) : result nat :=
  match route !! k with
  | Some x => Ok x
  | None => Err TypeError
  end.

(** [route[i - 1]]: at [i = 0] it is [route[-1]], which is [undefined]. *)
Definition route_before (route : list nat) (i : nat) : result nat :=
  match i with
  | 0 => Err TypeError
  | S k => route_at route k
  end.

(** The body of the inner loop: [Some route'] when the move is made. *)
Definition try_move (distMatrix : Matrix) (people : list Person)
    (constantPairs : JsMap) (route : list nat) (i j : nat)
  : result (option (list nat)) :=
  if wouldBreakConstantPair route i j constantPairs then Ok None
  else
    let* a := route_before route i in
    let* b := route_at route i in
    let* c := route_at route j in
    let* d := route_at route (j + 1) in
    let* ab := mat_get distMatrix a b in
    let* cd := mat_get distMatrix c d in
    let* ac := mat_get distMatrix a c in
    let* bd := mat_get distMatrix b d in
    let before := num_add ab cd in
    let after := num_add ac bd in
    if num_lt after before then
      let* left := hasCommonThemes (people !! a) (people !! c) in
      let* right := hasCommonThemes (people !! b) (people !! d) in
      let isolationPenalty :=
        ((if left then 0 else 1 # 2) + (if right then 0 else 1 # 2))%Q in
      if num_lt (num_add after (Fin isolationPenalty)) before
      then Ok (Some (reverse_segment route i j))
      else Ok None
    else Ok None.

(** One execution of the body of [while (improved)]: the two [for] loops,
    left at the first move made. *)
Definition twoOpt_pass (distMatrix : Matrix) (people : list Person)
    (constantPairs : JsMap) (route : list nat) : result (option (list nat)) :=
  let n := length route in
  for_first (fun i =>
      for_first (try_move distMatrix people constantPairs route i)
        (seq (i + 1) (n - 1 - (i + 1))))
    (seq 1 (n - 2 - 1)).

Fixpoint twoOpt (fuel : nat) (distMatrix : Matrix) (people : list Person)
    (constantPairs : JsMap) (route : list nat) : result (list nat) :=
  match fuel with
  | 0 => Err OutOfFuel
  | S fuel' =>
      let* r := twoOpt_pass distMatrix people constantPairs route in
      match r with
      | None => Ok route
      | Some route' => twoOpt fuel' distMatrix people constantPairs route'
      end
  end.

(** ** Pair enforcement on a flat route *)

Definition enforce_entry (n : Z) (newRoute : list nat) (e : nat * nat) : list nat :=
  let '(idx1, idx2) := e in
  let pos1 := indexOf newRoute idx1 in
  let pos2 := indexOf newRoute idx2 in
  if ((pos1 =? -1) || (pos2 =? -1))%Z then newRoute
  else if areNeighbors pos1 pos2 n then newRoute
  else if (pos1 <? pos2)%Z then
    let r1 := splice newRoute (Z.to_nat pos2) 1 [] in
    let newPos1 := indexOf r1 idx1 in
    splice r1 (Z.to_nat (newPos1 + 1)) 0 [idx2]
  else
    let r1 := splice newRoute (Z.to_nat pos1) 1 [] in
    let newPos2 := indexOf r1 idx2 in
    splice r1 (Z.to_nat (newPos2 + 1)) 0 [idx1].

Definition enforceConstantPairs (route : list nat) (constantPairs : JsMap)
  : list nat :=
  if decide (length constantPairs = 0) then route
  else fold_left (enforce_entry (Z.of_nat (length route))) constantPairs route.

(** ** Scores *)

(** The themes [person] shares with [other]; the callback of [forEach]
    reads [other.themes] only when [person] has a theme. *)
Definition shared_themes (person other : option Person) : result (list string) :=
  let* tp := themes_of person in
  match tp with
  | [] => Ok []
  | _ => let* to := themes_of other in Ok (filter (fun t => has to t = true) tp)
  end.

Definition poor_at (route : list nat) (people : list Person) (i : nat)
  : result bool :=
  let person := route !! i ≫= (people !!.) in
  let* fromPrev := (if 0 <? i
              then shared_themes person (route !! (i - 1) ≫= (people !!.))
              else Ok []) in
  let* fromNext := (if S i <? length route
              then shared_themes person (route !! (i + 1) ≫= (people !!.))
              else Ok []) in
  let totalCommonThemes := remove_dups (fromPrev ++ fromNext) in
  Ok (length totalCommonThemes <=? 2).

Definition countPoorConnections (route : list nat) (people : list Person)
  : result nat :=
  foldlM (fun poorCount i =>
      let* p := poor_at route people i in
      Ok (if p then S poorCount else poorCount))
    0 (seq 0 (length route)).

Definition calculateTotalCost (route : list nat) (distMatrix : Matrix)
  : result number :=
  foldlM (fun cost i =>
      let* a := route_at route i in
      let* b := route_at route (i + 1) in
      let* d := mat_get distMatrix a b in
      Ok (num_add cost d))
    (Fin 0) (seq 0 (length route - 1)).

Definition nat_number (k : nat) : number := Fin (inject_Z (Z.of_nat k)).

Definition route_score (optimizationMode : OptimizationMode)
    (order : list nat) (distMatrix : Matrix) (people : list Person)
  : result number :=
  match optimizationMode with
  | distance => calculateTotalCost order distMatrix
  | poor_connections => rmap nat_number (countPoorConnections order people)
  end.

(** ** Multi-start driver *)

(** [Math.floor(Math.random() * n)] for the value [u] of [Math.random()]. *)
Definition startIdx_of (u : Q) (n : nat) : nat :=
  Z.to_nat (Qfloor (u * inject_Z (Z.of_nat n))).

(** The loop variables, and the calls made to [onProgress]. *)
Record Best : Type := mkBest {
  bestOverallOrder : option (list nat);
  bestOverallScore : number;
  reported : list (nat * number)
}.

(** Constructor, refiner and pair enforcement of one attempt. *)
Definition attempt_order (fuel : nat) (distMatrix : Matrix)
    (people : list Person) (constantPairs : JsMap) (startIdx : nat)
  : result (list nat) :=
  let* order := nearestNeighborWithCommonThemes distMatrix people constantPairs startIdx in
  let* order := twoOpt fuel distMatrix people constantPairs order in
  Ok (enforceConstantPairs order constantPairs).

(** Order and score of one attempt. *)
Definition attempt_result (fuel : nat) (distMatrix : Matrix)
    (people : list Person) (constantPairs : JsMap)
    (optimizationMode : OptimizationMode) (startIdx : nat)
  : result (list nat * number) :=
  let* order := attempt_order fuel distMatrix people constantPairs startIdx in
  let* score := route_score optimizationMode order distMatrix people in
  Ok (order, score).

Definition attempt_body (fuel : nat) (random : nat -> Q) (distMatrix : Matrix)
    (people : list Person) (constantPairs : JsMap)
    (optimizationMode : OptimizationMode) (best : Best) (attempt : nat)
  : result Best :=
  let startIdx := startIdx_of (random attempt) (length people) in
  let* r := attempt_result fuel distMatrix people constantPairs optimizationMode startIdx in
  if num_lt r.2 (bestOverallScore best)
  then Ok (mkBest (Some r.1) r.2 (reported best ++ [(attempt + 1, r.2)]))
  else Ok best.

(** [random k] is the value [Math.random()] returns in attempt [k]; the
    second component lists the arguments of the calls to [onProgress]. *)
Definition optimizeSeating (fuel : nat) (random : nat -> Q)
    (people : list Person) (attempts : nat)
    (distanceFunction : DistanceFunction) (optimizationMode : OptimizationMode)
  : result (SeatingResult * list (nat * number)) :=
  let distFunc := getDistanceFunction distanceFunction in
  let constantPairs := findConstantPairs people in
  let distMatrix := createDistanceMatrix people distFunc constantPairs in
  let* best :=
    foldlM (attempt_body fuel random distMatrix people constantPairs optimizationMode)
      (mkBest None Infinity []) (seq 0 attempts) in
  let final :=
    match bestOverallOrder best with
    | Some o => Some (enforceConstantPairs o constantPairs)
    | None => None
    end in
  Ok (mkSeatingResult final (bestOverallScore best) people, reported best).

(** ** Table assignment *)

(** What a seat holds: a person, [null], or the [undefined] read from
    [people] at an index out of range. *)
Inductive Seat : Type :=
  | Seated (p : Person)
  | Null
  | Undefined.

(** A [Table] is its only field, [seats]. *)
Abbreviation Table := (list Seat).

Record SeatingStatistics : Type := mkStat {
  stat_name : string;
  commonThemes : list string;
  combinedSimilarity : string;
  hasCommon : bool;
  tableNumber : nat;
  position : nat
}.

Record TableAssignment : Type := mkTableAssignment {
  tables : list Table;
  statistics : list SeatingStatistics
}.

Definition seat_of (p : option Person) : Seat :=
  match p with
  | Some p => Seated p
  | None => Undefined
  end.

Definition is_null (s : Seat) : bool :=
  match s with
  | Null => true
  | _ => false
  end.

(** One of the two filling loops: at most [k] iterations, left as soon as
    [personIdx < order.length] fails. *)
Fixpoint fill_side (k : nat) (people : list Person) (order : list nat)
    (personIdx : nat) (side : list Seat) : list Seat * nat :=
  match k with
  | 0 => (side, personIdx)
  | S k' =>
      match order !! personIdx with
      | None => (side, personIdx)
      | Some o =>
          fill_side k' people order (S personIdx) (side ++ [seat_of (people !! o)])
      end
  end.

(** The body of the loop over the tables. *)
Definition fill_table (people : list Person) (order : list nat)
    (personIdx : nat) (seatsPerTable : nat) : Table * nat :=
  let seatsPerSide := Nat.div2 (S seatsPerTable) in   (* Math.ceil(s / 2) *)
  let '(leftSeats, personIdx) := fill_side seatsPerSide people order personIdx [] in
  let '(rightSeats, personIdx) := fill_side seatsPerSide people order personIdx [] in
  (leftSeats ++ reverse rightSeats, personIdx).

Fixpoint fill_tables (people : list Person) (order : list nat)
    (personIdx : nat) (tableSizes : list nat) : list Table :=
  match tableSizes with
  | [] => []
  | seatsPerTable :: rest =>
      let '(table, personIdx) := fill_table people order personIdx seatsPerTable in
      table :: fill_tables people order personIdx rest
  end.

(** [nameToPerson]: the last person of each name. *)
Definition nameToPerson (people : list Person) : gmap string Person :=
  foldl (fun m p => <[name p := p]> m) ∅ people.

Definition seat_named (nm : string) (s : Seat) : bool :=
  match s with
  | Seated p => name_is nm p
  | _ => false
  end.

(** The search loops: every match overwrites the indices, the last stays;
    [None] is the initial -1, -1. *)
Fixpoint locate_in_seats (nm : string) (t : nat) (seats : list Seat) (s : nat)
    (found : option (nat * nat)) : option (nat * nat) :=
  match seats with
  | [] => found
  | x :: seats' =>
      locate_in_seats nm t seats' (S s)
        (if seat_named nm x then Some (t, s) else found)
  end.

Fixpoint locate_from (nm : string) (tables : list Table) (t : nat)
    (found : option (nat * nat)) : option (nat * nat) :=
  match tables with
  | [] => found
  | table :: tables' =>
      locate_from nm tables' (S t) (locate_in_seats nm t table 0 found)
  end.

Definition locate (tables : list Table) (nm : string) : option (nat * nat) :=
  locate_from nm tables 0 None.

(** [table.seats[k] === null]; a read out of range is [undefined]. *)
Definition null_at (table : Table) (k : nat) : bool :=
  match table !! k with
  | Some Null => true
  | _ => false
  end.

(** [None] is -1. *)
Definition findAdjacentSeat (table : Table) (seatIdx : nat) : option nat :=
  let n := length table in
  if decide (n = 0) then None
  else
    let prevIdx := if 0 <? seatIdx then seatIdx - 1 else n - 1 in
    if null_at table prevIdx then Some prevIdx
    else
      let nextIdx := if S seatIdx <? n then seatIdx + 1 else 0 in
      if null_at table nextIdx then Some nextIdx
      else None.

(** [indexOf(null)] followed by [splice(nullIdx, 1)] when it is not -1. *)
Definition remove_first_null (table : Table) : Table :=
  let nullIdx := findIndex is_null table in
  if (nullIdx =? -1)%Z then table else splice table (Z.to_nat nullIdx) 1 [].

Definition table_at (tables : list Table) (t : nat) : Table :=
  default [] (tables !! t).

(** The first [if] of the loop body: the two are on different tables.
    The indices assigned to are indices of seats, found by the search. *)
Definition move_to_table (tables : list Table) (person2 : Person)
    (table1Idx seat1Idx table2Idx seat2Idx : nat) : list Table * nat :=
  let tables := alter (fun table2 => <[seat2Idx := Null]> table2) table2Idx tables in
  match findAdjacentSeat (table_at tables table1Idx) seat1Idx with
  | Some adjacentSeat =>
      (alter (fun table1 => <[adjacentSeat := Seated person2]> table1) table1Idx tables,
       adjacentSeat)
  | None =>
      let insertPos := seat1Idx + 1 in
      let tables :=
        alter (fun table1 => splice table1 insertPos 0 [Seated person2]) table1Idx tables in
      (alter remove_first_null table2Idx tables, insertPos)
  end.

(** The second [if]: same table, not adjacent. *)
Definition move_in_table (table : Table) (person2 : Person)
    (seat1Idx seat2Idx : nat) : Table :=
  let table := <[seat2Idx := Null]> table in
  match findAdjacentSeat table seat1Idx with
  | Some adjacentSeat => <[adjacentSeat := Seated person2]> table
  | None =>
      let insertPos := seat1Idx + 1 in
      remove_first_null (splice table insertPos 0 [Seated person2])
  end.

Definition enforce_pair_on_tables (byName : gmap string Person)
    (tables : list Table) (pair : string * string) : list Table :=
  let '(name1, name2) := pair in
  match byName !! name1, byName !! name2 with
  | Some person1, Some person2 =>
      match locate tables name1, locate tables name2 with
      | Some (table1Idx, seat1Idx), Some (table2Idx, seat2Idx) =>
          let '(tables, seat2Idx) :=
            if decide (table1Idx = table2Idx) then (tables, seat2Idx)
            else move_to_table tables person2 table1Idx seat1Idx table2Idx seat2Idx in
          let table := table_at tables table1Idx in
          let n := length table in
          if areNeighbors (Z.of_nat seat1Idx) (Z.of_nat seat2Idx) (Z.of_nat n)
          then tables
          else alter (fun table => move_in_table table person2 seat1Idx seat2Idx)
                 table1Idx tables
      | _, _ => tables
      end
  | _, _ => tables
  end.

(** The final [while] loop of one table. *)
Fixpoint strip_trailing_nulls (table : Table) : Table :=
  match table with
  | [] => []
  | x :: table' =>
      match strip_trailing_nulls table' with
      | [] => if is_null x then [] else [x]
      | rest => x :: rest
      end
  end.

Definition enforceConstantPairsOnTables (tables : list Table)
    (constantPairs : JsMap) (people : list Person) : list Table :=
  if decide (length constantPairs = 0) then tables
  else
    let tables :=
      fold_left (enforce_pair_on_tables (nameToPerson people))
        CONSTANT_PAIRS_NAMES tables in
    strip_trailing_nulls <$> tables.

(** ** Statistics *)

(** [x.toFixed(2)] for [x >= 0]: the nearest multiple of 1/100, the larger
    one on a tie. *)
Definition toFixed2 (x : Q) : string :=
  let n := Z.to_nat (Qfloor (x * 100 + (1 # 2))) in
  let frac := n `mod` 100 in
  let whole : string := pretty (n `div` 100) in
  let pad : string := if frac <? 10 then "0"%string else ""%string in
  let cents : string := pretty frac in
  whole +:+ "." +:+ pad +:+ cents.

(** [[...new Set(l)]]: the first occurrence of each string, in order. *)
Definition set_elements (l : list string) : list string :=
  reverse (remove_dups (reverse l)).

(** A seat that is truthy holds a person. *)
Definition seat_person (s : option Seat) : option Person :=
  match s with
  | Some (Seated p) => Some p
  | _ => None
  end.

(** The themes shared with a neighbour seat ([previousThemes],
    [nextThemes]) and the distance to it ([previousSimilarity],
    [nextSimilarity]); [([], 0)] are the initial values, kept when there
    is no neighbour. *)
Definition neighbour_stats (person : Person) (neighbour : option Person)
  : list string * Q :=
  match neighbour with
  | Some other =>
      (filter (fun t => has (themes other) t = true) (themes person),
       commonalityDistance (themes person) (themes other))
  | None => ([], 0%Q)
  end.

Definition seat_statistics (tableIdx : nat) (table : Table) (seatIdx : nat)
    (person : Person) : SeatingStatistics :=
  let previous :=
    neighbour_stats person
      (if 0 <? seatIdx then seat_person (table !! (seatIdx - 1)) else None) in
  let next :=
    neighbour_stats person
      (if S seatIdx <? length table then seat_person (table !! (seatIdx + 1)) else None) in
  let common := set_elements (previous.1 ++ next.1) in
  let combined :=
    if decide (seatIdx = 0) then next.2
    else if decide (seatIdx = length table - 1) then previous.2
    else ((previous.2 + next.2) / 2)%Q in
  {| stat_name := name person;
     commonThemes := common;
     combinedSimilarity := toFixed2 combined;
     hasCommon := 0 <? length common;
     tableNumber := tableIdx + 1;
     position := seatIdx + 1 |}.

Definition table_statistics (tableIdx : nat) (table : Table)
  : list SeatingStatistics :=
  omap id
    (imap (fun seatIdx seat =>
             match seat with
             | Seated person => Some (seat_statistics tableIdx table seatIdx person)
             | _ => None
             end) table).

Definition calculateStatistics (tables : list Table) : list SeatingStatistics :=
  concat (imap table_statistics tables).

(** What follows the filling loops; [validateConstantPairs] only writes
    to the console and is left out. *)
Definition finish_assignment (people : list Person) (tables : list Table)
  : TableAssignment :=
  let constantPairs := findConstantPairs people in
  let tables := enforceConstantPairsOnTables tables constantPairs people in
  mkTableAssignment tables (calculateStatistics tables).

(** With a [null] order, [order.length] throws where it is first read: in
    the loop test of the first table whose size is not 0. *)
Definition assignToTables (seatingResult : SeatingResult) (tableSizes : list nat)
  : result TableAssignment :=
  let people := people seatingResult in
  match order seatingResult with
  | Some order => Ok (finish_assignment people (fill_tables people order 0 tableSizes))
  | None =>
      if forallb (Nat.eqb 0) tableSizes
      then Ok (finish_assignment people (fill_tables people [] 0 tableSizes))
      else Err TypeError
  end.

(** * Vocabulary of the properties *)

(** Keys and values of the pair map are indices of participants. *)
Definition map_bounded (m : JsMap) (n : nat) : Prop :=
  Forall (fun e => e.1 < n /\ e.2 < n) m.

(** The entry read by [distMatrix[a][b]] when it is there. *)
Definition entry (distMatrix : Matrix) (a b : nat) : Q :=
  default 0%Q (distMatrix !! a ≫= (.!! b)).

Definition square (distMatrix : Matrix) (n : nat) : Prop :=
  length distMatrix = n /\ Forall (fun row => length row = n) distMatrix.

Definition symmetric (distMatrix : Matrix) : Prop :=
  forall a b, entry distMatrix a b = entry distMatrix b a.

(** What a scan has found so far is an index in range not yet visited. *)
Definition scan_ok (n : nat) (visited : gset nat) (st : Scan) : Prop :=
  match st.1 with
  | Some j => j < n /\ j ∉ visited
  | None => True
  end.

(** The sum [calculateTotalCost] computes, as a rational. *)
Fixpoint path_cost (distMatrix : Matrix) (route : list nat) : Q :=
  match route with
  | [] => 0%Q
  | a :: rest =>
      (from_option (entry distMatrix a) 0 (head rest) + path_cost distMatrix rest)%Q
  end.

(** The distance between two ends that may be missing. *)
Definition link (distMatrix : Matrix) (x y : option nat) : Q :=
  match x, y with
  | Some a, Some b => entry distMatrix a b
  | _, _ => 0%Q
  end.

(** How many routes of [universe] cost less than [route]. *)
Definition rank (distMatrix : Matrix) (universe : list (list nat)) (route : list nat) : nat :=
  length (filter (fun p => Qltb (path_cost distMatrix p) (path_cost distMatrix route) = true)
            universe).

(** The two indices of an entry of the pair map stand in the route, at
    positions the source's neighbour test accepts. *)
Definition adjacent_in (route : list nat) (e : nat * nat) : Prop :=
  indexOf route e.1 <> (-1)%Z /\ indexOf route e.2 <> (-1)%Z
  /\ areNeighbors (indexOf route e.1) (indexOf route e.2)
       (Z.of_nat (length route)) = true.

(** Where the reversal of [i..j] puts what stood at [k]. *)
Definition mirror (i j k : nat) : nat :=
  if bool_decide (i <= k <= j) then i + j - k else k.

(** ** Tables *)

Definition seat_at (tables : list Table) (t s : nat) : option Seat :=
  tables !! t ≫= (.!! s).

(** The seats the participants [os] are given. *)
Definition seats_of (people : list Person) (os : list nat) : list Seat :=
  (fun o => seat_of (people !! o)) <$> os.

(** What a table of declared size [s] takes from the route: both filling
    loops run up to [Math.ceil(s / 2)] times. *)
Definition taken (seatsPerTable : nat) : nat := 2 * Nat.div2 (S seatsPerTable).

Definition no_nulls (tables : list Table) : Prop :=
  Forall (Forall (fun x => is_null x = false)) tables.

(** Every participant sits on exactly one seat, and no seat is empty. *)
Definition all_seated (people : list Person) (tables : list Table) : Prop :=
  no_nulls tables /\ concat tables ≡ₚ Seated <$> people.

(** Two positions of one list that the source's neighbour test accepts. *)
Definition neighbours {A : Type} (l : list A) (a b : A) : Prop :=
  exists s1 s2, l !! s1 = Some a /\ l !! s2 = Some b
    /\ areNeighbors (Z.of_nat s1) (Z.of_nat s2) (Z.of_nat (length l)) = true.

(** Two participants sit at one table, on seats that are neighbours. *)
Definition together (tables : list Table) (p1 p2 : Person) : Prop :=
  exists t table, tables !! t = Some table
    /\ neighbours table (Seated p1) (Seated p2).

(** All names of a list of pairs. *)
Definition pair_names (pairs : list (string * string)) : list string :=
  pairs ≫= (fun pr => [pr.1; pr.2]).

(** Each name of [names] is the name of at most one participant. *)
Definition carried_once (people : list Person) (names : list string) : Prop :=
  Forall (fun nm => length (filter (fun p => name p = nm) people) <= 1) names.

#[global] Instance carried_once_dec (people : list Person) (names : list string) :
  Decision (carried_once people names).
Proof. unfold carried_once. apply _. Defined.

(** A table without an empty seat. *)
Definition null_free (table : Table) : Prop :=
  Forall (fun x => is_null x = false) table.

(** ** Sample inputs *)

Definition sample_people : list Person :=
  [ mkPerson "Ada" ["chess"; "music"];
    mkPerson "Boris Sidorevitj" ["music"];
    mkPerson "Cy" ["chess"; "hiking"];
    mkPerson "Majbritt Jensen" ["hiking"] ]%string.

Definition sample_random (k : nat) : Q := (Z.of_nat (k mod 4) # 4).

Definition pinned_people : list Person :=
  [ mkPerson "Majbritt Jensen" ["film"];
    mkPerson "Dag" ["golf"];
    mkPerson "Boris Sidorevitj" ["film"];
    mkPerson "Eli" ["golf"];
    mkPerson "Finn" [] ]%string.

Definition pinned_matrix : Matrix :=
  createDistanceMatrix pinned_people commonalityDistance (findConstantPairs pinned_people).

Definition sample_result : SeatingResult :=
  mkSeatingResult (Some [1; 0; 2; 3]) (Fin 0) sample_people.

Definition sample_seating : SeatingResult :=
  mkSeatingResult (Some [0; 1; 3; 2]) (Fin (4 # 4)) sample_people.

Definition sample_tables : list Table :=
  [ [ Seated (mkPerson "Ada" ["chess"; "music"]);
      Seated (mkPerson "Cy" ["chess"; "hiking"]);
      Seated (mkPerson "Majbritt Jensen" ["hiking"]);
      Seated (mkPerson "Boris Sidorevitj" ["music"]) ] ]%string.

Definition sample_assignment : TableAssignment :=
  mkTableAssignment sample_tables (calculateStatistics sample_tables).

Definition namesake_people : list Person :=
  [ mkPerson "Majbritt Jensen" ["film"];
    mkPerson "Boris Sidorevitj" ["golf"];
    mkPerson "Ada" ["jazz"];
    mkPerson "Boris Sidorevitj" ["film"] ]%string.

Definition twin_people : list Person :=
  [ mkPerson "Ola" ["golf"];
    mkPerson "Majbritt Jensen" ["film"];
    mkPerson "Ola" ["jazz"];
    mkPerson "Boris Sidorevitj" ["film"] ]%string.

(** ** Vocabulary of the pair registry *)

(** Both directions of each pair, in the order of the list. *)
Definition both_ways {A : Type} (pairs : list (A * A)) : list (A * A) :=
  pairs ≫= (fun pr => [(pr.1, pr.2); (pr.2, pr.1)]).

(** Both names of a pair are names of participants. *)
Definition resolved (people : list Person) (pr : string * string) : Prop :=
  findIndex (name_is pr.1) people <> (-1)%Z
  /\ findIndex (name_is pr.2) people <> (-1)%Z.

#[global] Instance resolved_dec (people : list Person) (pr : string * string) :
  Decision (resolved people pr).
Proof. unfold resolved. apply _. Defined.

(** The entry of the pair map for a pair of names. *)
Definition index_entry (people : list Person) (pr : string * string) : nat * nat :=
  (Z.to_nat (findIndex (name_is pr.1) people),
   Z.to_nat (findIndex (name_is pr.2) people)).

(** A pair map in which no index has two partners, nobody is paired with
    themselves, and the partner of a partner is the index itself. *)
Definition pairing (m : JsMap) : Prop :=
  NoDup m.*1
  /\ forall a b, map_get m a = Some b -> a <> b /\ map_get m b = Some a.

(** ** Vocabulary of routes *)

(** Two indices stand next to each other in a route. *)
Definition consecutive (route : list nat) (a b : nat) : Prop :=
  exists k, (route !! k = Some a /\ route !! S k = Some b)
         \/ (route !! k = Some b /\ route !! S k = Some a).

(** Two positions of a route hold participants who share a theme. *)
Definition shares (people : list Person) (route : list nat) (k l : nat) : bool :=
  match route !! k ≫= (people !!.), route !! l ≫= (people !!.) with
  | Some p, Some q => existsb (has (themes q)) (themes p)
  | _, _ => false
  end.

(** What [twoOpt] adds to the cost of a reversal of [i..j]: one half for
    each of the two new junctions whose participants share no theme. *)
Definition isolation_penalty (people : list Person) (route : list nat) (i j : nat) : Q :=
  ((if shares people route (i - 1) j then 0 else 1 # 2)
   + (if shares people route i (j + 1) then 0 else 1 # 2))%Q.

(** Two pairs of indices are one pair, read the same way or the other way
    round, or have no index in common. *)
Definition compatible (e e' : nat * nat) : Prop :=
  e' = e \/ e' = (e.2, e.1)
  \/ (e'.1 <> e.1 /\ e'.1 <> e.2 /\ e'.2 <> e.1 /\ e'.2 <> e.2).

(** ** Vocabulary of the tables *)

(** The table of declared size [s] that the filling loops build from
    position [p] of the route: at most [Math.ceil(s / 2)] participants in
    route order, then at most as many in reverse order. *)
Definition snake (people : list Person) (order : list nat) (p s : nat) : Table :=
  let c := Nat.div2 (S s) in
  seats_of people (take c (drop p order))
  ++ reverse (seats_of people (take c (drop (p + c) order))).

(** A participant sits on the seat before or after seat [s]. *)
Definition beside (table : Table) (s : nat) (q : Person) : Prop :=
  (0 < s /\ table !! (s - 1) = Some (Seated q)) \/ table !! (s + 1) = Some (Seated q).

(** The name on a seat that holds a participant. *)
Definition seat_name (seat : Seat) : option string :=
  match seat with
  | Seated p => Some (name p)
  | _ => None
  end.

(** ** More sample inputs *)

Definition guests : list Person :=
  (fun nm => mkPerson nm [])
    <$> ["a"; "b"; "c"; "d"; "e"; "f"; "g"; "h"; "i"; "j"]%string.

(** * The CSV reader and the console checks of [src/lib/seating.ts]

    The reader works on the characters of its input: a JS string is
    embedded as the list of the bytes of its UTF-8 encoding.  The reader
    looks for the comma, the quote and the line feed only, which are
    single bytes that occur in no other character, and for white space,
    which [trim] recognises by the encodings of the white space
    characters. *)

(** ** Strings *)

Abbreviation text := (list Ascii.ascii).

(** The character with a code. *)
Definition char (code : nat) : Ascii.ascii := Ascii.ascii_of_nat code.

Definition quote : Ascii.ascii := char 34.
Definition comma : Ascii.ascii := char 44.
Definition line_feed : Ascii.ascii := char 10.

(** The characters [trim] removes: the white space and line terminator
    characters of ECMAScript (U+0009 to U+000D, U+0020, U+00A0, U+1680,
    U+2000 to U+200A, U+2028, U+2029, U+202F, U+205F, U+3000, U+FEFF),
    each by the bytes of its UTF-8 encoding. *)
Definition white_space : list text :=
  (fun codes : list nat => char <$> codes) <$>
  [ [9]; [10]; [11]; [12]; [13]; [32];
    [194; 160];
    [225; 154; 128];
    [226; 128; 128]; [226; 128; 129]; [226; 128; 130]; [226; 128; 131];
    [226; 128; 132]; [226; 128; 133]; [226; 128; 134]; [226; 128; 135];
    [226; 128; 136]; [226; 128; 137]; [226; 128; 138];
    [226; 128; 168]; [226; 128; 169]; [226; 128; 175];
    [226; 129; 159];
    [227; 128; 128];
    [239; 187; 191] ].

(** [Some rest] when [s] is [w] followed by [rest]. *)
Fixpoint strip_prefix (w s : text) : option text :=
  match w, s with
  | [], _ => Some s
  | a :: w', b :: s' => if bool_decide (a = b) then strip_prefix w' s' else None
  | _ :: _, [] => None
  end.

(** What follows the white space character [s] starts with, if any. *)
Definition strip_white (ws : list text) (s : text) : option text :=
  list_find is_Some ((fun w => strip_prefix w s) <$> ws) ≫= snd.

Fixpoint strip_whites (n : nat) (ws : list text) (s : text) : text :=
  match n with
  | 0 => s
  | S n' =>
      match strip_white ws s with
      | Some rest => strip_whites n' ws rest
      | None => s
      end
  end.

Definition trimStart (s : text) : text := strip_whites (length s) white_space s.

Definition trimEnd (s : text) : text :=
  reverse (strip_whites (length s) (reverse <$> white_space) (reverse s)).

(** [s.trim()] *)
Definition trim (s : text) : text := trimEnd (trimStart s).

(** [s.split(sep)] for a separator of one character: at least one piece. *)
Fixpoint split (sep : Ascii.ascii) (s : text) : list text :=
  match s with
  | [] => [[]]
  | c :: s' =>
      if bool_decide (c = sep) then [] :: split sep s'
      else
        match split sep s' with
        | piece :: pieces => (c :: piece) :: pieces
        | [] => [[c]]
        end
  end.

(** [s.replace(/^QUOTE|QUOTE$/g, '')] where QUOTE is the quote character: a
    quote at the start is removed, then a quote at the end of what is
    left. *)
Definition strip_quotes (s : text) : text :=
  let s1 :=
    match s with
    | c :: rest => if bool_decide (c = quote) then rest else s
    | [] => []
    end in
  match reverse s1 with
  | c :: rest => if bool_decide (c = quote) then reverse rest else s1
  | [] => s1
  end.

(** ** One line *)

Record LineState : Type := mkLineState {
  fields : list text;
  current : text;
  inQuotes : bool
}.

(** [fields.push(current.trim().replace(...))] *)
Definition push_field (st : LineState) : list text :=
  fields st ++ [strip_quotes (trim (current st))].

(** The body of the loop over the characters of the line. *)
Definition parse_char (st : LineState) (char : Ascii.ascii) : LineState :=
  if bool_decide (char = quote) then
    mkLineState (fields st) (current st) (negb (inQuotes st))
  else if bool_decide (char = comma) && negb (inQuotes st) then
    mkLineState (push_field st) [] (inQuotes st)
  else
    mkLineState (fields st) (current st ++ [char]) (inQuotes st).

Definition parseCSVLine (line : text) : list text :=
  push_field (fold_left parse_char line (mkLineState [] [] false)).

(** ** The whole text *)

Definition NAME_COL : text := String.list_ascii_of_string "Navn".
Definition ATTENDING_COL : text := String.list_ascii_of_string "Kommer du?".
Definition THEMES_COL : text :=
  String.list_ascii_of_string
    "Hva liker du vanligvis å snakke om med andre mennesker? (Svarene blir kun brukt for dette formålet, og slettet etterpå.)".

(** What [parseCSV] pushes: a [Person] whose name is [fields[nameIdx]],
    which is [undefined] ([None]) on a line with too few fields. *)
Record ParsedPerson : Type := mkParsedPerson {
  parsed_name : option string;
  parsed_themes : list string
}.

(** A call returns, or throws an [Error] with a message. *)
Inductive outcome (A : Type) : Type :=
  | Returns (a : A)
  | Throws (message : text).
Arguments Returns {A} a.
Arguments Throws {A} message.

Definition in_quotes (s : text) : text := [quote] ++ s ++ [quote].

Definition missing_columns (nameCol : text) : text :=
  String.list_ascii_of_string "Mangler påkrevde kolonner. Forventet: "
  ++ in_quotes nameCol ++ String.list_ascii_of_string ", "
  ++ in_quotes ATTENDING_COL ++ String.list_ascii_of_string ", "
  ++ in_quotes THEMES_COL.

(** [new Set(themesText.split(',').map(t => t.trim()).filter(t => t))] *)
Definition parse_themes (themesText : text) : list string :=
  set_elements
    (String.string_of_list_ascii
       <$> filter (fun t => t <> []) (trim <$> split comma themesText)).

(** The body of the loop over the lines after the first: [None] when the
    line adds nobody. *)
Definition parse_row (nameIdx attendingIdx themesIdx : nat) (line : text)
  : option ParsedPerson :=
  if bool_decide (trim line = []) then None
  else
    let fields := parseCSVLine line in
    if bool_decide (fields !! attendingIdx = Some (String.list_ascii_of_string "Ja")) then
      let themesText := default [] (fields !! themesIdx) in
      Some (mkParsedPerson (String.string_of_list_ascii <$> fields !! nameIdx)
              (parse_themes themesText))
    else None.

(** [parseCSV] for the name of the name column, which differs between
    the two versions of the module. *)
Definition parseCSV_for (nameCol : text) (csvText : text)
  : outcome (list ParsedPerson) :=
  let lines := split line_feed (trim csvText) in
  if length lines <? 2 then Returns []
  else
    let headers := parseCSVLine (default [] (head lines)) in
    let nameIdx := findIndex (fun h => bool_decide (h = nameCol)) headers in
    let attendingIdx := findIndex (fun h => bool_decide (h = ATTENDING_COL)) headers in
    let themesIdx := findIndex (fun h => bool_decide (h = THEMES_COL)) headers in
    if ((nameIdx =? -1) || (attendingIdx =? -1) || (themesIdx =? -1))%Z
    then Throws (missing_columns nameCol)
    else
      Returns
        (omap (parse_row (Z.to_nat nameIdx) (Z.to_nat attendingIdx) (Z.to_nat themesIdx))
           (tail lines)).

Definition parseCSV (csvText : text) : outcome (list ParsedPerson) :=
  parseCSV_for NAME_COL csvText.

(** A parsed participant with a name is a [Person]. *)
Definition to_person (r : ParsedPerson) : option Person :=
  (fun nm => mkPerson nm (parsed_themes r)) <$> parsed_name r.

(** ** The console check of the tables *)

(** The calls [validateConstantPairs] makes to the console, with the
    values its messages print: names, and numbers of tables and seats
    counted from 1. *)
Inductive ConsoleCall : Type :=
  | warn_not_found (name1 name2 : string)
  | error_different_tables (name1 : string) (table1 : nat) (name2 : string) (table2 : nat)
  | error_not_adjacent (name1 : string) (seat1 : nat) (name2 : string) (seat2 : nat)
      (table : nat)
  | log_together (name1 name2 : string) (table : nat).

(** The body of the loop over the registry. *)
Definition validate_pair (tables : list Table) (pair : string * string) : ConsoleCall :=
  let '(name1, name2) := pair in
  match locate tables name1, locate tables name2 with
  | Some (table1Idx, seat1Idx), Some (table2Idx, seat2Idx) =>
      if negb (bool_decide (table1Idx = table2Idx)) then
        error_different_tables name1 (table1Idx + 1) name2 (table2Idx + 1)
      else
        let table := table_at tables table1Idx in
        let n := length table in
        if areNeighbors (Z.of_nat seat1Idx) (Z.of_nat seat2Idx) (Z.of_nat n)
        then log_together name1 name2 (table1Idx + 1)
        else error_not_adjacent name1 (seat1Idx + 1) name2 (seat2Idx + 1) (table1Idx + 1)
  | _, _ => warn_not_found name1 name2
  end.

Definition validateConstantPairs (tables : list Table) : list ConsoleCall :=
  validate_pair tables <$> CONSTANT_PAIRS_NAMES.

(** ** Vocabulary of the CSV reader *)

(** The pieces with the separator between them: what [split] undoes. *)
Fixpoint join (sep : Ascii.ascii) (pieces : list text) : text :=
  match pieces with
  | [] => []
  | piece :: rest =>
      match rest with
      | [] => piece
      | _ => piece ++ sep :: join sep rest
      end
  end.

(** A line of a CSV file: every field between quotes. *)
Definition csv_line (fields : list text) : text := join comma (in_quotes <$> fields).

(** A field that the reader returns as it is written: without a quote,
    and without white space at its ends. *)
Definition plain (f : text) : Prop := (quote ∉ f) /\ trim f = f.

(** A theme that the reader returns as it is written. *)
Definition plain_theme (t : text) : Prop :=
  plain t /\ t <> [] /\ (comma ∉ t) /\ (line_feed ∉ t).

(** An answer of the form: a participant and what they answered to the
    question whether they come. *)
Definition answer_line (row : Person * text) : text :=
  csv_line [ String.list_ascii_of_string (name row.1); row.2;
             join comma (String.list_ascii_of_string <$> themes row.1) ].

(** The first line, for a name of the name column. *)
Definition header_line (nameCol : text) : text :=
  csv_line [nameCol; ATTENDING_COL; THEMES_COL].

(** The text of a CSV file with these answers. *)
Definition csv_of (nameCol : text) (rows : list (Person * text)) : text :=
  join line_feed (header_line nameCol :: (answer_line <$> rows)).

(** An answer the reader returns as it is written. *)
Definition plain_row (row : Person * text) : Prop :=
  plain (String.list_ascii_of_string (name row.1))
  /\ (line_feed ∉ String.list_ascii_of_string (name row.1))
  /\ plain row.2 /\ (line_feed ∉ row.2)
  /\ NoDup (themes row.1)
  /\ Forall (fun t => plain_theme (String.list_ascii_of_string t)) (themes row.1).

Definition coming (row : Person * text) : Prop :=
  row.2 = String.list_ascii_of_string "Ja".

#[global] Instance coming_dec (row : Person * text) : Decision (coming row).
Proof. unfold coming. apply _. Defined.

(** What [parseCSV] returns for a participant. *)
Definition parsed (p : Person) : ParsedPerson :=
  mkParsedPerson (Some (name p)) (themes p).

#[global] Instance plain_dec (f : text) : Decision (plain f).
Proof. unfold plain. apply _. Defined.

#[global] Instance plain_theme_dec (t : text) : Decision (plain_theme t).
Proof. unfold plain_theme. apply _. Defined.

#[global] Instance plain_row_dec (row : Person * text) : Decision (plain_row row).
Proof. unfold plain_row. apply _. Defined.

(** ** Sample answers *)

Definition sample_rows : list (Person * text) :=
  [ (mkPerson "Ada" ["chess"; "old music"], String.list_ascii_of_string "Ja");
    (mkPerson "Bo" ["golf"], String.list_ascii_of_string "Nei");
    (mkPerson "Cy, jr." [], String.list_ascii_of_string "Ja") ]%string.

(** * The module before the pair registry

    [src/lib/seating.ts] without the registry of pairs: the functions
    whose text differs from the later version are embedded again, from
    their own text; [commonalityDistance], [avgDistance],
    [getDistanceFunction], [hasCommonThemes], [parseCSVLine] and
    [calculateStatistics] are the same text in both versions and are
    shared.

    The route constructor of this version pushes [next] also when it is
    still -1, so the indices of a route are integers here: reading an
    array at -1 yields [undefined]. *)

Module Legacy.

(** [l[z]] for an integer [z]. *)
Definition at_index {A : Type} (l : list A) (z : Z) : option A :=
  if (z <? 0)%Z then None else l !! Z.to_nat z.

Definition NAME_COL : text := String.list_ascii_of_string "E-postadresse".

Definition parseCSV (csvText : text) : outcome (list ParsedPerson) :=
  parseCSV_for NAME_COL csvText.

(** ** Distance matrix *)

Definition createDistanceMatrix (people : list Person)
    (distanceFunc : list string -> list string -> Q) : Matrix :=
  let n := length people in
  (fun i =>
     (fun j =>
        if i <? j then distanceFunc (person_themes people i) (person_themes people j)
        else if j <? i then distanceFunc (person_themes people j) (person_themes people i)
        else 0%Q) <$> seq 0 n) <$> seq 0 n.

(** [distMatrix[r][c]] used as a number. *)
Definition mat_get (distMatrix : Matrix) (r c : Z) : result number :=
  match at_index distMatrix r with
  | None => Err TypeError
  | Some row => Ok (from_option Fin NaN (at_index row c))
  end.

(** ** Route constructor *)

(** State of a scan: [next] and [bestDist]. *)
Abbreviation Scan := (Z * number)%type.

(** One iteration of the first loop; [&&] evaluates left to right. *)
Definition scan_common (distMatrix : Matrix) (people : list Person)
    (visited : gset Z) (current : Z) (st : Scan) (j : nat) : result Scan :=
  if bool_decide (Z.of_nat j ∈ visited) then Ok st
  else
    let* common := hasCommonThemes (at_index people current) (people !! j) in
    if common then
      let* d := mat_get distMatrix current (Z.of_nat j) in
      if num_lt d st.2 then Ok (Z.of_nat j, d) else Ok st
    else Ok st.

(** One iteration of the second loop. *)
Definition scan_nearest (distMatrix : Matrix)
    (visited : gset Z) (current : Z) (st : Scan) (j : nat) : result Scan :=
  if bool_decide (Z.of_nat j ∈ visited) then Ok st
  else
    let* d := mat_get distMatrix current (Z.of_nat j) in
    if num_lt d st.2 then Ok (Z.of_nat j, d) else Ok st.

(** The body of the [while] loop up to the push: the value of [next]. *)
Definition choose_next (distMatrix : Matrix) (people : list Person)
    (n : nat) (visited : gset Z) (current : Z) : result Z :=
  let* st := foldlM (scan_common distMatrix people visited current)
               ((-1)%Z, Infinity) (seq 0 n) in
  let* st := (if (st.1 =? -1)%Z
              then foldlM (scan_nearest distMatrix visited current) st (seq 0 n)
              else Ok st) in
  Ok st.1.

(** [k] is [n - route.length]: every iteration pushes one index. *)
Fixpoint nn_loop (k : nat) (distMatrix : Matrix) (people : list Person)
    (n : nat) (route : list Z) (visited : gset Z) (current : Z)
  : result (list Z) :=
  match k with
  | 0 => Ok route
  | S k' =>
      let* next := choose_next distMatrix people n visited current in
      nn_loop k' distMatrix people n (route ++ [next]) ({[next]} ∪ visited) next
  end.

Definition nearestNeighborWithCommonThemes (distMatrix : Matrix)
    (people : list Person) (startIdx : nat) : result (list Z) :=
  let n := length distMatrix in
  nn_loop (n - 1) distMatrix people n
    [Z.of_nat startIdx] {[Z.of_nat startIdx]} (Z.of_nat startIdx).

(** ** Local search: 2-opt *)

Definition reverse_segment (route : list Z) (i j : nat) : list Z :=
  let segment := reverse (take (j + 1 - i) (drop i route)) in
  splice route i (j + 1 - i) segment.

(** [route[k]] used as an index of [distMatrix] or [people]. *)
Definition route_at (route : list Z) (k : nat) : result Z :=
  match route !! k with
  | Some x => Ok x
  | None => Err TypeError
  end.

(** [route[i - 1]]: at [i = 0] it is [route[-1]], which is [undefined]. *)
Definition route_before (route : list Z) (i : nat) : result Z :=
  match i with
  | 0 => Err TypeError
  | S k => route_at route k
  end.

(** The body of the inner loop: [Some route'] when the move is made. *)
Definition try_move (distMatrix : Matrix) (people : list Person)
    (route : list Z) (i j : nat) : result (option (list Z)) :=
  let* a := route_before route i in
  let* b := route_at route i in
  let* c := route_at route j in
  let* d := route_at route (j + 1) in
  let* ab := mat_get distMatrix a b in
  let* cd := mat_get distMatrix c d in
  let* ac := mat_get distMatrix a c in
  let* bd := mat_get distMatrix b d in
  let before := num_add ab cd in
  let after := num_add ac bd in
  if num_lt after before then
    let* left := hasCommonThemes (at_index people a) (at_index people c) in
    let* right := hasCommonThemes (at_index people b) (at_index people d) in
    let isolationPenalty :=
      ((if left then 0 else 1 # 2) + (if right then 0 else 1 # 2))%Q in
    if num_lt (num_add after (Fin isolationPenalty)) before
    then Ok (Some (reverse_segment route i j))
    else Ok None
  else Ok None.

Definition twoOpt_pass (distMatrix : Matrix) (people : list Person)
    (route : list Z) : result (option (list Z)) :=
  let n := length route in
  for_first (fun i =>
      for_first (try_move distMatrix people route i)
        (seq (i + 1) (n - 1 - (i + 1))))
    (seq 1 (n - 2 - 1)).

Fixpoint twoOpt (fuel : nat) (distMatrix : Matrix) (people : list Person)
    (route : list Z) : result (list Z) :=
  match fuel with
  | 0 => Err OutOfFuel
  | S fuel' =>
      let* r := twoOpt_pass distMatrix people route in
      match r with
      | None => Ok route
      | Some route' => twoOpt fuel' distMatrix people route'
      end
  end.

(** ** Scores *)

Definition poor_at (route : list Z) (people : list Person) (i : nat)
  : result bool :=
  let person := route !! i ≫= at_index people in
  let* fromPrev := (if 0 <? i
              then shared_themes person (route !! (i - 1) ≫= at_index people)
              else Ok []) in
  let* fromNext := (if S i <? length route
              then shared_themes person (route !! (i + 1) ≫= at_index people)
              else Ok []) in
  let totalCommonThemes := remove_dups (fromPrev ++ fromNext) in
  Ok (length totalCommonThemes <=? 2).

Definition countPoorConnections (route : list Z) (people : list Person)
  : result nat :=
  foldlM (fun poorCount i =>
      let* p := poor_at route people i in
      Ok (if p then S poorCount else poorCount))
    0 (seq 0 (length route)).

Definition calculateTotalCost (route : list Z) (distMatrix : Matrix)
  : result number :=
  foldlM (fun cost i =>
      let* a := route_at route i in
      let* b := route_at route (i + 1) in
      let* d := mat_get distMatrix a b in
      Ok (num_add cost d))
    (Fin 0) (seq 0 (length route - 1)).

Definition route_score (optimizationMode : OptimizationMode)
    (order : list Z) (distMatrix : Matrix) (people : list Person)
  : result number :=
  match optimizationMode with
  | distance => calculateTotalCost order distMatrix
  | poor_connections => rmap nat_number (countPoorConnections order people)
  end.

(** ** Multi-start driver *)

Record SeatingResult : Type := mkSeatingResult {
  order : option (list Z);   (* [None] is the [null] of [bestOverallOrder] *)
  score : number;
  people : list Person
}.

Record Best : Type := mkBest {
  bestOverallOrder : option (list Z);
  bestOverallScore : number;
  reported : list (nat * number)
}.

(** Order and score of one attempt. *)
Definition attempt_result (fuel : nat) (distMatrix : Matrix)
    (people : list Person) (optimizationMode : OptimizationMode) (startIdx : nat)
  : result (list Z * number) :=
  let* order := nearestNeighborWithCommonThemes distMatrix people startIdx in
  let* order := twoOpt fuel distMatrix people order in
  let* score := route_score optimizationMode order distMatrix people in
  Ok (order, score).

Definition attempt_body (fuel : nat) (random : nat -> Q) (distMatrix : Matrix)
    (people : list Person) (optimizationMode : OptimizationMode)
    (best : Best) (attempt : nat) : result Best :=
  let startIdx := startIdx_of (random attempt) (length people) in
  let* r := attempt_result fuel distMatrix people optimizationMode startIdx in
  if num_lt r.2 (bestOverallScore best)
  then Ok (mkBest (Some r.1) r.2 (reported best ++ [(attempt + 1, r.2)]))
  else Ok best.

Definition optimizeSeating (fuel : nat) (random : nat -> Q)
    (people : list Person) (attempts : nat)
    (distanceFunction : DistanceFunction) (optimizationMode : OptimizationMode)
  : result (SeatingResult * list (nat * number)) :=
  let distFunc := getDistanceFunction distanceFunction in
  let distMatrix := createDistanceMatrix people distFunc in
  let* best :=
    foldlM (attempt_body fuel random distMatrix people optimizationMode)
      (mkBest None Infinity []) (seq 0 attempts) in
  Ok (mkSeatingResult (bestOverallOrder best) (bestOverallScore best) people,
      reported best).

(** ** Table assignment *)

Fixpoint fill_side (k : nat) (people : list Person) (order : list Z)
    (personIdx : nat) (side : list Seat) : list Seat * nat :=
  match k with
  | 0 => (side, personIdx)
  | S k' =>
      match order !! personIdx with
      | None => (side, personIdx)
      | Some o =>
          fill_side k' people order (S personIdx) (side ++ [seat_of (at_index people o)])
      end
  end.

Definition fill_table (people : list Person) (order : list Z)
    (personIdx : nat) (seatsPerTable : nat) : Table * nat :=
  let seatsPerSide := Nat.div2 (S seatsPerTable) in   (* Math.ceil(s / 2) *)
  let '(leftSeats, personIdx) := fill_side seatsPerSide people order personIdx [] in
  let '(rightSeats, personIdx) := fill_side seatsPerSide people order personIdx [] in
  (leftSeats ++ reverse rightSeats, personIdx).

Fixpoint fill_tables (people : list Person) (order : list Z)
    (personIdx : nat) (tableSizes : list nat) : list Table :=
  match tableSizes with
  | [] => []
  | seatsPerTable :: rest =>
      let '(table, personIdx) := fill_table people order personIdx seatsPerTable in
      table :: fill_tables people order personIdx rest
  end.

Definition finish_assignment (tables : list Table) : TableAssignment :=
  mkTableAssignment tables (calculateStatistics tables).

(** With a [null] order, [order.length] throws where it is first read: in
    the loop test of the first table whose size is not 0. *)
Definition assignToTables (seatingResult : SeatingResult) (tableSizes : list nat)
  : result TableAssignment :=
  let people := people seatingResult in
  match order seatingResult with
  | Some order => Ok (finish_assignment (fill_tables people order 0 tableSizes))
  | None =>
      if forallb (Nat.eqb 0) tableSizes
      then Ok (finish_assignment (fill_tables people [] 0 tableSizes))
      else Err TypeError
  end.

End Legacy.

(** ** Vocabulary of the comparison of the two versions *)

(** A route of the later version, as the earlier version holds it. *)
Definition as_integers (route : list nat) : list Z := Z.of_nat <$> route.

(** A result of the later version, as the earlier version returns it. *)
Definition as_legacy (sr : SeatingResult) : Legacy.SeatingResult :=
  Legacy.mkSeatingResult (as_integers <$> order sr) (score sr) (people sr).

(** No pair of the registry has both its names among the participants. *)
Definition no_pair (people : list Person) : Prop :=
  Forall (fun pr : string * string =>
            ~ (pr.1 ∈ name <$> people /\ pr.2 ∈ name <$> people))
    CONSTANT_PAIRS_NAMES.

#[global] Instance no_pair_dec (people : list Person) : Decision (no_pair people).
Proof. unfold no_pair. apply _. Defined.

(** Every row of the matrix has an entry for every row. *)
Definition full_rows (distMatrix : Matrix) : Prop :=
  Forall (fun row => length distMatrix <= length row) distMatrix.

#[global] Instance full_rows_dec (distMatrix : Matrix) : Decision (full_rows distMatrix).
Proof. unfold full_rows. apply _. Defined.

(** The state of a scan of the later version, as the earlier one holds it. *)
Definition as_state (st : Scan) : Legacy.Scan :=
  (from_option Z.of_nat (-1)%Z st.1, st.2).

(** What a scan has found is an index not yet visited; as long as it has
    found none, the best distance is the initial one. *)
Definition scan_sound (visited : gset nat) (st : Scan) : Prop :=
  match st.1 with
  | Some j => j ∉ visited
  | None => st.2 = Infinity
  end.

(** The loop variables of the later version, as the earlier one holds them. *)
Definition as_best (best : Best) : Legacy.Best :=
  Legacy.mkBest (as_integers <$> bestOverallOrder best) (bestOverallScore best)
    (reported best).

(** * The components that show the tables

    The scripts of [App.svelte], [SeatCards.svelte] and
    [lib/TableVisual.svelte], as far as they compute with tables. *)

(** ** [App.svelte]: the sizes of the tables *)

Module App.

(** [tableSizes.reduce((sum, size) => sum + size, 0)] *)
Definition totalSeats (tableSizes : list nat) : nat :=
  foldl (fun sum size => sum + size) 0 tableSizes.

(** The difference [numberOfPeople - totalSeats] is an integer. *)
Definition addTable (numberOfPeople : nat) (tableSizes : list nat) : list nat :=
  let unAssignedSeats := (Z.of_nat numberOfPeople - Z.of_nat (totalSeats tableSizes))%Z in
  tableSizes ++ [if (0 <? unAssignedSeats)%Z then Z.to_nat unAssignedSeats else 0].

(** [tableSizes.filter((_, i) => i !== index)] *)
Definition removeTable (index : nat) (tableSizes : list nat) : list nat :=
  omap id (imap (fun i size => if bool_decide (i <> index) then Some size else None)
             tableSizes).

End App.

(** ** [SeatCards.svelte]: the place cards *)

Module SeatCards.

Definition cardsPerRow : nat := 3.
Definition cardsPerColumn : nat := 2.
Definition cardsPerPage : nat := cardsPerRow * cardsPerColumn.

(** The person of a card is what the seat holds: [None] is the
    [undefined] of a seat read out of range. *)
Record PlaceCard : Type := mkPlaceCard {
  person : option Person;
  tableNumber : nat;
  position : nat
}.

(** The cards pushed by the two nested [forEach]: one for every seat
    that is not [null]. *)
Definition table_cards (tableIdx : nat) (table : Table) : list PlaceCard :=
  omap id
    (imap (fun seatIdx seat =>
             match seat with
             | Seated p => Some (mkPlaceCard (Some p) (tableIdx + 1) (seatIdx + 1))
             | Undefined => Some (mkPlaceCard None (tableIdx + 1) (seatIdx + 1))
             | Null => None
             end) table).

Definition collect_cards (tables : list Table) : list PlaceCard :=
  concat (imap table_cards tables).

(** The comparator of the sort. *)
Definition compare_cards (a b : PlaceCard) : Z :=
  if bool_decide (tableNumber a <> tableNumber b)
  then (Z.of_nat (tableNumber a) - Z.of_nat (tableNumber b))%Z
  else (Z.of_nat (position a) - Z.of_nat (position b))%Z.

(** [Array.prototype.sort] is stable: with a comparator that orders the
    elements consistently it returns the one ordered permutation that
    keeps elements that compare equal in their order.  Insertion from
    the right computes it. *)
Fixpoint insert_card (compareFn : PlaceCard -> PlaceCard -> Z) (a : PlaceCard)
    (sorted : list PlaceCard) : list PlaceCard :=
  match sorted with
  | [] => [a]
  | b :: rest =>
      if (compareFn a b <=? 0)%Z then a :: sorted
      else b :: insert_card compareFn a rest
  end.

Definition sort (compareFn : PlaceCard -> PlaceCard -> Z) (cards : list PlaceCard)
  : list PlaceCard :=
  foldr (insert_card compareFn) [] cards.

Definition allCards (tables : list Table) : list PlaceCard :=
  sort compare_cards (collect_cards tables).

(** [l.slice(i, j)] for [0 <= i <= j]. *)
Definition slice {A : Type} (l : list A) (i j : nat) : list A :=
  take (j - i) (drop i l).

(** The loop that fills [pages]; it runs at most once for every card. *)
Fixpoint pages_loop (fuel : nat) (allCards : list PlaceCard) (i : nat)
    (pages : list (list PlaceCard)) : list (list PlaceCard) :=
  match fuel with
  | 0 => pages
  | S fuel' =>
      if i <? length allCards
      then pages_loop fuel' allCards (i + cardsPerPage)
             (pages ++ [slice allCards i (i + cardsPerPage)])
      else pages
  end.

Definition pages (tables : list Table) : list (list PlaceCard) :=
  let allCards := allCards tables in
  pages_loop (length allCards) allCards 0 [].

End SeatCards.

(** ** [lib/TableVisual.svelte]: the drawing of a table *)

Module TableVisual.

Definition seatSize : Q := 23.
Definition seatGap : Q := 4.
Definition padding : Q := 5.
Definition tableHeight : Q := 20.

(** [Math.ceil(table.seats.length / 2)] *)
Definition seatsPerSide (table : Table) : nat := Nat.div2 (S (length table)).

Definition tableWidth (table : Table) : Q :=
  inject_Z (Z.of_nat (seatsPerSide table)) * (seatSize + seatGap) - seatGap.

Definition width (table : Table) : Q := tableWidth table + padding * 2.

Definition height : Q := tableHeight + seatSize * 2 + padding * 2.

(** [statsMap]: of the statistics of the table with this number (the
    prop [tableNumber]), the last of each name. *)
Definition statsMap (number : nat) (statistics : list SeatingStatistics)
  : gmap string SeatingStatistics :=
  foldl (fun m s => <[stat_name s := s]> m) ∅
    (filter (fun s => tableNumber s = number) statistics).

Definition getSeatColor (commonThemesCount : nat) : string :=
  if 2 <? commonThemesCount then "#4CAF50"
  else if commonThemesCount =? 2 then "#d3bb06"
  else if commonThemesCount =? 1 then "#FF9800"
  else "#f44336".

(** The data of a seat without its [initials], which are not used here. *)
Record SeatData : Type := mkSeatData {
  x : Q;
  y : Q;
  person : Person;
  color : string;
  commonThemesCount : nat;
  position : nat
}.

(** The variables of the loop over the seats. *)
Record Drawing : Type := mkDrawing {
  seatData : list SeatData;
  xPos : nat;
  onTop : bool
}.

(** The callback of [forEach]: a seat that holds nobody is skipped. *)
Definition draw_seat (stats : gmap string SeatingStatistics) (d : Drawing)
    (i : nat) (seat : Seat) : Drawing :=
  match seat with
  | Seated person =>
      let commonThemesCount :=
        from_option (fun stat => length (commonThemes stat)) 0 (stats !! name person) in
      let x := (padding + inject_Z (Z.of_nat (xPos d)) * (seatSize + seatGap)
                + seatSize / 2)%Q in
      let y := if onTop d then padding else (padding + tableHeight + seatSize)%Q in
      let seatData :=
        seatData d ++ [mkSeatData x y person (getSeatColor commonThemesCount)
                         commonThemesCount i] in
      if i =? 0 then mkDrawing seatData (xPos d) false
      else if negb (onTop d) then mkDrawing seatData (xPos d + 1) true
      else mkDrawing seatData (xPos d) false
  | _ => d
  end.

Fixpoint draw_seats (stats : gmap string SeatingStatistics) (d : Drawing)
    (i : nat) (seats : list Seat) : Drawing :=
  match seats with
  | [] => d
  | seat :: rest => draw_seats stats (draw_seat stats d i seat) (S i) rest
  end.

Definition draw (table : Table) (tableNumber : nat)
    (statistics : list SeatingStatistics) : list SeatData :=
  seatData (draw_seats (statsMap tableNumber statistics) (mkDrawing [] 0 true) 0 table).

End TableVisual.

(** ** Vocabulary of the components *)

(** What a seat that is not empty puts on its card. *)
Definition card_person (seat : Seat) : option Person :=
  match seat with
  | Seated p => Some p
  | _ => None
  end.

(** The card of an earlier seat: an earlier table, or the same table and
    an earlier position. *)
Definition card_before (a b : SeatCards.PlaceCard) : Prop :=
  SeatCards.tableNumber a < SeatCards.tableNumber b
  \/ (SeatCards.tableNumber a = SeatCards.tableNumber b
      /\ SeatCards.position a < SeatCards.position b).

(** Cards in the order of their seats. *)
Fixpoint cards_ordered (cards : list SeatCards.PlaceCard) : Prop :=
  match cards with
  | [] => True
  | a :: rest => Forall (card_before a) rest /\ cards_ordered rest
  end.

(** The participants of a table with the indices of their seats. *)
Definition seated (table : Table) : list (Person * nat) :=
  omap id (imap (fun i seat =>
                   match seat with
                   | Seated p => Some (p, i)
                   | _ => None
                   end) table).

(** A sample table with an empty seat. *)
Definition sample_table : Table :=
  [ Seated (mkPerson "Ada" ["chess"]); Null; Seated (mkPerson "Bo" []);
    Seated (mkPerson "Cy" ["chess"]); Seated (mkPerson "Di" []) ]%string.

(** Where the drawing puts the seat drawn as number [k], counted from 0:
    in column [k / 2], above the table when [k] is even, below it
    otherwise. *)
Definition place_x (k : nat) : Q :=
  (TableVisual.padding
   + inject_Z (Z.of_nat (k / 2)) * (TableVisual.seatSize + TableVisual.seatGap)
   + TableVisual.seatSize / 2)%Q.

Definition place_y (k : nat) : Q :=
  if Nat.even k then TableVisual.padding
  else (TableVisual.padding + TableVisual.tableHeight + TableVisual.seatSize)%Q.

From Stdlib Require Floats.

(** * Double precision *)

(** The numbers of the source are IEEE 754 doubles: every sum, difference
    and quotient is rounded to the nearest double, to the one with an
    even last bit when two are as near.  [num_add] above is the sum
    without rounding, which is the sum of the source whenever that sum
    is a double, as are the sums of the multiples of 1/4 that
    [commonalityDistance] returns.  The distances of [avgDistance] are
    not of that kind; this module has the rounded operations and, with
    them, the functions of the source whose result depends on the last
    bit of a sum.  A double is the rational it stands for (the two zeros
    are one number), an infinity, or NaN. *)
Module Double.

Inductive number : Type :=
  | finite (q : Q)
  | plus_infinity
  | minus_infinity
  | not_a_number.

(** [2^e] *)
Definition pow2 (e : Z) : Q := (2 ^ e)%Q.

(** [floor (log2 |x|)] for [x <> 0].  With [k] the difference of the
    positions of the leading bits of numerator and denominator, [|x|]
    lies between [2^(k-1)] and [2^(k+1)]: the result is [k] or [k - 1]. *)
Definition ilog2 (x : Q) : Z :=
  let k := (Z.log2 (Z.abs (Qnum x)) - Z.log2 (Zpos (Qden x)))%Z in
  if Qle_bool (pow2 k) (Qabs x) then k else (k - 1)%Z.

(** The exponent of the last of the 53 bits of the double nearest to
    [x]; the subnormal doubles end at the bit of exponent -1074. *)
Definition last_bit (x : Q) : Z := Z.max (ilog2 x - 52) (-1074).

(** The nearest integer; of two that are as near, the even one. *)
Definition nearest_even (x : Q) : Z :=
  let f := Qfloor x in
  match (x - inject_Z f ?= 1 # 2)%Q with
  | Lt => f
  | Gt => (f + 1)%Z
  | Eq => if Z.even f then f else (f + 1)%Z
  end.

(** Rounding to 53 bits, with no bound on how large the result is. *)
Definition nearest (x : Q) : Q :=
  if Qeq_bool x 0 then 0%Q
  else
    let e := last_bit x in
    (inject_Z (nearest_even (x / pow2 e)) * pow2 e)%Q.

(** The double for the rational result [x] of an operation: what
    rounds to [2^1024] or beyond is an infinity. *)
Definition round (x : Q) : number :=
  let y := nearest x in
  if Qle_bool (pow2 1024) y then plus_infinity
  else if Qle_bool y (- pow2 1024) then minus_infinity
  else finite y.

(** [a < b] *)
Definition lt (a b : number) : bool :=
  match a, b with
  | finite x, finite y => Qltb x y
  | finite _, plus_infinity => true
  | minus_infinity, finite _ => true
  | minus_infinity, plus_infinity => true
  | _, _ => false
  end.

(** [a + b] *)
Definition add (a b : number) : number :=
  match a, b with
  | finite x, finite y => round (x + y)
  | not_a_number, _ | _, not_a_number => not_a_number
  | plus_infinity, minus_infinity | minus_infinity, plus_infinity => not_a_number
  | plus_infinity, _ | _, plus_infinity => plus_infinity
  | minus_infinity, _ | _, minus_infinity => minus_infinity
  end.

(** The number a double of the machine stands for. *)
Definition of_float (f : PrimFloat.float) : number :=
  match FloatOps.Prim2SF f with
  | SpecFloat.S754_zero _ => finite 0
  | SpecFloat.S754_infinity false => plus_infinity
  | SpecFloat.S754_infinity true => minus_infinity
  | SpecFloat.S754_nan => not_a_number
  | SpecFloat.S754_finite s m e =>
      let v := (inject_Z (Zpos m) * pow2 e)%Q in
      finite (if s then (- v)%Q else v)
  end.

(** Two numbers are one double. *)
Definition same (a b : number) : bool :=
  match a, b with
  | finite x, finite y => Qeq_bool x y
  | plus_infinity, plus_infinity => true
  | minus_infinity, minus_infinity => true
  | not_a_number, not_a_number => true
  | _, _ => false
  end.

(** ** Distance functions *)

(** [1 - (inter / union)]: the quotient is rounded, and then the
    difference; both lie between 0 and 1. *)
Definition avgDistance (a b : list string) : Q :=
  let inter := inter_count a b in
  let union := length (remove_dups (a ++ b)) in
  if decide (union = 0) then 1%Q
  else nearest (1 - nearest (Z.of_nat inter # Pos.of_nat union)).

(** [(4 - commonCount) / 4] is a multiple of 1/4, which is a double. *)
Definition getDistanceFunction (type : DistanceFunction)
  : list string -> list string -> Q :=
  match type with
  | commonality => commonalityDistance
  | avg_distance => avgDistance
  end.

(** [distMatrix[r][c]] used as a number. *)
Definition mat_get (distMatrix : Matrix) (r c : nat) : result number :=
  match distMatrix !! r with
  | None => Err TypeError
  | Some row => Ok (from_option finite not_a_number (row !! c))
  end.

(** ** 2-opt refinement *)

(** The body of the inner loop: [Some route'] when the move is made. *)
Definition try_move (distMatrix : Matrix) (people : list Person)
    (constantPairs : JsMap) (route : list nat) (i j : nat)
  : result (option (list nat)) :=
  if wouldBreakConstantPair route i j constantPairs then Ok None
  else
    let* a := route_before route i in
    let* b := route_at route i in
    let* c := route_at route j in
    let* d := route_at route (j + 1) in
    let* ab := mat_get distMatrix a b in
    let* cd := mat_get distMatrix c d in
    let* ac := mat_get distMatrix a c in
    let* bd := mat_get distMatrix b d in
    let before := add ab cd in
    let after := add ac bd in
    if lt after before then
      let* left := hasCommonThemes (people !! a) (people !! c) in
      let* right := hasCommonThemes (people !! b) (people !! d) in
      let isolationPenalty := finite 0 in
      let isolationPenalty :=
        if left then isolationPenalty else add isolationPenalty (finite (1 # 2)) in
      let isolationPenalty :=
        if right then isolationPenalty else add isolationPenalty (finite (1 # 2)) in
      if lt (add after isolationPenalty) before
      then Ok (Some (reverse_segment route i j))
      else Ok None
    else Ok None.

(** One execution of the body of [while (improved)]. *)
Definition twoOpt_pass (distMatrix : Matrix) (people : list Person)
    (constantPairs : JsMap) (route : list nat) : result (option (list nat)) :=
  let n := length route in
  for_first (fun i =>
      for_first (try_move distMatrix people constantPairs route i)
        (seq (i + 1) (n - 1 - (i + 1))))
    (seq 1 (n - 2 - 1)).

Fixpoint twoOpt (fuel : nat) (distMatrix : Matrix) (people : list Person)
    (constantPairs : JsMap) (route : list nat) : result (list nat) :=
  match fuel with
  | 0 => Err OutOfFuel
  | S fuel' =>
      let* r := twoOpt_pass distMatrix people constantPairs route in
      match r with
      | None => Ok route
      | Some route' => twoOpt fuel' distMatrix people constantPairs route'
      end
  end.

(** The routes [twoOpt] holds during a call on [route0], one for each
    execution of the body of [while (improved)]: the route given, and
    the route after every reversal made. *)
Inductive visits (distMatrix : Matrix) (people : list Person)
    (constantPairs : JsMap) (route0 : list nat) : list nat -> Prop :=
  | visits_start : visits distMatrix people constantPairs route0 route0
  | visits_move (route route' : list nat) :
      visits distMatrix people constantPairs route0 route ->
      twoOpt_pass distMatrix people constantPairs route = Ok (Some route') ->
      visits distMatrix people constantPairs route0 route'.

(** ** Total distance of a route *)

Definition calculateTotalCost (route : list nat) (distMatrix : Matrix)
  : result number :=
  foldlM (fun cost i =>
      let* a := route_at route i in
      let* b := route_at route (i + 1) in
      let* d := mat_get distMatrix a b in
      Ok (add cost d))
    (finite 0) (seq 0 (length route - 1)).

End Double.

(** Every entry is a multiple of 1/4 between 0 and 1, as the distances of
    [commonalityDistance] are. *)
Definition quarters (distMatrix : Matrix) : Prop :=
  forall a b, exists q : Z,
    (0 <= q <= 4)%Z /\ (entry distMatrix a b == inject_Z q * (1 # 4))%Q.

(** The double [a] is the rational [x]. *)
Definition stands_for (a : Double.number) (x : Q) : Prop :=
  exists y, a = Double.finite y /\ (y == x)%Q.

(** ** Sample input for the distances of [avgDistance] *)

Definition jaccard_people : list Person :=
  [ mkPerson "Ada" ["art"; "chess"];
    mkPerson "Bo" ["art"; "dance"; "film"];
    mkPerson "Cy" ["art"; "books"; "chess"; "dance"];
    mkPerson "Di" ["chess"; "dance"; "EU"];
    mkPerson "Eli" ["art"; "chess"; "dance"; "EU"] ]%string.

Definition jaccard_matrix : Matrix :=
  createDistanceMatrix jaccard_people (Double.getDistanceFunction avg_distance)
    (findConstantPairs jaccard_people).

(** * Properties *)

(** ** The result monad and the loop combinators *)

Lemma bind_Ok {A B : Type} (m : result A) (f : A -> result B) (b : B) :
  bind m f = Ok b -> exists a, m = Ok a /\ f a = Ok b.
Proof. destruct m as [a|e]; simpl; [eauto | discriminate]. Qed.

Ltac inv_bind H :=
  let a := fresh "a" in
  let E := fresh "E" in
  apply bind_Ok in H as (a & E & H).

(** [foldlM] keeps an invariant that every iteration keeps. *)
Lemma foldlM_invariant {A S : Type} (I : S -> Prop) (P : A -> Prop)
    (body : S -> A -> result S) (l : list A) (s : S) :
  Forall P l -> I s ->
  (forall s x, I s -> P x -> exists s', body s x = Ok s' /\ I s') ->
  exists s', foldlM body s l = Ok s' /\ I s'.
Proof.
  intros Hl Hs Hstep. revert s Hs.
  induction Hl as [|x l Hx Hl IH]; intros s Hs; simpl; [eauto|].
  destruct (Hstep s x Hs Hx) as (s1 & -> & Hs1). simpl. auto.
Qed.

(** When [for_first] leaves the loop, some iteration has left it. *)
Lemma for_first_Some {A B : Type} (body : A -> result (option B)) (l : list A) (b : B) :
  for_first body l = Ok (Some b) -> exists x, x ∈ l /\ body x = Ok (Some b).
Proof.
  induction l as [|x l IH]; simpl; [discriminate|].
  intros H. inv_bind H. destruct a as [b'|].
  - exists x. split; [left | congruence].
  - destruct (IH H) as (y & Hy & Hb). exists y. split; [by right | done].
Qed.

Lemma for_first_total {A B : Type} (body : A -> result (option B)) (l : list A) :
  (forall x, x ∈ l -> exists r, body x = Ok r) ->
  exists r, for_first body l = Ok r.
Proof.
  induction l as [|x l IH]; intros Hb; simpl; [eauto|].
  destruct (Hb x) as (r & ->); [left|]. simpl. destruct r; [eauto|].
  apply IH. intros y Hy. apply Hb. by right.
Qed.

(** ** Numbers *)

Lemma Qltb_lt (x y : Q) : Qltb x y = true <-> (x < y)%Q.
Proof.
  unfold Qltb. rewrite negb_true_iff. split.
  - intros H. apply Qnot_le_lt. intros Hle. apply Qle_bool_iff in Hle. congruence.
  - intros H. destruct (Qle_bool y x) eqn:E; [|done].
    apply Qle_bool_iff in E. exfalso. by apply (Qlt_not_le x y).
Qed.

Lemma num_lt_irrefl (a : number) : num_lt a a = false.
Proof.
  destruct a as [q| |]; simpl; try done.
  destruct (Qltb q q) eqn:E; [|done]. apply Qltb_lt in E. by apply Qlt_irrefl in E.
Qed.

(** ** [findIndex] and [indexOf] *)

Lemma findIndex_from_shift {A : Type} (f : A -> bool) (l : list A) (k : nat) :
  findIndex_from f l k =
    from_option (fun p => Z.of_nat (k + p.1)) (-1)%Z (list_find (fun x => f x = true) l).
Proof.
  revert k. induction l as [|x l IH]; intros k; simpl; [done|].
  destruct (decide (f x = true)) as [E|E].
  - rewrite E. simpl. f_equal. lia.
  - apply not_true_is_false in E. rewrite E. rewrite IH.
    destruct (list_find _ l) as [[i y]|]; simpl; [|done]. f_equal. lia.
Qed.

Lemma findIndex_find {A : Type} (f : A -> bool) (l : list A) :
  findIndex f l =
    from_option (fun p => Z.of_nat p.1) (-1)%Z (list_find (fun x => f x = true) l).
Proof. unfold findIndex. by rewrite findIndex_from_shift. Qed.

Lemma findIndex_found {A : Type} (f : A -> bool) (l : list A) :
  findIndex f l <> (-1)%Z ->
  exists p x, findIndex f l = Z.of_nat p /\ l !! p = Some x /\ f x = true /\
    forall q y, l !! q = Some y -> q < p -> f y = false.
Proof.
  rewrite findIndex_find. destruct (list_find _ l) as [[p x]|] eqn:E; simpl; [|done].
  intros _. apply list_find_Some in E as (H1 & H2 & H3).
  exists p, x. repeat split; try done.
  intros q y Hq Hlt. apply not_true_is_false. eauto.
Qed.

Lemma findIndex_absent {A : Type} (f : A -> bool) (l : list A) :
  findIndex f l = (-1)%Z <-> forall x, x ∈ l -> f x = false.
Proof.
  rewrite findIndex_find. destruct (list_find _ l) as [[p x]|] eqn:E; simpl.
  - apply list_find_Some in E as (H1 & H2 & H3). split; [lia|].
    intros H. apply list_elem_of_lookup_2 in H1. apply H in H1. congruence.
  - split; [|done]. intros _ x Hx.
    apply list_find_None in E. rewrite Forall_forall in E.
    apply not_true_is_false. by apply E.
Qed.

Lemma findIndex_range {A : Type} (f : A -> bool) (l : list A) :
  (-1 <= findIndex f l < Z.of_nat (length l))%Z.
Proof.
  destruct (decide (findIndex f l = (-1)%Z)) as [E|E]; [lia|].
  destruct (findIndex_found f l E) as (p & x & -> & Hp & _).
  apply lookup_lt_Some in Hp. lia.
Qed.

Lemma indexOf_found (l : list nat) (x : nat) :
  indexOf l x <> (-1)%Z ->
  exists p, indexOf l x = Z.of_nat p /\ l !! p = Some x.
Proof.
  intros H. destruct (findIndex_found _ l H) as (p & y & E & Hp & Hy & _).
  apply bool_decide_eq_true in Hy. subst y. eauto.
Qed.

Lemma indexOf_absent (l : list nat) (x : nat) :
  indexOf l x = (-1)%Z <-> x ∉ l.
Proof.
  unfold indexOf. rewrite findIndex_absent. split.
  - intros H Hx. apply H in Hx. by apply bool_decide_eq_false in Hx.
  - intros H y Hy. apply bool_decide_eq_false. intros ->. done.
Qed.

Lemma indexOf_NoDup (l : list nat) (x p : nat) :
  NoDup l -> l !! p = Some x -> indexOf l x = Z.of_nat p.
Proof.
  intros Hnd Hp.
  assert (indexOf l x <> (-1)%Z) as H.
  { rewrite indexOf_absent. intros H. apply H. by eapply list_elem_of_lookup_2. }
  destruct (indexOf_found l x H) as (q & -> & Hq).
  f_equal. eapply NoDup_lookup; eauto.
Qed.

(** ** [splice] *)

Lemma splice_delete {A : Type} (l : list A) (p : nat) :
  splice l p 1 [] = delete p l.
Proof. unfold splice. simpl. rewrite delete_take_drop. f_equal. f_equal. lia. Qed.

Lemma splice_insert_Permutation {A : Type} (l : list A) (p : nat) (x : A) :
  splice l p 0 [x] ≡ₚ x :: l.
Proof.
  unfold splice. rewrite Nat.add_0_r. simpl.
  rewrite <- Permutation_middle. by rewrite take_drop.
Qed.

Lemma splice_length_insert {A : Type} (l : list A) (p : nat) (x : A) :
  length (splice l p 0 [x]) = S (length l).
Proof. by rewrite splice_insert_Permutation. Qed.

(** ** The pair constraint registry *)

Lemma map_set_bounded (m : JsMap) (n k v : nat) :
  map_bounded m n -> k < n -> v < n -> map_bounded (map_set m k v) n.
Proof.
  intros Hm Hk Hv. induction Hm as [|[k' v'] m He Hm IH]; simpl.
  - by repeat constructor.
  - case_decide; constructor; auto.
Qed.

Lemma map_get_elem (m : JsMap) (k v : nat) :
  map_get m k = Some v -> (k, v) ∈ m.
Proof.
  induction m as [|[k' v'] m IH]; simpl; [done|].
  case_decide.
  - intros [= ->]. subst. left.
  - intros H'. right. auto.
Qed.

Lemma map_get_bounded (m : JsMap) (n k v : nat) :
  map_bounded m n -> map_get m k = Some v -> v < n.
Proof.
  intros Hm Hg. apply map_get_elem in Hg.
  unfold map_bounded in Hm. rewrite Forall_forall in Hm.
  by destruct (Hm _ Hg).
Qed.

Lemma findConstantPairs_in_bounded (pairs : list (string * string)) (people : list Person) :
  map_bounded (findConstantPairs_in pairs people) (length people).
Proof.
  unfold findConstantPairs_in.
  assert (map_bounded [] (length people)) as H by constructor.
  revert H. generalize (@nil (nat * nat)).
  induction pairs as [|[name1 name2] pairs IH]; intros m Hm; simpl; [done|].
  apply IH.
  pose proof (findIndex_range (name_is name1) people).
  pose proof (findIndex_range (name_is name2) people).
  destruct (Z.eqb_spec (findIndex (name_is name1) people) (-1)); simpl; [done|].
  destruct (Z.eqb_spec (findIndex (name_is name2) people) (-1)); simpl; [done|].
  apply map_set_bounded; [apply map_set_bounded|..]; auto; lia.
Qed.

Lemma findConstantPairs_bounded (people : list Person) :
  map_bounded (findConstantPairs people) (length people).
Proof. apply findConstantPairs_in_bounded. Qed.

(** ** The distance matrix *)

Lemma mat_get_entry (distMatrix : Matrix) (n a b : nat) :
  square distMatrix n -> a < n -> b < n ->
  mat_get distMatrix a b = Ok (Fin (entry distMatrix a b)).
Proof.
  intros [Hlen Hrows] Ha Hb. unfold mat_get, entry.
  destruct (lookup_lt_is_Some_2 distMatrix a) as [row Hrow]; [lia|].
  rewrite Hrow. simpl.
  rewrite Forall_forall in Hrows.
  assert (length row = n) as Hr by (apply Hrows; by eapply list_elem_of_lookup_2).
  destruct (lookup_lt_is_Some_2 row b) as [q Hq]; [lia|].
  by rewrite Hq.
Qed.

Lemma mat_get_row (distMatrix : Matrix) (a b : nat) :
  a < length distMatrix -> exists d, mat_get distMatrix a b = Ok d.
Proof.
  intros Ha. unfold mat_get.
  destruct (lookup_lt_is_Some_2 distMatrix a Ha) as [row ->]. eauto.
Qed.

Section createDistanceMatrix.
Variable people : list Person.
Variable distanceFunc : list string -> list string -> Q.
Variable constantPairs : JsMap.

Local Abbreviation M := (createDistanceMatrix people distanceFunc constantPairs).
Local Abbreviation cell := (matrix_cell people distanceFunc constantPairs).

Lemma createDistanceMatrix_square : square M (length people).
Proof.
  unfold createDistanceMatrix. split.
  - by rewrite length_fmap, length_seq.
  - apply Forall_fmap, Forall_forall. intros i _. simpl.
    by rewrite length_fmap, length_seq.
Qed.

Lemma createDistanceMatrix_entry (a b : nat) :
  a < length people -> b < length people ->
  entry M a b = if a <? b then cell a b else if b <? a then cell b a else 0%Q.
Proof.
  intros Ha Hb. unfold entry, createDistanceMatrix.
  rewrite list_lookup_fmap, lookup_seq_lt by done. simpl.
  rewrite list_lookup_fmap, lookup_seq_lt by done. done.
Qed.

Lemma createDistanceMatrix_entry_out (a b : nat) :
  length people <= a \/ length people <= b -> entry M a b = 0%Q.
Proof.
  intros Hab. unfold entry, createDistanceMatrix.
  rewrite list_lookup_fmap.
  destruct (decide (a < length people)) as [Ha|Ha].
  - rewrite lookup_seq_lt by done. simpl.
    rewrite list_lookup_fmap, lookup_seq_ge by lia. done.
  - rewrite lookup_seq_ge by lia. done.
Qed.

Lemma createDistanceMatrix_symmetric : symmetric M.
Proof.
  intros a b.
  destruct (decide (a < length people /\ b < length people)) as [[Ha Hb]|Hout].
  - rewrite !createDistanceMatrix_entry by done.
    destruct (Nat.ltb_spec a b), (Nat.ltb_spec b a); try done; lia.
  - rewrite !createDistanceMatrix_entry_out by lia. done.
Qed.
End createDistanceMatrix.

(** ** Route constructor *)

Lemma hasCommonThemes_total (people : list Person) (a b : nat) :
  a < length people -> b < length people ->
  exists c, hasCommonThemes (people !! a) (people !! b) = Ok c.
Proof.
  intros Ha Hb.
  destruct (lookup_lt_is_Some_2 people a Ha) as [pa ->].
  destruct (lookup_lt_is_Some_2 people b Hb) as [pb ->].
  unfold hasCommonThemes. simpl. destruct (themes pa); simpl; eauto.
Qed.

Section nearestNeighbor.
Variable distMatrix : Matrix.
Variable people : list Person.
Variable constantPairs : JsMap.
Variable n : nat.
Hypothesis Hmatrix : length distMatrix = n.
Hypothesis Hpeople : length people = n.
Hypothesis Hpairs : map_bounded constantPairs n.

Lemma scan_common_ok (visited : gset nat) (current : nat) (st : Scan) (j : nat) :
  current < n -> scan_ok n visited st -> j < n ->
  exists st', scan_common distMatrix people visited current st j = Ok st'
              /\ scan_ok n visited st'.
Proof.
  intros Hc Hst Hj. unfold scan_common.
  case_bool_decide as Hv; [eauto|].
  destruct (hasCommonThemes_total people current j) as [c ->]; [lia..|]. simpl.
  destruct c; [|eauto].
  destruct (mat_get_row distMatrix current j) as [d ->]; [lia|]. simpl.
  destruct (num_lt d st.2); [|eauto].
  eexists. split; [done|]. by split.
Qed.

Lemma scan_nearest_ok (visited : gset nat) (current : nat) (st : Scan) (j : nat) :
  current < n -> scan_ok n visited st -> j < n ->
  exists st', scan_nearest distMatrix visited current st j = Ok st'
              /\ scan_ok n visited st'.
Proof.
  intros Hc Hst Hj. unfold scan_nearest.
  case_bool_decide as Hv; [eauto|].
  destruct (mat_get_row distMatrix current j) as [d ->]; [lia|]. simpl.
  destruct (num_lt d st.2); [|eauto].
  eexists. split; [done|]. by split.
Qed.

Lemma seq_below : Forall (fun j => j < n) (seq 0 n).
Proof. apply Forall_forall. intros j Hj. apply elem_of_seq in Hj. lia. Qed.

Lemma scan_priorities_ok (visited : gset nat) (current : nat) :
  current < n ->
  exists st, scan_priorities distMatrix people n visited current = Ok st
             /\ scan_ok n visited st.
Proof.
  intros Hc. unfold scan_priorities.
  destruct (foldlM_invariant (scan_ok n visited) (fun j => j < n)
              (scan_common distMatrix people visited current) (seq 0 n) (None, Infinity))
    as (st & -> & Hst); [apply seq_below | done | |].
  { intros s x Hs Hx. by apply scan_common_ok. }
  simpl. destruct st.1 eqn:E; [eauto|].
  apply foldlM_invariant with (P := fun j => j < n); [apply seq_below | done |].
  intros s x Hs Hx. by apply scan_nearest_ok.
Qed.

Lemma first_unvisited_Some (visited : gset nat) (j : nat) :
  first_unvisited visited n = Some j -> j < n /\ j ∉ visited.
Proof.
  unfold first_unvisited. destruct (list_find _ _) as [[i x]|] eqn:E; [|done].
  simpl. intros [= ->]. apply list_find_Some in E as (H1 & H2 & _).
  apply list_elem_of_lookup_2 in H1. apply elem_of_seq in H1. split; [lia | done].
Qed.

Lemma first_unvisited_None (visited : gset nat) :
  first_unvisited visited n = None -> forall j, j < n -> j ∈ visited.
Proof.
  unfold first_unvisited. destruct (list_find _ _) as [[i x]|] eqn:E; [done|].
  intros _ j Hj. apply list_find_None in E. rewrite Forall_forall in E.
  destruct (decide (j ∈ visited)) as [|Hn]; [done|].
  exfalso. apply (E j); [|done]. apply elem_of_seq. lia.
Qed.

(** Indices without repetition that miss none of [0..n-1] are at least [n]. *)
Lemma covering_length (route : list nat) :
  (forall j, j < n -> j ∈ route) -> n <= length route.
Proof.
  intros Hall.
  assert (seq 0 n ⊆+ route) as Hsub.
  { apply NoDup_submseteq; [apply NoDup_seq|].
    intros j Hj. apply elem_of_seq in Hj. apply Hall. lia. }
  apply submseteq_length in Hsub. by rewrite length_seq in Hsub.
Qed.

Lemma choose_next_ok (route : list nat) (visited : gset nat) (current : nat) :
  (forall x, x ∈ visited <-> x ∈ route) ->
  current < n -> length route < n ->
  exists next, choose_next distMatrix people constantPairs n visited current
                 = Ok (Some next)
               /\ next < n /\ next ∉ visited.
Proof.
  intros Hvis Hc Hlen. unfold choose_next.
  assert (exists st,
    match map_get constantPairs current with
    | Some pairIdx =>
        if negb (bool_decide (pairIdx ∈ visited)) then Ok (Some pairIdx, Fin 0)
        else scan_priorities distMatrix people n visited current
    | None => scan_priorities distMatrix people n visited current
    end = Ok st /\ scan_ok n visited st) as (st & -> & Hst).
  { destruct (map_get constantPairs current) as [pairIdx|] eqn:E;
      [|by apply scan_priorities_ok].
    case_bool_decide as Hv; simpl; [by apply scan_priorities_ok|].
    eexists. split; [done|]. split; [|done]. simpl.
    by eapply map_get_bounded. }
  simpl. unfold scan_ok in Hst. destruct st.1 as [next|]; [eauto|].
  destruct (first_unvisited visited n) as [j|] eqn:E.
  - apply first_unvisited_Some in E. eauto.
  - exfalso. pose proof (first_unvisited_None _ E) as Hall.
    assert (n <= length route); [|lia].
    apply covering_length. intros j Hj. apply Hvis. auto.
Qed.

Lemma nn_loop_ok (k : nat) (route : list nat) (visited : gset nat) (current : nat) :
  (forall x, x ∈ visited <-> x ∈ route) ->
  NoDup route -> Forall (fun x => x < n) route ->
  current < n -> length route + k = n ->
  exists r, nn_loop k distMatrix people constantPairs n route visited current = Ok r
            /\ NoDup r /\ Forall (fun x => x < n) r /\ length r = n.
Proof.
  revert route visited current.
  induction k as [|k IH]; intros route visited current Hvis Hnd Hrange Hc Hlen; simpl.
  - exists route. repeat split; try done. lia.
  - destruct (choose_next_ok route visited current) as (next & -> & Hn & Hfresh);
      [done | done | lia |]. simpl.
    apply IH.
    + intros x. rewrite elem_of_union, elem_of_singleton, elem_of_app, list_elem_of_singleton.
      rewrite Hvis. tauto.
    + apply NoDup_app. repeat split; [done | | apply NoDup_singleton].
      intros x Hx Hx'. apply list_elem_of_singleton in Hx'. subst x.
      apply Hfresh. by apply Hvis.
    + apply Forall_app. split; [done|]. by repeat constructor.
    + done.
    + rewrite length_app. simpl. lia.
Qed.
End nearestNeighbor.

(** Distinct indices below [n], [n] of them, are a permutation of [0..n-1]. *)
Lemma indices_Permutation (n : nat) (r : list nat) :
  NoDup r -> Forall (fun x => x < n) r -> length r = n -> r ≡ₚ seq 0 n.
Proof.
  intros Hnd Hrange Hlen.
  apply submseteq_length_Permutation.
  - apply NoDup_submseteq; [done|]. intros x Hx.
    rewrite Forall_forall in Hrange. apply elem_of_seq. specialize (Hrange x Hx). lia.
  - rewrite length_seq. lia.
Qed.

Lemma Permutation_indices (n : nat) (r : list nat) :
  r ≡ₚ seq 0 n -> NoDup r /\ Forall (fun x => x < n) r /\ length r = n.
Proof.
  intros Hp. repeat split.
  - rewrite Hp. apply NoDup_seq.
  - rewrite Hp. apply Forall_forall. intros x Hx. apply elem_of_seq in Hx. lia.
  - by rewrite Hp, length_seq.
Qed.

Lemma nearestNeighbor_permutation (distMatrix : Matrix) (people : list Person)
    (constantPairs : JsMap) (startIdx : nat) :
  length people = length distMatrix ->
  map_bounded constantPairs (length distMatrix) ->
  startIdx < length distMatrix ->
  exists r, nearestNeighborWithCommonThemes distMatrix people constantPairs startIdx = Ok r
            /\ r ≡ₚ seq 0 (length distMatrix).
Proof.
  intros Hp Hm Hs. unfold nearestNeighborWithCommonThemes.
  destruct (nn_loop_ok distMatrix people constantPairs (length distMatrix)
              eq_refl Hp Hm (length distMatrix - 1) [startIdx] {[startIdx]} startIdx)
    as (r & -> & Hnd & Hrange & Hlen).
  - intros x. by rewrite elem_of_singleton, list_elem_of_singleton.
  - apply NoDup_singleton.
  - by repeat constructor.
  - done.
  - simpl. lia.
  - exists r. split; [done|]. by apply indices_Permutation.
Qed.

(** ** Cost of a route *)

Section path_cost.
Variable distMatrix : Matrix.

Lemma path_cost_cons (a : nat) (l : list nat) :
  (path_cost distMatrix (a :: l) == link distMatrix (Some a) (head l) + path_cost distMatrix l)%Q.
Proof. destruct l; simpl; reflexivity. Qed.

Lemma path_cost_app (l1 l2 : list nat) :
  (path_cost distMatrix (l1 ++ l2) ==
     path_cost distMatrix l1 + link distMatrix (last l1) (head l2) + path_cost distMatrix l2)%Q.
Proof.
  induction l1 as [|a l1 IH].
  - simpl. ring.
  - change ((a :: l1) ++ l2) with (a :: (l1 ++ l2)).
    rewrite !path_cost_cons, IH.
    destruct l1 as [|b l1]; simpl.
    + destruct l2; simpl; ring.
    + ring.
Qed.

Hypothesis Hsym : symmetric distMatrix.

Lemma link_sym (x y : option nat) : link distMatrix x y = link distMatrix y x.
Proof. destruct x, y; simpl; auto. Qed.

Lemma path_cost_reverse (l : list nat) :
  (path_cost distMatrix (reverse l) == path_cost distMatrix l)%Q.
Proof.
  induction l as [|a l IH]; [reflexivity|].
  rewrite reverse_cons, path_cost_app, IH, last_reverse.
  rewrite (path_cost_cons a l), link_sym.
  destruct l; simpl; ring.
Qed.

(** Reversing the middle of a route changes the two links at its ends. *)
Lemma path_cost_reverse_middle (A S B : list nat) :
  S <> [] ->
  (path_cost distMatrix (A ++ reverse S ++ B) - path_cost distMatrix (A ++ S ++ B) ==
     (link distMatrix (last A) (last S) + link distMatrix (head S) (head B))
     - (link distMatrix (last A) (head S) + link distMatrix (last S) (head B)))%Q.
Proof.
  intros HS.
  rewrite !path_cost_app, path_cost_reverse, last_reverse.
  assert (head (reverse S ++ B) = last S) as ->.
  { rewrite head_app, head_reverse. destruct (last S) eqn:E; [done|].
    apply last_None in E. done. }
  assert (head (S ++ B) = head S) as ->.
  { destruct S; [done|]. done. }
  ring.
Qed.
End path_cost.

(** ** Segment reversal *)

Lemma reverse_segment_split (route : list nat) (i j : nat) :
  i <= j -> j < length route ->
  exists A S B, route = A ++ S ++ B /\ reverse_segment route i j = A ++ reverse S ++ B
    /\ length A = i /\ length S = j + 1 - i.
Proof.
  intros Hij Hj.
  exists (take i route), (take (j + 1 - i) (drop i route)), (drop (j + 1) route).
  repeat split.
  - rewrite <- (take_drop i route) at 1. f_equal.
    rewrite <- (take_drop (j + 1 - i) (drop i route)) at 1. f_equal.
    rewrite drop_drop. f_equal. lia.
  - unfold reverse_segment, splice. do 3 f_equal. lia.
  - rewrite length_take. lia.
  - rewrite length_take, length_drop. lia.
Qed.

Lemma reverse_segment_Permutation (route : list nat) (i j : nat) :
  reverse_segment route i j ≡ₚ route.
Proof.
  unfold reverse_segment, splice. rewrite reverse_Permutation.
  rewrite <- (take_drop i route) at 4. f_equiv.
  rewrite <- (take_drop (j + 1 - i) (drop i route)) at 2. f_equiv.
  by rewrite drop_drop.
Qed.

Lemma reverse_segment_length (route : list nat) (i j : nat) :
  length (reverse_segment route i j) = length route.
Proof. by rewrite reverse_segment_Permutation. Qed.

(** ** One candidate move *)

Section try_move.
Variable distMatrix : Matrix.
Variable people : list Person.
Variable constantPairs : JsMap.
Variable n : nat.
Hypothesis Hsquare : square distMatrix n.
Hypothesis Hpeople : length people = n.

Lemma route_at_ok (route : list nat) (k : nat) :
  Forall (fun x => x < n) route -> k < length route ->
  exists x, route_at route k = Ok x /\ route !! k = Some x /\ x < n.
Proof.
  intros Hrange Hk. unfold route_at.
  destruct (lookup_lt_is_Some_2 route k Hk) as [x Hx]. rewrite Hx.
  exists x. repeat split; try done.
  rewrite Forall_forall in Hrange. apply Hrange. by eapply list_elem_of_lookup_2.
Qed.

Lemma route_before_ok (route : list nat) (i : nat) :
  Forall (fun x => x < n) route -> 1 <= i -> i <= length route ->
  exists x, route_before route i = Ok x /\ route !! (i - 1) = Some x /\ x < n.
Proof.
  intros Hrange Hi Hlen. destruct i as [|k]; [lia|]. simpl.
  rewrite Nat.sub_0_r. apply route_at_ok; [done | lia].
Qed.

(** A move is made only when reversing the segment costs strictly less. *)
Lemma try_move_ok (route : list nat) (i j : nat) :
  symmetric distMatrix ->
  Forall (fun x => x < n) route -> 1 <= i -> i < j -> j + 1 < length route ->
  exists r, try_move distMatrix people constantPairs route i j = Ok r /\
    (r = None \/
     (r = Some (reverse_segment route i j)
      /\ wouldBreakConstantPair route i j constantPairs = false
      /\ (path_cost distMatrix (reverse_segment route i j) < path_cost distMatrix route)%Q)).
Proof.
  intros Hsym Hrange Hi Hij Hj. unfold try_move.
  destruct (wouldBreakConstantPair route i j constantPairs) eqn:Hbreak; [eauto|].
  destruct (route_before_ok route i) as (a & -> & Ha & Han); [done | lia | lia |].
  destruct (route_at_ok route i) as (b & -> & Hb & Hbn); [done | lia |].
  destruct (route_at_ok route j) as (c & -> & Hc & Hcn); [done | lia |].
  destruct (route_at_ok route (j + 1)) as (d & -> & Hd & Hdn); [done | lia |].
  simpl.
  rewrite !(mat_get_entry distMatrix n) by done. simpl.
  destruct (Qltb _ _) eqn:Hlt; [|eauto].
  destruct (hasCommonThemes_total people a c) as [l ->]; [lia..|].
  destruct (hasCommonThemes_total people b d) as [r ->]; [lia..|].
  simpl.
  destruct (Qltb (_ + _ + _) _) eqn:Hacc; [|eauto].
  eexists. split; [done|]. right. repeat split; try done.
  apply Qltb_lt in Hacc.
  destruct (reverse_segment_split route i j) as (A & S & B & HR & HR' & HA & HS); [lia..|].
  assert (S <> []) as HSne by (intros ->; simpl in HS; lia).
  pose proof (path_cost_reverse_middle distMatrix Hsym A S B HSne) as Hdiff.
  rewrite <- HR, <- HR' in Hdiff.
  assert (last A = Some a) as HlA.
  { rewrite last_lookup. rewrite HR in Ha. rewrite lookup_app_l in Ha by lia.
    rewrite <- Ha. f_equal. lia. }
  assert (head S = Some b) as HhS.
  { rewrite head_lookup. rewrite HR in Hb.
    rewrite lookup_app_r, lookup_app_l in Hb by lia. rewrite <- Hb. f_equal. lia. }
  assert (last S = Some c) as HlS.
  { rewrite last_lookup. rewrite HR in Hc.
    rewrite lookup_app_r, lookup_app_l in Hc by lia. rewrite <- Hc. f_equal. lia. }
  assert (head B = Some d) as HhB.
  { rewrite head_lookup. rewrite HR in Hd.
    rewrite lookup_app_r, lookup_app_r in Hd by lia. rewrite <- Hd. f_equal. lia. }
  rewrite HlA, HhS, HlS, HhB in Hdiff. simpl in Hdiff.
  assert (0 <= (if l then 0 else 1 # 2) + (if r then 0 else 1 # 2))%Q as Hpen.
  { destruct l, r; compute; discriminate. }
  lra.
Qed.

(** Whatever the inputs, a move that is made is the reversal of the
    segment, and no entry of the pair map forbids it. *)
Lemma try_move_Some (route : list nat) (i j : nat) (route' : list nat) :
  try_move distMatrix people constantPairs route i j = Ok (Some route') ->
  route' = reverse_segment route i j
  /\ wouldBreakConstantPair route i j constantPairs = false.
Proof.
  unfold try_move.
  destruct (wouldBreakConstantPair route i j constantPairs); [discriminate|].
  intros H. do 8 inv_bind H.
  destruct (num_lt _ _); [|discriminate].
  do 2 inv_bind H.
  destruct (num_lt _ _); [|discriminate].
  by injection H as <-.
Qed.
End try_move.

(** ** The refinement loop *)

Section twoOpt.
Variable distMatrix : Matrix.
Variable people : list Person.
Variable constantPairs : JsMap.

(** The cut points the two [for] loops visit. *)
Lemma twoOpt_pass_Some (route route' : list nat) :
  twoOpt_pass distMatrix people constantPairs route = Ok (Some route') ->
  exists i j, 1 <= i /\ i < j /\ j + 1 < length route
    /\ try_move distMatrix people constantPairs route i j = Ok (Some route').
Proof.
  unfold twoOpt_pass. intros H.
  apply for_first_Some in H as (i & Hi & H).
  apply for_first_Some in H as (j & Hj & H).
  apply elem_of_seq in Hi. apply elem_of_seq in Hj.
  exists i, j. repeat split; [lia..|done].
Qed.

(** A property of routes kept by every move made is kept by [twoOpt]. *)
Lemma twoOpt_invariant (I : list nat -> Prop) :
  (forall route i j,
      I route -> 1 <= i -> i < j -> j + 1 < length route ->
      try_move distMatrix people constantPairs route i j
        = Ok (Some (reverse_segment route i j)) ->
      I (reverse_segment route i j)) ->
  forall fuel route route',
    I route ->
    twoOpt fuel distMatrix people constantPairs route = Ok route' ->
    I route'.
Proof.
  intros Hstep fuel. induction fuel as [|fuel IH]; intros route route' HI H; simpl in H.
  - discriminate.
  - inv_bind H. destruct a as [r1|]; [|by injection H as <-].
    apply twoOpt_pass_Some in E as (i & j & Hi & Hij & Hj & Hmove).
    pose proof (try_move_Some _ _ _ _ _ _ _ Hmove) as [-> _].
    eapply IH; [|exact H]. by apply Hstep.
Qed.

Lemma twoOpt_Permutation (fuel : nat) (route route' : list nat) :
  twoOpt fuel distMatrix people constantPairs route = Ok route' -> route' ≡ₚ route.
Proof.
  intros H.
  apply (twoOpt_invariant (fun r => r ≡ₚ route)) with (3 := H); [|done].
  intros r i j Hr _ _ _ _. by rewrite reverse_segment_Permutation.
Qed.

(** More fuel does not change a result. *)
Lemma twoOpt_fuel_mono (fuel fuel' : nat) (route route' : list nat) :
  twoOpt fuel distMatrix people constantPairs route = Ok route' ->
  fuel <= fuel' ->
  twoOpt fuel' distMatrix people constantPairs route = Ok route'.
Proof.
  revert fuel' route. induction fuel as [|fuel IH]; intros fuel' route H Hle; simpl in H.
  - discriminate.
  - destruct fuel' as [|fuel']; [lia|]. simpl.
    inv_bind H. rewrite E. simpl. destruct a; [|done].
    apply IH; [done | lia].
Qed.

Variable n : nat.
Hypothesis Hsquare : square distMatrix n.
Hypothesis Hsym : symmetric distMatrix.
Hypothesis Hpeople : length people = n.

Lemma twoOpt_pass_ok (route : list nat) :
  Forall (fun x => x < n) route ->
  exists r, twoOpt_pass distMatrix people constantPairs route = Ok r /\
    (r = None \/
     exists route', r = Some route' /\ route' ≡ₚ route
       /\ (path_cost distMatrix route' < path_cost distMatrix route)%Q).
Proof.
  intros Hrange.
  assert (exists r, twoOpt_pass distMatrix people constantPairs route = Ok r) as [r Hr].
  { unfold twoOpt_pass. apply for_first_total. intros i Hi.
    apply for_first_total. intros j Hj.
    apply elem_of_seq in Hi. apply elem_of_seq in Hj.
    destruct (try_move_ok distMatrix people constantPairs n Hsquare Hpeople route i j)
      as (r & -> & _); [done | done | lia.. |]. eauto. }
  exists r. split; [done|]. destruct r as [route'|]; [right | by left].
  apply twoOpt_pass_Some in Hr as (i & j & Hi & Hij & Hj & Hmove).
  destruct (try_move_ok distMatrix people constantPairs n Hsquare Hpeople route i j)
    as (r & Hr & Hcases); [done..|].
  rewrite Hmove in Hr. injection Hr as <-.
  destruct Hcases as [|(Heq & _ & Hcost)]; [done|]. injection Heq as ->.
  exists (reverse_segment route i j). repeat split; [|done].
  apply reverse_segment_Permutation.
Qed.

(** ** Termination: every move goes to a strictly cheaper permutation *)

Lemma rank_decreases (universe : list (list nat)) (route route' : list nat) :
  route' ∈ universe ->
  (path_cost distMatrix route' < path_cost distMatrix route)%Q ->
  rank distMatrix universe route' < rank distMatrix universe route.
Proof.
  intros Hin Hlt. unfold rank.
  set (P := fun p => Qltb (path_cost distMatrix p) (path_cost distMatrix route') = true).
  set (R := fun p => Qltb (path_cost distMatrix p) (path_cost distMatrix route) = true).
  assert (filter P universe = filter P (filter R universe)) as ->.
  { rewrite list_filter_filter. apply list_filter_iff. intros p. subst P R. simpl.
    rewrite !Qltb_lt. split; [|tauto]. intros Hp. split; [done|]. lra. }
  apply length_filter_lt with (x := route').
  - apply list_elem_of_filter. split; [|done]. subst R. simpl. by apply Qltb_lt.
  - subst P. simpl. rewrite Qltb_lt. apply Qlt_irrefl.
Qed.

Lemma twoOpt_terminates_from (universe : list (list nat)) (fuel : nat) (route : list nat) :
  (forall r, r ≡ₚ route -> r ∈ universe) ->
  Forall (fun x => x < n) route ->
  rank distMatrix universe route < fuel ->
  exists route', twoOpt fuel distMatrix people constantPairs route = Ok route'
    /\ route' ≡ₚ route
    /\ (path_cost distMatrix route' <= path_cost distMatrix route)%Q.
Proof.
  revert route. induction fuel as [|fuel IH]; intros route Huniv Hrange Hrank; [lia|].
  simpl. destruct (twoOpt_pass_ok route Hrange) as (r & -> & Hr). simpl.
  destruct Hr as [->|(route1 & -> & Hperm & Hcost)].
  - exists route. repeat split; [done|]. apply Qle_refl.
  - destruct (IH route1) as (route' & Hrun & Hperm' & Hcost').
    + intros r Hr. apply Huniv. by rewrite Hr.
    + by rewrite Hperm.
    + pose proof (rank_decreases universe route route1 (Huniv _ Hperm) Hcost). lia.
    + exists route'. split; [done|]. split; [by rewrite Hperm'|]. lra.
Qed.

(** [twoOpt] returns when it has more fuel than there are permutations of
    the route, and what it returns costs no more. *)
Lemma twoOpt_terminates (fuel : nat) (route : list nat) :
  Forall (fun x => x < n) route ->
  length (permutations route) < fuel ->
  exists route', twoOpt fuel distMatrix people constantPairs route = Ok route'
    /\ route' ≡ₚ route
    /\ (path_cost distMatrix route' <= path_cost distMatrix route)%Q.
Proof.
  intros Hrange Hfuel.
  apply (twoOpt_terminates_from (permutations route)); [|done|].
  - intros r Hr. by apply permutations_Permutation.
  - unfold rank. eapply Nat.le_lt_trans; [apply length_filter | done].
Qed.
End twoOpt.

(** ** [calculateTotalCost] *)

Section calculateTotalCost.
Variable distMatrix : Matrix.
Variable n : nat.
Hypothesis Hsquare : square distMatrix n.

Lemma calculateTotalCost_from (route : list nat) (m k : nat) (acc : Q) :
  Forall (fun x => x < n) route -> k + m + 1 = length route ->
  exists c,
    foldlM (fun cost i =>
        let* a := route_at route i in
        let* b := route_at route (i + 1) in
        let* d := mat_get distMatrix a b in
        Ok (num_add cost d)) (Fin acc) (seq k m) = Ok (Fin c)
    /\ (c == acc + path_cost distMatrix (drop k route))%Q.
Proof.
  intros Hrange. revert k acc. induction m as [|m IH]; intros k acc Hlen.
  - simpl. exists acc. split; [done|].
    destruct (lookup_lt_is_Some_2 route k) as [x Hx]; [lia|].
    rewrite (drop_S _ _ _ Hx), drop_ge by lia. simpl. ring.
  - simpl.
    destruct (route_at_ok n route k) as (a & -> & Ha & Han); [done | lia |].
    destruct (route_at_ok n route (k + 1)) as (b & -> & Hb & Hbn); [done | lia |].
    simpl. rewrite (mat_get_entry distMatrix n) by done. simpl.
    destruct (IH (S k) (acc + entry distMatrix a b)%Q) as (c & -> & Hc); [lia|].
    exists c. split; [done|]. rewrite Hc.
    rewrite (drop_S _ _ _ Ha).
    replace (k + 1) with (S k) in Hb by lia.
    rewrite (drop_S _ _ _ Hb). simpl. ring.
Qed.

Lemma calculateTotalCost_path_cost (route : list nat) :
  Forall (fun x => x < n) route ->
  exists c, calculateTotalCost route distMatrix = Ok (Fin c)
            /\ (c == path_cost distMatrix route)%Q.
Proof.
  intros Hrange. unfold calculateTotalCost.
  destruct route as [|x route]; [by exists 0%Q|].
  destruct (calculateTotalCost_from (x :: route) (length (x :: route) - 1) 0 0%Q Hrange)
    as (c & -> & Hc); [simpl; lia|].
  exists c. split; [done|]. rewrite Hc, drop_0. ring.
Qed.
End calculateTotalCost.

(** ** Pair enforcement on a route *)

Lemma enforce_entry_Permutation (n : Z) (route : list nat) (e : nat * nat) :
  enforce_entry n route e ≡ₚ route.
Proof.
  destruct e as [idx1 idx2]. unfold enforce_entry.
  destruct (Z.eqb_spec (indexOf route idx1) (-1)) as [|H1]; simpl; [done|].
  destruct (Z.eqb_spec (indexOf route idx2) (-1)) as [|H2]; simpl; [done|].
  destruct (areNeighbors _ _ _); [done|].
  destruct (indexOf_found route idx1 H1) as (p1 & E1 & Hp1).
  destruct (indexOf_found route idx2 H2) as (p2 & E2 & Hp2).
  rewrite E1, E2, !Nat2Z.id.
  destruct (_ <? _)%Z.
  - rewrite splice_insert_Permutation, splice_delete. symmetry. by apply delete_Permutation.
  - rewrite splice_insert_Permutation, splice_delete. symmetry. by apply delete_Permutation.
Qed.

Lemma enforce_entries_Permutation (n : Z) (constantPairs : JsMap) (route : list nat) :
  fold_left (enforce_entry n) constantPairs route ≡ₚ route.
Proof.
  revert route. induction constantPairs as [|e m IH]; intros r; simpl; [done|].
  rewrite IH. apply enforce_entry_Permutation.
Qed.

Lemma enforceConstantPairs_Permutation (route : list nat) (constantPairs : JsMap) :
  enforceConstantPairs route constantPairs ≡ₚ route.
Proof.
  unfold enforceConstantPairs. case_decide; [done|].
  apply enforce_entries_Permutation.
Qed.

(** ** The start index *)

Lemma startIdx_of_range (u : Q) (n : nat) :
  (u < 1)%Q -> 0 < n -> startIdx_of u n < n.
Proof.
  intros Hu Hn. unfold startIdx_of.
  set (x := (u * inject_Z (Z.of_nat n))%Q).
  assert (Qfloor x < Z.of_nat n)%Z; [|lia].
  rewrite Zlt_Qlt.
  eapply Qle_lt_trans; [apply Qfloor_le|]. subst x.
  assert (0 < inject_Z (Z.of_nat n))%Q as Hpos.
  { replace 0%Q with (inject_Z 0) by done. rewrite <- Zlt_Qlt. lia. }
  nra.
Qed.

Lemma startIdx_of_zero (u : Q) : startIdx_of u 0 = 0.
Proof.
  unfold startIdx_of. change (Z.of_nat 0) with 0%Z.
  assert (Qfloor (u * inject_Z 0) = 0%Z) as ->; [|done].
  rewrite (Qfloor_comp _ 0); [done|]. change (inject_Z 0) with 0%Q. ring.
Qed.

(** ** The number of permutations *)

Lemma length_bind_const {A B : Type} (f : A -> list B) (l : list A) (c : nat) :
  (forall x, x ∈ l -> length (f x) = c) -> length (l ≫= f) = length l * c.
Proof.
  induction l as [|x l IH]; intros H; [done|].
  rewrite bind_cons, length_app, IH.
  - rewrite (H x); [simpl; lia | left].
  - intros y Hy. apply H. by right.
Qed.

Lemma length_interleave {A : Type} (x : A) (l : list A) :
  length (interleave x l) = S (length l).
Proof.
  induction l as [|y l IH]; [done|].
  simpl. by rewrite length_fmap, IH.
Qed.

Lemma length_permutations {A : Type} (l : list A) :
  length (permutations l) = fact (length l).
Proof.
  induction l as [|x l IH]; [done|].
  simpl permutations. rewrite (length_bind_const _ _ (S (length l))).
  - rewrite IH. simpl. lia.
  - intros p Hp. rewrite length_interleave. f_equal.
    apply permutations_Permutation in Hp. by rewrite Hp.
Qed.

(** ** Scores *)

Lemma shared_themes_total (people : list Person) (a b : nat) :
  a < length people -> b < length people ->
  exists l, shared_themes (people !! a) (people !! b) = Ok l.
Proof.
  intros Ha Hb.
  destruct (lookup_lt_is_Some_2 people a Ha) as [pa ->].
  destruct (lookup_lt_is_Some_2 people b Hb) as [pb ->].
  unfold shared_themes. simpl. destruct (themes pa); simpl; eauto.
Qed.

Lemma poor_at_total (people : list Person) (route : list nat) (i : nat) :
  Forall (fun x => x < length people) route -> i < length route ->
  exists b, poor_at route people i = Ok b.
Proof.
  intros Hrange Hi. unfold poor_at.
  assert (forall k, k < length route ->
            exists x, route !! k = Some x /\ x < length people) as Hk.
  { intros k Hk. destruct (lookup_lt_is_Some_2 route k Hk) as [x Hx].
    exists x. split; [done|]. rewrite Forall_forall in Hrange.
    apply Hrange. by eapply list_elem_of_lookup_2. }
  destruct (Hk i Hi) as (x & -> & Hx). simpl.
  assert (exists l, (if 0 <? i
            then shared_themes (people !! x) (route !! (i - 1) ≫= (people !!.))
            else Ok []) = Ok l) as [l ->].
  { destruct (Nat.ltb_spec 0 i); [|eauto].
    destruct (Hk (i - 1)) as (y & -> & Hy); [lia|]. simpl.
    by apply shared_themes_total. }
  simpl.
  assert (exists l, (if S i <? length route
            then shared_themes (people !! x) (route !! (i + 1) ≫= (people !!.))
            else Ok []) = Ok l) as [l' ->].
  { destruct (Nat.ltb_spec (S i) (length route)); [|eauto].
    destruct (Hk (i + 1)) as (y & -> & Hy); [lia|]. simpl.
    by apply shared_themes_total. }
  simpl. eauto.
Qed.

Lemma countPoorConnections_total (people : list Person) (route : list nat) :
  Forall (fun x => x < length people) route ->
  exists c, countPoorConnections route people = Ok c.
Proof.
  intros Hrange. unfold countPoorConnections.
  destruct (foldlM_invariant (fun _ => True) (fun i => i < length route)
    (fun poorCount i =>
       let* p := poor_at route people i in Ok (if p then S poorCount else poorCount))
    (seq 0 (length route)) 0) as (c & Hc & _); [| done | | eauto].
  - apply Forall_forall. intros i Hi. apply elem_of_seq in Hi. lia.
  - intros s i _ Hi. destruct (poor_at_total people route i Hrange Hi) as [b ->].
    simpl. eauto.
Qed.

Lemma route_score_total (optimizationMode : OptimizationMode) (order : list nat)
    (distMatrix : Matrix) (people : list Person) :
  square distMatrix (length people) ->
  Forall (fun x => x < length people) order ->
  exists q, route_score optimizationMode order distMatrix people = Ok (Fin q).
Proof.
  intros Hsq Hrange. destruct optimizationMode; simpl.
  - destruct (countPoorConnections_total people order Hrange) as [c Hc].
    unfold rmap. rewrite Hc. simpl. eauto.
  - destruct (calculateTotalCost_path_cost distMatrix _ Hsq order Hrange) as (c & -> & _).
    eauto.
Qed.

(** ** One attempt *)

Section attempt.
Variable people : list Person.
Variable distanceFunction : DistanceFunction.
Variable optimizationMode : OptimizationMode.

Local Abbreviation n := (length people).
Local Abbreviation constantPairs := (findConstantPairs people).
Local Abbreviation distMatrix :=
  (createDistanceMatrix people (getDistanceFunction distanceFunction) constantPairs).

(** The three stages of an attempt: the constructor returns a
    permutation, the refiner returns a permutation of it, and so does
    pair enforcement. *)
Lemma attempt_stages (fuel startIdx : nat) :
  startIdx < n -> fact n < fuel ->
  exists r0 r1,
    nearestNeighborWithCommonThemes distMatrix people constantPairs startIdx = Ok r0
    /\ r0 ≡ₚ seq 0 n
    /\ twoOpt fuel distMatrix people constantPairs r0 = Ok r1
    /\ r1 ≡ₚ r0
    /\ enforceConstantPairs r1 constantPairs ≡ₚ r1.
Proof.
  intros Hs Hfuel.
  pose proof (createDistanceMatrix_square people
                (getDistanceFunction distanceFunction) constantPairs) as Hsq.
  pose proof (createDistanceMatrix_symmetric people
                (getDistanceFunction distanceFunction) constantPairs) as Hsym.
  assert (length distMatrix = n) as Hlen by apply Hsq.
  destruct (nearestNeighbor_permutation distMatrix people constantPairs startIdx)
    as (r0 & Hnn & Hr0).
  { by rewrite Hlen. }
  { rewrite Hlen. apply findConstantPairs_bounded. }
  { by rewrite Hlen. }
  rewrite Hlen in Hr0.
  destruct (Permutation_indices n r0 Hr0) as (Hnd & Hrange & Hl0).
  destruct (twoOpt_terminates_from distMatrix people constantPairs n Hsq Hsym eq_refl
              (permutations (seq 0 n)) fuel r0) as (r1 & Hopt & Hr1 & _).
  - intros r Hr. apply permutations_Permutation. by rewrite Hr.
  - done.
  - unfold rank. eapply Nat.le_lt_trans; [apply length_filter|].
    by rewrite length_permutations, length_seq.
  - exists r0, r1. repeat split; try done. apply enforceConstantPairs_Permutation.
Qed.

Lemma attempt_order_total (fuel startIdx : nat) :
  startIdx < n -> fact n < fuel ->
  exists o, attempt_order fuel distMatrix people constantPairs startIdx = Ok o
            /\ o ≡ₚ seq 0 n.
Proof.
  intros Hs Hfuel. unfold attempt_order.
  destruct (attempt_stages fuel startIdx Hs Hfuel)
    as (r0 & r1 & -> & Hr0 & Hopt & Hr1 & He).
  simpl. rewrite Hopt. simpl. eexists. split; [done|].
  by rewrite He, Hr1.
Qed.

Lemma attempt_result_total (fuel startIdx : nat) :
  startIdx < n -> fact n < fuel ->
  exists o q, attempt_result fuel distMatrix people constantPairs optimizationMode startIdx
                = Ok (o, Fin q)
              /\ o ≡ₚ seq 0 n.
Proof.
  intros Hs Hfuel. unfold attempt_result.
  destruct (attempt_order_total fuel startIdx Hs Hfuel) as (o & -> & Ho). simpl.
  destruct (route_score_total optimizationMode o distMatrix people) as (q & ->).
  - apply createDistanceMatrix_square.
  - by apply Permutation_indices.
  - simpl. eauto.
Qed.
End attempt.

(** With no participant the attempt still runs: it starts at index 0. *)
Lemma attempt_result_empty (distanceFunction : DistanceFunction)
    (optimizationMode : OptimizationMode) (fuel : nat) :
  attempt_result (S fuel)
    (createDistanceMatrix [] (getDistanceFunction distanceFunction) (findConstantPairs []))
    [] (findConstantPairs []) optimizationMode 0
  = Ok ([0], match optimizationMode with
             | distance => Fin 0
             | poor_connections => Fin 1
             end).
Proof. destruct optimizationMode; reflexivity. Qed.

(** ** The multi-start loop *)

Lemma num_lt_trans (a b c : number) :
  num_lt a b = true -> num_lt b c = true -> num_lt a c = true.
Proof.
  destruct a as [x| |], b as [y| |], c as [z| |]; simpl; try done.
  rewrite !Qltb_lt. apply Qlt_trans.
Qed.

Section driver.
Variable fuel : nat.
Variable random : nat -> Q.
Variable distMatrix : Matrix.
Variable people : list Person.
Variable constantPairs : JsMap.
Variable optimizationMode : OptimizationMode.

Local Abbreviation body :=
  (attempt_body fuel random distMatrix people constantPairs optimizationMode).
Local Abbreviation result_of k :=
  (attempt_result fuel distMatrix people constantPairs optimizationMode
     (startIdx_of (random k) (length people))).

Lemma attempt_body_Ok (best best' : Best) (k : nat) :
  body best k = Ok best' ->
  exists r, result_of k = Ok r /\
    best' = if num_lt r.2 (bestOverallScore best)
            then mkBest (Some r.1) r.2 (reported best ++ [(k + 1, r.2)])
            else best.
Proof.
  unfold attempt_body. intros H. inv_bind H.
  exists a. split; [done|]. destruct (num_lt _ _); congruence.
Qed.

(** The best score is below or equal to every score computed, and the
    best order and score are those of one attempt unless no attempt
    improved on the initial ones. *)
Lemma attempts_loop (m k : nat) (best0 best : Best) :
  foldlM body best0 (seq k m) = Ok best ->
  exists results,
    length results = m
    /\ (forall i r, results !! i = Some r -> result_of (k + i) = Ok r)
    /\ (forall r, r ∈ results -> num_lt r.2 (bestOverallScore best) = false)
    /\ ((bestOverallOrder best = bestOverallOrder best0
         /\ bestOverallScore best = bestOverallScore best0)
        \/ (exists r, r ∈ results /\ bestOverallOrder best = Some r.1
              /\ bestOverallScore best = r.2
              /\ num_lt r.2 (bestOverallScore best0) = true)).
Proof.
  revert k best0. induction m as [|m IH]; intros k best0 H; simpl in H.
  - injection H as <-. exists []. repeat split; try done.
    + intros r Hr. by apply elem_of_nil in Hr.
    + by left.
  - inv_bind H. rename a into best1.
    apply attempt_body_Ok in E as (r & Hr & Hbest1).
    destruct (IH _ _ H) as (results & Hlen & Hres & Hlow & Hatt).
    exists (r :: results). split; [simpl; lia|]. split; [|split].
    + intros [|i] r' Hi; simpl in Hi.
      * injection Hi as <-. by rewrite Nat.add_0_r.
      * replace (k + S i) with (S k + i) by lia. auto.
    + assert (num_lt r.2 (bestOverallScore best1) = false) as Hr1.
      { rewrite Hbest1. destruct (num_lt r.2 (bestOverallScore best0)) eqn:E; [|done].
        simpl. apply num_lt_irrefl. }
      intros r' [->|Hr']%elem_of_cons; [|auto].
      destruct Hatt as [[_ ->]|(r2 & _ & _ & -> & Hlt)]; [done|].
      destruct (num_lt r.2 r2.2) eqn:E; [|done].
      by rewrite (num_lt_trans _ _ _ E Hlt) in Hr1.
    + destruct (num_lt r.2 (bestOverallScore best0)) eqn:Hupd; subst best1; simpl in *.
      * right. destruct Hatt as [[-> ->]|(r2 & Hin & -> & -> & Hlt)].
        -- exists r. repeat split; [left | done..].
        -- exists r2. repeat split; [by right | done.. |].
           eapply num_lt_trans; eauto.
      * destruct Hatt as [?|(r2 & Hin & -> & -> & Hlt)]; [by left|].
        right. exists r2. repeat split; [by right | done..].
Qed.

Lemma attempts_reported (m k : nat) (best0 best : Best) :
  foldlM body best0 (seq k m) = Ok best ->
  exists log, reported best = reported best0 ++ log.
Proof.
  revert k best0. induction m as [|m IH]; intros k best0 H; simpl in H.
  - injection H as <-. exists []. by rewrite app_nil_r.
  - inv_bind H. apply attempt_body_Ok in E as (r & _ & ->).
    destruct (IH _ _ H) as (log & ->).
    destruct (num_lt _ _); simpl; [|eauto].
    rewrite <- app_assoc. eauto.
Qed.

Lemma attempts_total (m k : nat) (best0 : Best) :
  (forall i, exists r, result_of i = Ok r) ->
  exists best, foldlM body best0 (seq k m) = Ok best.
Proof.
  intros Htot.
  destruct (foldlM_invariant (fun _ => True) (fun _ => True) body (seq k m) best0)
    as (best & -> & _); [by apply Forall_forall | done | | eauto].
  intros s i _ _. destruct (Htot i) as [r Hr].
  unfold attempt_body. rewrite Hr. simpl.
  destruct (num_lt _ _); eauto.
Qed.
End driver.

(** What every attempt of a call returns, with enough fuel. *)
Lemma optimizeSeating_attempt (fuel : nat) (random : nat -> Q) (people : list Person)
    (distanceFunction : DistanceFunction) (optimizationMode : OptimizationMode) (k : nat) :
  (forall k, 0 <= random k < 1)%Q -> fact (length people) < fuel ->
  exists o q,
    attempt_result fuel
      (createDistanceMatrix people (getDistanceFunction distanceFunction)
         (findConstantPairs people))
      people (findConstantPairs people) optimizationMode
      (startIdx_of (random k) (length people)) = Ok (o, Fin q)
    /\ (people <> [] -> o ≡ₚ seq 0 (length people)).
Proof.
  intros Hrand Hfuel. destruct people as [|p people'] eqn:Hp.
  - rewrite startIdx_of_zero. destruct fuel as [|fuel]; [simpl in Hfuel; lia|].
    rewrite attempt_result_empty.
    destruct optimizationMode; eexists _, _; (split; [done|]); intros Hne; by destruct Hne.
  - rewrite <- Hp in *.
    destruct (attempt_result_total people distanceFunction optimizationMode fuel
                (startIdx_of (random k) (length people))) as (o & q & Ho & Hperm).
    + apply startIdx_of_range; [apply Hrand | subst; simpl; lia].
    + done.
    + eauto.
Qed.

(** The shape of a call that returns. *)
Lemma optimizeSeating_Ok (fuel : nat) (random : nat -> Q) (people : list Person)
    (attempts : nat) (distanceFunction : DistanceFunction)
    (optimizationMode : OptimizationMode) (best : Best) :
  foldlM (attempt_body fuel random
            (createDistanceMatrix people (getDistanceFunction distanceFunction)
               (findConstantPairs people))
            people (findConstantPairs people) optimizationMode)
    (mkBest None Infinity []) (seq 0 attempts) = Ok best ->
  optimizeSeating fuel random people attempts distanceFunction optimizationMode =
    Ok (mkSeatingResult
          (match bestOverallOrder best with
           | Some o => Some (enforceConstantPairs o (findConstantPairs people))
           | None => None
           end)
          (bestOverallScore best) people,
        reported best).
Proof. intros H. unfold optimizeSeating. by rewrite H. Qed.

(** ** Pinned pairs under segment reversal *)

Lemma areNeighbors_spec (p q n : Z) :
  areNeighbors p q n = true <->
  (Z.abs (p - q) = 1 \/ (p = 0 /\ q = n - 1) \/ (q = 0 /\ p = n - 1))%Z.
Proof.
  unfold areNeighbors.
  rewrite !orb_true_iff, !andb_true_iff, !Z.eqb_eq. tauto.
Qed.

Lemma inSegment_spec (p i j : Z) :
  inSegment p i j = true <-> (i <= p <= j)%Z.
Proof. unfold inSegment. rewrite andb_true_iff, !Z.leb_le. tauto. Qed.

Lemma reverse_segment_lookup (route : list nat) (i j k : nat) :
  i <= j -> j < length route ->
  reverse_segment route i j !! k = route !! mirror i j k.
Proof.
  intros Hij Hj. unfold reverse_segment, splice, mirror.
  assert (length (take (j + 1 - i) (drop i route)) = j + 1 - i) as Hseg.
  { rewrite length_take, length_drop. lia. }
  case_bool_decide as Hk.
  - rewrite lookup_app_r by (rewrite length_take; lia).
    rewrite length_take, Nat.min_l by lia.
    rewrite lookup_app_l by (rewrite length_reverse, Hseg; lia).
    rewrite reverse_lookup by (rewrite Hseg; lia).
    rewrite Hseg, lookup_take_lt by lia.
    rewrite lookup_drop. f_equal. lia.
  - destruct (decide (k < i)) as [Hlt|Hge].
    + rewrite lookup_app_l by (rewrite length_take; lia).
      by rewrite lookup_take_lt.
    + rewrite lookup_app_r by (rewrite length_take; lia).
      rewrite length_take, Nat.min_l by lia.
      rewrite lookup_app_r by (rewrite length_reverse, Hseg; lia).
      rewrite length_reverse, Hseg, lookup_drop. f_equal. lia.
Qed.

Lemma mirror_involutive (i j k : nat) : mirror i j (mirror i j k) = k.
Proof. unfold mirror. repeat case_bool_decide; lia. Qed.

Lemma indexOf_reverse_segment (route : list nat) (i j : nat) (x p : nat) :
  NoDup route -> i <= j -> j < length route ->
  indexOf route x = Z.of_nat p ->
  indexOf (reverse_segment route i j) x = Z.of_nat (mirror i j p).
Proof.
  intros Hnd Hij Hj Hp.
  destruct (indexOf_found route x) as (p' & Hp' & Hlook); [lia|].
  assert (p' = p) as -> by lia.
  apply indexOf_NoDup.
  - by rewrite reverse_segment_Permutation.
  - by rewrite reverse_segment_lookup, mirror_involutive.
Qed.

Lemma entry_breaks_false (route : list nat) (i j : nat) (e : nat * nat) (p1 p2 : nat) :
  indexOf route e.1 = Z.of_nat p1 -> indexOf route e.2 = Z.of_nat p2 ->
  areNeighbors (Z.of_nat p1) (Z.of_nat p2) (Z.of_nat (length route)) = true ->
  entry_breaks route (Z.of_nat i) (Z.of_nat j) e = false ->
  (i <= p1 <= j <-> i <= p2 <= j)
  /\ (i <= p1 <= j ->
      areNeighbors (Z.of_nat j - (Z.of_nat p1 - Z.of_nat i))
        (Z.of_nat j - (Z.of_nat p2 - Z.of_nat i)) (Z.of_nat (length route)) = true).
Proof.
  intros H1 H2 Hadj. unfold entry_breaks. rewrite H1, H2, Hadj.
  destruct (Z.eqb_spec (Z.of_nat p1) (-1)); [lia|].
  destruct (Z.eqb_spec (Z.of_nat p2) (-1)); [lia|]. simpl.
  destruct (inSegment (Z.of_nat p1) _ _) eqn:E1, (inSegment (Z.of_nat p2) _ _) eqn:E2;
    simpl; try discriminate.
  - apply inSegment_spec in E1, E2. rewrite negb_false_iff. intros Hn.
    split; [lia | done].
  - intros _.
    assert (~ (Z.of_nat i <= Z.of_nat p1 <= Z.of_nat j)%Z) by
      (rewrite <- inSegment_spec; congruence).
    assert (~ (Z.of_nat i <= Z.of_nat p2 <= Z.of_nat j)%Z) by
      (rewrite <- inSegment_spec; congruence).
    split; lia.
Qed.

(** A move that no entry forbids keeps every adjacent pair adjacent. *)
Lemma adjacent_in_reverse_segment (route : list nat) (i j : nat) (e : nat * nat) :
  NoDup route -> 1 <= i -> i < j -> j + 1 < length route ->
  entry_breaks route (Z.of_nat i) (Z.of_nat j) e = false ->
  adjacent_in route e -> adjacent_in (reverse_segment route i j) e.
Proof.
  intros Hnd Hi Hij Hj Hbreak (H1 & H2 & Hadj).
  destruct (indexOf_found route e.1 H1) as (p1 & E1 & Hp1).
  destruct (indexOf_found route e.2 H2) as (p2 & E2 & Hp2).
  rewrite E1, E2 in Hadj.
  destruct (entry_breaks_false route i j e p1 p2 E1 E2 Hadj Hbreak) as [Hboth Hmirror].
  unfold adjacent_in.
  rewrite (indexOf_reverse_segment route i j e.1 p1), (indexOf_reverse_segment route i j e.2 p2)
    by (done || lia).
  rewrite reverse_segment_length.
  split; [lia|]. split; [lia|].
  unfold mirror. case_bool_decide as Hin1; case_bool_decide as Hin2; try tauto.
  specialize (Hmirror Hin1).
  apply areNeighbors_spec. apply areNeighbors_spec in Hmirror. lia.
Qed.

Lemma wouldBreak_false (route : list nat) (i j : nat) (constantPairs : JsMap) (e : nat * nat) :
  wouldBreakConstantPair route i j constantPairs = false -> e ∈ constantPairs ->
  entry_breaks route (Z.of_nat i) (Z.of_nat j) e = false.
Proof.
  unfold wouldBreakConstantPair. intros H He.
  destruct (entry_breaks _ _ _ e) eqn:E; [|done].
  assert (existsb (entry_breaks route (Z.of_nat i) (Z.of_nat j)) constantPairs = true);
    [|congruence].
  apply existsb_exists. exists e. split; [by apply list_elem_of_In | done].
Qed.

Lemma wouldBreak_true (route : list nat) (i j : nat) (constantPairs : JsMap) (e : nat * nat) :
  e ∈ constantPairs -> entry_breaks route (Z.of_nat i) (Z.of_nat j) e = true ->
  wouldBreakConstantPair route i j constantPairs = true.
Proof.
  intros He H. apply existsb_exists. exists e. split; [by apply list_elem_of_In | done].
Qed.

Lemma try_move_rejected (distMatrix : Matrix) (people : list Person)
    (constantPairs : JsMap) (route : list nat) (i j : nat) :
  wouldBreakConstantPair route i j constantPairs = true ->
  try_move distMatrix people constantPairs route i j = Ok None.
Proof. intros H. unfold try_move. by rewrite H. Qed.

(** ** The driver on valid inputs *)

(** With enough fuel the loop ends; every attempt has returned an order
    and a finite score; the best score is a lower bound of the scores,
    and best order and best score are those of one of the attempts. *)
Lemma optimizeSeating_best (fuel : nat) (random : nat -> Q) (people : list Person)
    (attempts : nat) (distanceFunction : DistanceFunction)
    (optimizationMode : OptimizationMode) :
  (forall k, 0 <= random k < 1)%Q -> fact (length people) < fuel ->
  let constantPairs := findConstantPairs people in
  let distMatrix :=
    createDistanceMatrix people (getDistanceFunction distanceFunction) constantPairs in
  exists best results,
    foldlM (attempt_body fuel random distMatrix people constantPairs optimizationMode)
      (mkBest None Infinity []) (seq 0 attempts) = Ok best
    /\ length results = attempts
    /\ (forall k r, results !! k = Some r ->
          attempt_result fuel distMatrix people constantPairs optimizationMode
            (startIdx_of (random k) (length people)) = Ok r
          /\ (exists q, r.2 = Fin q)
          /\ (people <> [] -> r.1 ≡ₚ seq 0 (length people)))
    /\ (forall r, r ∈ results -> num_lt r.2 (bestOverallScore best) = false)
    /\ (1 <= attempts ->
        exists r, r ∈ results /\ bestOverallOrder best = Some r.1
                  /\ bestOverallScore best = r.2).
Proof.
  intros Hrand Hfuel constantPairs distMatrix.
  destruct (attempts_total fuel random distMatrix people constantPairs optimizationMode
              attempts 0 (mkBest None Infinity [])) as [best Hbest].
  { intros k.
    destruct (optimizeSeating_attempt fuel random people distanceFunction
                optimizationMode k Hrand Hfuel) as (o & q & Ho & _). eauto. }
  destruct (attempts_loop _ _ _ _ _ _ _ _ _ _ Hbest)
    as (results & Hlen & Hres & Hlow & Hatt).
  assert (forall k r, results !! k = Some r ->
            attempt_result fuel distMatrix people constantPairs optimizationMode
              (startIdx_of (random k) (length people)) = Ok r
            /\ (exists q, r.2 = Fin q)
            /\ (people <> [] -> r.1 ≡ₚ seq 0 (length people))) as Hres'.
  { intros k r Hk. apply Hres in Hk. simpl in Hk. split; [done|].
    destruct (optimizeSeating_attempt fuel random people distanceFunction
                optimizationMode k Hrand Hfuel) as (o & q & Ho & Hperm).
    fold constantPairs distMatrix in Ho. rewrite Ho in Hk. injection Hk as <-.
    simpl. eauto. }
  exists best, results.
  split; [done|]. split; [done|]. split; [exact Hres'|]. split; [exact Hlow|].
  intros Hatt1.
  destruct Hatt as [[_ Hinit]|(r & Hin & Ho & Hs & _)]; [|eauto].
  exfalso. simpl in Hinit.
  destruct (lookup_lt_is_Some_2 results 0) as [r0 Hr0]; [lia|].
  destruct (Hres' 0 r0 Hr0) as (_ & (q & Hq) & _).
  pose proof (Hlow r0 (list_elem_of_lookup_2 _ _ _ Hr0)) as Hlow0.
  by rewrite Hinit, Hq in Hlow0.
Qed.

(** * The claims *)

(** C1.  For every non-empty participant list, every attempts count >= 1
    and every sequence of values of [Math.random()] (each in [0, 1), so
    that every start index is one of [0..n-1]), [optimizeSeating] returns,
    and the order it returns is a permutation of all participant indices
    [0..n-1]; in every attempt the nearest-neighbour constructor returns
    such a permutation, and the refiner and pair enforcement return
    permutations of what they are given.  The fuel of [twoOpt] is any
    number above n!. *)
Theorem optimizeSeating_order_permutation (fuel : nat) (random : nat -> Q)
    (people : list Person) (attempts : nat) (distanceFunction : DistanceFunction)
    (optimizationMode : OptimizationMode) :
  people <> [] -> 1 <= attempts ->
  (forall k, 0 <= random k < 1)%Q ->
  fact (length people) < fuel ->
  let n := length people in
  let constantPairs := findConstantPairs people in
  let distMatrix :=
    createDistanceMatrix people (getDistanceFunction distanceFunction) constantPairs in
  (exists o s log,
      optimizeSeating fuel random people attempts distanceFunction optimizationMode
        = Ok (mkSeatingResult (Some o) s people, log)
      /\ o ≡ₚ seq 0 n)
  /\ (forall k, exists r0 r1,
        nearestNeighborWithCommonThemes distMatrix people constantPairs
          (startIdx_of (random k) n) = Ok r0
        /\ r0 ≡ₚ seq 0 n
        /\ twoOpt fuel distMatrix people constantPairs r0 = Ok r1
        /\ r1 ≡ₚ r0
        /\ enforceConstantPairs r1 constantPairs ≡ₚ r1).
Proof.
  intros Hne Hatt Hrand Hfuel n constantPairs distMatrix. split.
  - destruct (optimizeSeating_best fuel random people attempts distanceFunction
                optimizationMode Hrand Hfuel)
      as (best & results & Hbest & _ & Hres & _ & Hbestr).
    destruct (Hbestr Hatt) as (r & Hin & Ho & Hs).
    apply list_elem_of_lookup in Hin as [k Hk].
    destruct (Hres k r Hk) as (_ & _ & Hperm).
    rewrite (optimizeSeating_Ok _ _ _ _ _ _ _ Hbest), Ho.
    eexists _, _, _. split; [done|].
    rewrite enforceConstantPairs_Permutation. auto.
  - intros k. apply attempt_stages; [|done].
    apply startIdx_of_range; [apply Hrand|].
    subst n. destruct people; [done | simpl; lia].
Qed.

Lemma sample_random_range (k : nat) : (0 <= sample_random k < 1)%Q.
Proof.
  unfold sample_random. pose proof (Nat.mod_upper_bound k 4).
  split.
  - unfold Qle. simpl. lia.
  - unfold Qlt. simpl. lia.
Qed.

Lemma optimizeSeating_order_permutation_witness :
  let n := length sample_people in
  let constantPairs := findConstantPairs sample_people in
  let distMatrix :=
    createDistanceMatrix sample_people (getDistanceFunction commonality) constantPairs in
  (exists o s log,
      optimizeSeating 25 sample_random sample_people 3 commonality poor_connections
        = Ok (mkSeatingResult (Some o) s sample_people, log)
      /\ o ≡ₚ seq 0 n)
  /\ (forall k, exists r0 r1,
        nearestNeighborWithCommonThemes distMatrix sample_people constantPairs
          (startIdx_of (sample_random k) n) = Ok r0
        /\ r0 ≡ₚ seq 0 n
        /\ twoOpt 25 distMatrix sample_people constantPairs r0 = Ok r1
        /\ r1 ≡ₚ r0
        /\ enforceConstantPairs r1 constantPairs ≡ₚ r1).
Proof.
  apply (optimizeSeating_order_permutation 25 sample_random sample_people 3
           commonality poor_connections).
  - discriminate.
  - lia.
  - apply sample_random_range.
  - vm_compute. lia.
Defined.

(** C6.  For every sequence of values of [Math.random()], the score in the
    result of [optimizeSeating] is the minimum of the scores of the
    attempts made in the loop: no attempt has a strictly better score,
    and with at least one attempt it is the score of one of them. *)
Theorem optimizeSeating_score_minimum (fuel : nat) (random : nat -> Q)
    (people : list Person) (attempts : nat) (distanceFunction : DistanceFunction)
    (optimizationMode : OptimizationMode) :
  (forall k, 0 <= random k < 1)%Q ->
  fact (length people) < fuel ->
  exists sr log results,
    optimizeSeating fuel random people attempts distanceFunction optimizationMode
      = Ok (sr, log)
    /\ length results = attempts
    /\ (forall k r, results !! k = Some r ->
          attempt_result fuel
            (createDistanceMatrix people (getDistanceFunction distanceFunction)
               (findConstantPairs people))
            people (findConstantPairs people) optimizationMode
            (startIdx_of (random k) (length people)) = Ok r)
    /\ (forall r, r ∈ results -> num_lt r.2 (score sr) = false)
    /\ (1 <= attempts -> exists r, r ∈ results /\ score sr = r.2).
Proof.
  intros Hrand Hfuel.
  destruct (optimizeSeating_best fuel random people attempts distanceFunction
              optimizationMode Hrand Hfuel)
    as (best & results & Hbest & Hlen & Hres & Hlow & Hbestr).
  rewrite (optimizeSeating_Ok _ _ _ _ _ _ _ Hbest).
  eexists _, _, results. split; [done|]. simpl. repeat split; try done.
  - intros k r Hk. by apply Hres.
  - intros Hatt. destruct (Hbestr Hatt) as (r & Hin & _ & Hs). eauto.
Qed.

Lemma optimizeSeating_score_minimum_witness :
  exists sr log results,
    optimizeSeating 25 sample_random sample_people 3 avg_distance distance
      = Ok (sr, log)
    /\ length results = 3
    /\ (forall k r, results !! k = Some r ->
          attempt_result 25
            (createDistanceMatrix sample_people (getDistanceFunction avg_distance)
               (findConstantPairs sample_people))
            sample_people (findConstantPairs sample_people) distance
            (startIdx_of (sample_random k) (length sample_people)) = Ok r)
    /\ (forall r, r ∈ results -> num_lt r.2 (score sr) = false)
    /\ (1 <= 3 -> exists r, r ∈ results /\ score sr = r.2).
Proof.
  apply (optimizeSeating_score_minimum 25 sample_random sample_people 3
           avg_distance distance).
  - apply sample_random_range.
  - vm_compute. lia.
Defined.

(** C10.  For every participant list with at least one participant and
    every attempts count >= 1, the first attempt returns a finite score,
    strictly below the initial [Infinity]; it is reported as the first
    improvement, and [optimizeSeating] returns an order that is not
    [null] together with a finite score. *)
Theorem optimizeSeating_returns_order (fuel : nat) (random : nat -> Q)
    (people : list Person) (attempts : nat) (distanceFunction : DistanceFunction)
    (optimizationMode : OptimizationMode) :
  people <> [] -> 1 <= attempts ->
  (forall k, 0 <= random k < 1)%Q ->
  fact (length people) < fuel ->
  exists o1 q1 o q log,
    attempt_result fuel
      (createDistanceMatrix people (getDistanceFunction distanceFunction)
         (findConstantPairs people))
      people (findConstantPairs people) optimizationMode
      (startIdx_of (random 0) (length people)) = Ok (o1, Fin q1)
    /\ num_lt (Fin q1) Infinity = true
    /\ optimizeSeating fuel random people attempts distanceFunction optimizationMode
       = Ok (mkSeatingResult (Some o) (Fin q) people, (1, Fin q1) :: log).
Proof.
  intros Hne Hatt Hrand Hfuel.
  destruct (optimizeSeating_best fuel random people attempts distanceFunction
              optimizationMode Hrand Hfuel)
    as (best & results & Hbest & _ & Hres & _ & Hbestr).
  destruct (Hbestr Hatt) as (r & Hin & Ho & Hs).
  apply list_elem_of_lookup in Hin as [k Hk].
  destruct (Hres k r Hk) as (_ & (q & Hq) & _).
  destruct (optimizeSeating_attempt fuel random people distanceFunction
              optimizationMode 0 Hrand Hfuel) as (o1 & q1 & Ho1 & _).
  rewrite (optimizeSeating_Ok _ _ _ _ _ _ _ Hbest), Ho, Hs, Hq.
  destruct attempts as [|m]; [lia|]. simpl in Hbest.
  unfold attempt_body at 1 in Hbest. rewrite Ho1 in Hbest. simpl in Hbest.
  destruct (attempts_reported _ _ _ _ _ _ _ _ _ _ Hbest) as (log & ->). simpl.
  eexists o1, q1, _, q, log. done.
Qed.

Lemma optimizeSeating_returns_order_witness :
  exists o1 q1 o q log,
    attempt_result 25
      (createDistanceMatrix sample_people (getDistanceFunction commonality)
         (findConstantPairs sample_people))
      sample_people (findConstantPairs sample_people) distance
      (startIdx_of (sample_random 0) (length sample_people)) = Ok (o1, Fin q1)
    /\ num_lt (Fin q1) Infinity = true
    /\ optimizeSeating 25 sample_random sample_people 2 commonality distance
       = Ok (mkSeatingResult (Some o) (Fin q) sample_people, (1, Fin q1) :: log).
Proof.
  apply (optimizeSeating_returns_order 25 sample_random sample_people 2
           commonality distance).
  - discriminate.
  - lia.
  - apply sample_random_range.
  - vm_compute. lia.
Defined.

(** C8 (the claim fails).  Called with an empty participant list,
    [optimizeSeating] does run an attempt and returns a normal result:
    the order [[0]] with score 1. *)
Lemma optimizeSeating_empty_counterexample :
  optimizeSeating 1 (fun _ => 0%Q) [] 1 commonality poor_connections
    = Ok (mkSeatingResult (Some [0]) (Fin 1) [], [(1, Fin 1)])
  /\ forall e, optimizeSeating 1 (fun _ => 0%Q) [] 1 commonality poor_connections
               <> Err e.
Proof. split; [reflexivity | discriminate]. Qed.

(** C8 (amended).  Called with an empty participant list and at least one
    attempt, [optimizeSeating] neither fails nor loops: every attempt
    starts at index 0 and yields the order [[0]], and the result is that
    order with the score of the first attempt, 0 in distance mode and 1 in
    poor-connections mode. *)
Theorem optimizeSeating_empty (fuel : nat) (random : nat -> Q) (attempts : nat)
    (distanceFunction : DistanceFunction) (optimizationMode : OptimizationMode) :
  let s := match optimizationMode with
           | distance => Fin 0
           | poor_connections => Fin 1
           end in
  optimizeSeating (S fuel) random [] (S attempts) distanceFunction optimizationMode
    = Ok (mkSeatingResult (Some [0]) s [], [(1, s)]).
Proof.
  intros s.
  assert (forall m k,
    foldlM (attempt_body (S fuel) random
              (createDistanceMatrix [] (getDistanceFunction distanceFunction)
                 (findConstantPairs []))
              [] (findConstantPairs []) optimizationMode)
      (mkBest (Some [0]) s [(1, s)]) (seq k m)
    = Ok (mkBest (Some [0]) s [(1, s)])) as Hrest.
  { induction m as [|m IH]; intros k; [done|]. simpl.
    unfold attempt_body at 1. change (length []) with 0.
    rewrite startIdx_of_zero, attempt_result_empty. simpl.
    fold s. rewrite num_lt_irrefl. apply IH. }
  apply eq_trans with (y := Ok (mkSeatingResult
    (match bestOverallOrder (mkBest (Some [0]) s [(1, s)]) with
     | Some o => Some (enforceConstantPairs o (findConstantPairs []))
     | None => None
     end) (bestOverallScore (mkBest (Some [0]) s [(1, s)])) [],
    reported (mkBest (Some [0]) s [(1, s)]))); [|done].
  apply optimizeSeating_Ok. simpl.
  unfold attempt_body at 1. change (length []) with 0.
  rewrite startIdx_of_zero, attempt_result_empty. simpl. fold s.
  assert (num_lt s Infinity = true) as -> by (subst s; by destruct optimizationMode).
  simpl. apply Hrest.
Qed.

(** ** Filling the tables *)

Lemma fill_side_spec (k : nat) (people : list Person) (order : list nat)
    (personIdx : nat) (side : list Seat) :
  fill_side k people order personIdx side =
    (side ++ seats_of people (take k (drop personIdx order)),
     personIdx + Nat.min k (length order - personIdx)).
Proof.
  revert personIdx side. induction k as [|k IH]; intros personIdx side.
  - simpl. by rewrite app_nil_r, Nat.add_0_r.
  - cbn [fill_side]. destruct (order !! personIdx) as [o|] eqn:E.
    + rewrite IH. rewrite (drop_S _ _ _ E). cbn [take seats_of fmap list_fmap].
      rewrite <- app_assoc. cbn [app].
      apply lookup_lt_Some in E. f_equal. lia.
    + apply lookup_ge_None in E. rewrite drop_ge by lia.
      rewrite take_nil. cbn [seats_of fmap list_fmap].
      rewrite app_nil_r. f_equal. lia.
Qed.

Lemma drop_min {A : Type} (l : list A) (i c : nat) :
  drop (i + Nat.min c (length l - i)) l = drop (i + c) l.
Proof.
  destruct (decide (c <= length l - i)) as [Hc|Hc].
  - f_equal. lia.
  - rewrite !drop_ge by lia. done.
Qed.

(** A table takes the next [taken s] participants, or those that are
    left: the left side in route order, then the right side reversed. *)
Lemma fill_table_spec (people : list Person) (order : list nat)
    (personIdx seatsPerTable : nat) :
  let c := Nat.div2 (S seatsPerTable) in
  fill_table people order personIdx seatsPerTable =
    (seats_of people (take c (drop personIdx order))
       ++ reverse (seats_of people (take c (drop (personIdx + c) order))),
     personIdx + Nat.min (taken seatsPerTable) (length order - personIdx)).
Proof.
  intros c. unfold fill_table. fold c. rewrite !fill_side_spec.
  rewrite (drop_min order personIdx c). cbn [app].
  f_equal. unfold taken. fold c. lia.
Qed.

Lemma fill_table_Permutation (people : list Person) (order : list nat)
    (personIdx seatsPerTable : nat) :
  (fill_table people order personIdx seatsPerTable).1 ≡ₚ
    seats_of people (take (taken seatsPerTable) (drop personIdx order)).
Proof.
  rewrite fill_table_spec. simpl. rewrite reverse_Permutation.
  unfold seats_of. rewrite <- fmap_app. f_equiv.
  unfold taken. replace (2 * Nat.div2 (S seatsPerTable))
    with (Nat.div2 (S seatsPerTable) + Nat.div2 (S seatsPerTable)) by lia.
  rewrite <- take_take_drop, drop_drop. done.
Qed.

Lemma fill_tables_Permutation (people : list Person) (order : list nat)
    (tableSizes : list nat) (personIdx : nat) :
  concat (fill_tables people order personIdx tableSizes) ≡ₚ
    seats_of people (take (sum_list (taken <$> tableSizes)) (drop personIdx order)).
Proof.
  revert personIdx. induction tableSizes as [|s rest IH]; intros personIdx; [done|].
  simpl fill_tables.
  pose proof (fill_table_Permutation people order personIdx s) as Htable.
  rewrite fill_table_spec in *. simpl in *.
  rewrite Htable, IH, (drop_min order personIdx (taken s)).
  unfold seats_of. rewrite <- fmap_app. f_equiv.
  by rewrite <- take_take_drop, drop_drop.
Qed.

Lemma taken_ge (s : nat) : s <= taken s.
Proof.
  unfold taken. rewrite Nat.div2_div.
  pose proof (Nat.div_mod_eq (S s) 2). pose proof (Nat.mod_upper_bound (S s) 2). lia.
Qed.

Lemma sum_taken_ge (tableSizes : list nat) :
  sum_list tableSizes <= sum_list (taken <$> tableSizes).
Proof.
  induction tableSizes as [|s rest IH]; [done|].
  rewrite fmap_cons.
  change (sum_list (s :: rest)) with (s + sum_list rest).
  change (sum_list (taken s :: (taken <$> rest)))
    with (taken s + sum_list (taken <$> rest)).
  pose proof (taken_ge s). lia.
Qed.

Lemma seats_of_seq (people : list Person) :
  seats_of people (seq 0 (length people)) = Seated <$> people.
Proof.
  apply list_eq. intros i. unfold seats_of. rewrite !list_lookup_fmap.
  destruct (decide (i < length people)) as [Hi|Hi].
  - rewrite lookup_seq_lt by done. simpl.
    destruct (lookup_lt_is_Some_2 people i Hi) as [p ->]. done.
  - rewrite lookup_seq_ge by lia. rewrite lookup_ge_None_2 by lia. done.
Qed.

(** With a route that is a permutation and enough seats, the initial
    placement seats every participant once and leaves no seat empty. *)
Lemma fill_tables_all_seated (people : list Person) (order : list nat)
    (tableSizes : list nat) :
  order ≡ₚ seq 0 (length people) ->
  length people <= sum_list tableSizes ->
  all_seated people (fill_tables people order 0 tableSizes).
Proof.
  intros Hperm Hcap.
  assert (concat (fill_tables people order 0 tableSizes) ≡ₚ Seated <$> people) as Hall.
  { rewrite fill_tables_Permutation, drop_0, take_ge.
    - rewrite <- seats_of_seq. unfold seats_of. by rewrite Hperm.
    - rewrite Hperm, length_seq. pose proof (sum_taken_ge tableSizes). lia. }
  split; [|done].
  apply Forall_forall. intros table Htable. apply Forall_forall. intros x Hx.
  assert (x ∈ Seated <$> people) as Hin.
  { rewrite <- Hall. apply list_elem_of_In, in_concat. exists table.
    split; by apply list_elem_of_In. }
  apply list_elem_of_fmap in Hin as (p & -> & _). done.
Qed.

(** ** Looking a name up *)

Lemma locate_in_seats_spec (nm : string) (t : nat) (seats : list Seat) (s : nat)
    (found : option (nat * nat)) :
  (locate_in_seats nm t seats s found = found
   /\ forall x, x ∈ seats -> seat_named nm x = false)
  \/ exists i x, locate_in_seats nm t seats s found = Some (t, s + i)
       /\ seats !! i = Some x /\ seat_named nm x = true.
Proof.
  revert s found. induction seats as [|x seats IH]; intros s found; simpl.
  - left. split; [done|]. intros x Hx. by apply elem_of_nil in Hx.
  - destruct (IH (S s) (if seat_named nm x then Some (t, s) else found))
      as [[-> Hnone]|(i & y & -> & Hi & Hy)].
    + destruct (seat_named nm x) eqn:E.
      * right. exists 0, x. by rewrite Nat.add_0_r.
      * left. split; [done|]. intros y [->|Hy]%elem_of_cons; auto.
    + right. exists (S i), y. repeat split; [|done..]. do 2 f_equal. lia.
Qed.

Lemma locate_from_spec (nm : string) (tables : list Table) (t : nat)
    (found : option (nat * nat)) :
  (locate_from nm tables t found = found
   /\ forall table x, table ∈ tables -> x ∈ table -> seat_named nm x = false)
  \/ exists i s x, locate_from nm tables t found = Some (t + i, s)
       /\ seat_at tables i s = Some x /\ seat_named nm x = true.
Proof.
  revert t found. induction tables as [|table tables IH]; intros t found; simpl.
  - left. split; [done|]. intros table x Hx. by apply elem_of_nil in Hx.
  - destruct (IH (S t) (locate_in_seats nm t table 0 found))
      as [[-> Hnone]|(i & s & x & -> & Hi & Hx)].
    + destruct (locate_in_seats_spec nm t table 0 found)
        as [[-> Hnone']|(s & x & -> & Hs & Hx)].
      * left. split; [done|]. intros table' x [->|Hy]%elem_of_cons; eauto.
      * right. exists 0, s, x. rewrite Nat.add_0_r. repeat split; [|done].
        unfold seat_at. simpl. done.
    + right. exists (S i), s, x. repeat split; [|done..]. do 2 f_equal. lia.
Qed.

Lemma locate_Some (tables : list Table) (nm : string) (t s : nat) :
  locate tables nm = Some (t, s) ->
  exists p, seat_at tables t s = Some (Seated p) /\ name p = nm.
Proof.
  unfold locate. intros H.
  destruct (locate_from_spec nm tables 0 None) as [[E _]|(i & s' & x & E & Hx & Hn)];
    [congruence|].
  rewrite E in H. injection H as <- <-. simpl.
  destruct x as [p| |]; try done. exists p. split; [done|].
  unfold seat_named, name_is in Hn. by apply bool_decide_eq_true in Hn.
Qed.

Lemma locate_None (tables : list Table) (nm : string) (t s : nat) (p : Person) :
  locate tables nm = None -> seat_at tables t s = Some (Seated p) -> name p <> nm.
Proof.
  unfold locate. intros H Hseat Hname.
  destruct (locate_from_spec nm tables 0 None) as [[_ Hnone]|(i & s' & x & E & _)];
    [|congruence].
  unfold seat_at in Hseat. destruct (tables !! t) as [table|] eqn:Et; [|done].
  simpl in Hseat.
  assert (seat_named nm (Seated p) = false) as Hf.
  { eapply Hnone; by eapply list_elem_of_lookup_2. }
  unfold seat_named, name_is in Hf. by apply bool_decide_eq_false in Hf.
Qed.

Lemma nameToPerson_from (people : list Person) (m : gmap string Person)
    (nm : string) (p : Person) :
  foldl (fun m p => <[name p := p]> m) m people !! nm = Some p ->
  (p ∈ people /\ name p = nm) \/ m !! nm = Some p.
Proof.
  revert m. induction people as [|q people IH]; intros m H; simpl in H; [by right|].
  apply IH in H as [[Hin Hn]|H].
  - left. split; [by right | done].
  - destruct (decide (name q = nm)) as [E|E].
    + rewrite <- E, lookup_insert_eq in H. injection H as ->. left. split; [left | done].
    + rewrite lookup_insert_ne in H by done. by right.
Qed.

Lemma nameToPerson_Some (people : list Person) (nm : string) (p : Person) :
  nameToPerson people !! nm = Some p -> p ∈ people /\ name p = nm.
Proof.
  intros H. apply nameToPerson_from in H as [H|H]; [done|].
  by rewrite lookup_empty in H.
Qed.

Lemma nameToPerson_is_Some_from (people : list Person) (m : gmap string Person)
    (nm : string) :
  (is_Some (m !! nm) \/ exists p, p ∈ people /\ name p = nm) ->
  is_Some (foldl (fun m p => <[name p := p]> m) m people !! nm).
Proof.
  revert m. induction people as [|q people IH]; intros m H; simpl.
  - destruct H as [H|(p & Hp & _)]; [done|]. by apply elem_of_nil in Hp.
  - apply IH. destruct (decide (name q = nm)) as [E|E].
    + left. rewrite <- E, lookup_insert_eq. eauto.
    + destruct H as [H|(p & [->|Hp]%elem_of_cons & Hn)]; [| done |eauto].
      left. by rewrite lookup_insert_ne.
Qed.

Lemma nameToPerson_unique (people : list Person) (p : Person) :
  NoDup (name <$> people) -> p ∈ people -> nameToPerson people !! name p = Some p.
Proof.
  intros Hnd Hp.
  destruct (nameToPerson_is_Some_from people ∅ (name p)) as [q Hq]; [eauto|].
  fold (nameToPerson people) in Hq. rewrite Hq. f_equal.
  apply nameToPerson_Some in Hq as [Hq Hn].
  apply list_elem_of_lookup in Hp as [i Hi]. apply list_elem_of_lookup in Hq as [j Hj].
  assert (i = j) as ->; [|congruence].
  eapply NoDup_lookup; [exact Hnd | |]; rewrite list_lookup_fmap.
  - by rewrite Hi.
  - rewrite Hj. simpl. by rewrite Hn.
Qed.

(** ** Neighbours in one table under removal and insertion *)

Lemma splice_insert_lookup {A : Type} (l : list A) (q k : nat) (x : A) :
  q <= length l ->
  splice l q 0 [x] !! k =
    if decide (k < q) then l !! k
    else if decide (k = q) then Some x else l !! (k - 1).
Proof.
  intros Hq. unfold splice. rewrite Nat.add_0_r.
  case_decide.
  - rewrite lookup_app_l by (rewrite length_take; lia). by rewrite lookup_take_lt.
  - rewrite lookup_app_r by (rewrite length_take; lia).
    rewrite length_take, Nat.min_l by lia.
    case_decide.
    + subst k. by rewrite Nat.sub_diag.
    + destruct (k - q) as [|d] eqn:E; [lia|]. simpl.
      rewrite lookup_drop. f_equal. lia.
Qed.

Section neighbours.
Context {A : Type}.
Implicit Types (l : list A) (a b c : A).

(** Removing another element keeps two neighbours neighbours. *)
Lemma neighbours_delete l a b c (q : nat) :
  neighbours l a b -> l !! q = Some c -> c <> a -> c <> b ->
  neighbours (delete q l) a b.
Proof.
  intros (s1 & s2 & H1 & H2 & Hn) Hq Ha Hb.
  assert (q <> s1) by congruence. assert (q <> s2) by congruence.
  pose proof (lookup_lt_Some _ _ _ H1). pose proof (lookup_lt_Some _ _ _ H2).
  pose proof (lookup_lt_Some _ _ _ Hq).
  exists (if decide (s1 < q) then s1 else s1 - 1),
         (if decide (s2 < q) then s2 else s2 - 1).
  split; [|split].
  - case_decide.
    + by rewrite list_lookup_delete_lt.
    + rewrite list_lookup_delete_ge by lia. rewrite <- H1. f_equal. lia.
  - case_decide.
    + by rewrite list_lookup_delete_lt.
    + rewrite list_lookup_delete_ge by lia. rewrite <- H2. f_equal. lia.
  - rewrite length_delete by eauto.
    apply areNeighbors_spec. apply areNeighbors_spec in Hn.
    repeat case_decide; lia.
Qed.

(** Inserting an element right after a third one keeps them neighbours. *)
Lemma neighbours_insert_after l a b c x (d : nat) :
  neighbours l a b -> l !! d = Some c -> c <> a -> c <> b ->
  neighbours (splice l (d + 1) 0 [x]) a b.
Proof.
  intros (s1 & s2 & H1 & H2 & Hn) Hd Ha Hb.
  assert (d <> s1) by congruence. assert (d <> s2) by congruence.
  pose proof (lookup_lt_Some _ _ _ H1). pose proof (lookup_lt_Some _ _ _ H2).
  pose proof (lookup_lt_Some _ _ _ Hd).
  exists (if decide (s1 < d + 1) then s1 else s1 + 1),
         (if decide (s2 < d + 1) then s2 else s2 + 1).
  split; [|split].
  - rewrite splice_insert_lookup by lia. repeat case_decide; try lia; try done.
    rewrite <- H1. f_equal. lia.
  - rewrite splice_insert_lookup by lia. repeat case_decide; try lia; try done.
    rewrite <- H2. f_equal. lia.
  - rewrite splice_length_insert.
    apply areNeighbors_spec. apply areNeighbors_spec in Hn.
    repeat case_decide; lia.
Qed.

(** Overwriting another element keeps them neighbours. *)
Lemma neighbours_overwrite l a b c x (q : nat) :
  neighbours l a b -> l !! q = Some c -> c <> a -> c <> b ->
  neighbours (<[q := x]> l) a b.
Proof.
  intros (s1 & s2 & H1 & H2 & Hn) Hq Ha Hb.
  assert (q <> s1) by congruence. assert (q <> s2) by congruence.
  exists s1, s2. rewrite !list_lookup_insert_ne by done.
  by rewrite length_insert.
Qed.

(** The inserted element is a neighbour of the one it is put after. *)
Lemma neighbours_inserted l c x (d : nat) :
  l !! d = Some c -> neighbours (splice l (d + 1) 0 [x]) c x.
Proof.
  intros Hd. pose proof (lookup_lt_Some _ _ _ Hd).
  exists d, (d + 1). split; [|split].
  - rewrite splice_insert_lookup by lia. by rewrite decide_True by lia.
  - rewrite splice_insert_lookup by lia.
    rewrite decide_False by lia. by rewrite decide_True.
  - apply areNeighbors_spec. lia.
Qed.
End neighbours.

(** ** Repairing one pair on the tables *)

Lemma alter_as_insert {A : Type} (f : A -> A) (l : list A) (t : nat) (x : A) :
  l !! t = Some x -> alter f t l = <[t := f x]> l.
Proof.
  intros Hx. apply list_eq. intros i.
  destruct (decide (i = t)) as [->|Hne].
  - rewrite list_lookup_alter_eq, Hx. simpl.
    by rewrite list_lookup_insert_eq by by eapply lookup_lt_Some.
  - by rewrite list_lookup_alter_ne, list_lookup_insert_ne.
Qed.

Lemma concat_insert {A : Type} (l : list (list A)) (t : nat) (x y : list A) :
  l !! t = Some x -> concat (<[t := y]> l) ++ x ≡ₚ concat l ++ y.
Proof.
  intros Hx. rewrite insert_take_drop by by eapply lookup_lt_Some.
  rewrite <- (take_drop_middle l t x Hx) at 3.
  rewrite !concat_app, !concat_cons.
  generalize (concat (take t l)) (concat (drop (S t) l)). intros u v.
  solve_Permutation.
Qed.

Lemma delete_insert_same {A : Type} (l : list A) (q : nat) (x : A) :
  delete q (<[q := x]> l) = delete q l.
Proof.
  apply list_eq. intros k. destruct (decide (k < q)).
  - by rewrite !list_lookup_delete_lt, list_lookup_insert_ne by lia.
  - by rewrite !list_lookup_delete_ge, list_lookup_insert_ne by lia.
Qed.

Lemma findIndex_unique {A : Type} (f : A -> bool) (l : list A) (q : nat) (x : A) :
  l !! q = Some x -> f x = true ->
  (forall k y, l !! k = Some y -> k <> q -> f y = false) ->
  findIndex f l = Z.of_nat q.
Proof.
  intros Hq Hx Hothers.
  destruct (findIndex_found f l) as (p & y & -> & Hp & Hy & _).
  - intros H. rewrite findIndex_absent in H.
    assert (f x = false) by (apply H; by eapply list_elem_of_lookup_2). congruence.
  - f_equal. destruct (decide (p = q)) as [|Hne]; [done|].
    rewrite (Hothers p y Hp Hne) in Hy. done.
Qed.

Lemma null_free_lookup (table : Table) (k : nat) :
  null_free table -> null_at table k = false.
Proof.
  intros Hnf. unfold null_at. destruct (table !! k) as [x|] eqn:E; [|done].
  unfold null_free in Hnf. rewrite Forall_forall in Hnf.
  assert (is_null x = false) by (apply Hnf; by eapply list_elem_of_lookup_2).
  by destruct x.
Qed.

Lemma findAdjacentSeat_null_free (table : Table) (s : nat) :
  null_free table -> findAdjacentSeat table s = None.
Proof.
  intros Hnf. unfold findAdjacentSeat. case_decide; [done|].
  by rewrite !null_free_lookup.
Qed.

Lemma null_at_insert (table : Table) (q k : nat) :
  null_free table -> q < length table ->
  null_at (<[q := Null]> table) k = bool_decide (k = q).
Proof.
  intros Hnf Hq. case_bool_decide as E.
  - subst k. unfold null_at. by rewrite list_lookup_insert_eq.
  - unfold null_at. rewrite list_lookup_insert_ne by done.
    by apply null_free_lookup.
Qed.

(** With its only empty seat not next to [s1], no adjacent seat is free. *)
Lemma findAdjacentSeat_far (table : Table) (s1 s2 : nat) :
  null_free table -> s1 < length table -> s2 < length table ->
  areNeighbors (Z.of_nat s1) (Z.of_nat s2) (Z.of_nat (length table)) = false ->
  findAdjacentSeat (<[s2 := Null]> table) s1 = None.
Proof.
  intros Hnf H1 H2 Hn. unfold findAdjacentSeat. rewrite length_insert.
  case_decide; [done|].
  rewrite !null_at_insert by done.
  assert (~ (Z.abs (Z.of_nat s1 - Z.of_nat s2) = 1
             \/ (Z.of_nat s1 = 0 /\ Z.of_nat s2 = Z.of_nat (length table) - 1)
             \/ (Z.of_nat s2 = 0 /\ Z.of_nat s1 = Z.of_nat (length table) - 1))%Z) as Hfar.
  { rewrite <- areNeighbors_spec. congruence. }
  destruct (Nat.ltb_spec 0 s1), (Nat.ltb_spec (S s1) (length table));
    repeat case_bool_decide; try done; lia.
Qed.

Lemma remove_first_null_at (table : Table) (q : nat) :
  table !! q = Some Null ->
  (forall k y, table !! k = Some y -> k <> q -> is_null y = false) ->
  remove_first_null table = delete q table.
Proof.
  intros Hq Hothers. unfold remove_first_null.
  rewrite (findIndex_unique is_null table q Null Hq eq_refl Hothers).
  destruct (Z.eqb_spec (Z.of_nat q) (-1)); [lia|].
  by rewrite Nat2Z.id, splice_delete.
Qed.

Lemma null_free_elem (table : Table) (k : nat) (y : Seat) :
  null_free table -> table !! k = Some y -> is_null y = false.
Proof.
  intros Hnf Hk. unfold null_free in Hnf. rewrite Forall_forall in Hnf.
  apply Hnf. by eapply list_elem_of_lookup_2.
Qed.

Lemma remove_first_null_insert (table : Table) (q : nat) :
  null_free table -> q < length table ->
  remove_first_null (<[q := Null]> table) = delete q table.
Proof.
  intros Hnf Hq. rewrite (remove_first_null_at _ q).
  - apply delete_insert_same.
  - by rewrite list_lookup_insert_eq.
  - intros k y Hk Hne. rewrite list_lookup_insert_ne in Hk by done.
    by eapply null_free_elem.
Qed.

Lemma null_free_Permutation (table table' : Table) :
  table' ≡ₚ table -> null_free table -> null_free table'.
Proof. unfold null_free. by intros ->. Qed.

(** The second [if]: the two sit at one table, not on neighbour seats. *)
Lemma move_in_table_spec (table : Table) (person1 person2 : Person) (s1 s2 : nat) :
  null_free table ->
  table !! s1 = Some (Seated person1) -> table !! s2 = Some (Seated person2) ->
  person1 <> person2 ->
  areNeighbors (Z.of_nat s1) (Z.of_nat s2) (Z.of_nat (length table)) = false ->
  let table' := move_in_table table person2 s1 s2 in
  table' ≡ₚ table
  /\ neighbours table' (Seated person1) (Seated person2)
  /\ (forall a b, neighbours table a b ->
        a <> Seated person1 -> a <> Seated person2 ->
        b <> Seated person1 -> b <> Seated person2 ->
        neighbours table' a b).
Proof.
  intros Hnf H1 H2 Hne Hfar table'.
  pose proof (lookup_lt_Some _ _ _ H1) as Hl1.
  pose proof (lookup_lt_Some _ _ _ H2) as Hl2.
  assert (s1 <> s2) as Hs by congruence.
  set (nulled := <[s2 := Null]> table).
  set (grown := splice nulled (s1 + 1) 0 [Seated person2]).
  set (q := if decide (s2 < s1 + 1) then s2 else s2 + 1).
  assert (length nulled = length table) as Hlen by apply length_insert.
  assert (nulled !! s1 = Some (Seated person1)) as Hn1.
  { subst nulled. by rewrite list_lookup_insert_ne. }
  assert (nulled !! s2 = Some Null) as Hn2.
  { subst nulled. by rewrite list_lookup_insert_eq. }
  assert (grown !! q = Some Null) as Hq.
  { subst grown q. rewrite splice_insert_lookup by lia.
    repeat case_decide; try lia; try done.
    rewrite <- Hn2. f_equal. lia. }
  assert (forall k y, grown !! k = Some y -> k <> q -> is_null y = false) as Hothers.
  { intros k y Hk Hkq. subst grown q. rewrite splice_insert_lookup in Hk by lia.
    repeat case_decide; try (injection Hk as <-; done);
      subst nulled; rewrite list_lookup_insert_ne in Hk by lia;
      by eapply null_free_elem. }
  assert (table' = delete q grown) as ->.
  { subst table'. unfold move_in_table.
    rewrite findAdjacentSeat_far by done.
    by apply (remove_first_null_at grown q). }
  split; [|split].
  - apply (Permutation_cons_inv (a := Null)).
    rewrite <- (delete_Permutation grown q Null Hq).
    subst grown. rewrite splice_insert_Permutation.
    rewrite (delete_Permutation nulled s2 Null Hn2).
    rewrite (delete_Permutation table s2 (Seated person2) H2).
    rewrite Permutation_swap. subst nulled.
    by rewrite delete_insert_same.
  - apply neighbours_delete with (c := Null); [|done..].
    subst grown. by apply neighbours_inserted.
  - intros a b Hab Ha1 Ha2 Hb1 Hb2.
    assert (a <> Null /\ b <> Null) as [Han Hbn].
    { destruct Hab as (k1 & k2 & Hk1 & Hk2 & _).
      apply (null_free_elem _ _ _ Hnf) in Hk1, Hk2.
      split; intros ->; done. }
    apply neighbours_delete with (c := Null); [|done..].
    subst grown. apply neighbours_insert_after with (c := Seated person1); [|done..].
    subst nulled. by apply neighbours_overwrite with (c := Seated person2).
Qed.

(** The first [if]: the two sit at different tables. *)
Lemma move_to_table_spec (tables : list Table) (person2 : Person)
    (t1 s1 t2 s2 : nat) (table1 table2 : Table) :
  t1 <> t2 -> tables !! t1 = Some table1 -> tables !! t2 = Some table2 ->
  null_free table1 -> null_free table2 -> s2 < length table2 ->
  move_to_table tables person2 t1 s1 t2 s2 =
    (<[t2 := delete s2 table2]>
       (<[t1 := splice table1 (s1 + 1) 0 [Seated person2]]> tables),
     s1 + 1).
Proof.
  intros Hne H1 H2 Hnf1 Hnf2 Hs2. unfold move_to_table.
  rewrite (alter_as_insert _ tables t2 table2 H2).
  assert (table_at (<[t2 := <[s2 := Null]> table2]> tables) t1 = table1) as ->.
  { unfold table_at. by rewrite list_lookup_insert_ne, H1. }
  rewrite findAdjacentSeat_null_free by done.
  f_equal.
  rewrite (alter_as_insert _ _ t1 table1) by (by rewrite list_lookup_insert_ne).
  rewrite (alter_as_insert _ _ t2 (<[s2 := Null]> table2)).
  - rewrite remove_first_null_insert by done.
    rewrite list_insert_insert_ne by done.
    rewrite list_insert_insert_eq.
    by rewrite list_insert_insert_ne.
  - rewrite list_lookup_insert_ne by done.
    apply list_lookup_insert_eq. by eapply lookup_lt_Some.
Qed.

Lemma concat_elem {A : Type} (ls : list (list A)) (x : A) :
  x ∈ concat ls <-> exists t l s, ls !! t = Some l /\ l !! s = Some x.
Proof.
  rewrite list_elem_of_In, in_concat. split.
  - intros (l & Hl & Hx). apply list_elem_of_In, list_elem_of_lookup in Hl as [t Ht].
    apply list_elem_of_In, list_elem_of_lookup in Hx as [s Hs]. eauto.
  - intros (t & l & s & Ht & Hs). exists l.
    split; apply list_elem_of_In; by eapply list_elem_of_lookup_2.
Qed.

(** In tables without repetition a seat content has one position. *)
Lemma NoDup_concat_position {A : Type} (ls : list (list A)) (x : A)
    (t t' s s' : nat) (l l' : list A) :
  NoDup (concat ls) ->
  ls !! t = Some l -> l !! s = Some x -> ls !! t' = Some l' -> l' !! s' = Some x ->
  t = t' /\ s = s'.
Proof.
  revert t t'. induction ls as [|l0 ls IH]; intros t t' Hnd Ht Hs Ht' Hs'; [done|].
  simpl in Hnd. apply NoDup_app in Hnd as (Hnd0 & Hdisj & Hnd').
  destruct t as [|t], t' as [|t']; simpl in Ht, Ht'.
  - injection Ht as <-. injection Ht' as <-. split; [done|].
    exact (NoDup_lookup _ _ _ _ Hnd0 Hs Hs').
  - injection Ht as <-. exfalso. eapply Hdisj; [by eapply list_elem_of_lookup_2|].
    apply concat_elem. eauto.
  - injection Ht' as <-. exfalso. eapply Hdisj; [by eapply list_elem_of_lookup_2|].
    apply concat_elem. eauto.
  - destruct (IH t t' Hnd' Ht Hs Ht' Hs') as [-> ->]. done.
Qed.

Section tables.
Variable people : list Person.
Hypothesis Hnames : NoDup (name <$> people).

Lemma same_name (p q : Person) : p ∈ people -> q ∈ people -> name p = name q -> p = q.
Proof.
  intros [i Hi]%list_elem_of_lookup [j Hj]%list_elem_of_lookup Hn.
  assert (i = j) as ->; [|congruence].
  eapply NoDup_lookup; [exact Hnames | |]; rewrite list_lookup_fmap.
  - by rewrite Hi.
  - rewrite Hj. simpl. by rewrite Hn.
Qed.

Lemma all_seated_NoDup (tables : list Table) :
  all_seated people tables -> NoDup (concat tables).
Proof.
  intros [_ ->]. apply NoDup_fmap_2; [by intros p q [=]|].
  by eapply NoDup_fmap_1.
Qed.

Lemma all_seated_null_free (tables : list Table) (t : nat) (table : Table) :
  all_seated people tables -> tables !! t = Some table -> null_free table.
Proof.
  intros [Hnf _] Ht. unfold no_nulls in Hnf. rewrite Forall_forall in Hnf.
  apply Hnf. by eapply list_elem_of_lookup_2.
Qed.

Lemma all_seated_person (tables : list Table) (t s : nat) (table : Table) (p : Person) :
  all_seated people tables -> tables !! t = Some table ->
  table !! s = Some (Seated p) -> p ∈ people.
Proof.
  intros [_ Hperm] Ht Hs.
  assert (Seated p ∈ concat tables) as Hin by (apply concat_elem; eauto).
  rewrite Hperm in Hin. apply list_elem_of_fmap in Hin as (q & [= ->] & Hq). done.
Qed.

(** The search finds the seat of a participant. *)
Lemma all_seated_locate (tables : list Table) (p : Person) :
  all_seated people tables -> p ∈ people ->
  exists t s table, locate tables (name p) = Some (t, s)
    /\ tables !! t = Some table /\ table !! s = Some (Seated p).
Proof.
  intros Hall Hp.
  assert (Seated p ∈ concat tables) as Hin.
  { destruct Hall as [_ ->]. apply list_elem_of_fmap. eauto. }
  apply concat_elem in Hin as (t0 & table0 & s0 & Ht0 & Hs0).
  destruct (locate tables (name p)) as [[t s]|] eqn:E.
  - apply locate_Some in E as (q & Hq & Hn).
    unfold seat_at in Hq. destruct (tables !! t) as [table|] eqn:Et; [|done].
    simpl in Hq. exists t, s, table. repeat split; [done|].
    rewrite Hq. do 2 f_equal. apply same_name; [|done..].
    by eapply all_seated_person.
  - exfalso. eapply (locate_None tables (name p) t0 s0 p); [done| |done].
    unfold seat_at. by rewrite Ht0.
Qed.

Lemma all_seated_insert (tables : list Table) (t : nat) (table table' : Table) :
  all_seated people tables -> tables !! t = Some table -> table' ≡ₚ table ->
  all_seated people (<[t := table']> tables).
Proof.
  intros Hall Ht Hperm. pose proof Hall as [Hnf Hp]. split.
  - apply Forall_insert; [done|].
    apply (null_free_Permutation _ _ Hperm). by eapply all_seated_null_free.
  - rewrite <- Hp. apply (Permutation_app_inv_r table).
    rewrite concat_insert by done. by rewrite Hperm.
Qed.
End tables.

(** ** One pair, for two participants that no other shares a name with *)

Lemma nameToPerson_sole (people : list Person) (p : Person) :
  p ∈ people -> (forall q, q ∈ people -> name q = name p -> q = p) ->
  nameToPerson people !! name p = Some p.
Proof.
  intros Hp Hsole.
  destruct (nameToPerson_is_Some_from people ∅ (name p)) as [q Hq]; [eauto|].
  fold (nameToPerson people) in Hq. rewrite Hq. f_equal.
  apply nameToPerson_Some in Hq as [Hq Hn]. by apply Hsole.
Qed.

(** The search finds the seat of such a participant. *)
Lemma all_seated_locate_sole (people : list Person) (tables : list Table) (p : Person) :
  all_seated people tables -> p ∈ people ->
  (forall q, q ∈ people -> name q = name p -> q = p) ->
  exists t s table, locate tables (name p) = Some (t, s)
    /\ tables !! t = Some table /\ table !! s = Some (Seated p).
Proof.
  intros Hall Hp Hsole.
  assert (Seated p ∈ concat tables) as Hin.
  { destruct Hall as [_ ->]. apply list_elem_of_fmap. eauto. }
  apply concat_elem in Hin as (t0 & table0 & s0 & Ht0 & Hs0).
  destruct (locate tables (name p)) as [[t s]|] eqn:E.
  - apply locate_Some in E as (q & Hq & Hn).
    unfold seat_at in Hq. destruct (tables !! t) as [table|] eqn:Et; [|done].
    simpl in Hq. exists t, s, table. repeat split; [done|].
    rewrite Hq. do 2 f_equal. apply Hsole; [|done].
    by eapply all_seated_person.
  - exfalso. eapply (locate_None tables (name p) t0 s0 p); [done| |done].
    unfold seat_at. by rewrite Ht0.
Qed.

(** A pair of two participants: after the step they sit together, every
    participant still has one seat, and whoever sat together and was not
    touched still does. *)
Lemma enforce_pair_resolved_sole (people : list Person) (tables : list Table)
    (person1 person2 : Person) :
  all_seated people tables ->
  person1 ∈ people -> person2 ∈ people -> name person1 <> name person2 ->
  (forall q, q ∈ people -> name q = name person1 -> q = person1) ->
  (forall q, q ∈ people -> name q = name person2 -> q = person2) ->
  let tables' :=
    enforce_pair_on_tables (nameToPerson people) tables (name person1, name person2) in
  all_seated people tables'
  /\ together tables' person1 person2
  /\ (forall a b, together tables a b ->
        a <> person1 -> a <> person2 -> b <> person1 -> b <> person2 ->
        together tables' a b).
Proof.
  intros Hall Hp1 Hp2 Hname Hsole1 Hsole2. unfold enforce_pair_on_tables.
  assert (person1 <> person2) as Hne by congruence.
  rewrite !(nameToPerson_sole people) by done.
  destruct (all_seated_locate_sole people tables person1 Hall Hp1 Hsole1)
    as (t1 & s1 & table1 & -> & Ht1 & Hs1).
  destruct (all_seated_locate_sole people tables person2 Hall Hp2 Hsole2)
    as (t2 & s2 & table2 & -> & Ht2 & Hs2).
  pose proof (all_seated_null_free people tables t1 table1 Hall Ht1) as Hnf1.
  pose proof (all_seated_null_free people tables t2 table2 Hall Ht2) as Hnf2.
  destruct (decide (t1 = t2)) as [->|Hdiff].
  - assert (table1 = table2) as -> by congruence. cbn zeta.
    assert (table_at tables t2 = table2) as -> by (unfold table_at; by rewrite Ht2).
    destruct (areNeighbors _ _ _) eqn:Hn.
    + split; [done|]. split; [|auto]. exists t2, table2. split; [done|].
      by exists s1, s2.
    + rewrite (alter_as_insert _ tables t2 table2 Ht2).
      destruct (move_in_table_spec table2 person1 person2 s1 s2 Hnf2 Hs1 Hs2 Hne Hn)
        as (Hperm & Hnb & Hkeep).
      split; [by eapply all_seated_insert|]. split.
      * exists t2, (move_in_table table2 person2 s1 s2). split; [|done].
        apply list_lookup_insert_eq. by eapply lookup_lt_Some.
      * intros a b (t & table & Ht & Hab) Ha1 Ha2 Hb1 Hb2.
        destruct (decide (t = t2)) as [->|Hother].
        -- exists t2, (move_in_table table2 person2 s1 s2). split.
           ++ apply list_lookup_insert_eq. by eapply lookup_lt_Some.
           ++ assert (table = table2) as -> by congruence.
              apply Hkeep; [done|congruence..].
        -- exists t, table. by rewrite list_lookup_insert_ne.
  - rewrite (move_to_table_spec tables person2 t1 s1 t2 s2 table1 table2)
      by (done || by eapply lookup_lt_Some).
    set (grown := splice table1 (s1 + 1) 0 [Seated person2]).
    set (shrunk := delete s2 table2).
    set (tables1 := <[t1 := grown]> tables).
    set (tables2 := <[t2 := shrunk]> tables1).
    assert (tables1 !! t2 = Some table2) as Ht2'.
    { subst tables1. by rewrite list_lookup_insert_ne. }
    assert (tables2 !! t1 = Some grown) as Hg.
    { subst tables2 tables1. rewrite list_lookup_insert_ne by done.
      apply list_lookup_insert_eq. by eapply lookup_lt_Some. }
    assert (tables2 !! t2 = Some shrunk) as Hsh.
    { subst tables2. apply list_lookup_insert_eq. by eapply lookup_lt_Some. }
    assert (table_at tables2 t1 = grown) as -> by (unfold table_at; by rewrite Hg).
    assert (areNeighbors (Z.of_nat s1) (Z.of_nat (s1 + 1)) (Z.of_nat (length grown)) = true)
      as -> by (apply areNeighbors_spec; lia).
    assert (grown ≡ₚ Seated person2 :: table1) as Hgrown
      by apply splice_insert_Permutation.
    assert (table2 ≡ₚ Seated person2 :: shrunk) as Hshrunk
      by by apply delete_Permutation.
    split; [|split].
    + destruct Hall as [Hnf Hperm]. split.
      * apply Forall_insert; [apply Forall_insert; [done|]|].
        -- unfold null_free in *. rewrite Hgrown. by constructor.
        -- by apply Forall_delete.
      * rewrite <- Hperm. apply (Permutation_app_inv_r (table2 ++ table1)).
        rewrite app_assoc. subst tables2.
        rewrite (concat_insert tables1 t2 table2 shrunk Ht2').
        rewrite <- app_assoc, (Permutation_app_comm shrunk), app_assoc.
        subst tables1. rewrite (concat_insert tables t1 table1 grown Ht1).
        rewrite <- !app_assoc. f_equiv.
        rewrite Hgrown, Hshrunk. solve_Permutation.
    + exists t1, grown. split; [done|]. subst grown. by apply neighbours_inserted.
    + intros a b (t & table & Ht & Hab) Ha1 Ha2 Hb1 Hb2.
      destruct (decide (t = t2)) as [->|Hother2].
      * exists t2, shrunk. split; [done|].
        assert (table = table2) as -> by congruence.
        subst shrunk. apply neighbours_delete with (c := Seated person2);
          [done | done | congruence..].
      * destruct (decide (t = t1)) as [->|Hother1].
        -- exists t1, grown. split; [done|].
           assert (table = table1) as -> by congruence.
           subst grown. apply neighbours_insert_after with (c := Seated person1);
             [done | done | congruence..].
        -- exists t, table. split; [|done].
           subst tables2 tables1. by rewrite !list_lookup_insert_ne.
Qed.

Section step.
Variable people : list Person.
Hypothesis Hnames : NoDup (name <$> people).

Lemma nameToPerson_None (nm : string) :
  nameToPerson people !! nm = None -> forall p, p ∈ people -> name p <> nm.
Proof.
  intros E p Hp Hn.
  destruct (nameToPerson_is_Some_from people ∅ nm) as [q Hq]; [eauto|].
  unfold nameToPerson in E. congruence.
Qed.

(** A pair with a name nobody has is skipped. *)
Lemma enforce_pair_unresolved (tables : list Table) (name1 name2 : string) :
  (forall p, p ∈ people -> name p <> name1)
  \/ (forall p, p ∈ people -> name p <> name2) ->
  enforce_pair_on_tables (nameToPerson people) tables (name1, name2) = tables.
Proof.
  intros Hno. unfold enforce_pair_on_tables.
  destruct (nameToPerson people !! name1) as [p1|] eqn:E1; [|done].
  destruct (nameToPerson people !! name2) as [p2|] eqn:E2; [|done].
  apply nameToPerson_Some in E1 as [H1 Hn1]. apply nameToPerson_Some in E2 as [H2 Hn2].
  destruct Hno as [Hno|Hno]; exfalso; [exact (Hno p1 H1 Hn1) | exact (Hno p2 H2 Hn2)].
Qed.

Lemma enforce_pair_resolved (tables : list Table) (person1 person2 : Person) :
  all_seated people tables ->
  person1 ∈ people -> person2 ∈ people -> name person1 <> name person2 ->
  let tables' :=
    enforce_pair_on_tables (nameToPerson people) tables (name person1, name person2) in
  all_seated people tables'
  /\ together tables' person1 person2
  /\ (forall a b, together tables a b ->
        a <> person1 -> a <> person2 -> b <> person1 -> b <> person2 ->
        together tables' a b).
Proof.
  intros Hall Hp1 Hp2 Hname.
  apply enforce_pair_resolved_sole; try done.
  - intros q Hq Hn. by apply (same_name people Hnames).
  - intros q Hq Hn. by apply (same_name people Hnames).
Qed.

(** ** All pairs, one after the other *)

Lemma enforce_pairs_spec (pairs : list (string * string)) (tables : list Table) :
  NoDup (pair_names pairs) -> all_seated people tables ->
  let tables' := fold_left (enforce_pair_on_tables (nameToPerson people)) pairs tables in
  all_seated people tables'
  /\ (forall name1 name2 p1 p2,
        (name1, name2) ∈ pairs -> p1 ∈ people -> p2 ∈ people ->
        name p1 = name1 -> name p2 = name2 -> together tables' p1 p2)
  /\ (forall a b, together tables a b ->
        name a ∉ pair_names pairs -> name b ∉ pair_names pairs ->
        together tables' a b).
Proof.
  revert tables. induction pairs as [|[n1 n2] pairs IH]; intros tables Hnd Hall.
  - simpl. split; [done|]. split; [|auto].
    intros ???? Hin. by apply elem_of_nil in Hin.
  - unfold pair_names in Hnd. rewrite bind_cons in Hnd. simpl in Hnd.
    fold (pair_names pairs) in Hnd.
    apply NoDup_cons in Hnd as [Hn1 Hnd]. apply NoDup_cons in Hnd as [Hn2 Hnd].
    assert (n1 <> n2) as Hn12 by (intros ->; apply Hn1; left).
    assert (n1 ∉ pair_names pairs) as Hn1' by (intros H; apply Hn1; by right).
    simpl fold_left.
    set (tables1 := enforce_pair_on_tables (nameToPerson people) tables (n1, n2)).
    assert (all_seated people tables1
            /\ (forall p1 p2, p1 ∈ people -> p2 ∈ people ->
                  name p1 = n1 -> name p2 = n2 -> together tables1 p1 p2)
            /\ (forall a b, together tables a b ->
                  name a <> n1 -> name a <> n2 -> name b <> n1 -> name b <> n2 ->
                  together tables1 a b)) as (Hall1 & Hpair1 & Hkeep1).
    { destruct (nameToPerson people !! n1) as [p1|] eqn:E1;
        [destruct (nameToPerson people !! n2) as [p2|] eqn:E2|].
      - apply nameToPerson_Some in E1 as [Hp1 <-].
        apply nameToPerson_Some in E2 as [Hp2 <-].
        destruct (enforce_pair_resolved tables p1 p2 Hall Hp1 Hp2 Hn12)
          as (H1 & H2 & H3).
        fold tables1 in H1, H2, H3. split; [done|]. split.
        + intros q1 q2 Hq1 Hq2 E1 E2.
          by rewrite (same_name people Hnames q1 p1), (same_name people Hnames q2 p2).
        + intros a b Hab Ha1 Ha2 Hb1 Hb2. apply H3; [done|congruence..].
      - pose proof (nameToPerson_None n2 E2) as Hno.
        assert (tables1 = tables) as ->.
        { subst tables1. apply enforce_pair_unresolved. by right. }
        split; [done|]. split; [|auto].
        intros q1 q2 Hq1 Hq2 _ Hq. by apply Hno in Hq2.
      - pose proof (nameToPerson_None n1 E1) as Hno.
        assert (tables1 = tables) as ->.
        { subst tables1. apply enforce_pair_unresolved. by left. }
        split; [done|]. split; [|auto].
        intros q1 q2 Hq1 Hq2 Hq _. by apply Hno in Hq1. }
    destruct (IH tables1 Hnd Hall1) as (Hall' & Hpairs' & Hkeep').
    split; [done|]. split.
    + intros name1 name2 p1 p2 [[= -> ->]|Hin]%elem_of_cons Hp1 Hp2 E1 E2.
      * apply Hkeep'; [by apply Hpair1 | by rewrite E1 | by rewrite E2].
      * by eapply Hpairs'.
    + intros a b Hab Ha Hb.
      unfold pair_names in Ha, Hb. rewrite bind_cons in Ha, Hb. simpl in Ha, Hb.
      fold (pair_names pairs) in Ha, Hb.
      rewrite !not_elem_of_cons in Ha, Hb.
      apply Hkeep'; [|tauto..]. apply Hkeep1; tauto.
Qed.
End step.

Lemma strip_trailing_nulls_null_free (table : Table) :
  null_free table -> strip_trailing_nulls table = table.
Proof.
  induction 1 as [|x table Hx Hnf IH]; simpl; [done|].
  rewrite IH. destruct table; [|done]. by rewrite Hx.
Qed.

(** ** [assignToTables] on valid inputs *)

Lemma map_set_nonempty (m : JsMap) (k v : nat) : map_set m k v <> [].
Proof. destruct m as [|[k' v'] m]; simpl; [done|]. by case_decide. Qed.

(** A pair of two participants leaves the pair map non-empty. *)
Lemma findConstantPairs_in_nonempty (pairs : list (string * string))
    (people : list Person) (name1 name2 : string) (p1 p2 : Person) :
  (name1, name2) ∈ pairs -> p1 ∈ people -> p2 ∈ people ->
  name p1 = name1 -> name p2 = name2 ->
  findConstantPairs_in pairs people <> [].
Proof.
  intros Hin Hp1 Hp2 E1 E2. unfold findConstantPairs_in.
  assert (forall m : JsMap, m <> [] \/ (name1, name2) ∈ pairs ->
    fold_left (fun pairMap '(name1, name2) =>
      let idx1 := findIndex (name_is name1) people in
      let idx2 := findIndex (name_is name2) people in
      if negb (idx1 =? -1)%Z && negb (idx2 =? -1)%Z
      then map_set (map_set pairMap (Z.to_nat idx1) (Z.to_nat idx2))
             (Z.to_nat idx2) (Z.to_nat idx1)
      else pairMap) pairs m <> []) as Hgen; [|by apply Hgen; right].
  clear Hin. induction pairs as [|[n1 n2] pairs IH]; intros m Hm; simpl.
  - destruct Hm as [Hm|Hm]; [done|]. by apply elem_of_nil in Hm.
  - apply IH. destruct Hm as [Hm|[[= <- <-]|Hm]%elem_of_cons]; [|left|by right].
    + left. destruct (_ && _); [apply map_set_nonempty | done].
    + assert (findIndex (name_is name1) people <> (-1)%Z) as H1.
      { rewrite findIndex_absent. intros H. apply H in Hp1.
        unfold name_is in Hp1. by apply bool_decide_eq_false in Hp1. }
      assert (findIndex (name_is name2) people <> (-1)%Z) as H2.
      { rewrite findIndex_absent. intros H. apply H in Hp2.
        unfold name_is in Hp2. by apply bool_decide_eq_false in Hp2. }
      destruct (Z.eqb_spec (findIndex (name_is name1) people) (-1)); [done|].
      destruct (Z.eqb_spec (findIndex (name_is name2) people) (-1)); [done|].
      simpl. apply map_set_nonempty.
Qed.

Lemma CONSTANT_PAIRS_NAMES_NoDup : NoDup (pair_names CONSTANT_PAIRS_NAMES).
Proof. apply (bool_decide_unpack (NoDup (pair_names CONSTANT_PAIRS_NAMES))). by vm_compute. Qed.

Lemma strip_all_null_free (tables : list Table) :
  no_nulls tables -> strip_trailing_nulls <$> tables = tables.
Proof.
  intros Hnf. rewrite <- (list_fmap_id tables) at 2.
  apply Forall_fmap_ext. unfold no_nulls in Hnf.
  eapply Forall_impl; [exact Hnf|]. intros table Ht.
  by apply strip_trailing_nulls_null_free.
Qed.

Lemma assignToTables_valid (sr : SeatingResult) (tableSizes : list nat) (o : list nat) :
  order sr = Some o ->
  o ≡ₚ seq 0 (length (people sr)) ->
  length (people sr) <= sum_list tableSizes ->
  NoDup (name <$> people sr) ->
  exists ta, assignToTables sr tableSizes = Ok ta
    /\ statistics ta = calculateStatistics (tables ta)
    /\ all_seated (people sr) (tables ta)
    /\ (forall name1 name2 p1 p2,
          (name1, name2) ∈ CONSTANT_PAIRS_NAMES ->
          p1 ∈ people sr -> p2 ∈ people sr ->
          name p1 = name1 -> name p2 = name2 ->
          together (tables ta) p1 p2).
Proof.
  intros Ho Hperm Hcap Hnames. unfold assignToTables, finish_assignment. rewrite Ho.
  eexists. split; [done|]. simpl. split; [done|].
  pose proof (fill_tables_all_seated (people sr) o tableSizes Hperm Hcap) as Hall.
  unfold enforceConstantPairsOnTables. case_decide as Hcp.
  - split; [done|]. intros name1 name2 p1 p2 Hin Hp1 Hp2 E1 E2. exfalso.
    apply (findConstantPairs_in_nonempty _ _ _ _ _ _ Hin Hp1 Hp2 E1 E2).
    unfold findConstantPairs in Hcp. by apply length_zero_iff_nil.
  - destruct (enforce_pairs_spec (people sr) Hnames CONSTANT_PAIRS_NAMES _
                CONSTANT_PAIRS_NAMES_NoDup Hall) as (Hall' & Hpairs & _).
    rewrite strip_all_null_free by apply Hall'.
    split; [done|]. exact Hpairs.
Qed.

(** ** Statistics *)

Lemma seat_statistics_elem (tables : list Table) (t s : nat) (table : Table)
    (person : Person) :
  tables !! t = Some table -> table !! s = Some (Seated person) ->
  seat_statistics t table s person ∈ calculateStatistics tables.
Proof.
  intros Ht Hs. unfold calculateStatistics. apply concat_elem.
  assert (seat_statistics t table s person ∈ table_statistics t table) as Hin.
  { unfold table_statistics. apply list_elem_of_omap.
    exists (Some (seat_statistics t table s person)). split; [|done].
    apply list_elem_of_lookup. exists s. by rewrite list_lookup_imap, Hs. }
  apply list_elem_of_lookup in Hin as [k Hk].
  exists t, (table_statistics t table), k. split; [|done].
  by rewrite list_lookup_imap, Ht.
Qed.

(** The three cases of [combinedSimilarity]. *)
Lemma seat_statistics_first (t : nat) (table : Table) (person next : Person) :
  table !! 1 = Some (Seated next) ->
  combinedSimilarity (seat_statistics t table 0 person)
    = toFixed2 (commonalityDistance (themes person) (themes next)).
Proof.
  intros Hn. pose proof (lookup_lt_Some _ _ _ Hn) as Hlen.
  unfold seat_statistics. simpl.
  destruct (Nat.ltb_spec 1 (length table)); [|lia].
  rewrite Hn. simpl. done.
Qed.

Lemma seat_statistics_last (t : nat) (table : Table) (s : nat) (person prev : Person) :
  0 < s -> s = length table - 1 ->
  table !! (s - 1) = Some (Seated prev) ->
  combinedSimilarity (seat_statistics t table s person)
    = toFixed2 (commonalityDistance (themes person) (themes prev)).
Proof.
  intros Hs Hlast Hp. unfold seat_statistics.
  destruct (Nat.ltb_spec 0 s); [|lia]. rewrite Hp. simpl.
  destruct (Nat.ltb_spec (S s) (length table)); [lia|]. simpl.
  rewrite decide_False by lia. rewrite decide_True by done. done.
Qed.

Lemma seat_statistics_middle (t : nat) (table : Table) (s : nat)
    (person prev next : Person) :
  0 < s -> s < length table - 1 ->
  table !! (s - 1) = Some (Seated prev) -> table !! (s + 1) = Some (Seated next) ->
  combinedSimilarity (seat_statistics t table s person)
    = toFixed2 ((commonalityDistance (themes person) (themes prev)
                 + commonalityDistance (themes person) (themes next)) / 2).
Proof.
  intros Hs Hmid Hp Hn. unfold seat_statistics.
  destruct (Nat.ltb_spec 0 s); [|lia]. rewrite Hp. simpl.
  destruct (Nat.ltb_spec (S s) (length table)); [|lia]. rewrite Hn. simpl.
  rewrite !decide_False by lia. done.
Qed.

Lemma sample_order_Permutation : [1; 0; 2; 3] ≡ₚ seq 0 (length (people sample_result)).
Proof. simpl. apply Permutation_swap. Qed.

Lemma sample_names_NoDup : NoDup (name <$> people sample_result).
Proof. apply (bool_decide_unpack (NoDup (name <$> people sample_result))). by vm_compute. Qed.



(** ** Participants that share a name *)

Lemma carried_once_sole (people : list Person) (names : list string) (p q : Person) :
  carried_once people names -> name p ∈ names ->
  p ∈ people -> q ∈ people -> name q = name p -> q = p.
Proof.
  intros Hall Hn Hp Hq E. unfold carried_once in Hall. rewrite Forall_forall in Hall.
  specialize (Hall _ Hn).
  assert (p ∈ filter (fun r => name r = name p) people) as Hp'
    by by apply list_elem_of_filter.
  assert (q ∈ filter (fun r => name r = name p) people) as Hq'
    by by apply list_elem_of_filter.
  destruct (filter (fun r => name r = name p) people) as [|x [|y l]]; simpl in Hall.
  - by apply elem_of_nil in Hp'.
  - apply list_elem_of_singleton in Hp', Hq'. congruence.
  - lia.
Qed.

Lemma carried_once_cons (people : list Person) (nm : string) (names : list string) :
  carried_once people (nm :: names) -> carried_once people names.
Proof. unfold carried_once. by intros [_ H]%Forall_cons. Qed.

(** The repair keeps every participant on one seat when no name of the
    pairs is the name of two participants. *)
Lemma enforce_pairs_all_seated (people : list Person) (pairs : list (string * string))
    (tables : list Table) :
  NoDup (pair_names pairs) -> carried_once people (pair_names pairs) ->
  all_seated people tables ->
  all_seated people (fold_left (enforce_pair_on_tables (nameToPerson people)) pairs tables).
Proof.
  revert tables. induction pairs as [|[n1 n2] pairs IH]; intros tables Hnd Hone Hall; [done|].
  unfold pair_names in Hnd, Hone. rewrite bind_cons in Hnd, Hone. simpl in Hnd, Hone.
  fold (pair_names pairs) in Hnd, Hone.
  pose proof Hnd as Hnd0.
  apply NoDup_cons in Hnd as [Hn1 Hnd]. apply NoDup_cons in Hnd as [_ Hnd].
  assert (n1 <> n2) as Hn12 by (intros ->; apply Hn1; left).
  change (fold_left (enforce_pair_on_tables (nameToPerson people)) ((n1, n2) :: pairs) tables)
    with (fold_left (enforce_pair_on_tables (nameToPerson people)) pairs
            (enforce_pair_on_tables (nameToPerson people) tables (n1, n2))).
  apply IH; [done | by do 2 apply carried_once_cons in Hone |].
  destruct (nameToPerson people !! n1) as [p1|] eqn:E1;
    [destruct (nameToPerson people !! n2) as [p2|] eqn:E2|].
  - apply nameToPerson_Some in E1 as [Hp1 <-].
    apply nameToPerson_Some in E2 as [Hp2 <-].
    destruct (enforce_pair_resolved_sole people tables p1 p2) as [H _]; try done.
    + intros q Hq E. apply (carried_once_sole people _ _ _ Hone); [left | done..].
    + intros q Hq E. apply (carried_once_sole people _ _ _ Hone); [right; left | done..].
  - unfold enforce_pair_on_tables. by rewrite E1, E2.
  - unfold enforce_pair_on_tables. by rewrite E1.
Qed.

(** C3 (the claim fails).  Four participants, two of them named Boris
    Sidorevitj, in the order 0 3 2 1 at one table of four seats: the
    repair of the pair Majbritt Jensen, Boris Sidorevitj looks for the
    seats by name and writes the person its name map holds, so the Boris
    whose theme is film sits on two seats and the Boris whose theme is
    golf on none. *)
Lemma assignToTables_namesake_counterexample :
  let sr := mkSeatingResult (Some [0; 3; 2; 1]) (Fin 0) namesake_people in
  let majbritt := mkPerson "Majbritt Jensen" ["film"] in
  let boris_golf := mkPerson "Boris Sidorevitj" ["golf"] in
  let boris_film := mkPerson "Boris Sidorevitj" ["film"] in
  let ada := mkPerson "Ada" ["jazz"] in
  [0; 3; 2; 1] ≡ₚ seq 0 (length (people sr))
  /\ (length (people sr) <= sum_list [4])
  /\ boris_golf ∈ people sr
  /\ exists ta,
       assignToTables sr [4] = Ok ta
       /\ tables ta = [[Seated majbritt; Seated boris_film; Seated boris_film; Seated ada]]
       /\ Seated boris_golf ∉ concat (tables ta)
       /\ seat_at (tables ta) 0 1 = Some (Seated boris_film)
       /\ seat_at (tables ta) 0 2 = Some (Seated boris_film).
Proof.
  intros sr majbritt boris_golf boris_film ada. split; [|split; [|split]].
  - apply (bool_decide_unpack ([0; 3; 2; 1] ≡ₚ seq 0 (length (people sr)))). by vm_compute.
  - simpl. lia.
  - right. left.
  - eexists. split; [by vm_compute|]. split; [done|]. split; [|done].
    simpl. rewrite !not_elem_of_cons. repeat split; try discriminate.
    apply not_elem_of_nil.
Qed.

(** C3 (amended).  For every seating result whose order is a permutation
    of the participant indices and every list of table sizes with enough
    seats, provided that no name of the pair registry is the name of two
    participants, after [assignToTables] the seats of all tables hold
    exactly the participants, each as often as the list of participants
    has them: nobody is dropped and nobody sits on two seats.  (When the
    participants are pairwise different, each has one seat and no
    other.) *)
Theorem assignToTables_everyone_once (sr : SeatingResult) (tableSizes : list nat)
    (o : list nat) :
  order sr = Some o ->
  o ≡ₚ seq 0 (length (people sr)) ->
  length (people sr) <= sum_list tableSizes ->
  carried_once (people sr) (pair_names CONSTANT_PAIRS_NAMES) ->
  exists ta,
    assignToTables sr tableSizes = Ok ta
    /\ concat (tables ta) ≡ₚ Seated <$> people sr
    /\ (forall p, p ∈ people sr ->
          exists t s, seat_at (tables ta) t s = Some (Seated p))
    /\ (NoDup (people sr) ->
        forall p t s t' s',
          seat_at (tables ta) t s = Some (Seated p) ->
          seat_at (tables ta) t' s' = Some (Seated p) ->
          t' = t /\ s' = s).
Proof.
  intros Ho Hperm Hcap Hone.
  assert (exists ta, assignToTables sr tableSizes = Ok ta
                     /\ all_seated (people sr) (tables ta)) as (ta & Hta & Hall).
  { unfold assignToTables, finish_assignment. rewrite Ho.
    eexists. split; [done|]. simpl.
    pose proof (fill_tables_all_seated (people sr) o tableSizes Hperm Hcap) as Hall.
    unfold enforceConstantPairsOnTables. case_decide as Hcp; [done|].
    pose proof (enforce_pairs_all_seated (people sr) CONSTANT_PAIRS_NAMES _
                  CONSTANT_PAIRS_NAMES_NoDup Hone Hall) as Hall'.
    by rewrite strip_all_null_free by apply Hall'. }
  exists ta. split; [done|]. split; [apply Hall|]. split.
  - intros p Hp.
    assert (Seated p ∈ concat (tables ta)) as Hin.
    { destruct Hall as [_ ->]. apply list_elem_of_fmap. eauto. }
    apply concat_elem in Hin as (t & table & s & Ht & Hs).
    exists t, s. unfold seat_at. by rewrite Ht.
  - intros Hnd p t s t' s' Hseat Hseat'. unfold seat_at in Hseat, Hseat'.
    destruct (tables ta !! t) as [table|] eqn:Ht; [|done].
    destruct (tables ta !! t') as [table'|] eqn:Ht'; [|done].
    simpl in Hseat, Hseat'.
    assert (NoDup (concat (tables ta))) as Hnd'.
    { destruct Hall as [_ ->]. apply NoDup_fmap_2; [by intros ? ? [=] | done]. }
    destruct (NoDup_concat_position _ _ _ _ _ _ _ _ Hnd' Ht Hseat Ht' Hseat'). done.
Qed.

Lemma assignToTables_everyone_once_witness :
  exists ta,
    assignToTables (mkSeatingResult (Some [2; 0; 3; 1]) (Fin 0) twin_people) [2; 2] = Ok ta
    /\ concat (tables ta) ≡ₚ Seated <$> twin_people
    /\ (forall p, p ∈ twin_people ->
          exists t s, seat_at (tables ta) t s = Some (Seated p))
    /\ (NoDup twin_people ->
        forall p t s t' s',
          seat_at (tables ta) t s = Some (Seated p) ->
          seat_at (tables ta) t' s' = Some (Seated p) ->
          t' = t /\ s' = s).
Proof.
  apply (assignToTables_everyone_once
           (mkSeatingResult (Some [2; 0; 3; 1]) (Fin 0) twin_people) [2; 2] [2; 0; 3; 1]).
  - reflexivity.
  - apply (bool_decide_unpack ([2; 0; 3; 1] ≡ₚ seq 0 4)). vm_compute. exact I.
  - simpl. lia.
  - apply (bool_decide_unpack
             (carried_once twin_people (pair_names CONSTANT_PAIRS_NAMES))).
    vm_compute. exact I.
Defined.

(** C4 (the code departs from the claim).  Two tables of declared size 5
    and ten participants: the first table takes six participants, not
    five, because the right side is filled up to [Math.ceil(5 / 2)] seats
    as the left side is; the second table is left with four. *)
Lemma assignToTables_odd_size_overfilled :
  let people :=
    (fun nm => mkPerson nm [])
      <$> ["a"; "b"; "c"; "d"; "e"; "f"; "g"; "h"; "i"; "j"]%string in
  exists ta,
    assignToTables
      (mkSeatingResult (Some [0; 1; 2; 3; 4; 5; 6; 7; 8; 9]) (Fin 0) people) [5; 5]
      = Ok ta
    /\ tables ta = [ seats_of people [0; 1; 2; 5; 4; 3]; seats_of people [6; 7; 8; 9] ].
Proof. eexists. split; reflexivity. Qed.

(** C9.  Whatever distance function and mode the optimisation ran with,
    the statistics of [assignToTables] have, for every seated person, an
    entry with the 1-indexed table number and seat position whose combined
    similarity is computed with the commonality distance: the distance to
    the only neighbour for the first and the last seat of a table, the
    average of the two distances for a seat in between. *)
Theorem statistics_use_commonality (fuel : nat) (random : nat -> Q)
    (ps : list Person) (attempts : nat) (distanceFunction : DistanceFunction)
    (optimizationMode : OptimizationMode) (sr : SeatingResult)
    (log : list (nat * number)) (tableSizes : list nat) (ta : TableAssignment)
    (t s : nat) (table : Table) (person : Person) :
  optimizeSeating fuel random ps attempts distanceFunction optimizationMode = Ok (sr, log) ->
  assignToTables sr tableSizes = Ok ta ->
  tables ta !! t = Some table -> table !! s = Some (Seated person) ->
  exists st, st ∈ statistics ta
    /\ stat_name st = name person
    /\ tableNumber st = t + 1 /\ position st = s + 1
    /\ (forall next, s = 0 -> table !! 1 = Some (Seated next) ->
          combinedSimilarity st
            = toFixed2 (commonalityDistance (themes person) (themes next)))
    /\ (forall prev, 0 < s -> s = length table - 1 ->
          table !! (s - 1) = Some (Seated prev) ->
          combinedSimilarity st
            = toFixed2 (commonalityDistance (themes person) (themes prev)))
    /\ (forall prev next, 0 < s -> s < length table - 1 ->
          table !! (s - 1) = Some (Seated prev) ->
          table !! (s + 1) = Some (Seated next) ->
          combinedSimilarity st
            = toFixed2 ((commonalityDistance (themes person) (themes prev)
                         + commonalityDistance (themes person) (themes next)) / 2)).
Proof.
  intros _ Hta Ht Hs.
  assert (statistics ta = calculateStatistics (tables ta)) as Hstat.
  { unfold assignToTables in Hta.
    destruct (order sr); [|destruct (forallb _ _); [|done]]; by injection Hta as <-. }
  exists (seat_statistics t table s person). rewrite Hstat.
  split; [by apply seat_statistics_elem|].
  split; [done|]. split; [done|]. split; [done|].
  split; [|split].
  - intros next -> Hn. by apply seat_statistics_first.
  - intros prev H0 Hlast Hp. by apply seat_statistics_last.
  - intros prev next H0 Hmid Hp Hn. by apply seat_statistics_middle.
Qed.

Lemma statistics_use_commonality_witness :
  let table := default [] (sample_tables !! 0) in
  let person := mkPerson "Cy" ["chess"; "hiking"] in
  exists st, st ∈ statistics sample_assignment
    /\ stat_name st = name person
    /\ tableNumber st = 0 + 1 /\ position st = 1 + 1
    /\ (forall next, 1 = 0 -> table !! 1 = Some (Seated next) ->
          combinedSimilarity st
            = toFixed2 (commonalityDistance (themes person) (themes next)))
    /\ (forall prev, 0 < 1 -> 1 = length table - 1 ->
          table !! (1 - 1) = Some (Seated prev) ->
          combinedSimilarity st
            = toFixed2 (commonalityDistance (themes person) (themes prev)))
    /\ (forall prev next, 0 < 1 -> 1 < length table - 1 ->
          table !! (1 - 1) = Some (Seated prev) ->
          table !! (1 + 1) = Some (Seated next) ->
          combinedSimilarity st
            = toFixed2 ((commonalityDistance (themes person) (themes prev)
                         + commonalityDistance (themes person) (themes next)) / 2)).
Proof.
  apply (statistics_use_commonality 25 sample_random sample_people 2 avg_distance
           distance sample_seating [(1, Fin (4 # 4))] [4] sample_assignment 0 1).
  - vm_compute. reflexivity.
  - vm_compute. reflexivity.
  - reflexivity.
  - reflexivity.
Defined.

(** A closed decidable proposition, by evaluation. *)
Ltac by_evaluation :=
  match goal with
  | |- ?P => apply (bool_decide_unpack P); vm_compute; exact I
  end.

(** ** The distance functions *)

Lemma has_true (s : list string) (x : string) : has s x = true <-> x ∈ s.
Proof. unfold has. apply bool_decide_eq_true. Qed.

Lemma common_elem (a b : list string) (x : string) :
  x ∈ filter (fun x => has b x = true) a <-> x ∈ a /\ x ∈ b.
Proof. rewrite list_elem_of_filter, has_true. tauto. Qed.

(** On sets the number of common themes does not depend on the side it is
    counted from. *)
Lemma inter_count_comm (a b : list string) :
  NoDup a -> NoDup b -> inter_count a b = inter_count b a.
Proof.
  intros Ha Hb. unfold inter_count. apply Permutation_length.
  apply NoDup_Permutation; [by apply NoDup_filter | by apply NoDup_filter |].
  intros x. rewrite !common_elem. tauto.
Qed.

Lemma inter_count_le (a b : list string) : inter_count a b <= length a.
Proof. apply length_filter. Qed.

Lemma inter_count_zero (a b : list string) :
  inter_count a b = 0 <-> forall x, x ∈ a -> x ∉ b.
Proof.
  unfold inter_count. rewrite length_zero_iff_nil. split.
  - intros H x Hx Hb.
    assert (x ∈ filter (fun x => has b x = true) a) as Hin by by apply common_elem.
    rewrite H in Hin. by apply not_elem_of_nil in Hin.
  - intros H. apply elem_of_nil_inv. intros x Hx.
    apply common_elem in Hx as [Hx Hb]. by apply (H x).
Qed.

Lemma union_elem (a b : list string) (x : string) :
  x ∈ remove_dups (a ++ b) <-> x ∈ a \/ x ∈ b.
Proof. by rewrite elem_of_remove_dups, elem_of_app. Qed.

Lemma union_comm (a b : list string) :
  length (remove_dups (a ++ b)) = length (remove_dups (b ++ a)).
Proof.
  apply Permutation_length.
  apply NoDup_Permutation; [apply NoDup_remove_dups | apply NoDup_remove_dups |].
  intros x. rewrite !union_elem. tauto.
Qed.

(** A set is not larger than its union with another one. *)
Lemma union_ge_left (a b : list string) :
  NoDup a -> length a <= length (remove_dups (a ++ b)).
Proof.
  intros Ha. apply submseteq_length, NoDup_submseteq; [done|].
  intros x Hx. apply union_elem. by left.
Qed.

Lemma union_ge_right (a b : list string) :
  NoDup b -> length b <= length (remove_dups (a ++ b)).
Proof.
  intros Hb. apply submseteq_length, NoDup_submseteq; [done|].
  intros x Hx. apply union_elem. by right.
Qed.

Lemma union_zero (a b : list string) :
  length (remove_dups (a ++ b)) = 0 <-> a = [] /\ b = [].
Proof.
  rewrite length_zero_iff_nil. split.
  - intros H.
    assert (forall x, x ∉ a ++ b) as Hno.
    { intros x Hx. apply elem_of_remove_dups in Hx. rewrite H in Hx.
      by apply not_elem_of_nil in Hx. }
    apply elem_of_nil_inv in Hno. by apply app_eq_nil in Hno.
  - intros [-> ->]. done.
Qed.

(** All of a set is shared with another set exactly when it is included
    in it. *)
Lemma inter_count_full (a b : list string) :
  inter_count a b = length a <-> forall x, x ∈ a -> x ∈ b.
Proof.
  unfold inter_count. induction a as [|x a IH]; simpl.
  - split; [|done]. intros _ x Hx. by apply not_elem_of_nil in Hx.
  - rewrite filter_cons. destruct (decide (has b x = true)) as [Hx|Hx]; simpl.
    + split.
      * intros [= H]. pose proof (proj1 IH H) as H'. intros y Hy.
        apply elem_of_cons in Hy as [->|Hy]; [by apply has_true | auto].
      * intros H. f_equal. apply IH. intros y Hy. apply H. by right.
    + split.
      * intros H. pose proof (length_filter (fun x => has b x = true) a). lia.
      * intros H. exfalso. apply Hx, has_true, H. left.
Qed.

Lemma Qmake_of_nat_pos (u : nat) : u <> 0 -> Z.pos (Pos.of_nat u) = Z.of_nat u.
Proof. intros Hu. rewrite <- (Nat2Pos.id u) at 2 by done. by rewrite positive_nat_Z. Qed.

Lemma quotient_range (i u : nat) :
  u <> 0 -> i <= u -> (0 <= 1 - (Z.of_nat i # Pos.of_nat u) <= 1)%Q.
Proof.
  intros Hu Hi. unfold Qle, Qminus, Qplus, Qopp. simpl.
  rewrite !Qmake_of_nat_pos by done. nia.
Qed.

Lemma quotient_zero (i u : nat) :
  u <> 0 -> (1 - (Z.of_nat i # Pos.of_nat u) == 0)%Q <-> i = u.
Proof.
  intros Hu. unfold Qeq, Qminus, Qplus, Qopp. simpl.
  rewrite !Qmake_of_nat_pos by done. nia.
Qed.

Lemma quotient_one (i u : nat) :
  u <> 0 -> (1 - (Z.of_nat i # Pos.of_nat u) == 1)%Q <-> i = 0.
Proof.
  intros Hu. unfold Qeq, Qminus, Qplus, Qopp. simpl.
  rewrite !Qmake_of_nat_pos by done. nia.
Qed.

Lemma commonalityDistance_cases (a b : list string) :
  commonalityDistance a b = (Z.of_nat (4 - Nat.min (inter_count a b) 4) # 4).
Proof. done. Qed.

Lemma commonalityDistance_lt_one (a b : list string) :
  (commonalityDistance a b < 1)%Q <-> exists x, x ∈ a /\ x ∈ b.
Proof.
  rewrite commonalityDistance_cases. unfold Qlt. simpl. split.
  - intros H. destruct (filter (fun x => has b x = true) a) as [|x l] eqn:E.
    + exfalso. unfold inter_count in H. rewrite E in H. simpl in H. lia.
    + exists x. apply common_elem. rewrite E. left.
  - intros (x & Ha & Hb).
    assert (inter_count a b <> 0) as Hne.
    { intros Hz. rewrite inter_count_zero in Hz. by apply (Hz x). }
    lia.
Qed.

Lemma existsb_has (a b : list string) :
  existsb (has b) a = true <-> exists x, x ∈ a /\ x ∈ b.
Proof.
  rewrite existsb_exists. split.
  - intros (x & Hx & Hh). exists x. split; [by apply list_elem_of_In | by apply has_true].
  - intros (x & Hx & Hh). exists x. split; [by apply list_elem_of_In | by apply has_true].
Qed.

Lemma hasCommonThemes_Some (p q : Person) :
  hasCommonThemes (Some p) (Some q) = Ok (existsb (has (themes q)) (themes p)).
Proof. unfold hasCommonThemes. simpl. by destruct (themes p). Qed.

Lemma commonalityDistance_comm (a b : list string) :
  NoDup a -> NoDup b -> commonalityDistance a b = commonalityDistance b a.
Proof.
  intros Ha Hb. rewrite !commonalityDistance_cases.
  by rewrite (inter_count_comm b a).
Qed.

Lemma commonalityDistance_range (a b : list string) :
  (0 <= commonalityDistance a b <= 1)%Q.
Proof. rewrite commonalityDistance_cases. unfold Qle. simpl. lia. Qed.

Lemma avgDistance_comm (a b : list string) :
  NoDup a -> NoDup b -> avgDistance a b = avgDistance b a.
Proof.
  intros Ha Hb. unfold avgDistance.
  by rewrite (inter_count_comm b a), (union_comm b a).
Qed.

Lemma avgDistance_range (a b : list string) :
  NoDup a -> (0 <= avgDistance a b <= 1)%Q.
Proof.
  intros Ha. unfold avgDistance. case_decide as Hu; [done|].
  apply quotient_range; [done|].
  etrans; [apply inter_count_le | by apply union_ge_left].
Qed.

Lemma getDistanceFunction_comm (type : DistanceFunction) (a b : list string) :
  NoDup a -> NoDup b ->
  getDistanceFunction type a b = getDistanceFunction type b a.
Proof.
  destruct type; simpl; [apply commonalityDistance_comm | apply avgDistance_comm].
Qed.

Lemma getDistanceFunction_range (type : DistanceFunction) (a b : list string) :
  NoDup a -> (0 <= getDistanceFunction type a b <= 1)%Q.
Proof.
  destruct type; simpl; [intros _; apply commonalityDistance_range | apply avgDistance_range].
Qed.

(** X1.  [commonalityDistance] lies between 0 and 1, does not depend on the
    order of its two theme sets, is 1 exactly when they share no theme and
    0 exactly when they share four themes or more. *)
Theorem commonalityDistance_spec (a b : list string) :
  NoDup a -> NoDup b ->
  (0 <= commonalityDistance a b <= 1)%Q
  /\ commonalityDistance a b = commonalityDistance b a
  /\ ((commonalityDistance a b == 1)%Q <-> forall x, x ∈ a -> x ∉ b)
  /\ ((commonalityDistance a b == 0)%Q
      <-> 4 <= length (filter (fun x => x ∈ b) a)).
Proof.
  intros Ha Hb. rewrite !commonalityDistance_cases.
  rewrite (inter_count_comm b a) by done.
  assert (length (filter (fun x => x ∈ b) a) = inter_count a b) as ->.
  { unfold inter_count. f_equal. apply list_filter_iff. intros x. by rewrite has_true. }
  rewrite <- inter_count_zero.
  unfold Qle, Qeq. simpl. repeat split; lia.
Qed.

Lemma commonalityDistance_spec_witness :
  let a := ["film"; "golf"; "jazz"]%string in
  let b := ["jazz"; "film"]%string in
  (0 <= commonalityDistance a b <= 1)%Q
  /\ commonalityDistance a b = commonalityDistance b a
  /\ ((commonalityDistance a b == 1)%Q <-> forall x, x ∈ a -> x ∉ b)
  /\ ((commonalityDistance a b == 0)%Q
      <-> 4 <= length (filter (fun x => x ∈ b) a)).
Proof.
  apply (commonalityDistance_spec ["film"; "golf"; "jazz"]%string ["jazz"; "film"]%string);
    by_evaluation.
Defined.

(** X2.  [avgDistance] is the Jaccard distance of two theme sets: it lies
    between 0 and 1, does not depend on the order of the two sets, is 0
    exactly for two equal sets that are not empty, and 1 exactly for two
    sets without a common theme (two empty sets among them). *)
Theorem avgDistance_spec (a b : list string) :
  NoDup a -> NoDup b ->
  (0 <= avgDistance a b <= 1)%Q
  /\ avgDistance a b = avgDistance b a
  /\ ((avgDistance a b == 0)%Q <-> a <> [] /\ a ≡ₚ b)
  /\ ((avgDistance a b == 1)%Q <-> forall x, x ∈ a -> x ∉ b).
Proof.
  intros Ha Hb.
  assert (inter_count a b <= length (remove_dups (a ++ b))) as Hle.
  { etrans; [apply inter_count_le | by apply union_ge_left]. }
  split; [|split; [|split]].
  - unfold avgDistance. case_decide as Hu; [done|]. by apply quotient_range.
  - unfold avgDistance. rewrite (inter_count_comm b a), (union_comm b a) by done. done.
  - unfold avgDistance. case_decide as Hu.
    + apply union_zero in Hu as [-> ->]. split; [done | by intros [? _]].
    + rewrite quotient_zero by done. split.
      * intros E.
        pose proof (inter_count_le a b). pose proof (union_ge_left a b Ha).
        pose proof (union_ge_right a b Hb).
        assert (inter_count a b = length a) as Hfull by lia.
        rewrite inter_count_full in Hfull.
        assert (inter_count b a = length b) as Hfull'.
        { rewrite <- (inter_count_comm a b) by done.
          apply Nat.le_antisymm; [|lia].
          rewrite (inter_count_comm a b) by done. apply inter_count_le. }
        rewrite inter_count_full in Hfull'.
        split.
        -- intros ->. apply Hu. simpl in *.
           assert (length b = 0) as Hb0; [|].
           { unfold inter_count in E. simpl in E. simpl in H1. lia. }
           apply length_zero_iff_nil in Hb0. by subst.
        -- apply NoDup_Permutation; [done..|]. intros x. split; auto.
      * intros [Hne Hp].
        assert (inter_count a b = length a) as ->.
        { apply inter_count_full. intros x Hx. by rewrite <- Hp. }
        apply Permutation_length, NoDup_Permutation; [done | apply NoDup_remove_dups |].
        intros x. rewrite union_elem, <- Hp. tauto.
  - unfold avgDistance. case_decide as Hu.
    + apply union_zero in Hu as [-> ->]. split; [|done].
      intros _ x Hx. by apply not_elem_of_nil in Hx.
    + rewrite quotient_one by done. apply inter_count_zero.
Qed.

Lemma avgDistance_spec_witness :
  let a := ["film"; "golf"; "jazz"]%string in
  let b := ["jazz"; "film"]%string in
  (0 <= avgDistance a b <= 1)%Q
  /\ avgDistance a b = avgDistance b a
  /\ ((avgDistance a b == 0)%Q <-> a <> [] /\ a ≡ₚ b)
  /\ ((avgDistance a b == 1)%Q <-> forall x, x ∈ a -> x ∉ b).
Proof.
  apply (avgDistance_spec ["film"; "golf"; "jazz"]%string ["jazz"; "film"]%string);
    by_evaluation.
Defined.

(** X3.  [hasCommonThemes] throws exactly when its first person is undefined,
    or its second is and the first has a theme; on two persons it tells
    whether they share a theme, which is the case exactly when their
    commonality distance is below 1. *)
Theorem hasCommonThemes_spec (personA personB : option Person) :
  (hasCommonThemes personA personB = Err TypeError
   <-> personA = None
       \/ (personB = None /\ exists p, personA = Some p /\ themes p <> []))
  /\ (forall p q, personA = Some p -> personB = Some q ->
      exists c, hasCommonThemes personA personB = Ok c
        /\ (c = true <-> exists x, x ∈ themes p /\ x ∈ themes q)
        /\ (c = true <-> (commonalityDistance (themes p) (themes q) < 1)%Q)).
Proof.
  split.
  - destruct personA as [p|], personB as [q|]; simpl.
    + rewrite hasCommonThemes_Some. split; [done|].
      intros [?|[? _]]; done.
    + unfold hasCommonThemes. simpl. destruct (themes p) as [|t ts] eqn:E; simpl.
      * split; [done|]. intros [?|[_ (p' & [= <-] & Hne)]]; [done|]. by rewrite E in Hne.
      * split; [|done]. intros _. right. split; [done|]. exists p. by rewrite E.
    + split; [by left | done].
    + split; [by left | done].
  - intros p q -> ->. rewrite hasCommonThemes_Some. eexists. split; [done|].
    rewrite commonalityDistance_lt_one, existsb_has. done.
Qed.

Lemma hasCommonThemes_spec_witness :
  exists c, hasCommonThemes (Some (mkPerson "Ada" ["chess"; "music"]))
              (Some (mkPerson "Cy" ["chess"; "hiking"])) = Ok c
    /\ (c = true <-> exists x, x ∈ ["chess"; "music"]%string
                               /\ x ∈ ["chess"; "hiking"]%string)
    /\ (c = true
        <-> (commonalityDistance ["chess"; "music"] ["chess"; "hiking"] < 1)%Q).
Proof.
  exact (proj2 (hasCommonThemes_spec (Some (mkPerson "Ada" ["chess"; "music"]))
                  (Some (mkPerson "Cy" ["chess"; "hiking"])))
           _ _ eq_refl eq_refl).
Defined.

(** ** The pair map *)

Lemma map_get_None (m : JsMap) (k : nat) : map_get m k = None <-> k ∉ m.*1.
Proof.
  induction m as [|[k' v'] m IH]; simpl.
  - split; [intros _; apply not_elem_of_nil | done].
  - rewrite not_elem_of_cons. case_decide; [subst; split; [done | by intros [??]]|].
    rewrite IH. split; [by split | by intros [??]].
Qed.

Lemma map_set_fresh (m : JsMap) (k v : nat) :
  k ∉ m.*1 -> map_set m k v = m ++ [(k, v)].
Proof.
  induction m as [|[k' v'] m IH]; simpl; [done|].
  rewrite not_elem_of_cons. intros [Hne Hk].
  case_decide; [congruence|]. by rewrite IH.
Qed.

Lemma map_get_lookup (m : JsMap) (k v : nat) :
  NoDup m.*1 -> (k, v) ∈ m <-> map_get m k = Some v.
Proof.
  intros Hnd. split; [|apply map_get_elem].
  induction m as [|[k' v'] m IH]; simpl; [by intros ?%elem_of_nil|].
  apply NoDup_cons in Hnd as [Hk' Hnd].
  intros [[= -> ->]|Hin]%elem_of_cons.
  - by case_decide.
  - case_decide as E; [|auto]. subst k'. exfalso. apply Hk'.
    apply list_elem_of_fmap. by exists (k, v).
Qed.

(** ** [findConstantPairs] *)

Lemma findIndex_name (people : list Person) (nm : string) (k : nat) :
  findIndex (name_is nm) people = Z.of_nat k ->
  exists p, people !! k = Some p /\ name p = nm
    /\ forall q r, people !! q = Some r -> q < k -> name r <> nm.
Proof.
  intros E.
  destruct (findIndex_found (name_is nm) people) as (p & x & Ep & Hx & Hn & Hfirst); [lia|].
  assert (p = k) as -> by lia.
  exists x. split; [done|]. split; [by apply bool_decide_eq_true in Hn|].
  intros q r Hq Hlt Hr. apply (Hfirst q r Hq) in Hlt.
  unfold name_is in Hlt. by apply bool_decide_eq_false in Hlt.
Qed.

Lemma findIndex_name_first (people : list Person) (k : nat) (p : Person) :
  people !! k = Some p ->
  (forall q r, people !! q = Some r -> q < k -> name r <> name p) ->
  findIndex (name_is (name p)) people = Z.of_nat k.
Proof.
  intros Hk Hfirst.
  assert (findIndex (name_is (name p)) people <> (-1)%Z) as Hne.
  { rewrite findIndex_absent. intros H.
    assert (name_is (name p) p = false) as E by (apply H; by eapply list_elem_of_lookup_2).
    unfold name_is in E. by apply bool_decide_eq_false in E. }
  pose proof (findIndex_range (name_is (name p)) people).
  destruct (findIndex_name people (name p) (Z.to_nat (findIndex (name_is (name p)) people)))
    as (x & Hx & Hn & Hmin); [lia|].
  destruct (Nat.lt_trichotomy (Z.to_nat (findIndex (name_is (name p)) people)) k)
    as [Hlt|[E|Hgt]].
  - exfalso. by apply (Hfirst _ _ Hx Hlt).
  - lia.
  - exfalso. by apply (Hmin _ _ Hk Hgt).
Qed.

(** Two names found at one index are one name. *)
Lemma findIndex_name_inj (people : list Person) (x y : string) :
  findIndex (name_is x) people <> (-1)%Z ->
  Z.to_nat (findIndex (name_is x) people) = Z.to_nat (findIndex (name_is y) people) ->
  findIndex (name_is y) people <> (-1)%Z ->
  x = y.
Proof.
  intros Hx E Hy.
  pose proof (findIndex_range (name_is x) people).
  pose proof (findIndex_range (name_is y) people).
  destruct (findIndex_name people x (Z.to_nat (findIndex (name_is x) people)))
    as (p & Hp & <- & _); [lia|].
  destruct (findIndex_name people y (Z.to_nat (findIndex (name_is y) people)))
    as (q & Hq & <- & _); [lia|].
  rewrite E in Hp. congruence.
Qed.

Lemma both_ways_names (pairs : list (string * string)) :
  (both_ways pairs).*1 = pair_names pairs.
Proof.
  unfold both_ways, pair_names. induction pairs as [|[x y] pairs IH]; [done|].
  by rewrite !bind_cons, fmap_app, IH.
Qed.

Lemma both_ways_app {A : Type} (l1 l2 : list (A * A)) :
  both_ways (l1 ++ l2) = both_ways l1 ++ both_ways l2.
Proof. unfold both_ways. apply bind_app. Qed.

Lemma pair_names_app (l1 l2 : list (string * string)) :
  pair_names (l1 ++ l2) = pair_names l1 ++ pair_names l2.
Proof. unfold pair_names. apply bind_app. Qed.

Lemma both_ways_elem {A : Type} (pairs : list (A * A)) (x y : A) :
  (x, y) ∈ both_ways pairs <-> (x, y) ∈ pairs \/ (y, x) ∈ pairs.
Proof.
  unfold both_ways. rewrite list_elem_of_bind. split.
  - intros ([a b] & Hin & Hab). simpl in Hin.
    apply elem_of_cons in Hin as [[= -> ->]|Hin]; [by left|].
    apply list_elem_of_singleton in Hin as [= -> ->]. by right.
  - intros [H|H].
    + exists (x, y). split; [left | done].
    + exists (y, x). split; [right; left | done].
Qed.

(** The map [findConstantPairs] builds, entry by entry: both directions of
    every pair whose two names are found, in the order of the registry. *)
Lemma findConstantPairs_in_entries (pairs : list (string * string)) (people : list Person) :
  NoDup (pair_names pairs) ->
  findConstantPairs_in pairs people
  = index_entry people <$> both_ways (filter (resolved people) pairs).
Proof.
  intros Hnd. unfold findConstantPairs_in.
  change (@nil (nat * nat))
    with (index_entry people <$> both_ways (filter (resolved people) [])).
  assert (NoDup (pair_names ([] ++ pairs))) as Hall by done.
  rewrite <- (app_nil_l pairs) at 2.
  revert Hall. generalize (@nil (string * string)) as seen.
  clear Hnd. induction pairs as [|[name1 name2] pairs IH]; intros seen Hall; simpl.
  - by rewrite app_nil_r.
  - rewrite (cons_middle _ seen pairs), app_assoc in Hall |- *.
    rewrite <- (IH _ Hall). f_equal.
    rewrite filter_app, both_ways_app, fmap_app.
    set (idx1 := findIndex (name_is name1) people).
    set (idx2 := findIndex (name_is name2) people).
    rewrite filter_cons, filter_nil.
    destruct (decide (resolved people (name1, name2))) as [[H1 H2]|Hno]; simpl in *.
    + fold idx1 idx2 in H1, H2.
      destruct (Z.eqb_spec idx1 (-1)); [done|].
      destruct (Z.eqb_spec idx2 (-1)); [done|]. simpl.
      rewrite pair_names_app in Hall. apply NoDup_app in Hall as (Hall & _).
      rewrite pair_names_app in Hall. apply NoDup_app in Hall as (Hseen & Hfresh & Hpair).
      simpl in Hpair. apply NoDup_cons in Hpair as [Hne _].
      rewrite not_elem_of_cons in Hne. destruct Hne as [Hne _].
      set (m := index_entry people <$> both_ways (filter (resolved people) seen)).
      assert (forall nm, findIndex (name_is nm) people <> (-1)%Z ->
                nm ∉ pair_names seen ->
                Z.to_nat (findIndex (name_is nm) people) ∉ m.*1) as Hkey.
      { intros nm Hnm Hnew Hin. subst m.
        rewrite <- list_fmap_compose in Hin.
        apply list_elem_of_fmap in Hin as ([x y] & E & Hin). simpl in E.
        apply both_ways_elem in Hin.
        assert (resolved people (x, y) \/ resolved people (y, x)) as Hres.
        { destruct Hin as [Hin|Hin]; apply list_elem_of_filter in Hin as [Hr _]; auto. }
        assert (findIndex (name_is x) people <> (-1)%Z) as Hx.
        { destruct Hres as [[? ?]|[? ?]]; done. }
        assert (x ∈ pair_names seen) as Hxs.
        { unfold pair_names. apply list_elem_of_bind.
          destruct Hin as [Hin|Hin]; apply list_elem_of_filter in Hin as [_ Hin].
          - exists (x, y). split; [left | done].
          - exists (y, x). split; [right; left | done]. }
        apply Hnew. by rewrite (findIndex_name_inj people nm x Hnm E Hx). }
      rewrite (map_set_fresh m).
      2:{ apply Hkey; [done|]. intros Hin. apply (Hfresh name1 Hin). left. }
      rewrite map_set_fresh; [by rewrite <- app_assoc|].
      rewrite fmap_app, not_elem_of_app. split.
      * apply Hkey; [done|]. intros Hin. apply (Hfresh name2 Hin). right. left.
      * simpl. rewrite list_elem_of_singleton. intros E.
        apply Hne. symmetry in E. by apply (findIndex_name_inj people name1 name2 H1 E H2).
    + rewrite app_nil_r.
      destruct (Z.eqb_spec idx1 (-1)); simpl; [done|].
      destruct (Z.eqb_spec idx2 (-1)); simpl; [done|].
      exfalso. apply Hno. by split.
Qed.

Lemma findConstantPairs_entries (people : list Person) :
  findConstantPairs people
  = index_entry people <$> both_ways (filter (resolved people) CONSTANT_PAIRS_NAMES).
Proof. apply findConstantPairs_in_entries, CONSTANT_PAIRS_NAMES_NoDup. Qed.

Lemma pair_names_filter (P : string * string -> Prop) `{forall pr, Decision (P pr)}
    (pairs : list (string * string)) :
  pair_names (filter P pairs) `sublist_of` pair_names pairs.
Proof.
  unfold pair_names. induction pairs as [|pr pairs IH]; [done|].
  rewrite filter_cons, bind_cons. destruct (decide (P pr)).
  - rewrite bind_cons. by apply sublist_app.
  - by apply sublist_inserts_l.
Qed.

Lemma resolved_elem (people : list Person) (pairs : list (string * string)) (x y : string) :
  (x, y) ∈ both_ways (filter (resolved people) pairs) ->
  findIndex (name_is x) people <> (-1)%Z /\ findIndex (name_is y) people <> (-1)%Z
  /\ ((x, y) ∈ pairs \/ (y, x) ∈ pairs).
Proof.
  rewrite both_ways_elem.
  intros [[[H1 H2] Hin]%list_elem_of_filter|[[H1 H2] Hin]%list_elem_of_filter]; auto.
Qed.

Lemma pair_names_elem (pairs : list (string * string)) (x : string) :
  x ∈ pair_names pairs <-> exists y, (x, y) ∈ both_ways pairs.
Proof.
  rewrite <- both_ways_names, list_elem_of_fmap. split.
  - intros ([x' y] & -> & Hin). by exists y.
  - intros (y & Hin). by exists (x, y).
Qed.

Lemma findConstantPairs_in_keys (pairs : list (string * string)) (people : list Person) :
  NoDup (pair_names pairs) -> NoDup (findConstantPairs_in pairs people).*1.
Proof.
  intros Hnd. rewrite findConstantPairs_in_entries by done.
  rewrite <- list_fmap_compose.
  change (fst ∘ index_entry people)
    with ((fun nm => Z.to_nat (findIndex (name_is nm) people)) ∘ (@fst string string)).
  rewrite list_fmap_compose, both_ways_names.
  apply NoDup_fmap_2_strong.
  - intros x x' Hin Hin' E.
    apply pair_names_elem in Hin as (y & (Hx & _)%resolved_elem).
    apply pair_names_elem in Hin' as (y' & (Hx' & _)%resolved_elem).
    by apply (findIndex_name_inj people).
  - eapply sublist_NoDup; [done | apply pair_names_filter].
Qed.

(** In the map of [findConstantPairs] no index has two partners, nobody
    is their own partner, and partners point at each other. *)
Lemma findConstantPairs_in_pairing (pairs : list (string * string)) (people : list Person) :
  NoDup (pair_names pairs) -> pairing (findConstantPairs_in pairs people).
Proof.
  intros Hnd. split; [by apply findConstantPairs_in_keys|].
  intros a b Hab.
  pose proof (findConstantPairs_in_keys pairs people Hnd) as Hk.
  rewrite <- map_get_lookup in Hab |- * by done.
  rewrite findConstantPairs_in_entries in Hab |- * by done.
  apply list_elem_of_fmap in Hab as ([x y] & [= -> ->] & Hin).
  pose proof Hin as (Hx & Hy & Hp)%resolved_elem. split.
  - intros E. apply (findIndex_name_inj people x y Hx) in E; [|done]. subst y.
    assert (NoDup (both_ways pairs).*1) as Hnd' by by rewrite both_ways_names.
    assert ((x, x) ∈ pairs) as Hxx by tauto.
    apply list_elem_of_split in Hxx as (l1 & l2 & ->).
    rewrite both_ways_app, fmap_app in Hnd'. apply NoDup_app in Hnd' as (_ & _ & Hnd').
    change (NoDup (x :: x :: (both_ways l2).*1)) in Hnd'.
    apply NoDup_cons in Hnd' as [Hno _]. apply Hno. left.
  - apply list_elem_of_fmap. exists (y, x). split; [done|].
    apply both_ways_elem. apply both_ways_elem in Hin. tauto.
Qed.

Lemma findConstantPairs_pairing (people : list Person) :
  pairing (findConstantPairs people).
Proof. apply findConstantPairs_in_pairing, CONSTANT_PAIRS_NAMES_NoDup. Qed.

(** X4.  The pair map gives index [a] the partner [b] exactly when the two are
    the first participants carrying the two names of a registry pair; the
    partner of [b] is then [a], the two differ, and the entries of the map
    are what its lookups return. *)
Theorem findConstantPairs_spec (people : list Person) (a b : nat) :
  let constantPairs := findConstantPairs people in
  (map_get constantPairs a = Some b
   <-> exists name1 name2,
         ((name1, name2) ∈ CONSTANT_PAIRS_NAMES
          \/ (name2, name1) ∈ CONSTANT_PAIRS_NAMES)
         /\ findIndex (name_is name1) people = Z.of_nat a
         /\ findIndex (name_is name2) people = Z.of_nat b)
  /\ (map_get constantPairs a = Some b
      -> a <> b /\ map_get constantPairs b = Some a
         /\ a < length people /\ b < length people)
  /\ ((a, b) ∈ constantPairs <-> map_get constantPairs a = Some b).
Proof.
  intros constantPairs.
  destruct (findConstantPairs_pairing people) as [Hk Hp]. fold constantPairs in Hk, Hp.
  split; [|split].
  - rewrite <- map_get_lookup by done. unfold constantPairs.
    rewrite findConstantPairs_entries, list_elem_of_fmap. split.
    + intros ([x y] & [= -> ->] & Hin). apply resolved_elem in Hin as (Hx & Hy & Hin).
      pose proof (findIndex_range (name_is x) people).
      pose proof (findIndex_range (name_is y) people).
      exists x, y. split; [done|]. simpl. lia.
    + intros (x & y & Hin & Hx & Hy). exists (x, y). split.
      * unfold index_entry. simpl. rewrite Hx, Hy. by rewrite !Nat2Z.id.
      * apply both_ways_elem.
        destruct Hin as [Hin|Hin]; [left|right]; apply list_elem_of_filter;
          (split; [split; simpl; lia | done]).
  - intros Hab. destruct (Hp a b Hab) as [Hne Hba]. split; [done|]. split; [done|].
    pose proof (findConstantPairs_bounded people) as Hb.
    split; [apply (map_get_bounded _ _ b a Hb Hba) | apply (map_get_bounded _ _ a b Hb Hab)].
  - by apply map_get_lookup.
Qed.

(** ** The distance matrix of [optimizeSeating] *)

Lemma person_themes_lookup (people : list Person) (a : nat) (p : Person) :
  people !! a = Some p -> person_themes people a = themes p.
Proof. unfold person_themes. by intros ->. Qed.

(** The entries of the matrix of [optimizeSeating]. *)
Lemma optimize_matrix_entry (people : list Person)
    (distanceFunction : DistanceFunction) (a b : nat) (pa pb : Person) :
  let constantPairs := findConstantPairs people in
  let distMatrix :=
    createDistanceMatrix people (getDistanceFunction distanceFunction) constantPairs in
  Forall (fun p => NoDup (themes p)) people ->
  people !! a = Some pa -> people !! b = Some pb ->
  entry distMatrix a b
  = if decide (a = b) then 0%Q
    else if decide (map_get constantPairs a = Some b) then 0%Q
    else getDistanceFunction distanceFunction (themes pa) (themes pb).
Proof.
  intros constantPairs distMatrix Hsets Hpa Hpb.
  assert (a < length people) as Ha by by eapply lookup_lt_Some.
  assert (b < length people) as Hb by by eapply lookup_lt_Some.
  rewrite Forall_forall in Hsets.
  assert (NoDup (themes pa)) as Hna by (apply Hsets; by eapply list_elem_of_lookup_2).
  assert (NoDup (themes pb)) as Hnb by (apply Hsets; by eapply list_elem_of_lookup_2).
  destruct (findConstantPairs_pairing people) as [_ Hpair]. fold constantPairs in Hpair.
  assert (map_get constantPairs b = Some a <-> map_get constantPairs a = Some b) as Hsym.
  { split; intros H; by apply Hpair in H as [_ H]. }
  unfold distMatrix. rewrite createDistanceMatrix_entry by done.
  unfold matrix_cell.
  rewrite (person_themes_lookup _ _ _ Hpa), (person_themes_lookup _ _ _ Hpb).
  destruct (Nat.ltb_spec a b), (Nat.ltb_spec b a); try lia.
  - rewrite (decide_False (P := a = b)) by lia. done.
  - rewrite (decide_False (P := a = b)) by lia.
    destruct (decide (map_get constantPairs b = Some a)) as [Hba|Hba].
    + by rewrite decide_True by by apply Hsym.
    + rewrite decide_False by by rewrite <- Hsym.
      by apply getDistanceFunction_comm.
  - by rewrite (decide_True (P := a = b)) by lia.
Qed.

Lemma optimize_matrix_range (people : list Person)
    (distanceFunction : DistanceFunction) (a b : nat) :
  let distMatrix :=
    createDistanceMatrix people (getDistanceFunction distanceFunction)
      (findConstantPairs people) in
  Forall (fun p => NoDup (themes p)) people ->
  (0 <= entry distMatrix a b <= 1)%Q.
Proof.
  intros distMatrix Hsets.
  destruct (decide (a < length people /\ b < length people)) as [[Ha Hb]|Hout].
  - destruct (lookup_lt_is_Some_2 people a Ha) as [pa Hpa].
    destruct (lookup_lt_is_Some_2 people b Hb) as [pb Hpb].
    unfold distMatrix. rewrite (optimize_matrix_entry people _ a b pa pb) by done.
    repeat case_decide; try done. apply getDistanceFunction_range.
    rewrite Forall_forall in Hsets. apply Hsets. by eapply list_elem_of_lookup_2.
  - unfold distMatrix. rewrite createDistanceMatrix_entry_out by lia. done.
Qed.

(** X5.  The matrix [optimizeSeating] works with has an entry for every two
    participants; it is symmetric, holds numbers between 0 and 1, has 0 on
    its diagonal and 0 between the two members of a pinned pair, and holds
    the chosen distance of the two theme sets everywhere else. *)
Theorem createDistanceMatrix_spec (people : list Person)
    (distanceFunction : DistanceFunction) (a b : nat) (pa pb : Person) :
  let constantPairs := findConstantPairs people in
  let distMatrix :=
    createDistanceMatrix people (getDistanceFunction distanceFunction) constantPairs in
  Forall (fun p => NoDup (themes p)) people ->
  people !! a = Some pa -> people !! b = Some pb ->
  mat_get distMatrix a b = Ok (Fin (entry distMatrix a b))
  /\ entry distMatrix a b = entry distMatrix b a
  /\ (0 <= entry distMatrix a b <= 1)%Q
  /\ (a = b -> entry distMatrix a b = 0%Q)
  /\ (map_get constantPairs a = Some b -> entry distMatrix a b = 0%Q)
  /\ (a <> b -> map_get constantPairs a <> Some b ->
      entry distMatrix a b
      = getDistanceFunction distanceFunction (themes pa) (themes pb)).
Proof.
  intros constantPairs distMatrix Hsets Hpa Hpb.
  assert (a < length people) as Ha by by eapply lookup_lt_Some.
  assert (b < length people) as Hb by by eapply lookup_lt_Some.
  pose proof (optimize_matrix_entry people distanceFunction a b pa pb Hsets Hpa Hpb) as E.
  fold constantPairs distMatrix in E.
  split; [|split; [|split; [|split; [|split]]]].
  - apply (mat_get_entry _ (length people)); [apply createDistanceMatrix_square | done..].
  - apply createDistanceMatrix_symmetric.
  - by apply optimize_matrix_range.
  - intros Hab. rewrite E. by rewrite decide_True.
  - intros Hab. rewrite E. case_decide; [done|]. by rewrite decide_True.
  - intros Hne Hab. rewrite E. by rewrite !decide_False.
Qed.

Lemma createDistanceMatrix_spec_witness :
  let constantPairs := findConstantPairs sample_people in
  let distMatrix :=
    createDistanceMatrix sample_people (getDistanceFunction avg_distance) constantPairs in
  let pa := mkPerson "Ada" ["chess"; "music"] in
  let pb := mkPerson "Cy" ["chess"; "hiking"] in
  mat_get distMatrix 0 2 = Ok (Fin (entry distMatrix 0 2))
  /\ entry distMatrix 0 2 = entry distMatrix 2 0
  /\ (0 <= entry distMatrix 0 2 <= 1)%Q
  /\ (0 = 2 -> entry distMatrix 0 2 = 0%Q)
  /\ (map_get constantPairs 0 = Some 2 -> entry distMatrix 0 2 = 0%Q)
  /\ (0 <> 2 -> map_get constantPairs 0 <> Some 2 ->
      entry distMatrix 0 2
      = getDistanceFunction avg_distance (themes pa) (themes pb)).
Proof.
  apply (createDistanceMatrix_spec sample_people avg_distance 0 2
           (mkPerson "Ada" ["chess"; "music"]) (mkPerson "Cy" ["chess"; "hiking"])).
  - repeat constructor; by_evaluation.
  - reflexivity.
  - reflexivity.
Defined.

(** ** Pinned pairs in the route of the nearest-neighbour constructor *)

Lemma consecutive_app (route : list nat) (x a b : nat) :
  consecutive route a b -> consecutive (route ++ [x]) a b.
Proof.
  intros (k & [[H1 H2]|[H1 H2]]); exists k; [left|right];
    (split; apply lookup_app_l_Some; done).
Qed.

Lemma consecutive_last (route : list nat) (a b : nat) :
  last route = Some a -> consecutive (route ++ [b]) a b.
Proof.
  intros Hlast. rewrite last_lookup in Hlast.
  destruct route as [|x route']; [done|]. simpl in Hlast.
  exists (length route'). left. split.
  - by apply lookup_app_l_Some.
  - change (S (length route')) with (length (x :: route')).
    by rewrite lookup_app_r, Nat.sub_diag by done.
Qed.

Lemma consecutive_sym (route : list nat) (a b : nat) :
  consecutive route a b -> consecutive route b a.
Proof. intros (k & [H|H]); exists k; tauto. Qed.

(** In a route without repetition, two indices next to each other are
    neighbours for the test of the source. *)
Lemma consecutive_adjacent_in (route : list nat) (a b : nat) :
  NoDup route -> consecutive route a b -> adjacent_in route (a, b).
Proof.
  intros Hnd (k & [[H1 H2]|[H1 H2]]); unfold adjacent_in; simpl;
    rewrite (indexOf_NoDup _ _ _ Hnd H1), (indexOf_NoDup _ _ _ Hnd H2);
    (split; [lia|]); (split; [lia|]); apply areNeighbors_spec; lia.
Qed.

Section nearestNeighbor_pairs.
Variable distMatrix : Matrix.
Variable people : list Person.
Variable constantPairs : JsMap.
Variable n : nat.
Hypothesis Hmatrix : length distMatrix = n.
Hypothesis Hpeople : length people = n.
Hypothesis Hpairs : map_bounded constantPairs n.
Hypothesis Hpairing : pairing constantPairs.

(** Priority 1: the partner of the current index, when it is still free. *)
Lemma choose_next_partner (visited : gset nat) (current pairIdx : nat) :
  map_get constantPairs current = Some pairIdx -> pairIdx ∉ visited ->
  choose_next distMatrix people constantPairs n visited current = Ok (Some pairIdx).
Proof.
  intros Hget Hfree. unfold choose_next. rewrite Hget.
  by rewrite bool_decide_eq_false_2.
Qed.

Lemma nn_loop_prefix (k : nat) (route : list nat) (visited : gset nat)
    (current : nat) (r : list nat) :
  nn_loop k distMatrix people constantPairs n route visited current = Ok r ->
  route `prefix_of` r.
Proof.
  revert route visited current. induction k as [|k IH]; intros route visited current; simpl.
  - by intros [= ->].
  - intros H. inv_bind H. destruct a as [next|]; [|by injection H as ->].
    apply IH in H. etrans; [|exact H]. by apply prefix_app_r.
Qed.

(** The loop keeps every pinned pair together: once one of the two
    stands in the route, the other is the next index pushed. *)
Lemma nn_loop_pairs (k : nat) (route : list nat) (visited : gset nat)
    (current : nat) (r : list nat) :
  (forall x, x ∈ visited <-> x ∈ route) ->
  NoDup route -> Forall (fun x => x < n) route ->
  current < n -> length route + k = n -> last route = Some current ->
  (forall a b, map_get constantPairs a = Some b -> a ∈ route ->
               b ∈ route \/ a = current) ->
  (forall a b, map_get constantPairs a = Some b -> a ∈ route -> b ∈ route ->
               consecutive route a b) ->
  nn_loop k distMatrix people constantPairs n route visited current = Ok r ->
  forall a b, map_get constantPairs a = Some b -> a ∈ r -> b ∈ r -> consecutive r a b.
Proof.
  revert route visited current.
  induction k as [|k IH];
    intros route visited current Hvis Hnd Hrange Hc Hlen Hlast Hopen Hcons; simpl.
  - by intros [= <-].
  - destruct (choose_next_ok distMatrix people constantPairs n Hmatrix Hpeople Hpairs
                route visited current) as (next & Hnext & Hn & Hfresh);
      [done | done | lia |].
    rewrite Hnext. simpl.
    assert (next ∉ route) as Hfresh' by by rewrite <- Hvis.
    apply IH.
    + intros x. rewrite elem_of_union, elem_of_singleton, elem_of_app, list_elem_of_singleton.
      rewrite Hvis. tauto.
    + apply NoDup_app. repeat split; [done | | apply NoDup_singleton].
      intros x Hx Hx'. apply list_elem_of_singleton in Hx'. by subst x.
    + apply Forall_app. split; [done|]. by repeat constructor.
    + done.
    + rewrite length_app. simpl. lia.
    + by rewrite last_snoc.
    + intros a b Hab Ha. rewrite elem_of_app, list_elem_of_singleton in Ha |- *.
      destruct Ha as [Ha|Ha]; [|by right].
      destruct (Hopen a b Hab Ha) as [Hb| ->]; [by left; left|].
      left. destruct (decide (b ∈ route)) as [Hb|Hb]; [by left|]. right.
      rewrite <- Hvis in Hb.
      rewrite (choose_next_partner visited current b Hab Hb) in Hnext. congruence.
    + intros a b Hab Ha Hb. rewrite elem_of_app, list_elem_of_singleton in Ha, Hb.
      destruct Hpairing as [_ Hinv]. destruct (Hinv a b Hab) as [Hne Hba].
      destruct Ha as [Ha| ->], Hb as [Hb| ->].
      * by apply consecutive_app, Hcons.
      * destruct (Hopen a next Hab Ha) as [?| ->]; [done|].
        by apply consecutive_last.
      * destruct (Hopen b next Hba Hb) as [?| ->]; [done|].
        by apply consecutive_sym, consecutive_last.
      * done.
Qed.
End nearestNeighbor_pairs.

Lemma nearestNeighbor_pairs (distMatrix : Matrix) (people : list Person)
    (constantPairs : JsMap) (startIdx : nat) :
  length people = length distMatrix ->
  map_bounded constantPairs (length distMatrix) ->
  pairing constantPairs ->
  startIdx < length distMatrix ->
  exists route,
    nearestNeighborWithCommonThemes distMatrix people constantPairs startIdx = Ok route
    /\ head route = Some startIdx
    /\ route ≡ₚ seq 0 (length distMatrix)
    /\ forall a b, map_get constantPairs a = Some b -> consecutive route a b.
Proof.
  intros Hp Hm Hpairing Hs.
  destruct (nearestNeighbor_permutation distMatrix people constantPairs startIdx Hp Hm Hs)
    as (r & Hr & Hperm).
  exists r. split; [done|]. unfold nearestNeighborWithCommonThemes in Hr.
  split; [|split; [done|]].
  - apply nn_loop_prefix in Hr as [rest ->]. done.
  - intros a b Hab.
    assert (forall x, x < length distMatrix -> x ∈ r) as Hall.
    { intros x Hx. rewrite Hperm. apply elem_of_seq. lia. }
    pose proof Hab as Hb%(map_get_bounded _ _ _ _ Hm).
    destruct Hpairing as [Hk Hinv]. destruct (Hinv a b Hab) as [Hne Hba].
    pose proof Hba as Ha%(map_get_bounded _ _ _ _ Hm).
    eapply (nn_loop_pairs distMatrix people constantPairs (length distMatrix)
              eq_refl Hp Hm (conj Hk Hinv)) with (9 := Hr); try done.
    + intros x. by rewrite elem_of_singleton, list_elem_of_singleton.
    + apply NoDup_singleton.
    + by repeat constructor.
    + simpl. lia.
    + intros a' b' _ Ha'. right. by apply list_elem_of_singleton in Ha'.
    + intros a' b' Hab' Ha' Hb'.
      apply list_elem_of_singleton in Ha', Hb'. subst.
      by destruct (Hinv _ _ Hab').
    + by apply Hall.
    + by apply Hall.
Qed.

(** ** Pinned pairs through the refiner and the enforcement *)

Lemma twoOpt_adjacent_all (fuel : nat) (distMatrix : Matrix) (people : list Person)
    (constantPairs : JsMap) (route route' : list nat) :
  NoDup route -> (forall e, e ∈ constantPairs -> adjacent_in route e) ->
  twoOpt fuel distMatrix people constantPairs route = Ok route' ->
  NoDup route' /\ forall e, e ∈ constantPairs -> adjacent_in route' e.
Proof.
  intros Hnd Hadj Hrun.
  apply (twoOpt_invariant distMatrix people constantPairs
           (fun r => NoDup r /\ forall e, e ∈ constantPairs -> adjacent_in r e))
    with (3 := Hrun); [|done].
  intros r i j [Hr Hra] Hi Hij Hj Hmove.
  apply try_move_Some in Hmove as [_ Hbreak]. split.
  - by rewrite reverse_segment_Permutation.
  - intros e He. apply adjacent_in_reverse_segment; auto.
    by apply (wouldBreak_false _ _ _ constantPairs).
Qed.

(** Enforcement leaves a route alone in which every pair is together. *)
Lemma enforceConstantPairs_adjacent (route : list nat) (constantPairs : JsMap) :
  (forall e, e ∈ constantPairs -> adjacent_in route e) ->
  enforceConstantPairs route constantPairs = route.
Proof.
  intros Hadj. unfold enforceConstantPairs. case_decide; [done|].
  induction constantPairs as [|e m IH] using rev_ind; [done|].
  rewrite fold_left_app. simpl.
  destruct (decide (length m = 0)) as [Hm|Hm].
  - apply length_zero_iff_nil in Hm. subst m. simpl.
    destruct (Hadj e) as (H1 & H2 & Hn); [left|].
    unfold enforce_entry. destruct e as [idx1 idx2]. simpl in *.
    destruct (Z.eqb_spec (indexOf route idx1) (-1)); [done|].
    destruct (Z.eqb_spec (indexOf route idx2) (-1)); [done|]. simpl.
    by rewrite Hn.
  - rewrite IH; [|intros e' He'; apply Hadj, elem_of_app; by left | done].
    destruct (Hadj e) as (H1 & H2 & Hn); [apply elem_of_app; right; left|].
    unfold enforce_entry. destruct e as [idx1 idx2]. simpl in *.
    destruct (Z.eqb_spec (indexOf route idx1) (-1)); [done|].
    destruct (Z.eqb_spec (indexOf route idx2) (-1)); [done|]. simpl.
    by rewrite Hn.
Qed.

(** One attempt: the route of the refiner has every pair together, and
    enforcement returns it as it is. *)
Lemma attempt_order_pairs (fuel : nat) (people : list Person)
    (distanceFunction : DistanceFunction) (startIdx : nat) (o : list nat) :
  let constantPairs := findConstantPairs people in
  let distMatrix :=
    createDistanceMatrix people (getDistanceFunction distanceFunction) constantPairs in
  startIdx < length people ->
  attempt_order fuel distMatrix people constantPairs startIdx = Ok o ->
  exists r0,
    nearestNeighborWithCommonThemes distMatrix people constantPairs startIdx = Ok r0
    /\ twoOpt fuel distMatrix people constantPairs r0 = Ok o
    /\ NoDup o
    /\ forall e, e ∈ constantPairs -> adjacent_in o e.
Proof.
  intros constantPairs distMatrix Hs Ho.
  assert (length distMatrix = length people) as Hlen
    by apply createDistanceMatrix_square.
  destruct (nearestNeighbor_pairs distMatrix people constantPairs startIdx)
    as (r0 & Hr0 & _ & Hperm & Hcons).
  { done. }
  { rewrite Hlen. apply findConstantPairs_bounded. }
  { apply findConstantPairs_pairing. }
  { by rewrite Hlen. }
  unfold attempt_order in Ho. rewrite Hr0 in Ho. simpl in Ho.
  inv_bind Ho. rename a into r1. injection Ho as <-.
  apply Permutation_indices in Hperm as (Hnd & _ & _).
  destruct (twoOpt_adjacent_all fuel distMatrix people constantPairs r0 r1) as [Hnd1 Hadj];
    [done | | done |].
  { intros [a b] He. apply consecutive_adjacent_in; [done|]. apply Hcons.
    apply map_get_lookup; [apply findConstantPairs_pairing | done]. }
  rewrite (enforceConstantPairs_adjacent r1) by done.
  exists r0. split; [done|]. split; [exact E|]. split; [exact Hnd1 | exact Hadj].
Qed.

(** X6.  The nearest-neighbour constructor returns a route that starts at the
    start index, visits every index once, and in which the two members of
    every pinned pair stand next to each other. *)
Theorem nearestNeighbor_pairs_consecutive (distMatrix : Matrix) (people : list Person)
    (startIdx : nat) :
  let constantPairs := findConstantPairs people in
  length people = length distMatrix ->
  startIdx < length distMatrix ->
  exists route,
    nearestNeighborWithCommonThemes distMatrix people constantPairs startIdx = Ok route
    /\ head route = Some startIdx
    /\ route ≡ₚ seq 0 (length distMatrix)
    /\ forall a b, map_get constantPairs a = Some b -> consecutive route a b.
Proof.
  intros constantPairs Hp Hs.
  apply nearestNeighbor_pairs; [done | | apply findConstantPairs_pairing | done].
  rewrite <- Hp. apply findConstantPairs_bounded.
Qed.

Lemma nearestNeighbor_pairs_consecutive_witness :
  let constantPairs := findConstantPairs pinned_people in
  exists route,
    nearestNeighborWithCommonThemes pinned_matrix pinned_people constantPairs 1 = Ok route
    /\ head route = Some 1
    /\ route ≡ₚ seq 0 (length pinned_matrix)
    /\ forall a b, map_get constantPairs a = Some b -> consecutive route a b.
Proof.
  apply (nearestNeighbor_pairs_consecutive pinned_matrix pinned_people 1).
  - reflexivity.
  - vm_compute. lia.
Defined.

(** X7.  In the order [optimizeSeating] returns, the two members of every
    pinned pair are neighbours: their positions differ by 1, or they are
    the two ends of the order. *)
Theorem optimizeSeating_pairs_adjacent (fuel : nat) (random : nat -> Q)
    (people : list Person) (attempts : nat) (distanceFunction : DistanceFunction)
    (optimizationMode : OptimizationMode) :
  people <> [] -> 1 <= attempts ->
  (forall k, 0 <= random k < 1)%Q ->
  fact (length people) < fuel ->
  exists o s log,
    optimizeSeating fuel random people attempts distanceFunction optimizationMode
      = Ok (mkSeatingResult (Some o) s people, log)
    /\ forall a b, map_get (findConstantPairs people) a = Some b ->
         exists i j, o !! i = Some a /\ o !! j = Some b
           /\ areNeighbors (Z.of_nat i) (Z.of_nat j) (Z.of_nat (length o)) = true.
Proof.
  intros Hne Hatt Hrand Hfuel.
  destruct (optimizeSeating_best fuel random people attempts distanceFunction
              optimizationMode Hrand Hfuel) as (best & results & Hfold & Hlen & Hres & _ & Hbest).
  destruct (Hbest Hatt) as (r & Hin & Ho & Hs).
  apply list_elem_of_lookup_1 in Hin as [k Hk].
  destruct (Hres k r Hk) as (Hr & _ & _).
  unfold attempt_result in Hr. inv_bind Hr. rename a into o.
  inv_bind Hr. injection Hr as <-. simpl in *.
  destruct (attempt_order_pairs fuel people distanceFunction
              (startIdx_of (random k) (length people)) o) as (_ & _ & _ & Hnd & Hadj);
    [|exact E|].
  { apply startIdx_of_range; [apply Hrand|]. destruct people; [done | simpl; lia]. }
  exists o, (bestOverallScore best), (reported best). split.
  - rewrite (optimizeSeating_Ok _ _ _ _ _ _ _ Hfold), Ho.
    by rewrite (enforceConstantPairs_adjacent o).
  - intros x y Hab.
    destruct (Hadj (x, y)) as (H1 & H2 & Hn).
    { apply map_get_lookup; [apply findConstantPairs_pairing | done]. }
    simpl in *.
    destruct (indexOf_found _ _ H1) as (i & Ei & Hi).
    destruct (indexOf_found _ _ H2) as (j & Ej & Hj).
    exists i, j. by rewrite <- Ei, <- Ej.
Qed.

Lemma optimizeSeating_pairs_adjacent_witness :
  exists o s log,
    optimizeSeating 121 sample_random pinned_people 2 commonality distance
      = Ok (mkSeatingResult (Some o) s pinned_people, log)
    /\ forall a b, map_get (findConstantPairs pinned_people) a = Some b ->
         exists i j, o !! i = Some a /\ o !! j = Some b
           /\ areNeighbors (Z.of_nat i) (Z.of_nat j) (Z.of_nat (length o)) = true.
Proof.
  apply (optimizeSeating_pairs_adjacent 121 sample_random pinned_people 2
           commonality distance).
  - discriminate.
  - lia.
  - apply sample_random_range.
  - vm_compute. lia.
Defined.

(** ** The route [twoOpt] returns *)

Lemma for_first_None {A B : Type} (body : A -> result (option B)) (l : list A) :
  for_first body l = Ok None -> forall x, x ∈ l -> body x = Ok None.
Proof.
  induction l as [|y l IH]; simpl; [by intros _ x ?%elem_of_nil|].
  intros H. inv_bind H. destruct a as [b|]; [discriminate|].
  intros x [->|Hx]%elem_of_cons; auto.
Qed.

Section twoOpt_result.
Variable distMatrix : Matrix.
Variable people : list Person.
Variable constantPairs : JsMap.

(** The loop is left only after a pass that made no move. *)
Lemma twoOpt_Ok_pass (fuel : nat) (route route' : list nat) :
  twoOpt fuel distMatrix people constantPairs route = Ok route' ->
  twoOpt_pass distMatrix people constantPairs route' = Ok None.
Proof.
  revert route. induction fuel as [|fuel IH]; intros route H; simpl in H; [discriminate|].
  inv_bind H. destruct a as [r1|]; [eauto|]. by injection H as <-.
Qed.

Lemma twoOpt_pass_None (route : list nat) (i j : nat) :
  twoOpt_pass distMatrix people constantPairs route = Ok None ->
  1 <= i -> i < j -> j + 1 < length route ->
  try_move distMatrix people constantPairs route i j = Ok None.
Proof.
  unfold twoOpt_pass. intros H Hi Hij Hj.
  pose proof (for_first_None _ _ H i) as Hrow. simpl in Hrow.
  apply (for_first_None _ _ (Hrow ltac:(apply elem_of_seq; lia)) j).
  apply elem_of_seq. lia.
Qed.

(** The two ends of a route are outside every segment reversed. *)
Lemma twoOpt_ends (fuel : nat) (route route' : list nat) :
  twoOpt fuel distMatrix people constantPairs route = Ok route' ->
  length route' = length route /\ head route' = head route /\ last route' = last route.
Proof.
  intros H.
  apply (twoOpt_invariant distMatrix people constantPairs
           (fun r => length r = length route /\ head r = head route
                     /\ last r = last route)) with (3 := H); [|done].
  intros r i j (Hlen & Hhead & Hlast) Hi Hij Hj _.
  split; [by rewrite reverse_segment_length|]. split.
  - rewrite <- Hhead, !head_lookup, reverse_segment_lookup by lia.
    unfold mirror. by rewrite bool_decide_eq_false_2 by lia.
  - rewrite <- Hlast, !last_lookup, reverse_segment_length, reverse_segment_lookup by lia.
    unfold mirror. by rewrite bool_decide_eq_false_2 by lia.
Qed.

Lemma twoOpt_short (fuel : nat) (route : list nat) :
  length route <= 3 ->
  twoOpt (S fuel) distMatrix people constantPairs route = Ok route.
Proof.
  intros Hlen. simpl. unfold twoOpt_pass.
  replace (length route - 2 - 1) with 0 by lia. done.
Qed.

Variable n : nat.
Hypothesis Hsquare : square distMatrix n.
Hypothesis Hsym : symmetric distMatrix.
Hypothesis Hpeople : length people = n.

Lemma hasCommonThemes_shares (route : list nat) (k l a b : nat) :
  route !! k = Some a -> route !! l = Some b -> a < n -> b < n ->
  hasCommonThemes (people !! a) (people !! b) = Ok (shares people route k l).
Proof.
  intros Hk Hl Ha Hb. unfold shares. rewrite Hk, Hl. simpl.
  destruct (lookup_lt_is_Some_2 people a) as [p Hp]; [lia|].
  destruct (lookup_lt_is_Some_2 people b) as [q Hq]; [lia|].
  rewrite Hp, Hq. apply hasCommonThemes_Some.
Qed.

(** A candidate that is not taken although no pair forbids it does not
    lower the cost by more than its penalty. *)
Lemma try_move_None_cost (route : list nat) (i j : nat) :
  Forall (fun x => x < n) route -> 1 <= i -> i < j -> j + 1 < length route ->
  wouldBreakConstantPair route i j constantPairs = false ->
  try_move distMatrix people constantPairs route i j = Ok None ->
  (path_cost distMatrix route
   <= path_cost distMatrix (reverse_segment route i j)
      + isolation_penalty people route i j)%Q.
Proof.
  intros Hrange Hi Hij Hj Hbreak. unfold try_move. rewrite Hbreak.
  destruct (route_before_ok people n Hpeople route i) as (a & -> & Ha & Han); [done | lia | lia |].
  destruct (route_at_ok n route i) as (b & -> & Hb & Hbn); [done | lia |].
  destruct (route_at_ok n route j) as (c & -> & Hc & Hcn); [done | lia |].
  destruct (route_at_ok n route (j + 1)) as (d & -> & Hd & Hdn); [done | lia |].
  simpl.
  rewrite !(mat_get_entry distMatrix n) by done. simpl.
  rewrite (hasCommonThemes_shares route (i - 1) j a c) by done.
  rewrite (hasCommonThemes_shares route i (j + 1) b d) by done. simpl.
  fold (isolation_penalty people route i j).
  assert (0 <= isolation_penalty people route i j)%Q as Hpen.
  { unfold isolation_penalty.
    destruct (shares _ _ _ _), (shares _ _ _ _); compute; discriminate. }
  destruct (reverse_segment_split route i j) as (A & S & B & HR & HR' & HA & HS); [lia..|].
  assert (S <> []) as HSne by (intros ->; simpl in HS; lia).
  pose proof (path_cost_reverse_middle distMatrix Hsym A S B HSne) as Hdiff.
  rewrite <- HR, <- HR' in Hdiff.
  assert (last A = Some a) as HlA.
  { rewrite last_lookup. rewrite HR in Ha. rewrite lookup_app_l in Ha by lia.
    rewrite <- Ha. f_equal. lia. }
  assert (head S = Some b) as HhS.
  { rewrite head_lookup. rewrite HR in Hb.
    rewrite lookup_app_r, lookup_app_l in Hb by lia. rewrite <- Hb. f_equal. lia. }
  assert (last S = Some c) as HlS.
  { rewrite last_lookup. rewrite HR in Hc.
    rewrite lookup_app_r, lookup_app_l in Hc by lia. rewrite <- Hc. f_equal. lia. }
  assert (head B = Some d) as HhB.
  { rewrite head_lookup. rewrite HR in Hd.
    rewrite lookup_app_r, lookup_app_r in Hd by lia. rewrite <- Hd. f_equal. lia. }
  rewrite HlA, HhS, HlS, HhB in Hdiff. simpl in Hdiff.
  destruct (Qltb (entry distMatrix a c + entry distMatrix b d)
              (entry distMatrix a b + entry distMatrix c d)) eqn:Hlt.
  - destruct (Qltb (_ + _ + _) _) eqn:Hacc; [discriminate|]. intros _.
    assert (~ (entry distMatrix a c + entry distMatrix b d
               + isolation_penalty people route i j
               < entry distMatrix a b + entry distMatrix c d)%Q) as Hno.
    { intros Hc'. apply Qltb_lt in Hc'. congruence. }
    apply Qnot_lt_le in Hno. lra.
  - intros _.
    assert (~ (entry distMatrix a c + entry distMatrix b d
               < entry distMatrix a b + entry distMatrix c d)%Q) as Hno.
    { intros Hc'. apply Qltb_lt in Hc'. congruence. }
    apply Qnot_lt_le in Hno. lra.
Qed.
End twoOpt_result.

(** X8.  [twoOpt] returns a route of the same length that starts and ends
    with the indices the given route starts and ends with; a route of at
    most three indices is returned as it is. *)
Theorem twoOpt_keeps_ends (fuel : nat) (distMatrix : Matrix) (people : list Person)
    (constantPairs : JsMap) (route : list nat) :
  square distMatrix (length people) -> symmetric distMatrix ->
  Forall (fun x => x < length people) route ->
  fact (length route) < fuel ->
  exists route',
    twoOpt fuel distMatrix people constantPairs route = Ok route'
    /\ length route' = length route
    /\ head route' = head route /\ last route' = last route
    /\ (length route <= 3 -> route' = route).
Proof.
  intros Hsq Hsym Hrange Hfuel.
  destruct (twoOpt_terminates distMatrix people constantPairs (length people)
              Hsq Hsym eq_refl fuel route Hrange) as (route' & Hrun & _ & _).
  { by rewrite length_permutations. }
  exists route'. split; [done|].
  destruct (twoOpt_ends _ _ _ _ _ _ Hrun) as (Hlen & Hhead & Hlast).
  repeat split; try done.
  intros Hshort. destruct fuel as [|fuel']; [simpl in Hrun; discriminate|].
  rewrite twoOpt_short in Hrun by done. by injection Hrun.
Qed.

Lemma twoOpt_keeps_ends_witness :
  exists route',
    twoOpt 25 (createDistanceMatrix sample_people commonalityDistance []) sample_people []
      [3; 0; 2; 1] = Ok route'
    /\ length route' = length [3; 0; 2; 1]
    /\ head route' = head [3; 0; 2; 1] /\ last route' = last [3; 0; 2; 1]
    /\ (length [3; 0; 2; 1] <= 3 -> route' = [3; 0; 2; 1]).
Proof.
  apply (twoOpt_keeps_ends 25 (createDistanceMatrix sample_people commonalityDistance [])
           sample_people [] [3; 0; 2; 1]).
  - apply createDistanceMatrix_square.
  - apply createDistanceMatrix_symmetric.
  - repeat constructor; simpl; lia.
  - vm_compute. lia.
Defined.

(** ** What pair enforcement on a route achieves *)

Lemma areNeighbors_sym (p q n : Z) : areNeighbors p q n = areNeighbors q p n.
Proof.
  apply eq_true_iff_eq. rewrite !areNeighbors_spec. lia.
Qed.

Lemma neighbours_sym {A : Type} (l : list A) (a b : A) :
  neighbours l a b -> neighbours l b a.
Proof.
  intros (s1 & s2 & H1 & H2 & Hn). exists s2, s1. by rewrite areNeighbors_sym.
Qed.

(** In a route without repetition the neighbour test of the source, made
    at the positions [indexOf] returns, is the relation [neighbours]. *)
Lemma neighbours_indexOf (route : list nat) (a b : nat) :
  NoDup route -> neighbours route a b ->
  areNeighbors (indexOf route a) (indexOf route b) (Z.of_nat (length route)) = true.
Proof.
  intros Hnd (s1 & s2 & H1 & H2 & Hn).
  by rewrite (indexOf_NoDup _ _ _ Hnd H1), (indexOf_NoDup _ _ _ Hnd H2).
Qed.

(** One entry of the map: its two indices become neighbours, and every
    pair it is compatible with stays as it is. *)
Lemma enforce_entry_neighbours (route : list nat) (a b : nat) :
  NoDup route -> a <> b ->
  let route' := enforce_entry (Z.of_nat (length route)) route (a, b) in
  (a ∈ route -> b ∈ route -> neighbours route' a b)
  /\ (forall c d, compatible (a, b) (c, d) -> neighbours route c d -> neighbours route' c d).
Proof.
  intros Hnd Hab route'. subst route'. unfold enforce_entry.
  destruct (Z.eqb_spec (indexOf route a) (-1)) as [E1|H1]; simpl.
  { split; [|done]. intros Ha. by apply indexOf_absent in E1. }
  destruct (Z.eqb_spec (indexOf route b) (-1)) as [E2|H2]; simpl.
  { split; [|done]. intros _ Hb. by apply indexOf_absent in E2. }
  destruct (indexOf_found route a H1) as (p1 & E1 & Hp1).
  destruct (indexOf_found route b H2) as (p2 & E2 & Hp2).
  rewrite E1, E2.
  destruct (areNeighbors (Z.of_nat p1) (Z.of_nat p2) (Z.of_nat (length route))) eqn:Hn.
  { split; [|done]. intros _ _. by exists p1, p2. }
  assert (p1 <> p2) as Hne by congruence.
  pose proof (lookup_lt_Some _ _ _ Hp1) as Hl1.
  pose proof (lookup_lt_Some _ _ _ Hp2) as Hl2.
  assert (forall c d, compatible (a, b) (c, d) -> neighbours route c d ->
            c <> a /\ c <> b /\ d <> a /\ d <> b) as Hother.
  { intros c d [[= -> ->]|[[= -> ->]|H]] Hcd; simpl in *; [| |done].
    - apply neighbours_indexOf in Hcd; [|done]. rewrite E1, E2 in Hcd. congruence.
    - apply neighbours_indexOf in Hcd; [|done]. rewrite E1, E2, areNeighbors_sym in Hcd.
      congruence. }
  destruct (Z.ltb_spec (Z.of_nat p1) (Z.of_nat p2)) as [Hlt|Hge].
  - rewrite Nat2Z.id, splice_delete.
    assert (delete p2 route !! p1 = Some a) as Hd by (rewrite list_lookup_delete_lt; [done | lia]).
    assert (NoDup (delete p2 route)) as Hnd'.
    { eapply sublist_NoDup; [exact Hnd | apply sublist_delete]. }
    rewrite (indexOf_NoDup _ _ _ Hnd' Hd).
    replace (Z.to_nat (Z.of_nat p1 + 1)) with (p1 + 1) by lia.
    split.
    + intros _ _. by apply neighbours_inserted.
    + intros c d Hc Hcd. destruct (Hother c d Hc Hcd) as (? & ? & ? & ?).
      apply (neighbours_insert_after _ _ _ a); [|done..].
      by apply (neighbours_delete _ _ _ b).
  - rewrite Nat2Z.id, splice_delete.
    assert (delete p1 route !! p2 = Some b) as Hd by (rewrite list_lookup_delete_lt; [done | lia]).
    assert (NoDup (delete p1 route)) as Hnd'.
    { eapply sublist_NoDup; [exact Hnd | apply sublist_delete]. }
    rewrite (indexOf_NoDup _ _ _ Hnd' Hd).
    replace (Z.to_nat (Z.of_nat p2 + 1)) with (p2 + 1) by lia.
    split.
    + intros _ _. by apply neighbours_sym, neighbours_inserted.
    + intros c d Hc Hcd. destruct (Hother c d Hc Hcd) as (? & ? & ? & ?).
      apply (neighbours_insert_after _ _ _ b); [|done..].
      by apply (neighbours_delete _ _ _ a).
Qed.

Lemma enforce_entry_length (n : Z) (route : list nat) (e : nat * nat) :
  length (enforce_entry n route e) = length route.
Proof. by rewrite enforce_entry_Permutation. Qed.

(** Two neighbours stay neighbours through all entries compatible with
    them. *)
Lemma enforce_entries_keep (entries : JsMap) (route : list nat) (c d : nat) :
  NoDup route ->
  (forall e, e ∈ entries -> e.1 <> e.2 /\ compatible e (c, d)) ->
  neighbours route c d ->
  neighbours (fold_left (enforce_entry (Z.of_nat (length route))) entries route) c d.
Proof.
  revert route. induction entries as [|[a b] entries IH]; intros route Hnd Hall Hcd; cbn [fold_left];
    [done|].
  destruct (Hall (a, b)) as [Hab Hc]; [left|]. simpl in Hab.
  destruct (enforce_entry_neighbours route a b Hnd Hab) as [_ Hkeep].
  rewrite <- (enforce_entry_length (Z.of_nat (length route)) route (a, b)) at 1.
  apply IH.
  - by rewrite enforce_entry_Permutation.
  - intros e He. apply Hall. by right.
  - by apply Hkeep.
Qed.

Lemma enforce_entries_neighbours (entries : JsMap) (route : list nat) :
  NoDup route ->
  (forall e, e ∈ entries -> e.1 <> e.2) ->
  (forall e e', e ∈ entries -> e' ∈ entries -> compatible e e') ->
  forall e, e ∈ entries -> e.1 ∈ route -> e.2 ∈ route ->
    neighbours (fold_left (enforce_entry (Z.of_nat (length route))) entries route) e.1 e.2.
Proof.
  revert route. induction entries as [|[a b] entries IH];
    intros route Hnd Hne Hcompat e He H1 H2; [by apply elem_of_nil in He|].
  cbn [fold_left].
  assert (a <> b) as Hab by (apply (Hne (a, b)); left).
  destruct (enforce_entry_neighbours route a b Hnd Hab) as [Hnew Hkeep].
  rewrite <- (enforce_entry_length (Z.of_nat (length route)) route (a, b)) at 1.
  apply elem_of_cons in He as [->|He].
  - apply enforce_entries_keep.
    + by rewrite enforce_entry_Permutation.
    + intros e He. split; [apply Hne; by right|].
      apply Hcompat; [by right | left].
    + by apply Hnew.
  - apply IH; try done.
    + by rewrite enforce_entry_Permutation.
    + intros e' He'. apply Hne. by right.
    + intros e1 e2 He1 He2. apply Hcompat; by right.
    + by rewrite enforce_entry_Permutation.
    + by rewrite enforce_entry_Permutation.
Qed.

(** The entries of a pairing are compatible with one another. *)
Lemma pairing_compatible (m : JsMap) (e e' : nat * nat) :
  pairing m -> e ∈ m -> e' ∈ m -> compatible e e'.
Proof.
  intros [Hk Hinv] He He'. destruct e as [a b], e' as [c d].
  apply (map_get_lookup _ _ _ Hk) in He, He'.
  destruct (Hinv _ _ He) as [Hab Hba]. destruct (Hinv _ _ He') as [Hcd Hdc].
  unfold compatible. simpl.
  destruct (decide (c = a)) as [->|Hca]; [left; congruence|].
  destruct (decide (c = b)) as [->|Hcb]; [right; left; congruence|].
  right. right. repeat split; try done.
  - intros ->. congruence.
  - intros ->. congruence.
Qed.

(** X10.  On a route without repetition, [enforceConstantPairs] returns a
    permutation of the route in which the two members of every pinned
    pair that stand in the route are neighbours: their positions differ
    by 1 or are the two ends. *)
Theorem enforceConstantPairs_spec (people : list Person) (route : list nat) :
  NoDup route ->
  let constantPairs := findConstantPairs people in
  let route' := enforceConstantPairs route constantPairs in
  route' ≡ₚ route
  /\ forall a b, map_get constantPairs a = Some b -> a ∈ route -> b ∈ route ->
       exists i j, route' !! i = Some a /\ route' !! j = Some b
         /\ areNeighbors (Z.of_nat i) (Z.of_nat j) (Z.of_nat (length route')) = true.
Proof.
  intros Hnd constantPairs route'. split; [apply enforceConstantPairs_Permutation|].
  intros a b Hab Ha Hb.
  pose proof (findConstantPairs_pairing people) as Hp. fold constantPairs in Hp.
  assert ((a, b) ∈ constantPairs) as He by (apply map_get_lookup; [apply Hp | done]).
  subst route'. unfold enforceConstantPairs.
  case_decide as Hlen.
  { apply length_zero_iff_nil in Hlen. rewrite Hlen in He. by apply elem_of_nil in He. }
  apply (enforce_entries_neighbours constantPairs route Hnd) with (e := (a, b)); try done.
  - intros [x y] Hxy. simpl. destruct Hp as [Hk Hinv].
    apply (map_get_lookup _ _ _ Hk) in Hxy. by destruct (Hinv _ _ Hxy).
  - intros e e'. by apply pairing_compatible.
Qed.

Lemma enforceConstantPairs_spec_witness :
  let constantPairs := findConstantPairs pinned_people in
  let route' := enforceConstantPairs [0; 1; 2; 3; 4] constantPairs in
  route' ≡ₚ [0; 1; 2; 3; 4]
  /\ forall a b, map_get constantPairs a = Some b -> a ∈ [0; 1; 2; 3; 4] -> b ∈ [0; 1; 2; 3; 4] ->
       exists i j, route' !! i = Some a /\ route' !! j = Some b
         /\ areNeighbors (Z.of_nat i) (Z.of_nat j) (Z.of_nat (length route')) = true.
Proof.
  apply (enforceConstantPairs_spec pinned_people [0; 1; 2; 3; 4]).
  apply (bool_decide_unpack (NoDup [0; 1; 2; 3; 4])). vm_compute. exact I.
Defined.

(** ** The two scores *)

Lemma path_cost_bounds (distMatrix : Matrix) (route : list nat) :
  (forall a b, 0 <= entry distMatrix a b <= 1)%Q ->
  (0 <= path_cost distMatrix route <= inject_Z (Z.of_nat (length route - 1)))%Q.
Proof.
  intros Hentry. induction route as [|a route IH]; [done|].
  cbn [path_cost length]. destruct route as [|b route'].
  - split; compute; discriminate.
  - cbn [head from_option]. destruct (Hentry a b) as [H0 H1].
    replace (S (length (b :: route')) - 1) with (S (length (b :: route') - 1))
      by (simpl; lia).
    rewrite Nat2Z.inj_succ, <- Z.add_1_r, inject_Z_plus.
    change (inject_Z 1) with 1%Q. lra.
Qed.

Lemma countPoorConnections_le (route : list nat) (people : list Person) (c : nat) :
  countPoorConnections route people = Ok c -> c <= length route.
Proof.
  unfold countPoorConnections.
  assert (forall l c0 c, foldlM (fun poorCount i =>
              let* p := poor_at route people i in
              Ok (if p then S poorCount else poorCount)) c0 l = Ok c ->
            c <= c0 + length l) as Hgen.
  { clear c. induction l as [|i l IH]; intros c0 c H; simpl in H.
    - injection H as <-. lia.
    - inv_bind H. inv_bind E. injection E as <-. apply IH in H. simpl.
      destruct a0; lia. }
  intros H. apply Hgen in H. by rewrite length_seq in H.
Qed.

(** X11.  Both scores of a route of participants are finite numbers: the count
    of poor connections lies between 0 and the length of the route, the
    total distance between 0 and the length minus one. *)
Theorem route_score_bounds (people : list Person) (distanceFunction : DistanceFunction)
    (optimizationMode : OptimizationMode) (route : list nat) :
  let distMatrix :=
    createDistanceMatrix people (getDistanceFunction distanceFunction)
      (findConstantPairs people) in
  Forall (fun p => NoDup (themes p)) people ->
  Forall (fun x => x < length people) route ->
  exists q, route_score optimizationMode route distMatrix people = Ok (Fin q)
    /\ (0 <= q)%Q
    /\ (q <= inject_Z (Z.of_nat match optimizationMode with
                                | distance => length route - 1
                                | poor_connections => length route
                                end))%Q.
Proof.
  intros distMatrix Hsets Hrange. destruct optimizationMode; simpl.
  - destruct (countPoorConnections_total people route Hrange) as [c Hc].
    rewrite Hc. simpl. eexists. split; [done|].
    apply countPoorConnections_le in Hc. unfold nat_number.
    split.
    + replace 0%Q with (inject_Z 0) by done. rewrite <- Zle_Qle. lia.
    + rewrite <- Zle_Qle. lia.
  - destruct (calculateTotalCost_path_cost distMatrix (length people)) with (route := route)
      as (c & Hc & Ec); [apply createDistanceMatrix_square | done |].
    exists c. split; [done|]. rewrite Ec.
    apply path_cost_bounds. intros a b. by apply optimize_matrix_range.
Qed.

Lemma route_score_bounds_witness :
  exists q, route_score distance [3; 0; 2; 1]
              (createDistanceMatrix sample_people (getDistanceFunction avg_distance)
                 (findConstantPairs sample_people)) sample_people = Ok (Fin q)
    /\ (0 <= q)%Q /\ (q <= inject_Z (Z.of_nat (length [3; 0; 2; 1] - 1)))%Q.
Proof.
  apply (route_score_bounds sample_people avg_distance distance [3; 0; 2; 1]).
  - repeat constructor; by_evaluation.
  - repeat constructor; simpl; lia.
Defined.

(** ** The calls to [onProgress] *)

Section progress.
Variable fuel : nat.
Variable random : nat -> Q.
Variable distMatrix : Matrix.
Variable people : list Person.
Variable constantPairs : JsMap.
Variable optimizationMode : OptimizationMode.

Local Abbreviation body :=
  (attempt_body fuel random distMatrix people constantPairs optimizationMode).
Local Abbreviation result_of k :=
  (attempt_result fuel distMatrix people constantPairs optimizationMode
     (startIdx_of (random k) (length people))).

(** What holds of the loop variables after [k] attempts. *)
Local Abbreviation log_ok k best :=
  ((forall i x y, reported best !! i = Some x -> reported best !! S i = Some y ->
      x.1 < y.1 /\ num_lt y.2 x.2 = true)
   /\ (forall x, x ∈ reported best ->
         1 <= x.1 <= k /\ exists r, result_of (x.1 - 1) = Ok r /\ r.2 = x.2)
   /\ match last (reported best) with
      | Some x => bestOverallScore best = x.2 /\ is_Some (bestOverallOrder best)
      | None => bestOverallScore best = Infinity /\ bestOverallOrder best = None
      end).

Lemma attempt_body_log (k : nat) (best best' : Best) :
  log_ok k best -> body best k = Ok best' -> log_ok (S k) best'.
Proof.
  intros (Hsorted & Hentries & Hlast) H.
  apply attempt_body_Ok in H as (r & Hr & ->).
  destruct (num_lt r.2 (bestOverallScore best)) eqn:Hlt.
  - simpl. split; [|split].
    + intros i x y Hx Hy.
      destruct (decide (S i < length (reported best))) as [Hi|Hi].
      * rewrite lookup_app_l in Hx, Hy by lia. eauto.
      * rewrite lookup_app_r in Hy by lia.
        apply list_lookup_singleton_Some in Hy as [Hy <-].
        assert (S i = length (reported best)) as Hlen.
        { pose proof (lookup_lt_Some _ _ _ Hx) as Hl. rewrite length_app in Hl.
          simpl in Hl. lia. }
        rewrite lookup_app_l in Hx by lia.
        assert (last (reported best) = Some x) as Hlx.
        { rewrite last_lookup, <- Hx. f_equal. lia. }
        rewrite Hlx in Hlast. destruct Hlast as [Hs _]. simpl.
        split; [|by rewrite <- Hs].
        destruct (Hentries x) as [? _]; [by eapply list_elem_of_lookup_2|]. lia.
    + intros x [Hx|Hx]%elem_of_app.
      * destruct (Hentries x Hx) as [? ?]. split; [lia | done].
      * apply list_elem_of_singleton in Hx as ->. simpl. split; [lia|].
        exists r. replace (k + 1 - 1) with k by lia. done.
    + rewrite last_snoc. simpl. eauto.
  - split; [done|]. split; [|done].
    intros x Hx. destruct (Hentries x Hx) as [? ?]. split; [lia | done].
Qed.

Lemma attempts_log (m k : nat) (best0 best : Best) :
  log_ok k best0 -> foldlM body best0 (seq k m) = Ok best -> log_ok (k + m) best.
Proof.
  revert k best0. induction m as [|m IH]; intros k best0 Hinv H; simpl in H.
  - injection H as <-. by rewrite Nat.add_0_r.
  - inv_bind H. replace (k + S m) with (S k + m) by lia.
    eapply IH; [|exact H]. by eapply attempt_body_log.
Qed.

(** The first attempt is reported when its score is finite. *)
Lemma attempts_first (m : nat) (best : Best) (r : list nat * number) (q : Q) :
  result_of 0 = Ok r -> r.2 = Fin q ->
  foldlM body (mkBest None Infinity []) (seq 0 (S m)) = Ok best ->
  head (reported best) = Some (1, r.2).
Proof.
  intros Hr Hq H. simpl in H. inv_bind H.
  apply attempt_body_Ok in E as (r' & Hr' & ->).
  rewrite Hr in Hr'. injection Hr' as <-. simpl in H. rewrite Hq in H. simpl in H.
  destruct (attempts_reported _ _ _ _ _ _ _ _ _ _ H) as (log & ->). by rewrite Hq.
Qed.
End progress.

(** X12.  [optimizeSeating] calls [onProgress] with attempt numbers that go up
    and scores that go down strictly; every call carries the number and
    the score of an attempt, the first attempt is always reported, and the
    last call carries the score that is returned. *)
Theorem optimizeSeating_progress (fuel : nat) (random : nat -> Q)
    (people : list Person) (attempts : nat) (distanceFunction : DistanceFunction)
    (optimizationMode : OptimizationMode) :
  (forall k, 0 <= random k < 1)%Q ->
  fact (length people) < fuel ->
  let constantPairs := findConstantPairs people in
  let distMatrix :=
    createDistanceMatrix people (getDistanceFunction distanceFunction) constantPairs in
  exists sr log,
    optimizeSeating fuel random people attempts distanceFunction optimizationMode
      = Ok (sr, log)
    /\ (forall i x y, log !! i = Some x -> log !! S i = Some y ->
          x.1 < y.1 /\ num_lt y.2 x.2 = true)
    /\ (forall x, x ∈ log ->
          1 <= x.1 <= attempts
          /\ exists r, attempt_result fuel distMatrix people constantPairs optimizationMode
                         (startIdx_of (random (x.1 - 1)) (length people)) = Ok r
                       /\ r.2 = x.2)
    /\ (1 <= attempts -> exists s, head log = Some (1, s))
    /\ match last log with
       | Some x => score sr = x.2 /\ is_Some (order sr)
       | None => score sr = Infinity /\ order sr = None
       end.
Proof.
  intros Hrand Hfuel constantPairs distMatrix.
  destruct (optimizeSeating_best fuel random people attempts distanceFunction
              optimizationMode Hrand Hfuel) as (best & results & Hfold & _).
  fold constantPairs distMatrix in Hfold.
  exists (mkSeatingResult
            (match bestOverallOrder best with
             | Some o => Some (enforceConstantPairs o constantPairs)
             | None => None
             end) (bestOverallScore best) people), (reported best).
  split; [by apply optimizeSeating_Ok|].
  destruct (attempts_log fuel random distMatrix people constantPairs optimizationMode
              attempts 0 (mkBest None Infinity []) best) as (Hsorted & Hentries & Hlast);
    [|exact Hfold|].
  { split; [|split]; simpl; [by intros i x y Hx | by intros ? ?%elem_of_nil | done]. }
  split; [exact Hsorted|]. split; [exact Hentries|]. split.
  - intros Hatt. destruct attempts as [|m]; [lia|].
    destruct (optimizeSeating_attempt fuel random people distanceFunction optimizationMode
                0 Hrand Hfuel) as (o & q & Ho & _).
    fold constantPairs distMatrix in Ho.
    exists (Fin q).
    by rewrite (attempts_first fuel random distMatrix people constantPairs optimizationMode
                  m best (o, Fin q) q Ho eq_refl Hfold).
  - simpl. destruct (last (reported best)).
    + destruct Hlast as [? [o Ho]]. rewrite Ho. split; [done | by eexists].
    + by destruct Hlast as [-> ->].
Qed.

Lemma optimizeSeating_progress_witness :
  let constantPairs := findConstantPairs sample_people in
  let distMatrix :=
    createDistanceMatrix sample_people (getDistanceFunction commonality) constantPairs in
  exists sr log,
    optimizeSeating 25 sample_random sample_people 3 commonality poor_connections
      = Ok (sr, log)
    /\ (forall i x y, log !! i = Some x -> log !! S i = Some y ->
          x.1 < y.1 /\ num_lt y.2 x.2 = true)
    /\ (forall x, x ∈ log ->
          1 <= x.1 <= 3
          /\ exists r, attempt_result 25 distMatrix sample_people constantPairs
                         poor_connections
                         (startIdx_of (sample_random (x.1 - 1)) (length sample_people)) = Ok r
                       /\ r.2 = x.2)
    /\ (1 <= 3 -> exists s, head log = Some (1, s))
    /\ match last log with
       | Some x => score sr = x.2 /\ is_Some (order sr)
       | None => score sr = Infinity /\ order sr = None
       end.
Proof.
  apply (optimizeSeating_progress 25 sample_random sample_people 3 commonality
           poor_connections).
  - apply sample_random_range.
  - vm_compute. lia.
Defined.

(** ** The layout of the tables *)

Lemma drop_beyond {A : Type} (l : list A) (a b : nat) :
  a = b \/ (length l <= a /\ length l <= b) -> drop a l = drop b l.
Proof. intros [->|[Ha Hb]]; [done|]. by rewrite !drop_ge. Qed.

Lemma fill_tables_length (people : list Person) (order : list nat)
    (personIdx : nat) (tableSizes : list nat) :
  length (fill_tables people order personIdx tableSizes) = length tableSizes.
Proof.
  revert personIdx. induction tableSizes as [|s rest IH]; intros personIdx; [done|].
  cbn [fill_tables]. destruct (fill_table people order personIdx s) as [table p'].
  simpl. by rewrite IH.
Qed.

(** Table [t] starts where the tables before it have stopped. *)
Lemma fill_tables_lookup (people : list Person) (order : list nat)
    (tableSizes : list nat) (personIdx t s : nat) :
  tableSizes !! t = Some s ->
  fill_tables people order personIdx tableSizes !! t
  = Some (snake people order
            (personIdx + sum_list (taken <$> take t tableSizes)) s).
Proof.
  revert personIdx t. induction tableSizes as [|s0 rest IH]; intros personIdx t Ht;
    [done|].
  cbn [fill_tables]. rewrite fill_table_spec.
  destruct t as [|t]; simpl in Ht.
  - injection Ht as ->. simpl. by rewrite Nat.add_0_r.
  - cbn [lookup list_lookup]. rewrite (IH _ _ Ht). f_equal.
    cbn [take fmap list_fmap].
    change (sum_list (taken s0 :: (taken <$> take t rest)))
      with (taken s0 + sum_list (taken <$> take t rest)).
    generalize (sum_list (taken <$> take t rest)) as rest_taken.
    generalize (taken s0) as first_taken. intros first_taken rest_taken.
    unfold snake. generalize (Nat.div2 (S s)) as c. intros c.
    f_equal; [|f_equal]; do 2 f_equal; apply drop_beyond; lia.
Qed.

(** Without a pinned pair among the participants there is nothing to
    repair. *)
Lemma finish_assignment_plain (people : list Person) (tables : list Table) :
  findConstantPairs people = [] ->
  finish_assignment people tables
  = mkTableAssignment tables (calculateStatistics tables).
Proof. intros E. unfold finish_assignment, enforceConstantPairsOnTables. by rewrite E. Qed.

Lemma snake_lookup (people : list Person) (order : list nat) (p s k : nat) :
  let c := Nat.div2 (S s) in
  p + 2 * c <= length order -> k < 2 * c ->
  snake people order p s !! k
  = (fun o => seat_of (people !! o))
      <$> order !! (if k <? c then p + k else p + 3 * c - 1 - k).
Proof.
  intros c Hfull Hk. unfold snake. fold c.
  assert (length (take c (drop p order)) = c) as Hl
    by (rewrite length_take, length_drop; lia).
  assert (length (take c (drop (p + c) order)) = c) as Hr
    by (rewrite length_take, length_drop; lia).
  unfold seats_of. destruct (Nat.ltb_spec k c).
  - rewrite lookup_app_l by (rewrite length_fmap; lia).
    by rewrite list_lookup_fmap, lookup_take_lt, lookup_drop.
  - rewrite lookup_app_r by (rewrite length_fmap; lia).
    rewrite length_fmap, Hl.
    rewrite reverse_lookup by (rewrite length_fmap; lia).
    rewrite length_fmap, Hr, list_lookup_fmap, lookup_take_lt, lookup_drop by lia.
    do 2 f_equal. lia.
Qed.

(** X14.  Without a pinned pair among the participants, [assignToTables] gives
    every declared table one table; table [t] of declared size [s] takes
    the next [2 * ceil(s / 2)] participants of the order (fewer when the
    order ends; the rest of the order is left out when the tables are
    full): the first [ceil(s / 2)] on seats [0 ..] in route order, the
    others after them in reverse route order. *)
Theorem assignToTables_layout (sr : SeatingResult) (tableSizes : list nat)
    (o : list nat) :
  order sr = Some o -> findConstantPairs (people sr) = [] ->
  exists ta,
    assignToTables sr tableSizes = Ok ta
    /\ length (tables ta) = length tableSizes
    /\ forall t s, tableSizes !! t = Some s ->
         let p := sum_list (taken <$> take t tableSizes) in
         let c := Nat.div2 (S s) in
         tables ta !! t = Some (snake (people sr) o p s)
         /\ (p + 2 * c <= length o -> forall k, k < 2 * c ->
             tables ta !! t ≫= (.!! k)
             = (fun i => seat_of (people sr !! i))
                 <$> o !! (if k <? c then p + k else p + 3 * c - 1 - k)).
Proof.
  intros Ho Hnone. unfold assignToTables. rewrite Ho.
  rewrite finish_assignment_plain by done.
  eexists. split; [done|]. cbn [tables]. split; [apply fill_tables_length|].
  intros t s Ht.
  rewrite (fill_tables_lookup _ _ _ 0 t s Ht). split; [done|].
  intros Hfull k Hk. cbn [mbind option_bind]. by apply snake_lookup.
Qed.

Lemma assignToTables_layout_witness :
  exists ta,
    assignToTables (mkSeatingResult (Some [0; 1; 2; 3; 4; 5; 6; 7; 8; 9]) (Fin 0) guests)
      [4; 3; 6] = Ok ta
    /\ length (tables ta) = length [4; 3; 6]
    /\ forall t s, [4; 3; 6] !! t = Some s ->
         let p := sum_list (taken <$> take t [4; 3; 6]) in
         let c := Nat.div2 (S s) in
         tables ta !! t = Some (snake guests [0; 1; 2; 3; 4; 5; 6; 7; 8; 9] p s)
         /\ (p + 2 * c <= length [0; 1; 2; 3; 4; 5; 6; 7; 8; 9] -> forall k, k < 2 * c ->
             tables ta !! t ≫= (.!! k)
             = (fun i => seat_of (guests !! i))
                 <$> [0; 1; 2; 3; 4; 5; 6; 7; 8; 9]
                       !! (if k <? c then p + k else p + 3 * c - 1 - k)).
Proof.
  apply (assignToTables_layout
           (mkSeatingResult (Some [0; 1; 2; 3; 4; 5; 6; 7; 8; 9]) (Fin 0) guests)
           [4; 3; 6] [0; 1; 2; 3; 4; 5; 6; 7; 8; 9]).
  - reflexivity.
  - reflexivity.
Defined.

(** ** Empty seats next to a seat *)

Lemma null_at_true (table : Table) (k : nat) :
  null_at table k = true <-> table !! k = Some Null.
Proof.
  unfold null_at. destruct (table !! k) as [[p| |]|]; split; congruence.
Qed.

(** X15.  For a seat of the table, [findAdjacentSeat] returns the seat before
    it on the ring (the last seat for the first) when that seat is empty,
    whatever the seat after it holds; otherwise the seat after it on the
    ring (the first seat for the last) when that one is empty; and -1
    otherwise.  So what it returns is the index of an empty seat that is
    a neighbour of the seat for the pair test, and -1 is returned only
    when no neighbour of the seat is empty. *)
Theorem findAdjacentSeat_spec (table : Table) (seatIdx : nat) :
  seatIdx < length table ->
  let before := (seatIdx + length table - 1) mod length table in
  let after := (seatIdx + 1) mod length table in
  (table !! before = Some Null -> findAdjacentSeat table seatIdx = Some before)
  /\ (table !! before <> Some Null -> table !! after = Some Null ->
      findAdjacentSeat table seatIdx = Some after)
  /\ (table !! before <> Some Null -> table !! after <> Some Null ->
      findAdjacentSeat table seatIdx = None)
  /\ (forall k, findAdjacentSeat table seatIdx = Some k ->
        table !! k = Some Null
        /\ areNeighbors (Z.of_nat k) (Z.of_nat seatIdx) (Z.of_nat (length table)) = true)
  /\ (findAdjacentSeat table seatIdx = None ->
      forall k, areNeighbors (Z.of_nat k) (Z.of_nat seatIdx) (Z.of_nat (length table)) = true ->
        table !! k <> Some Null).
Proof.
  intros Hs before after. unfold findAdjacentSeat. rewrite decide_False by lia.
  set (prevIdx := if 0 <? seatIdx then seatIdx - 1 else length table - 1).
  set (nextIdx := if S seatIdx <? length table then seatIdx + 1 else 0).
  assert (before = prevIdx) as ->.
  { subst before prevIdx. destruct (Nat.ltb_spec 0 seatIdx).
    - replace (seatIdx + length table - 1) with (seatIdx - 1 + 1 * length table) by lia.
      rewrite Nat.Div0.mod_add. apply Nat.mod_small. lia.
    - replace (seatIdx + length table - 1) with (length table - 1) by lia.
      apply Nat.mod_small. lia. }
  assert (after = nextIdx) as ->.
  { subst after nextIdx. destruct (Nat.ltb_spec (S seatIdx) (length table)).
    - apply Nat.mod_small. lia.
    - replace (seatIdx + 1) with (length table) by lia. apply Nat.Div0.mod_same. }
  assert (areNeighbors (Z.of_nat prevIdx) (Z.of_nat seatIdx) (Z.of_nat (length table)) = true)
    as Hprev.
  { apply areNeighbors_spec. subst prevIdx. destruct (Nat.ltb_spec 0 seatIdx); lia. }
  assert (areNeighbors (Z.of_nat nextIdx) (Z.of_nat seatIdx) (Z.of_nat (length table)) = true)
    as Hnext.
  { apply areNeighbors_spec. subst nextIdx.
    destruct (Nat.ltb_spec (S seatIdx) (length table)); lia. }
  assert (forall k, areNeighbors (Z.of_nat k) (Z.of_nat seatIdx) (Z.of_nat (length table)) = true ->
            k = prevIdx \/ k = nextIdx \/ length table <= k) as Hall.
  { intros k Hk. apply areNeighbors_spec in Hk. subst prevIdx nextIdx.
    destruct (Nat.ltb_spec 0 seatIdx), (Nat.ltb_spec (S seatIdx) (length table)); lia. }
  destruct (null_at table prevIdx) eqn:Ep.
  { apply null_at_true in Ep.
    split; [done|]. split; [done|]. split; [done|]. split; [|done].
    intros k [= <-]. done. }
  assert (table !! prevIdx <> Some Null) as Ep'.
  { intros H. apply null_at_true in H. congruence. }
  destruct (null_at table nextIdx) eqn:En.
  { apply null_at_true in En.
    split; [done|]. split; [done|]. split; [done|]. split; [|done].
    intros k [= <-]. done. }
  assert (table !! nextIdx <> Some Null) as En'.
  { intros H. apply null_at_true in H. congruence. }
  split; [done|]. split; [done|]. split; [done|]. split; [done|].
  intros _ k Hk Hnull.
  destruct (Hall k Hk) as [->|[->|Hout]]; [done | done |].
  apply lookup_lt_Some in Hnull. lia.
Qed.

Lemma findAdjacentSeat_spec_witness :
  let table := [Null; Seated (mkPerson "Ada" []); Seated (mkPerson "Cy" []); Null]%string in
  let before := (0 + length table - 1) mod length table in
  let after := (0 + 1) mod length table in
  (table !! before = Some Null -> findAdjacentSeat table 0 = Some before)
  /\ (table !! before <> Some Null -> table !! after = Some Null ->
      findAdjacentSeat table 0 = Some after)
  /\ (table !! before <> Some Null -> table !! after <> Some Null ->
      findAdjacentSeat table 0 = None)
  /\ (forall k, findAdjacentSeat table 0 = Some k ->
        table !! k = Some Null
        /\ areNeighbors (Z.of_nat k) (Z.of_nat 0) (Z.of_nat (length table)) = true)
  /\ (findAdjacentSeat table 0 = None ->
      forall k, areNeighbors (Z.of_nat k) (Z.of_nat 0) (Z.of_nat (length table)) = true ->
        table !! k <> Some Null).
Proof.
  apply (findAdjacentSeat_spec
           [Null; Seated (mkPerson "Ada" []); Seated (mkPerson "Cy" []); Null]%string 0).
  simpl. lia.
Defined.

(** ** Trailing empty seats *)

(** X16.  The cleanup loop at the end of the repair removes the empty seats at
    the end of a table and nothing else: what is left does not end with
    an empty seat, and the table was what is left followed by empty seats
    only. *)
Theorem strip_trailing_nulls_spec (table : Table) :
  last (strip_trailing_nulls table) <> Some Null
  /\ exists k, table = strip_trailing_nulls table ++ replicate k Null.
Proof.
  induction table as [|x table [IHlast [k IHk]]]; simpl.
  - split; [done|]. by exists 0.
  - destruct (strip_trailing_nulls table) as [|y rest] eqn:E.
    + destruct (is_null x) eqn:Ex.
      * split; [done|]. exists (S k). destruct x; try done. simpl. by rewrite IHk.
      * split; [by destruct x|]. exists k. simpl. by rewrite IHk.
    + split.
      * exact IHlast.
      * exists k. simpl. by rewrite IHk.
Qed.

(** ** The statistics of a table assignment *)

Lemma set_elements_elem (l : list string) (x : string) : x ∈ set_elements l <-> x ∈ l.
Proof. unfold set_elements. by rewrite elem_of_reverse, elem_of_remove_dups, elem_of_reverse. Qed.

Lemma set_elements_NoDup (l : list string) : NoDup (set_elements l).
Proof. unfold set_elements. rewrite reverse_Permutation. apply NoDup_remove_dups. Qed.

Lemma seat_person_Some (s : option Seat) (q : Person) :
  seat_person s = Some q <-> s = Some (Seated q).
Proof. destruct s as [[p| |]|]; simpl; split; congruence. Qed.

Lemma neighbour_stats_elem (person : Person) (neighbour : option Person) (theme : string) :
  theme ∈ (neighbour_stats person neighbour).1
  <-> theme ∈ themes person /\ exists q, neighbour = Some q /\ theme ∈ themes q.
Proof.
  destruct neighbour as [q|]; simpl.
  - rewrite list_elem_of_filter, has_true. split.
    + intros [? ?]. eauto.
    + intros [? (q' & [= <-] & ?)]. done.
  - split; [by intros ?%elem_of_nil | by intros [_ (q & ? & _)]].
Qed.

Lemma seat_statistics_themes (t : nat) (table : Table) (s : nat) (person : Person)
    (theme : string) :
  theme ∈ commonThemes (seat_statistics t table s person)
  <-> theme ∈ themes person /\ exists q, beside table s q /\ theme ∈ themes q.
Proof.
  unfold seat_statistics. cbn [commonThemes].
  rewrite set_elements_elem, elem_of_app, !neighbour_stats_elem. unfold beside. split.
  - intros [[Ht (q & Hq & Hin)]|[Ht (q & Hq & Hin)]]; (split; [done|]); exists q;
      (split; [|done]).
    + destruct (Nat.ltb_spec 0 s); [|done]. left. split; [done|]. by apply seat_person_Some.
    + destruct (S s <? length table); [|done]. right. by apply seat_person_Some.
  - intros [Ht (q & [[Hs Hq]|Hq] & Hin)].
    + left. split; [done|]. exists q. split; [|done].
      destruct (Nat.ltb_spec 0 s); [|lia]. by apply seat_person_Some.
    + right. split; [done|]. exists q. split; [|done].
      pose proof (lookup_lt_Some _ _ _ Hq).
      destruct (Nat.ltb_spec (S s) (length table)); [|lia]. by apply seat_person_Some.
Qed.

Lemma table_statistics_elem (t : nat) (table : Table) (st : SeatingStatistics) :
  st ∈ table_statistics t table
  <-> exists s person, table !! s = Some (Seated person)
        /\ st = seat_statistics t table s person.
Proof.
  unfold table_statistics. rewrite list_elem_of_omap. split.
  - intros (o & Ho & E). simpl in E. subst o.
    apply list_elem_of_lookup in Ho as [s Hs]. rewrite list_lookup_imap in Hs.
    destruct (table !! s) as [[p| |]|] eqn:Es; simpl in Hs; try done.
    injection Hs as <-. eauto.
  - intros (s & person & Hs & ->). exists (Some (seat_statistics t table s person)).
    split; [|done]. apply list_elem_of_lookup. exists s. by rewrite list_lookup_imap, Hs.
Qed.

Lemma calculateStatistics_elem (tables : list Table) (st : SeatingStatistics) :
  st ∈ calculateStatistics tables
  <-> exists t table s person, tables !! t = Some table
        /\ table !! s = Some (Seated person)
        /\ st = seat_statistics t table s person.
Proof.
  split.
  - unfold calculateStatistics. intros (t & l & k & Ht & Hk)%concat_elem.
    rewrite list_lookup_imap in Ht.
    destruct (tables !! t) as [table|] eqn:Et; [|done]. injection Ht as <-.
    apply list_elem_of_lookup_2, table_statistics_elem in Hk as (s & person & Hs & ->).
    by exists t, table, s, person.
  - intros (t & table & s & person & Ht & Hs & ->). by eapply seat_statistics_elem.
Qed.

Lemma statistics_names_from {B : Type} (g : nat -> Seat -> option B)
    (nm : B -> string) (table : Table) :
  (forall i seat, nm <$> g i seat = seat_name seat) ->
  nm <$> omap id (imap g table) = omap seat_name table.
Proof.
  revert g. induction table as [|seat table IH]; intros g Hg; [done|].
  cbn [imap omap list_omap]. pose proof (Hg 0 seat) as H0.
  rewrite <- (IH (g ∘ S)) by (intros i seat'; apply Hg).
  cbn [id]. destruct (g 0 seat) as [b|], (seat_name seat) as [n|]; simpl in H0 |- *; try done.
  by injection H0 as ->.
Qed.

Lemma table_statistics_names (t : nat) (table : Table) :
  stat_name <$> table_statistics t table = omap seat_name table.
Proof.
  unfold table_statistics. apply statistics_names_from.
  intros i seat. by destruct seat.
Qed.

Lemma omap_concat {A B : Type} (f : A -> option B) (ls : list (list A)) :
  omap f (concat ls) = concat ((fun l : list A => omap f l) <$> ls).
Proof.
  induction ls as [|l ls IH]; [done|]. simpl. by rewrite omap_app, IH.
Qed.

Lemma calculateStatistics_names (tables : list Table) :
  stat_name <$> calculateStatistics tables = omap seat_name (concat tables).
Proof.
  unfold calculateStatistics. rewrite omap_concat.
  generalize table_statistics_names. generalize table_statistics as f.
  intros f Hf. revert f Hf.
  induction tables as [|table tables IH]; intros f Hf; [done|].
  cbn [imap concat fmap list_fmap]. rewrite fmap_app, Hf. f_equal.
  apply (IH (f ∘ S)). intros t table'. apply Hf.
Qed.

(** X17.  The statistics hold one record for every seat with a participant, in
    the order of the tables and of their seats, with the participant's
    name and the numbers of table and seat counted from 1.  The common
    themes of a record are, without repetition, the themes the participant
    shares with whoever sits on the seat before or the seat after (the
    first and the last seat of a table are not taken as neighbours here),
    and [hasCommon] says whether there is one. *)
Theorem calculateStatistics_spec (tables : list Table) :
  let stats := calculateStatistics tables in
  stat_name <$> stats = omap seat_name (concat tables)
  /\ (forall t table s person,
        tables !! t = Some table -> table !! s = Some (Seated person) ->
        exists st, st ∈ stats /\ stat_name st = name person
                   /\ tableNumber st = t + 1 /\ position st = s + 1)
  /\ (forall st, st ∈ stats ->
        exists t table s person,
          tables !! t = Some table /\ table !! s = Some (Seated person)
          /\ stat_name st = name person
          /\ tableNumber st = t + 1 /\ position st = s + 1
          /\ NoDup (commonThemes st)
          /\ (forall theme, theme ∈ commonThemes st
                <-> theme ∈ themes person
                    /\ exists q, beside table s q /\ theme ∈ themes q)
          /\ (hasCommon st = true <-> commonThemes st <> [])).
Proof.
  intros stats. split; [apply calculateStatistics_names|]. split.
  - intros t table s person Ht Hs. exists (seat_statistics t table s person).
    split; [by eapply seat_statistics_elem | done].
  - intros st (t & table & s & person & Ht & Hs & ->)%calculateStatistics_elem.
    exists t, table, s, person.
    do 5 (split; [done|]). split; [apply set_elements_NoDup|].
    split; [intros theme; apply seat_statistics_themes|].
    cbn [seat_statistics hasCommon commonThemes]. rewrite Nat.ltb_lt.
    destruct (set_elements _); simpl; split; try done; lia.
Qed.

(** ** Strings: white space *)

Lemma strip_prefix_Some (w s rest : text) :
  strip_prefix w s = Some rest <-> s = w ++ rest.
Proof.
  revert s. induction w as [|a w IH]; intros s; simpl.
  - split; [by intros [= ->] | by intros ->].
  - destruct s as [|b s]; [done|]. case_bool_decide as E.
    + subst b. rewrite IH. split; [by intros -> | by intros [= ->]].
    + split; [done | intros [= ? ?]; congruence].
Qed.

Lemma strip_white_Some (ws : list text) (s rest : text) :
  strip_white ws s = Some rest -> exists w, w ∈ ws /\ s = w ++ rest.
Proof.
  unfold strip_white.
  destruct (list_find _ _) as [[i o]|] eqn:E; [|done]. simpl. intros ->.
  apply list_find_Some in E as (Hi & _ & _).
  rewrite list_lookup_fmap in Hi.
  destruct (ws !! i) as [w|] eqn:Ew; [|done]. simpl in Hi. injection Hi as Hi.
  exists w. split; [by eapply list_elem_of_lookup_2 | by apply strip_prefix_Some].
Qed.

Lemma strip_white_None (ws : list text) (s : text) :
  strip_white ws s = None <-> forall w rest, w ∈ ws -> s <> w ++ rest.
Proof.
  unfold strip_white. split.
  - destruct (list_find _ _) as [[i o]|] eqn:E.
    + apply list_find_Some in E as (_ & [x ->] & _). done.
    + intros _ w rest Hw Hs. apply list_find_None in E. rewrite Forall_forall in E.
      apply (E (strip_prefix w s)).
      * apply list_elem_of_fmap. by exists w.
      * exists rest. by apply strip_prefix_Some.
  - intros H. destruct (list_find _ _) as [[i o]|] eqn:E; [|done]. exfalso.
    apply list_find_Some in E as (Hi & [x ->] & _).
    rewrite list_lookup_fmap in Hi.
    destruct (ws !! i) as [w|] eqn:Ew; [|done]. simpl in Hi. injection Hi as Hi.
    apply strip_prefix_Some in Hi. apply (H w x); [by eapply list_elem_of_lookup_2 | done].
Qed.

(** What is stripped is taken from the front. *)
Lemma strip_whites_suffix (n : nat) (ws : list text) (s : text) :
  strip_whites n ws s `suffix_of` s.
Proof.
  revert s. induction n as [|n IH]; intros s; simpl; [done|].
  destruct (strip_white ws s) as [rest|] eqn:E; [|done].
  apply strip_white_Some in E as (w & _ & ->).
  etrans; [apply IH | by apply suffix_app_r].
Qed.

(** With enough steps nothing more can be stripped. *)
Lemma strip_whites_done (n : nat) (ws : list text) (s : text) :
  [] ∉ ws -> length s <= n -> strip_white ws (strip_whites n ws s) = None.
Proof.
  intros Hne. revert s. induction n as [|n IH]; intros s Hn; simpl.
  - destruct s; [|simpl in Hn; lia]. apply strip_white_None.
    intros w rest Hw E. symmetry in E. apply app_eq_nil in E as [-> _]. done.
  - destruct (strip_white ws s) as [rest|] eqn:E; [|done].
    apply IH. apply strip_white_Some in E as (w & Hw & ->).
    rewrite length_app in Hn. destruct w; [done | simpl in Hn; lia].
Qed.

Lemma strip_whites_None (n : nat) (ws : list text) (s : text) :
  strip_white ws s = None -> strip_whites n ws s = s.
Proof. intros E. destruct n; simpl; [done | by rewrite E]. Qed.

Lemma strip_whites_id (n : nat) (ws : list text) (s : text) :
  [] ∉ ws -> strip_whites n ws s = s -> length s <= n -> strip_white ws s = None.
Proof. intros Hne E Hn. rewrite <- E. by apply strip_whites_done. Qed.

Lemma white_space_nonempty : [] ∉ white_space.
Proof. apply (bool_decide_unpack ([] ∉ white_space)). by vm_compute. Qed.

Lemma white_space_reverse_nonempty : [] ∉ reverse <$> white_space.
Proof. apply (bool_decide_unpack ([] ∉ reverse <$> white_space)). by vm_compute. Qed.

Lemma trimStart_suffix (s : text) : trimStart s `suffix_of` s.
Proof. apply strip_whites_suffix. Qed.

Lemma trimEnd_prefix (s : text) : trimEnd s `prefix_of` s.
Proof.
  unfold trimEnd.
  destruct (strip_whites_suffix (length s) (reverse <$> white_space) (reverse s))
    as [pre E].
  exists (reverse pre). apply (inj reverse). by rewrite reverse_app, !reverse_involutive.
Qed.

(** [trim] returns a piece of its string. *)
Lemma trim_infix (s : text) : exists a b, s = a ++ trim s ++ b.
Proof.
  unfold trim. destruct (trimStart_suffix s) as [a Ea].
  destruct (trimEnd_prefix (trimStart s)) as [b Eb].
  exists a, b. by rewrite <- Eb.
Qed.

Lemma trim_Forall (P : Ascii.ascii -> Prop) (s : text) : Forall P s -> Forall P (trim s).
Proof.
  intros H. destruct (trim_infix s) as (a & b & E). rewrite E in H.
  by apply Forall_app in H as [_ [H _]%Forall_app].
Qed.

Lemma trim_not_elem (c : Ascii.ascii) (s : text) : c ∉ s -> c ∉ trim s.
Proof.
  intros H Hin. destruct (trim_infix s) as (a & b & E). apply H. rewrite E.
  rewrite !elem_of_app. tauto.
Qed.

Lemma trim_length (s : text) : length (trim s) <= length s.
Proof.
  destruct (trim_infix s) as (a & b & E). rewrite E at 2. rewrite !length_app. lia.
Qed.

(** A string is left alone exactly when it neither starts nor ends with
    white space. *)
Lemma trim_id (s : text) :
  trim s = s
  <-> strip_white white_space s = None
      /\ strip_white (reverse <$> white_space) (reverse s) = None.
Proof.
  split.
  - intros E.
    assert (trimStart s = s) as Es.
    { destruct (trimStart_suffix s) as [a Ea].
      destruct (trimEnd_prefix (trimStart s)) as [b Eb].
      unfold trim in E. rewrite E in Eb.
      assert (length s = length (a ++ s ++ b)) as Hl by by rewrite <- Eb, <- Ea.
      rewrite !length_app in Hl.
      destruct a; [|simpl in Hl; lia]. done. }
    assert (trimEnd s = s) as Ee by (unfold trim in E; by rewrite Es in E).
    split.
    + apply (strip_whites_id (length s)); [apply white_space_nonempty | exact Es | lia].
    + apply (strip_whites_id (length s)); [apply white_space_reverse_nonempty | | ].
      * unfold trimEnd in Ee. apply (inj reverse). by rewrite Ee, reverse_involutive.
      * by rewrite length_reverse.
  - intros [Hs He]. unfold trim, trimStart, trimEnd.
    rewrite (strip_whites_None _ _ s Hs), (strip_whites_None _ _ _ He).
    apply reverse_involutive.
Qed.

Lemma trim_idempotent (s : text) : trim (trim s) = trim s.
Proof.
  apply trim_id. unfold trim. split.
  - destruct (trimEnd_prefix (trimStart s)) as [b Eb].
    pose proof (strip_whites_done (length s) white_space s white_space_nonempty
                  (Nat.le_refl _)) as Hdone.
    fold (trimStart s) in Hdone. rewrite strip_white_None in Hdone |- *.
    intros w rest Hw E. apply (Hdone w (rest ++ b) Hw).
    by rewrite Eb, E, <- app_assoc.
  - unfold trimEnd. rewrite reverse_involutive.
    apply strip_whites_done; [apply white_space_reverse_nonempty|].
    by rewrite length_reverse.
Qed.

(** No white space character starts or ends with a quote, or holds a
    comma. *)
Lemma strip_white_quote (rest : text) :
  strip_white white_space (quote :: rest) = None.
Proof. by vm_compute. Qed.

Lemma strip_white_reverse_quote (rest : text) :
  strip_white (reverse <$> white_space) (quote :: rest) = None.
Proof. by vm_compute. Qed.

Lemma trim_quoted (s : text) : trim (in_quotes s) = in_quotes s.
Proof.
  apply trim_id. unfold in_quotes. split; [apply strip_white_quote|].
  rewrite !reverse_app. apply strip_white_reverse_quote.
Qed.

Lemma white_space_comma (ws : list text) (w : text) :
  ws = white_space \/ ws = reverse <$> white_space -> w ∈ ws -> comma ∉ w.
Proof.
  intros [->| ->] Hw.
  - assert (Forall (fun w => comma ∉ w) white_space) as H.
    { apply (bool_decide_unpack (Forall (fun w => comma ∉ w) white_space)). by vm_compute. }
    rewrite Forall_forall in H. by apply H.
  - assert (Forall (fun w => comma ∉ w) (reverse <$> white_space)) as H.
    { apply (bool_decide_unpack (Forall (fun w => comma ∉ w) (reverse <$> white_space))).
      by vm_compute. }
    rewrite Forall_forall in H. by apply H.
Qed.

(** A string that does not start with white space does not do so when a
    comma and more follow it. *)
Lemma strip_white_app_comma (ws : list text) (s rest : text) :
  ws = white_space \/ ws = reverse <$> white_space ->
  strip_white ws s = None -> strip_white ws (s ++ comma :: rest) = None.
Proof.
  intros Hws. rewrite !strip_white_None. intros H w r Hw E.
  destruct (decide (length w <= length s)) as [Hle|Hgt].
  - apply (H w (drop (length w) s) Hw).
    assert (take (length w) s = w) as Et.
    { apply (f_equal (take (length w))) in E.
      rewrite take_app_le in E by lia. by rewrite take_app_length in E. }
    rewrite <- (take_drop (length w) s) at 1. by rewrite Et.
  - apply (white_space_comma ws w Hws Hw).
    apply (f_equal (fun l => l !! length s)) in E.
    rewrite lookup_app_r, Nat.sub_diag in E by done. simpl in E.
    rewrite lookup_app_l in E by lia.
    symmetry in E. by eapply list_elem_of_lookup_2.
Qed.

(** ** Strings: pieces *)

Lemma split_nonempty (sep : Ascii.ascii) (s : text) : split sep s <> [].
Proof.
  destruct s as [|c s]; simpl; [done|]. case_bool_decide; [done|].
  by destruct (split sep s).
Qed.

Lemma split_no_sep (sep : Ascii.ascii) (p : text) : sep ∉ p -> split sep p = [p].
Proof.
  induction p as [|c p IH]; intros Hp; simpl; [done|].
  apply not_elem_of_cons in Hp as [Hc Hp].
  rewrite bool_decide_eq_false_2 by done. by rewrite IH.
Qed.

Lemma split_app (sep : Ascii.ascii) (p s : text) :
  sep ∉ p -> split sep (p ++ sep :: s) = p :: split sep s.
Proof.
  induction p as [|c p IH]; intros Hp; simpl.
  - by rewrite bool_decide_eq_true_2.
  - apply not_elem_of_cons in Hp as [Hc Hp].
    rewrite bool_decide_eq_false_2 by done. by rewrite IH.
Qed.

Lemma split_pieces (sep : Ascii.ascii) (s : text) :
  Forall (fun p => sep ∉ p) (split sep s).
Proof.
  induction s as [|c s IH]; simpl.
  - repeat constructor. apply not_elem_of_nil.
  - case_bool_decide as E.
    + constructor; [apply not_elem_of_nil | done].
    + destruct (split sep s) as [|p ps]; [repeat constructor|].
      * apply not_elem_of_cons. split; [done | apply not_elem_of_nil].
      * apply Forall_cons in IH as [Hp Hps]. constructor; [|done].
        apply not_elem_of_cons. by split.
Qed.

Lemma join_cons (sep : Ascii.ascii) (p : text) (ps : list text) :
  ps <> [] -> join sep (p :: ps) = p ++ sep :: join sep ps.
Proof. by destruct ps. Qed.

Lemma join_snoc (sep : Ascii.ascii) (ps : list text) (p : text) :
  ps <> [] -> join sep (ps ++ [p]) = join sep ps ++ sep :: p.
Proof.
  induction ps as [|q ps IH]; intros Hne; [done|].
  destruct ps as [|r ps]; [done|].
  change ((q :: r :: ps) ++ [p]) with (q :: ((r :: ps) ++ [p])).
  rewrite join_cons by done. rewrite IH by done.
  rewrite (join_cons sep q (r :: ps)) by done. by rewrite <- app_assoc.
Qed.

Lemma split_join (sep : Ascii.ascii) (pieces : list text) :
  pieces <> [] -> Forall (fun p => sep ∉ p) pieces ->
  split sep (join sep pieces) = pieces.
Proof.
  induction pieces as [|p ps IH]; intros Hne Hall; [done|].
  apply Forall_cons in Hall as [Hp Hps].
  destruct ps as [|q ps]; [by apply split_no_sep|].
  rewrite join_cons by done. rewrite split_app by done. by rewrite IH.
Qed.

Lemma join_not_elem (c sep : Ascii.ascii) (pieces : list text) :
  c <> sep -> Forall (fun p => c ∉ p) pieces -> c ∉ join sep pieces.
Proof.
  intros Hc. induction pieces as [|p ps IH]; intros Hall; [apply not_elem_of_nil|].
  apply Forall_cons in Hall as [Hp Hps].
  destruct ps as [|q ps]; [done|].
  rewrite join_cons by done. rewrite not_elem_of_app, not_elem_of_cons. auto.
Qed.

(** Pieces without white space at their ends, with commas between them,
    are a string without white space at its ends. *)
Lemma trim_join (pieces : list text) :
  Forall (fun p => trim p = p) pieces -> trim (join comma pieces) = join comma pieces.
Proof.
  intros Hall. destruct pieces as [|p ps]; [by vm_compute|].
  apply trim_id. split.
  - apply Forall_cons in Hall as [Hp _]. apply trim_id in Hp as [Hp _].
    destruct ps as [|q ps]; [done|]. rewrite join_cons by done.
    apply strip_white_app_comma; auto.
  - destruct (decide (ps = [])) as [->|Hne].
    { apply Forall_cons in Hall as [Hp _]. by apply trim_id in Hp as [_ Hp]. }
    assert (exists qs q, p :: ps = qs ++ [q] /\ qs <> []) as (qs & q & E & Hqs).
    { destruct (exists_last Hne) as (qs & q & ->). exists (p :: qs), q. done. }
    rewrite E in Hall |- *. apply Forall_app in Hall as [_ Hq].
    apply Forall_cons in Hq as [Hq _]. apply trim_id in Hq as [_ Hq].
    rewrite join_snoc by done. rewrite reverse_app, reverse_cons, <- app_assoc. simpl.
    apply strip_white_app_comma; auto.
Qed.

(** ** One line of the CSV text *)

Lemma strip_quotes_id (s : text) : quote ∉ s -> strip_quotes s = s.
Proof.
  intros Hs. unfold strip_quotes.
  assert (match s with
          | c :: rest => if bool_decide (c = quote) then rest else s
          | [] => []
          end = s) as ->.
  { destruct s as [|c rest]; [done|]. apply not_elem_of_cons in Hs as [Hc _].
    by rewrite bool_decide_eq_false_2. }
  destruct (reverse s) as [|c rest] eqn:E; [done|].
  rewrite bool_decide_eq_false_2; [done|]. intros ->. apply Hs.
  apply elem_of_reverse. rewrite E. left.
Qed.

Lemma push_field_plain (fs : list text) (cur : text) (q : bool) :
  quote ∉ cur -> push_field (mkLineState fs cur q) = fs ++ [trim cur].
Proof.
  intros Hc. unfold push_field. simpl.
  by rewrite strip_quotes_id by by apply trim_not_elem.
Qed.

Lemma comma_not_quote : comma <> quote.
Proof. by vm_compute. Qed.

Lemma parse_char_quote (fs : list text) (cur : text) (q : bool) :
  parse_char (mkLineState fs cur q) quote = mkLineState fs cur (negb q).
Proof. unfold parse_char. by rewrite bool_decide_eq_true_2. Qed.

Lemma parse_char_comma (fs : list text) (cur : text) :
  parse_char (mkLineState fs cur false) comma
  = mkLineState (push_field (mkLineState fs cur false)) [] false.
Proof.
  unfold parse_char. rewrite bool_decide_eq_false_2 by apply comma_not_quote.
  by rewrite bool_decide_eq_true_2.
Qed.

Lemma parse_char_kept (fs : list text) (cur : text) (q : bool) (c : Ascii.ascii) :
  c <> quote -> c <> comma \/ q = true ->
  parse_char (mkLineState fs cur q) c = mkLineState fs (cur ++ [c]) q.
Proof.
  intros Hq Hc. unfold parse_char. rewrite bool_decide_eq_false_2 by done.
  cbn [inQuotes fields current]. destruct Hc as [Hc| ->].
  - by rewrite bool_decide_eq_false_2.
  - by rewrite andb_false_r.
Qed.

(** Between quotes every character but the quote is kept. *)
Lemma parse_chars_quoted (cs : text) (fs : list text) (cur : text) :
  quote ∉ cs ->
  fold_left parse_char cs (mkLineState fs cur true) = mkLineState fs (cur ++ cs) true.
Proof.
  revert cur. induction cs as [|c cs IH]; intros cur Hcs; cbn [fold_left].
  - by rewrite app_nil_r.
  - apply not_elem_of_cons in Hcs as [Hc Hcs].
    rewrite parse_char_kept by auto.
    rewrite IH by done. by rewrite <- app_assoc.
Qed.

Lemma parse_chars_field (f : text) (fs : list text) (cur : text) (rest : text) :
  quote ∉ f ->
  fold_left parse_char (in_quotes f ++ rest) (mkLineState fs cur false)
  = fold_left parse_char rest (mkLineState fs (cur ++ f) false).
Proof.
  intros Hf. unfold in_quotes. rewrite <- !app_assoc.
  change ([quote] ++ f ++ [quote] ++ rest) with (quote :: (f ++ quote :: rest)).
  cbn [fold_left]. rewrite parse_char_quote. cbn [negb].
  rewrite fold_left_app, parse_chars_quoted by done. cbn [fold_left].
  by rewrite parse_char_quote.
Qed.

Lemma parse_csv_line (fields got : list text) :
  fields <> [] -> Forall plain fields ->
  push_field (fold_left parse_char (csv_line fields) (mkLineState got [] false))
  = got ++ fields.
Proof.
  revert got. induction fields as [|f rest IH]; intros got Hne Hall; [done|].
  apply Forall_cons in Hall as [[Hq Ht] Hrest]. unfold csv_line in *.
  destruct rest as [|g rest].
  - cbn [fmap list_fmap join].
    rewrite <- (app_nil_r (in_quotes f)), parse_chars_field by done. cbn [fold_left app].
    by rewrite push_field_plain, Ht.
  - rewrite fmap_cons, join_cons by done.
    rewrite parse_chars_field by done. cbn [fold_left app].
    rewrite parse_char_comma.
    rewrite push_field_plain, Ht by done.
    rewrite IH by done. by rewrite <- app_assoc.
Qed.

(** A line without a quote is cut at every comma. *)
Lemma parse_plain_line (line : text) (fs : list text) (cur : text) :
  quote ∉ line -> quote ∉ cur ->
  push_field (fold_left parse_char line (mkLineState fs cur false))
  = fs ++ match split comma line with
          | p :: ps => trim (cur ++ p) :: (trim <$> ps)
          | [] => []
          end.
Proof.
  revert fs cur. induction line as [|c line IH]; intros fs cur Hl Hc;
    cbn [fold_left split].
  - by rewrite push_field_plain, app_nil_r.
  - apply not_elem_of_cons in Hl as [Hq Hl].
    case_bool_decide as E.
    + subst c. rewrite parse_char_comma.
      rewrite push_field_plain by done. rewrite IH by (done || apply not_elem_of_nil).
      rewrite app_nil_r, <- app_assoc. cbn [app].
      destruct (split comma line) as [|p ps] eqn:Es; [by apply split_nonempty in Es|].
      done.
    + rewrite parse_char_kept by auto. rewrite IH; [|done|].
      2:{ rewrite not_elem_of_app. split; [done|].
          apply not_elem_of_cons. split; [done | apply not_elem_of_nil]. }
      destruct (split comma line) as [|p ps] eqn:Es; [by apply split_nonempty in Es|].
      by rewrite <- app_assoc.
Qed.

(** No field of a line holds a quote. *)
Lemma parse_chars_no_quote (line : text) (st : LineState) :
  Forall (fun f => quote ∉ f) (fields st) -> quote ∉ current st ->
  let st' := fold_left parse_char line st in
  Forall (fun f => quote ∉ f) (fields st') /\ quote ∉ current st'.
Proof.
  revert st. induction line as [|c line IH]; intros st Hf Hc; cbn [fold_left]; [done|].
  apply IH; unfold parse_char.
  - case_bool_decide; [done|]. destruct (_ && _); cbn [fields]; [|done].
    apply Forall_app. split; [done|]. repeat constructor.
    rewrite strip_quotes_id by by apply trim_not_elem. by apply trim_not_elem.
  - case_bool_decide as E; [done|]. destruct (_ && _); cbn [current]; [apply not_elem_of_nil|].
    rewrite not_elem_of_app. split; [done|].
    apply not_elem_of_cons. split; [done | apply not_elem_of_nil].
Qed.

(** ** The fields of a line *)

Lemma plain_trim (cur : text) : quote ∉ cur -> plain (strip_quotes (trim cur)).
Proof.
  intros Hc. rewrite strip_quotes_id by by apply trim_not_elem.
  split; [by apply trim_not_elem | apply trim_idempotent].
Qed.

Lemma parse_chars_plain (line : text) (st : LineState) :
  Forall plain (fields st) -> quote ∉ current st ->
  let st' := fold_left parse_char line st in
  Forall plain (fields st') /\ quote ∉ current st'.
Proof.
  revert st. induction line as [|c line IH]; intros st Hf Hc; cbn [fold_left]; [done|].
  apply IH; unfold parse_char.
  - case_bool_decide; [done|]. destruct (_ && _); cbn [fields]; [|done].
    unfold push_field. apply Forall_app. split; [done|].
    repeat constructor; by apply plain_trim.
  - case_bool_decide as E; [done|]. destruct (_ && _); cbn [current]; [apply not_elem_of_nil|].
    rewrite not_elem_of_app. split; [done|].
    apply not_elem_of_cons. split; [congruence | apply not_elem_of_nil].
Qed.

Lemma parseCSVLine_plain (line : text) : Forall plain (parseCSVLine line).
Proof.
  unfold parseCSVLine.
  destruct (parse_chars_plain line (mkLineState [] [] false)) as [Hf Hc];
    [constructor | apply not_elem_of_nil |].
  unfold push_field. apply Forall_app. split; [done|].
  repeat constructor; by apply plain_trim.
Qed.

(** X18.  Every field [parseCSVLine] returns is free of quotes and of white
    space at its ends; a line without a quote is cut at every comma, each
    piece trimmed; and fields that are free of quotes and of white space
    at their ends are read back from the line that holds them between
    quotes with commas in between, whatever commas they contain. *)
Theorem parseCSVLine_spec :
  (forall line, Forall (fun f => (quote ∉ f) /\ trim f = f) (parseCSVLine line))
  /\ (forall line, quote ∉ line -> parseCSVLine line = trim <$> split comma line)
  /\ (forall fields, fields <> [] ->
        Forall (fun f => (quote ∉ f) /\ trim f = f) fields ->
        parseCSVLine (join comma ((fun f => [quote] ++ f ++ [quote]) <$> fields)) = fields).
Proof.
  split; [exact parseCSVLine_plain|]. split.
  - intros line Hl. unfold parseCSVLine.
    rewrite parse_plain_line by (done || apply not_elem_of_nil).
    destruct (split comma line) as [|p ps] eqn:E; [by apply split_nonempty in E | done].
  - intros fields Hne Hall. apply (parse_csv_line fields [] Hne Hall).
Qed.

(** ** The whole text *)

Lemma split_elem (sep : Ascii.ascii) (s : text) :
  sep ∈ s <-> 2 <= length (split sep s).
Proof.
  split.
  - induction s as [|c s IH]; intros Hs; [by apply elem_of_nil in Hs|]. simpl.
    case_bool_decide as E.
    + pose proof (split_nonempty sep s). destruct (split sep s); simpl; [done | lia].
    + apply elem_of_cons in Hs as [->|Hs]; [done|]. specialize (IH Hs).
      destruct (split sep s); simpl in *; lia.
  - intros Hl. destruct (decide (sep ∈ s)) as [|Hs]; [done|].
    rewrite split_no_sep in Hl by done. simpl in Hl. lia.
Qed.

Lemma split_not_elem (c sep : Ascii.ascii) (s : text) :
  c ∉ s -> Forall (fun p => c ∉ p) (split sep s).
Proof.
  induction s as [|d s IH]; intros Hs; simpl; [by repeat constructor|].
  apply not_elem_of_cons in Hs as [Hd Hs]. specialize (IH Hs).
  case_bool_decide.
  - constructor; [apply not_elem_of_nil | done].
  - destruct (split sep s) as [|p ps].
    + repeat constructor. apply not_elem_of_cons. split; [done | apply not_elem_of_nil].
    + apply Forall_cons in IH as [Hp Hps]. constructor; [|done].
      apply not_elem_of_cons. by split.
Qed.

Lemma parse_chars_not_elem (c : Ascii.ascii) (line : text) (st : LineState) :
  c ∉ line -> Forall (fun f => c ∉ f) (fields st) ->
  c ∉ current st -> quote ∉ current st ->
  let st' := fold_left parse_char line st in
  Forall (fun f => c ∉ f) (fields st') /\ (c ∉ current st') /\ (quote ∉ current st').
Proof.
  revert st. induction line as [|d line IH]; intros st Hl Hf Hc Hq; cbn [fold_left]; [done|].
  apply not_elem_of_cons in Hl as [Hd Hl].
  apply IH; [done|..]; unfold parse_char.
  - case_bool_decide; [done|]. destruct (_ && _); cbn [fields]; [|done].
    unfold push_field. apply Forall_app. split; [done|]. repeat constructor.
    rewrite strip_quotes_id by by apply trim_not_elem. by apply trim_not_elem.
  - case_bool_decide; [done|]. destruct (_ && _); cbn [current]; [apply not_elem_of_nil|].
    rewrite not_elem_of_app. split; [done|].
    apply not_elem_of_cons. split; [done | apply not_elem_of_nil].
  - case_bool_decide; [done|]. destruct (_ && _); cbn [current]; [apply not_elem_of_nil|].
    rewrite not_elem_of_app. split; [done|].
    apply not_elem_of_cons. split; [congruence | apply not_elem_of_nil].
Qed.

Lemma parseCSVLine_not_elem (c : Ascii.ascii) (line : text) :
  c ∉ line -> Forall (fun f => c ∉ f) (parseCSVLine line).
Proof.
  intros Hl. unfold parseCSVLine.
  destruct (parse_chars_not_elem c line (mkLineState [] [] false)) as (Hf & Hc & Hq);
    [done | constructor | apply not_elem_of_nil | apply not_elem_of_nil |].
  unfold push_field. apply Forall_app. split; [done|]. repeat constructor.
  rewrite strip_quotes_id by by apply trim_not_elem. by apply trim_not_elem.
Qed.

Lemma findIndex_from_none {A : Type} (f : A -> bool) (l : list A) (k : nat) :
  findIndex_from f l k = (-1)%Z <-> forall x, x ∈ l -> f x = false.
Proof.
  revert k. induction l as [|y l IH]; intros k; simpl.
  - split; [|done]. intros _ x Hx. by apply elem_of_nil in Hx.
  - destruct (f y) eqn:E.
    + split; [lia|]. intros Hall. rewrite Hall in E; [done | apply elem_of_cons; auto].
    + rewrite IH. split.
      * intros Hall x Hx. apply elem_of_cons in Hx as [->|Hx]; auto.
      * intros Hall x Hx. apply Hall, elem_of_cons. auto.
Qed.

Lemma omap_length_le {A B : Type} (f : A -> option B) (l : list A) :
  length (omap f l) <= length l.
Proof. induction l as [|x l IH]; csimpl; [done|]. destruct (f x); csimpl; lia. Qed.

Lemma indexOf_text (col : text) (headers : list text) :
  findIndex (fun h => bool_decide (h = col)) headers = (-1)%Z <-> col ∉ headers.
Proof.
  unfold findIndex. rewrite findIndex_from_none. split.
  - intros Hall Hin. specialize (Hall col Hin). by rewrite bool_decide_eq_true_2 in Hall.
  - intros Hn x Hx. apply bool_decide_eq_false_2. by intros ->.
Qed.

Lemma parse_themes_plain (themesText : text) :
  quote ∉ themesText -> line_feed ∉ themesText ->
  NoDup (parse_themes themesText)
  /\ Forall (fun t => plain_theme (String.list_ascii_of_string t)) (parse_themes themesText).
Proof.
  intros Hq Hl. unfold parse_themes. split; [apply set_elements_NoDup|].
  apply Forall_forall. intros t Ht. rewrite set_elements_elem in Ht.
  apply list_elem_of_fmap in Ht as (u & -> & Hu).
  apply list_elem_of_filter in Hu as [Hne Hu].
  apply list_elem_of_fmap in Hu as (v & -> & Hv).
  rewrite String.list_ascii_of_string_of_list_ascii.
  pose proof (split_not_elem quote comma themesText Hq) as Hq'.
  pose proof (split_not_elem line_feed comma themesText Hl) as Hl'.
  pose proof (split_pieces comma themesText) as Hc'.
  rewrite Forall_forall in Hq', Hl', Hc'.
  repeat split; [| apply trim_idempotent | done | |]; apply trim_not_elem; auto.
Qed.

Lemma parse_row_plain (nameIdx attendingIdx themesIdx : nat) (line : text) (p : ParsedPerson) :
  line_feed ∉ line -> parse_row nameIdx attendingIdx themesIdx line = Some p ->
  (forall n, parsed_name p = Some n ->
     plain (String.list_ascii_of_string n) /\ (line_feed ∉ String.list_ascii_of_string n))
  /\ NoDup (parsed_themes p)
  /\ Forall (fun t => plain_theme (String.list_ascii_of_string t)) (parsed_themes p).
Proof.
  intros Hl. unfold parse_row. case_bool_decide; [done|]. case_bool_decide; [|done].
  intros [= <-]. cbn [parsed_name parsed_themes].
  pose proof (parseCSVLine_plain line) as Hp.
  pose proof (parseCSVLine_not_elem line_feed line Hl) as Hf.
  rewrite Forall_forall in Hp, Hf. split.
  - intros n Hn. destruct (parseCSVLine line !! nameIdx) as [f|] eqn:E; [|done].
    injection Hn as <-. rewrite String.list_ascii_of_string_of_list_ascii.
    apply list_elem_of_lookup_2 in E. auto.
  - apply parse_themes_plain.
    + destruct (parseCSVLine line !! themesIdx) as [f|] eqn:E; [|apply not_elem_of_nil].
      apply list_elem_of_lookup_2 in E. apply Hp in E as [E _]. done.
    + destruct (parseCSVLine line !! themesIdx) as [f|] eqn:E; [|apply not_elem_of_nil].
      apply list_elem_of_lookup_2 in E. auto.
Qed.

(** X19.  Whatever the name of the name column is (the versions of the module
    differ in it), [parseCSV] throws only its message about the missing
    columns, and only for a text of more than one line whose first line
    lacks one of the three columns.  Otherwise it returns fewer participants than the
    text has lines (none for a text of one line, whatever the line is): the
    name of each, when the line has one, is free of quotes, of line feeds
    and of white space at its ends, and the themes of each are different
    from one another, not empty, and free of commas, quotes, line feeds
    and white space at their ends. *)
Theorem parseCSV_outcome (nameCol csvText : text) :
  match parseCSV_for nameCol csvText with
  | Throws message =>
      message = missing_columns nameCol
      /\ line_feed ∈ trim csvText
      /\ ~ (forall col, col ∈ [nameCol; ATTENDING_COL; THEMES_COL] ->
              col ∈ parseCSVLine (default [] (head (split line_feed (trim csvText)))))
  | Returns people =>
      (line_feed ∈ trim csvText ->
         forall col, col ∈ [nameCol; ATTENDING_COL; THEMES_COL] ->
           col ∈ parseCSVLine (default [] (head (split line_feed (trim csvText)))))
      /\ (line_feed ∉ trim csvText -> people = [])
      /\ length people < length (split line_feed (trim csvText))
      /\ Forall (fun p =>
           (forall n, parsed_name p = Some n ->
              plain (String.list_ascii_of_string n)
              /\ (line_feed ∉ String.list_ascii_of_string n))
           /\ NoDup (parsed_themes p)
           /\ Forall (fun t => plain_theme (String.list_ascii_of_string t)) (parsed_themes p))
           people
  end.
Proof.
  unfold parseCSV_for. cbv zeta.
  set (lines := split line_feed (trim csvText)).
  set (headers := parseCSVLine (default [] (head lines))).
  pose proof (split_elem line_feed (trim csvText)) as Hfeed. fold lines in Hfeed.
  destruct (length lines <? 2) eqn:Hlen.
  - apply Nat.ltb_lt in Hlen. split; [|split; [|split]].
    + intros Hin. apply Hfeed in Hin. lia.
    + done.
    + pose proof (split_nonempty line_feed (trim csvText)) as Hne. fold lines in Hne.
      destruct lines; simpl; [done | lia].
    + constructor.
  - apply Nat.ltb_ge in Hlen. apply Hfeed in Hlen as Hin.
    destruct (_ || _ || _)%Z eqn:Hidx.
    + split; [done|]. split; [done|]. intros Hall.
      rewrite !orb_true_iff, !Z.eqb_eq, !indexOf_text in Hidx.
      destruct Hidx as [[Hn|Hn]|Hn]; apply Hn, Hall; rewrite !elem_of_cons; auto.
    + rewrite !orb_false_iff, !Z.eqb_neq, !indexOf_text in Hidx.
      destruct Hidx as [[Hn Ha] Ht]. split; [|split; [|split]].
      * intros _ col Hcol.
        destruct (decide (col ∈ headers)) as [|Hc]; [done|]. exfalso.
        rewrite !elem_of_cons in Hcol.
        destruct Hcol as [->|[->|[->|Hcol]]]; [tauto..|by apply elem_of_nil in Hcol].
      * done.
      * match goal with |- length (omap ?f _) < _ =>
          pose proof (omap_length_le f (tail lines)) as Ho end.
        rewrite length_tl in Ho. lia.
      * apply Forall_forall. intros p Hp.
        apply list_elem_of_omap in Hp as (line & Hline & Hp).
        apply parse_row_plain in Hp; [done|].
        pose proof (split_pieces line_feed (trim csvText)) as Hls. fold lines in Hls.
        rewrite Forall_forall in Hls. apply Hls.
        destruct lines; [by apply elem_of_nil in Hline | apply elem_of_cons; auto].
Qed.

(** ** Reading back what was written *)

Lemma remove_dups_NoDup {A : Type} `{EqDecision A} (l : list A) :
  NoDup l -> remove_dups l = l.
Proof.
  induction 1 as [|x l Hx Hl IH]; simpl; [done|].
  case_decide; [done|]. by rewrite IH.
Qed.

Lemma set_elements_NoDup_id (l : list string) : NoDup l -> set_elements l = l.
Proof.
  intros Hl. unfold set_elements. rewrite remove_dups_NoDup, reverse_involutive; [done|].
  by rewrite reverse_Permutation.
Qed.

Lemma join_head (sep c : Ascii.ascii) (pieces : list text) :
  pieces <> [] -> Forall (fun p => exists rest, p = c :: rest) pieces ->
  exists rest, join sep pieces = c :: rest.
Proof.
  destruct pieces as [|p ps]; [done|]. intros _ Hall.
  apply Forall_cons in Hall as [(rest & ->) _].
  destruct ps; simpl; eauto.
Qed.

Lemma join_last (sep c : Ascii.ascii) (pieces : list text) :
  pieces <> [] -> Forall (fun p => exists rest, reverse p = c :: rest) pieces ->
  exists rest, reverse (join sep pieces) = c :: rest.
Proof.
  induction pieces as [|p ps IH]; [done|]. intros _ Hall.
  apply Forall_cons in Hall as [(rest & Hp) Hps].
  destruct ps as [|q ps]; [simpl; eauto|].
  rewrite join_cons by done. destruct IH as (rest' & E); [done..|].
  rewrite reverse_app, reverse_cons, E. simpl. eauto.
Qed.

Lemma in_quotes_head (s : text) : exists rest, in_quotes s = quote :: rest.
Proof. unfold in_quotes. simpl. eauto. Qed.

Lemma in_quotes_last (s : text) : exists rest, reverse (in_quotes s) = quote :: rest.
Proof. unfold in_quotes. rewrite !reverse_app. simpl. eauto. Qed.

Lemma csv_line_head (fields : list text) :
  fields <> [] -> exists rest, csv_line fields = quote :: rest.
Proof.
  intros Hne. apply join_head; [by destruct fields|].
  apply Forall_fmap, Forall_forall. intros f _. apply in_quotes_head.
Qed.

Lemma csv_line_last (fields : list text) :
  fields <> [] -> exists rest, reverse (csv_line fields) = quote :: rest.
Proof.
  intros Hne. apply join_last; [by destruct fields|].
  apply Forall_fmap, Forall_forall. intros f _. apply in_quotes_last.
Qed.

(** A text between quotes has no white space at its ends. *)
Lemma trim_between_quotes (s : text) :
  (exists rest, s = quote :: rest) -> (exists rest, reverse s = quote :: rest) ->
  trim s = s.
Proof.
  intros (a & Ha) (b & Hb). apply trim_id. split.
  - rewrite Ha. apply strip_white_quote.
  - rewrite Hb. apply strip_white_reverse_quote.
Qed.

Lemma csv_line_not_elem (c : Ascii.ascii) (fields : list text) :
  c <> quote -> c <> comma -> Forall (fun f => c ∉ f) fields -> c ∉ csv_line fields.
Proof.
  intros Hq Hc Hall. apply join_not_elem; [done|].
  apply Forall_fmap. eapply Forall_impl; [exact Hall|]. intros f Hf. simpl.
  unfold in_quotes. rewrite !not_elem_of_app, !not_elem_of_cons.
  repeat split; try done; apply not_elem_of_nil.
Qed.

Lemma themes_text_plain (ts : list string) :
  Forall (fun t => plain_theme (String.list_ascii_of_string t)) ts ->
  plain (join comma (String.list_ascii_of_string <$> ts))
  /\ line_feed ∉ join comma (String.list_ascii_of_string <$> ts).
Proof.
  intros Hall. split; [split|].
  - apply join_not_elem; [by vm_compute|]. apply Forall_fmap.
    eapply Forall_impl; [exact Hall|]. by intros t [[? _] _].
  - apply trim_join, Forall_fmap.
    eapply Forall_impl; [exact Hall|]. by intros t [[_ ?] _].
  - apply join_not_elem; [by vm_compute|]. apply Forall_fmap.
    eapply Forall_impl; [exact Hall|]. by intros t (_ & _ & _ & ?).
Qed.

Lemma themes_kept (ts : list string) :
  Forall (fun t => plain_theme (String.list_ascii_of_string t)) ts ->
  filter (fun u : text => u <> []) (trim <$> (String.list_ascii_of_string <$> ts))
  = String.list_ascii_of_string <$> ts.
Proof.
  induction 1 as [|u us Hu Hus IH]; [done|].
  destruct Hu as ([_ Htrim] & Hne & _). rewrite !fmap_cons, Htrim.
  rewrite filter_cons_True by done. by rewrite IH.
Qed.

Lemma themes_text (ts : list string) :
  String.string_of_list_ascii <$> (String.list_ascii_of_string <$> ts) = ts.
Proof.
  induction ts as [|t ts IH]; [done|].
  by rewrite !fmap_cons, String.string_of_list_ascii_of_string, IH.
Qed.

Lemma parse_themes_join (ts : list string) :
  NoDup ts -> Forall (fun t => plain_theme (String.list_ascii_of_string t)) ts ->
  parse_themes (join comma (String.list_ascii_of_string <$> ts)) = ts.
Proof.
  intros Hnd Hall. unfold parse_themes.
  destruct ts as [|t ts]; [by vm_compute|].
  rewrite split_join; [|done|].
  2:{ apply Forall_fmap. eapply Forall_impl; [exact Hall|]. by intros u (_ & _ & ? & _). }
  rewrite themes_kept by done. rewrite themes_text by done.
  by apply set_elements_NoDup_id.
Qed.

Lemma answer_line_plain (row : Person * text) :
  plain_row row ->
  trim (answer_line row) = answer_line row
  /\ answer_line row <> []
  /\ (line_feed ∉ answer_line row)
  /\ parseCSVLine (answer_line row)
     = [ String.list_ascii_of_string (name row.1); row.2;
         join comma (String.list_ascii_of_string <$> themes row.1) ].
Proof.
  intros (Hname & Hname' & Hatt & Hatt' & Hnd & Hall).
  destruct (themes_text_plain _ Hall) as [Hth Hth'].
  unfold answer_line. split; [|split; [|split]].
  - apply trim_between_quotes; [by apply csv_line_head | by apply csv_line_last].
  - destruct (csv_line_head [ String.list_ascii_of_string (name row.1); row.2;
         join comma (String.list_ascii_of_string <$> themes row.1) ]) as (rest & ->); done.
  - apply csv_line_not_elem; [by vm_compute..|].
    repeat (apply Forall_cons; split; [done|]). by apply Forall_nil.
  - apply (parse_csv_line _ []); [done|].
    repeat (apply Forall_cons; split; [done|]). by apply Forall_nil.
Qed.

Lemma parse_row_answer (row : Person * text) :
  plain_row row ->
  parse_row 0 1 2 (answer_line row) = if decide (coming row) then Some (parsed row.1) else None.
Proof.
  intros Hrow. destruct (answer_line_plain row Hrow) as (Htrim & Hne & _ & Hfields).
  destruct Hrow as (_ & _ & _ & _ & Hnd & Hall).
  unfold parse_row. rewrite Htrim, bool_decide_eq_false_2 by done.
  rewrite Hfields. cbn [lookup list_lookup default fmap option_fmap option_map].
  destruct (decide (coming row)) as [Hc|Hc].
  - rewrite bool_decide_eq_true_2 by (by rewrite Hc).
    unfold id. rewrite parse_themes_join by done.
    by rewrite String.string_of_list_ascii_of_string.
  - rewrite bool_decide_eq_false_2; [done|]. intros [= E]. done.
Qed.

Lemma parse_rows_answers (rows : list (Person * text)) :
  Forall plain_row rows ->
  omap (parse_row 0 1 2) (answer_line <$> rows) = parsed <$> (fst <$> filter coming rows).
Proof.
  induction 1 as [|row rows Hrow Hrows IH]; [done|]. csimpl.
  rewrite parse_row_answer by done. rewrite filter_cons.
  destruct (decide (coming row)); csimpl; by rewrite IH.
Qed.

Lemma parseCSV_for_round_trip (nameCol : text) (rows : list (Person * text)) :
  plain nameCol -> line_feed ∉ nameCol ->
  nameCol <> ATTENDING_COL -> nameCol <> THEMES_COL ->
  Forall plain_row rows ->
  parseCSV_for nameCol (csv_of nameCol rows)
  = Returns (parsed <$> (fst <$> filter coming rows)).
Proof.
  intros Hplain Hfeed Hatt Hthemes Hrows.
  assert (Forall plain [nameCol; ATTENDING_COL; THEMES_COL]) as Hcols.
  { apply Forall_cons. split; [done|]. by_evaluation. }
  assert (Forall (fun l => line_feed ∉ l) (header_line nameCol :: (answer_line <$> rows)))
    as Hlines.
  { constructor.
    - apply csv_line_not_elem; [by vm_compute..|].
      apply Forall_cons. split; [done|]. by_evaluation.
    - apply Forall_fmap.
      eapply Forall_impl; [exact Hrows|]. intros row Hrow. by apply answer_line_plain. }
  assert (trim (csv_of nameCol rows) = csv_of nameCol rows) as Htrim.
  { unfold csv_of. apply trim_between_quotes.
    - apply join_head; [done|]. constructor; [by apply csv_line_head|].
      apply Forall_fmap, Forall_forall. intros row _. by apply csv_line_head.
    - apply join_last; [done|]. constructor; [by apply csv_line_last|].
      apply Forall_fmap, Forall_forall. intros row _. by apply csv_line_last. }
  unfold parseCSV_for. cbv zeta. rewrite Htrim. unfold csv_of.
  rewrite split_join by done. cbn [length head default tail]. unfold id.
  destruct rows as [|row rows]; [done|].
  replace (S (length (answer_line <$> row :: rows)) <? 2) with false
    by (symmetry; apply Nat.ltb_ge; simpl; lia).
  replace (parseCSVLine (header_line nameCol)) with [nameCol; ATTENDING_COL; THEMES_COL]
    by (symmetry; by apply (parse_csv_line _ [])).
  unfold findIndex. cbn [findIndex_from].
  rewrite bool_decide_eq_true_2 by done.
  rewrite (bool_decide_eq_false_2 (nameCol = ATTENDING_COL)) by done.
  rewrite (bool_decide_eq_false_2 (nameCol = THEMES_COL)) by done.
  rewrite (bool_decide_eq_true_2 (ATTENDING_COL = ATTENDING_COL)) by done.
  rewrite (bool_decide_eq_false_2 (ATTENDING_COL = THEMES_COL)) by by vm_compute.
  rewrite (bool_decide_eq_true_2 (THEMES_COL = THEMES_COL)) by done.
  change (Z.of_nat 0 =? -1)%Z with false. change (Z.of_nat 1 =? -1)%Z with false.
  change (Z.of_nat 2 =? -1)%Z with false. cbn [orb].
  change (Z.to_nat (Z.of_nat 0)) with 0. change (Z.to_nat (Z.of_nat 1)) with 1.
  change (Z.to_nat (Z.of_nat 2)) with 2.
  by rewrite parse_rows_answers.
Qed.

(** X20.  The answers of a form, written as a CSV text with the three columns
    in the first line and every field between quotes, are read back by
    either version of [parseCSV] (with its name of the name column): it
    returns the participants who answered that they come, in the order
    of the text, each with their name and their themes in the order
    written.  The names and answers are free of quotes, line feeds and
    white space at their ends (a name may hold commas), and the themes
    of a participant are different from one another, not empty, and free
    of commas as well. *)
Theorem parseCSV_round_trip (rows : list (Person * text)) :
  Forall plain_row rows ->
  parseCSV (csv_of NAME_COL rows) = Returns (parsed <$> (fst <$> filter coming rows))
  /\ Legacy.parseCSV (csv_of Legacy.NAME_COL rows)
     = Returns (parsed <$> (fst <$> filter coming rows)).
Proof.
  intros Hrows.
  split; apply parseCSV_for_round_trip; try done; try by_evaluation; by vm_compute.
Qed.

Lemma parseCSV_round_trip_witness :
  Forall plain_row sample_rows
  /\ parseCSV (csv_of NAME_COL sample_rows)
     = Returns (parsed <$> (fst <$> filter coming sample_rows))
  /\ Legacy.parseCSV (csv_of Legacy.NAME_COL sample_rows)
     = Returns (parsed <$> (fst <$> filter coming sample_rows)).
Proof.
  assert (Forall plain_row sample_rows) as H by by_evaluation.
  split; [exact H | exact (parseCSV_round_trip sample_rows H)].
Defined.

(** ** The console check after the assignment *)

Lemma validate_pair_seated (people : list Person) (tables : list Table)
    (name1 name2 : string) :
  NoDup (name <$> people) -> all_seated people tables ->
  (forall p1 p2, p1 ∈ people -> p2 ∈ people -> name p1 = name1 -> name p2 = name2 ->
     together tables p1 p2) ->
  (validate_pair tables (name1, name2) = warn_not_found name1 name2
   /\ ~ (name1 ∈ name <$> people /\ name2 ∈ name <$> people))
  \/ exists t table p1 p2,
       validate_pair tables (name1, name2) = log_together name1 name2 (t + 1)
       /\ tables !! t = Some table
       /\ Seated p1 ∈ table /\ Seated p2 ∈ table
       /\ name p1 = name1 /\ name p2 = name2.
Proof.
  intros Hnames Hall Htog. unfold validate_pair.
  destruct (locate tables name1) as [[t1 s1]|] eqn:E1.
  2:{ left. split; [done|]. intros [H1 _].
      apply list_elem_of_fmap in H1 as (p & -> & Hp).
      destruct (all_seated_locate people Hnames tables p Hall Hp) as (t & s & table & E & _).
      congruence. }
  destruct (locate tables name2) as [[t2 s2]|] eqn:E2.
  2:{ left. split; [done|]. intros [_ H2].
      apply list_elem_of_fmap in H2 as (p & -> & Hp).
      destruct (all_seated_locate people Hnames tables p Hall Hp) as (t & s & table & E & _).
      congruence. }
  right.
  apply locate_Some in E1 as (p1 & Hs1 & Hn1). apply locate_Some in E2 as (p2 & Hs2 & Hn2).
  unfold seat_at in Hs1, Hs2.
  destruct (tables !! t1) as [table1|] eqn:Et1; [|done].
  destruct (tables !! t2) as [table2|] eqn:Et2; [|done]. simpl in Hs1, Hs2.
  pose proof (all_seated_person people tables t1 s1 table1 p1 Hall Et1 Hs1) as Hp1.
  pose proof (all_seated_person people tables t2 s2 table2 p2 Hall Et2 Hs2) as Hp2.
  destruct (Htog p1 p2 Hp1 Hp2 Hn1 Hn2) as (t & table & Ht & s1' & s2' & Hs1' & Hs2' & Hn).
  pose proof (all_seated_NoDup people Hnames tables Hall) as Hnd.
  destruct (NoDup_concat_position tables _ t1 t s1 s1' _ _ Hnd Et1 Hs1 Ht Hs1') as [-> ->].
  destruct (NoDup_concat_position tables _ t2 t s2 s2' _ _ Hnd Et2 Hs2 Ht Hs2') as [-> ->].
  exists t, table, p1, p2.
  rewrite bool_decide_eq_true_2 by done. cbn [negb].
  cbv zeta. unfold table_at. rewrite Ht. cbn [default]. unfold id. rewrite Hn.
  repeat split; try done; by eapply list_elem_of_lookup_2.
Qed.

(** X21.  After [assignToTables] (on a route that is a permutation, tables with
    enough seats and participants with distinct names) the check of the
    tables reports no error: for each pair of the registry it either
    logs that the two sit together, with the number of the table that
    holds both, or warns that the pair is not found, and it warns only
    when one of the two names is the name of no participant. *)
Theorem validateConstantPairs_no_error (sr : SeatingResult) (tableSizes : list nat)
    (o : list nat) :
  order sr = Some o ->
  o ≡ₚ seq 0 (length (people sr)) ->
  length (people sr) <= sum_list tableSizes ->
  NoDup (name <$> people sr) ->
  exists ta, assignToTables sr tableSizes = Ok ta
    /\ length (validateConstantPairs (tables ta)) = length CONSTANT_PAIRS_NAMES
    /\ forall k name1 name2, CONSTANT_PAIRS_NAMES !! k = Some (name1, name2) ->
         (validateConstantPairs (tables ta) !! k = Some (warn_not_found name1 name2)
          /\ ~ (name1 ∈ name <$> people sr /\ name2 ∈ name <$> people sr))
         \/ exists t table p1 p2,
              validateConstantPairs (tables ta) !! k = Some (log_together name1 name2 (t + 1))
              /\ tables ta !! t = Some table
              /\ Seated p1 ∈ table /\ Seated p2 ∈ table
              /\ name p1 = name1 /\ name p2 = name2.
Proof.
  intros Ho Hperm Hcap Hnames.
  destruct (assignToTables_valid sr tableSizes o Ho Hperm Hcap Hnames)
    as (ta & Hta & _ & Hall & Hpairs).
  exists ta. split; [done|]. unfold validateConstantPairs.
  split; [by rewrite length_fmap|].
  intros k name1 name2 Hk. rewrite list_lookup_fmap, Hk. cbn [fmap option_fmap option_map].
  destruct (validate_pair_seated (people sr) (tables ta) name1 name2 Hnames Hall)
    as [[-> Hnot]|(t & table & p1 & p2 & -> & H)].
  - intros p1 p2 Hp1 Hp2 E1 E2. eapply Hpairs; [|done..].
    by eapply list_elem_of_lookup_2.
  - by left.
  - right. by exists t, table, p1, p2.
Qed.

Lemma validateConstantPairs_no_error_witness :
  exists ta, assignToTables sample_result [2; 2] = Ok ta
    /\ length (validateConstantPairs (tables ta)) = length CONSTANT_PAIRS_NAMES
    /\ forall k name1 name2, CONSTANT_PAIRS_NAMES !! k = Some (name1, name2) ->
         (validateConstantPairs (tables ta) !! k = Some (warn_not_found name1 name2)
          /\ ~ (name1 ∈ name <$> people sample_result
                /\ name2 ∈ name <$> people sample_result))
         \/ exists t table p1 p2,
              validateConstantPairs (tables ta) !! k = Some (log_together name1 name2 (t + 1))
              /\ tables ta !! t = Some table
              /\ Seated p1 ∈ table /\ Seated p2 ∈ table
              /\ name p1 = name1 /\ name p2 = name2.
Proof.
  apply (validateConstantPairs_no_error sample_result [2; 2] [1; 0; 2; 3]).
  - reflexivity.
  - apply sample_order_Permutation.
  - simpl. lia.
  - apply sample_names_NoDup.
Defined.

(** ** The two versions of the module *)

Lemma at_index_nat {A : Type} (l : list A) (k : nat) :
  Legacy.at_index l (Z.of_nat k) = l !! k.
Proof.
  unfold Legacy.at_index. destruct (Z.ltb_spec (Z.of_nat k) 0); [lia|].
  by rewrite Nat2Z.id.
Qed.

Lemma legacy_mat_get_nat (distMatrix : Matrix) (a b : nat) :
  Legacy.mat_get distMatrix (Z.of_nat a) (Z.of_nat b) = mat_get distMatrix a b.
Proof.
  unfold Legacy.mat_get, mat_get. rewrite at_index_nat.
  destruct (distMatrix !! a); [|done]. by rewrite at_index_nat.
Qed.

Lemma rmap_Ok {A B : Type} (f : A -> B) (a : A) : rmap f (Ok a) = Ok (f a).
Proof. done. Qed.

Lemma foldlM_sim {A S T : Type} (f : S -> A -> result S) (g : T -> A -> result T)
    (h : S -> T) (l : list A) (s : S) :
  (forall s x, x ∈ l -> g (h s) x = rmap h (f s x)) ->
  foldlM g (h s) l = rmap h (foldlM f s l).
Proof.
  revert s. induction l as [|x l IH]; intros s Hstep; simpl; [done|].
  rewrite Hstep by (apply elem_of_cons; auto).
  destruct (f s x) as [s'|e]; simpl; [|done].
  apply IH. intros s0 y Hy. apply Hstep, elem_of_cons. auto.
Qed.

Lemma for_first_sim {A B C : Type} (f : A -> result (option B))
    (g : A -> result (option C)) (h : B -> C) (l : list A) :
  (forall x, x ∈ l -> g x = rmap (fmap h) (f x)) ->
  for_first g l = rmap (fmap h) (for_first f l).
Proof.
  induction l as [|x l IH]; intros Hstep; simpl; [done|].
  rewrite Hstep by (apply elem_of_cons; auto).
  destruct (f x) as [[b|]|e]; simpl; [done| |done].
  apply IH. intros y Hy. apply Hstep, elem_of_cons. auto.
Qed.

(** *** The route constructor *)

Section constructor.
Variable distMatrix : Matrix.
Variable people : list Person.
Variable n : nat.
Variable visited : gset nat.
Variable visitedZ : gset Z.
Hypothesis Hvisited : forall j : nat, Z.of_nat j ∈ visitedZ <-> j ∈ visited.

Lemma scan_common_sim (current : nat) (st : Scan) (j : nat) :
  Legacy.scan_common distMatrix people visitedZ (Z.of_nat current) (as_state st) j
  = rmap as_state (scan_common distMatrix people visited current st j).
Proof.
  unfold Legacy.scan_common, scan_common.
  rewrite (bool_decide_ext _ _ (Hvisited j)).
  case_bool_decide; [done|]. rewrite at_index_nat.
  destruct (hasCommonThemes _ _) as [[|]|e]; simpl; [|done..].
  rewrite legacy_mat_get_nat. destruct (mat_get _ _ _) as [d|e]; simpl; [|done].
  by destruct (num_lt d st.2).
Qed.

Lemma scan_nearest_sim (current : nat) (st : Scan) (j : nat) :
  Legacy.scan_nearest distMatrix visitedZ (Z.of_nat current) (as_state st) j
  = rmap as_state (scan_nearest distMatrix visited current st j).
Proof.
  unfold Legacy.scan_nearest, scan_nearest.
  rewrite (bool_decide_ext _ _ (Hvisited j)).
  case_bool_decide; [done|].
  rewrite legacy_mat_get_nat. destruct (mat_get _ _ _) as [d|e]; simpl; [|done].
  by destruct (num_lt d st.2).
Qed.

Lemma choose_next_sim (current : nat) :
  Legacy.choose_next distMatrix people n visitedZ (Z.of_nat current)
  = rmap (fun st : Scan => from_option Z.of_nat (-1)%Z st.1)
      (scan_priorities distMatrix people n visited current).
Proof.
  unfold Legacy.choose_next, scan_priorities.
  change ((-1)%Z, Infinity) with (as_state (None, Infinity)).
  rewrite (foldlM_sim _ _ as_state) by (intros; apply scan_common_sim).
  destruct (foldlM _ _ _) as [st|e]; simpl; [|done].
  destruct st.1 as [j|] eqn:E; simpl.
  - destruct (Z.eqb_spec (Z.of_nat j) (-1)); [lia|]. simpl. by rewrite E.
  - rewrite (foldlM_sim _ _ as_state) by (intros; apply scan_nearest_sim).
    by destruct (foldlM _ _ _).
Qed.

Lemma scan_common_sound (current : nat) (st st' : Scan) (j : nat) :
  scan_sound visited st -> scan_common distMatrix people visited current st j = Ok st' ->
  scan_sound visited st' /\ (st.1 <> None -> st'.1 <> None).
Proof.
  unfold scan_common. intros Hst. case_bool_decide as Hv; [by intros [= <-]|].
  destruct (hasCommonThemes _ _) as [[|]|e]; simpl; [|by intros [= <-]|done].
  destruct (mat_get _ _ _) as [d|e]; simpl; [|done].
  destruct (num_lt d st.2); intros [= <-]; done.
Qed.

Lemma scan_nearest_sound (current : nat) (st st' : Scan) (j : nat) :
  scan_sound visited st -> scan_nearest distMatrix visited current st j = Ok st' ->
  scan_sound visited st' /\ (st.1 <> None -> st'.1 <> None).
Proof.
  unfold scan_nearest. intros Hst. case_bool_decide as Hv; [by intros [= <-]|].
  destruct (mat_get _ _ _) as [d|e]; simpl; [|done].
  destruct (num_lt d st.2); intros [= <-]; done.
Qed.

Lemma scan_fold_sound (body : Scan -> nat -> result Scan) (l : list nat) (st st' : Scan) :
  (forall s s' j, scan_sound visited s -> body s j = Ok s' ->
     scan_sound visited s' /\ (s.1 <> None -> s'.1 <> None)) ->
  scan_sound visited st -> foldlM body st l = Ok st' ->
  scan_sound visited st' /\ (st.1 <> None -> st'.1 <> None).
Proof.
  intros Hbody. revert st. induction l as [|j l IH]; intros st Hst; simpl.
  - by intros [= <-].
  - destruct (body st j) as [s|e] eqn:E; simpl; [|done]. intros Hf.
    destruct (Hbody _ _ _ Hst E) as [Hs Hkeep].
    destruct (IH s Hs Hf) as [Hs' Hkeep']. auto.
Qed.

(** The second loop finds an index when one is left and the row of the
    current index has an entry for it. *)
Lemma scan_nearest_finds (current : nat) (l : list nat) (st st' : Scan) :
  full_rows distMatrix -> Forall (fun j => j < length distMatrix) l ->
  (exists j, j ∈ l /\ j ∉ visited) ->
  scan_sound visited st ->
  foldlM (scan_nearest distMatrix visited current) st l = Ok st' ->
  st'.1 <> None.
Proof.
  intros Hrows. revert st.
  induction l as [|x l IH]; intros st Hl (j & Hj & Hfree) Hst; simpl.
  { by apply elem_of_nil in Hj. }
  apply Forall_cons in Hl as [Hx Hl].
  destruct (scan_nearest distMatrix visited current st x) as [s|e] eqn:E; simpl; [|done].
  intros Hf. destruct (scan_nearest_sound _ _ _ _ Hst E) as [Hs Hkeep].
  destruct (decide (s.1 = None)) as [Hnone|Hsome].
  - apply (IH s); [done| |done|done].
    apply elem_of_cons in Hj as [->|Hj]; [|eauto]. exfalso.
    unfold scan_nearest in E. rewrite bool_decide_eq_false_2 in E by done.
    unfold mat_get in E. destruct (distMatrix !! current) as [row|] eqn:Er; [|done].
    simpl in E. unfold full_rows in Hrows. rewrite Forall_forall in Hrows.
    assert (length distMatrix <= length row) as Hrow
      by (apply Hrows; by eapply list_elem_of_lookup_2).
    destruct (lookup_lt_is_Some_2 row x) as [q Hq]; [lia|]. rewrite Hq in E. simpl in E.
    unfold scan_sound in Hst. destruct st.1 eqn:E1.
    + by apply Hkeep.
    + rewrite Hst in E. simpl in E. by simplify_eq.
  - destruct (scan_fold_sound _ l s st' (scan_nearest_sound current) Hs Hf) as [_ Hk].
    auto.
Qed.

Lemma scan_priorities_finds (current : nat) (st : Scan) :
  full_rows distMatrix -> n = length distMatrix ->
  (exists j, j < n /\ j ∉ visited) ->
  scan_priorities distMatrix people n visited current = Ok st ->
  exists next, st.1 = Some next /\ next ∉ visited.
Proof.
  intros Hrows Hn (j & Hj & Hfree). unfold scan_priorities.
  destruct (foldlM (scan_common _ _ _ _) _ _) as [s|e] eqn:E; simpl; [|done].
  destruct (scan_fold_sound _ _ _ _ (scan_common_sound current) (eq_refl : scan_sound visited (None, Infinity)) E)
    as [Hs _].
  destruct s.1 as [next|] eqn:E1.
  - intros [= <-]. exists next. split; [done|]. unfold scan_sound in Hs. by rewrite E1 in Hs.
  - intros Hf.
    pose proof (scan_nearest_finds current (seq 0 n) s st Hrows) as Hfound.
    destruct (scan_fold_sound _ _ _ _ (scan_nearest_sound current) Hs Hf) as [Hst _].
    unfold scan_sound in Hst. destruct st.1 as [next|] eqn:E2.
    + eauto.
    + exfalso. apply Hfound; [|exists j; split; [apply elem_of_seq; lia | done]|done..].
      apply Forall_forall. intros x Hx. apply elem_of_seq in Hx. lia.
Qed.
End constructor.

Lemma unvisited_left (n : nat) (route : list nat) (visited : gset nat) :
  (forall x, x ∈ visited <-> x ∈ route) -> length route < n ->
  exists j, j < n /\ j ∉ visited.
Proof.
  intros Hvis Hlen.
  destruct (decide (Forall (fun j => j ∈ visited) (seq 0 n))) as [Hall|Hex].
  - exfalso. rewrite Forall_forall in Hall.
    assert (seq 0 n ⊆+ route) as Hsub.
    { apply NoDup_submseteq; [apply NoDup_seq|]. intros j Hj. by apply Hvis, Hall. }
    apply submseteq_length in Hsub. rewrite length_seq in Hsub. lia.
  - apply not_Forall_Exists in Hex; [|apply _].
    apply Exists_exists in Hex as (j & Hj & Hfree).
    exists j. apply elem_of_seq in Hj. split; [lia | done].
Qed.

Lemma nn_loop_sim (distMatrix : Matrix) (people : list Person) (n k : nat)
    (route : list nat) (visited : gset nat) (visitedZ : gset Z) (current : nat) :
  full_rows distMatrix -> n = length distMatrix ->
  (forall j : nat, Z.of_nat j ∈ visitedZ <-> j ∈ visited) ->
  (forall x, x ∈ visited <-> x ∈ route) ->
  k = n - length route ->
  Legacy.nn_loop k distMatrix people n (as_integers route) visitedZ (Z.of_nat current)
  = rmap as_integers (nn_loop k distMatrix people [] n route visited current).
Proof.
  intros Hrows Hn. revert route visited visitedZ current.
  induction k as [|k IH]; intros route visited visitedZ current HvisZ Hvis Hk; simpl; [done|].
  rewrite (choose_next_sim distMatrix people n visited visitedZ HvisZ).
  unfold choose_next. cbn [map_get].
  destruct (scan_priorities distMatrix people n visited current) as [st|e] eqn:E; simpl; [|done].
  destruct (scan_priorities_finds distMatrix people n visited current st Hrows Hn)
    as (next & E1 & Hfree); [|done|].
  { apply (unvisited_left n route); [done | lia]. }
  rewrite E1. simpl.
  replace (as_integers route ++ [Z.of_nat next]) with (as_integers (route ++ [next]))
    by (unfold as_integers; by rewrite fmap_app).
  apply IH.
  - intros j. rewrite !elem_of_union, !elem_of_singleton, HvisZ.
    split; (intros [Hj|Hj]; [left; lia | by right]).
  - intros x. rewrite elem_of_union, elem_of_singleton, elem_of_app, list_elem_of_singleton.
    rewrite Hvis. tauto.
  - rewrite length_app. simpl. lia.
Qed.

Lemma legacy_nearestNeighbor_sim (distMatrix : Matrix) (people : list Person)
    (startIdx : nat) :
  full_rows distMatrix ->
  Legacy.nearestNeighborWithCommonThemes distMatrix people startIdx
  = rmap as_integers (nearestNeighborWithCommonThemes distMatrix people [] startIdx).
Proof.
  intros Hrows. unfold Legacy.nearestNeighborWithCommonThemes, nearestNeighborWithCommonThemes.
  cbv zeta.
  apply (nn_loop_sim distMatrix people (length distMatrix) _ [startIdx]); try done.
  - intros j. rewrite !elem_of_singleton. lia.
  - intros x. by rewrite elem_of_singleton, list_elem_of_singleton.
Qed.

(** X22.  For a matrix whose rows have an entry for every row, the route
    constructor of the version without the pair registry returns what
    the constructor of the later version returns for an empty pair map,
    or throws as it does: it finds a next index whenever the later version
    does, so it never pushes -1, and the fallback loop and the [break] of
    the later version are never used. *)
Theorem legacy_nearestNeighbor_agrees (distMatrix : Matrix) (people : list Person)
    (startIdx : nat) :
  full_rows distMatrix ->
  Legacy.nearestNeighborWithCommonThemes distMatrix people startIdx
  = rmap (fun route => Z.of_nat <$> route)
      (nearestNeighborWithCommonThemes distMatrix people [] startIdx).
Proof. apply legacy_nearestNeighbor_sim. Qed.

Lemma legacy_nearestNeighbor_agrees_witness :
  full_rows pinned_matrix
  /\ Legacy.nearestNeighborWithCommonThemes pinned_matrix pinned_people 2
     = rmap (fun route => Z.of_nat <$> route)
         (nearestNeighborWithCommonThemes pinned_matrix pinned_people [] 2).
Proof.
  assert (full_rows pinned_matrix) as H by by_evaluation.
  split; [exact H | exact (legacy_nearestNeighbor_agrees pinned_matrix pinned_people 2 H)].
Defined.

(** *** 2-opt *)

Lemma as_integers_lookup (route : list nat) (k : nat) :
  as_integers route !! k = Z.of_nat <$> route !! k.
Proof. apply list_lookup_fmap. Qed.

Lemma legacy_route_at (route : list nat) (k : nat) :
  Legacy.route_at (as_integers route) k = rmap Z.of_nat (route_at route k).
Proof.
  unfold Legacy.route_at, route_at. rewrite as_integers_lookup.
  by destruct (route !! k).
Qed.

Lemma legacy_route_before (route : list nat) (i : nat) :
  Legacy.route_before (as_integers route) i = rmap Z.of_nat (route_before route i).
Proof. destruct i; [done|]. apply legacy_route_at. Qed.

Lemma legacy_reverse_segment (route : list nat) (i j : nat) :
  Legacy.reverse_segment (as_integers route) i j = as_integers (reverse_segment route i j).
Proof.
  unfold Legacy.reverse_segment, reverse_segment, splice, as_integers.
  by rewrite !fmap_app, fmap_reverse, !fmap_take, !fmap_drop.
Qed.

Lemma legacy_try_move (distMatrix : Matrix) (people : list Person)
    (route : list nat) (i j : nat) :
  Legacy.try_move distMatrix people (as_integers route) i j
  = rmap (fmap as_integers) (try_move distMatrix people [] route i j).
Proof.
  unfold Legacy.try_move, try_move, wouldBreakConstantPair. cbn [existsb].
  rewrite legacy_route_before, !legacy_route_at.
  destruct (route_before route i) as [a|e]; simpl; [|done].
  destruct (route_at route i) as [b|e]; simpl; [|done].
  destruct (route_at route j) as [c|e]; simpl; [|done].
  destruct (route_at route (j + 1)) as [d|e]; simpl; [|done].
  rewrite !legacy_mat_get_nat.
  destruct (mat_get distMatrix a b) as [ab|e]; simpl; [|done].
  destruct (mat_get distMatrix c d) as [cd|e]; simpl; [|done].
  destruct (mat_get distMatrix a c) as [ac|e]; simpl; [|done].
  destruct (mat_get distMatrix b d) as [bd|e]; simpl; [|done].
  destruct (num_lt (num_add ac bd) (num_add ab cd)); [|done].
  rewrite !at_index_nat.
  destruct (hasCommonThemes (people !! a) (people !! c)) as [left|e]; simpl; [|done].
  destruct (hasCommonThemes (people !! b) (people !! d)) as [right|e]; simpl; [|done].
  destruct (num_lt _ _); [|done]. simpl. by rewrite legacy_reverse_segment.
Qed.

Lemma legacy_twoOpt_pass (distMatrix : Matrix) (people : list Person) (route : list nat) :
  Legacy.twoOpt_pass distMatrix people (as_integers route)
  = rmap (fmap as_integers) (twoOpt_pass distMatrix people [] route).
Proof.
  unfold Legacy.twoOpt_pass, twoOpt_pass. cbv zeta.
  unfold as_integers at 2 3. rewrite length_fmap.
  apply for_first_sim. intros i _.
  apply for_first_sim. intros j _. apply legacy_try_move.
Qed.

Lemma legacy_twoOpt_sim (fuel : nat) (distMatrix : Matrix) (people : list Person)
    (route : list nat) :
  Legacy.twoOpt fuel distMatrix people (as_integers route)
  = rmap as_integers (twoOpt fuel distMatrix people [] route).
Proof.
  revert route. induction fuel as [|fuel IH]; intros route; simpl; [done|].
  rewrite legacy_twoOpt_pass.
  destruct (twoOpt_pass distMatrix people [] route) as [[route'|]|e]; simpl; [|done..].
  apply IH.
Qed.

(** X23.  On a route of indices that are not negative, [twoOpt] of the version
    without the pair registry does what [twoOpt] of the later version
    does for an empty pair map: with the same fuel it returns the same
    route, throws the same error or runs out of fuel alike. *)
Theorem legacy_twoOpt_agrees (fuel : nat) (distMatrix : Matrix) (people : list Person)
    (route : list nat) :
  Legacy.twoOpt fuel distMatrix people (Z.of_nat <$> route)
  = rmap (fun route' => Z.of_nat <$> route') (twoOpt fuel distMatrix people [] route).
Proof. apply legacy_twoOpt_sim. Qed.

(** *** Scores *)

Lemma foldlM_ext {A S : Type} (f g : S -> A -> result S) (l : list A) (s : S) :
  (forall s x, g s x = f s x) -> foldlM g s l = foldlM f s l.
Proof.
  intros Hstep. revert s. induction l as [|x l IH]; intros s; simpl; [done|].
  rewrite Hstep. destruct (f s x); simpl; auto.
Qed.

Lemma legacy_person_at (people : list Person) (route : list nat) (k : nat) :
  as_integers route !! k ≫= Legacy.at_index people = route !! k ≫= (people !!.).
Proof.
  rewrite as_integers_lookup. destruct (route !! k); simpl; [|done]. apply at_index_nat.
Qed.

Lemma legacy_poor_at (route : list nat) (people : list Person) (i : nat) :
  Legacy.poor_at (as_integers route) people i = poor_at route people i.
Proof.
  unfold Legacy.poor_at, poor_at. cbv zeta. rewrite !legacy_person_at.
  unfold as_integers at 1. by rewrite length_fmap.
Qed.

Lemma legacy_countPoorConnections (route : list nat) (people : list Person) :
  Legacy.countPoorConnections (as_integers route) people = countPoorConnections route people.
Proof.
  unfold Legacy.countPoorConnections, countPoorConnections.
  unfold as_integers at 2. rewrite length_fmap.
  apply foldlM_ext. intros s i. by rewrite legacy_poor_at.
Qed.

Lemma legacy_calculateTotalCost (route : list nat) (distMatrix : Matrix) :
  Legacy.calculateTotalCost (as_integers route) distMatrix = calculateTotalCost route distMatrix.
Proof.
  unfold Legacy.calculateTotalCost, calculateTotalCost.
  unfold as_integers at 3. rewrite length_fmap.
  apply foldlM_ext. intros s i. rewrite !legacy_route_at.
  destruct (route_at route i) as [a|e]; simpl; [|done].
  destruct (route_at route (i + 1)) as [b|e]; simpl; [|done].
  by rewrite legacy_mat_get_nat.
Qed.

Lemma legacy_route_score (optimizationMode : OptimizationMode) (route : list nat)
    (distMatrix : Matrix) (people : list Person) :
  Legacy.route_score optimizationMode (as_integers route) distMatrix people
  = route_score optimizationMode route distMatrix people.
Proof.
  destruct optimizationMode; simpl;
    [by rewrite legacy_countPoorConnections | apply legacy_calculateTotalCost].
Qed.

(** *** The driver *)

Lemma no_pair_findConstantPairs (people : list Person) :
  no_pair people -> findConstantPairs people = [].
Proof.
  unfold no_pair, findConstantPairs, findConstantPairs_in.
  generalize CONSTANT_PAIRS_NAMES. intros pairs Hall.
  induction Hall as [|[name1 name2] pairs Hpr Hall IH]; [done|]. cbn [fold_left].
  replace (negb (findIndex (name_is name1) people =? -1)%Z
           && negb (findIndex (name_is name2) people =? -1)%Z) with false; [done|].
  symmetry. apply andb_false_iff. rewrite !negb_false_iff, !Z.eqb_eq.
  unfold findIndex. rewrite !findIndex_from_none. simpl in Hpr.
  destruct (decide (name1 ∈ name <$> people)) as [H1|H1].
  - right. intros p Hp. apply bool_decide_eq_false_2. intros E. apply Hpr. split; [done|].
    apply list_elem_of_fmap. eauto.
  - left. intros p Hp. apply bool_decide_eq_false_2. intros E. apply H1.
    apply list_elem_of_fmap. eauto.
Qed.

Lemma legacy_createDistanceMatrix (people : list Person)
    (distanceFunc : list string -> list string -> Q) :
  Legacy.createDistanceMatrix people distanceFunc
  = createDistanceMatrix people distanceFunc [].
Proof. done. Qed.

Lemma createDistanceMatrix_full_rows (people : list Person)
    (distanceFunc : list string -> list string -> Q) (constantPairs : JsMap) :
  full_rows (createDistanceMatrix people distanceFunc constantPairs).
Proof.
  destruct (createDistanceMatrix_square people distanceFunc constantPairs) as [Hlen Hrows].
  unfold full_rows. rewrite Hlen. eapply Forall_impl; [exact Hrows|].
  intros row Hrow. simpl in Hrow. lia.
Qed.

Lemma legacy_attempt_result (fuel : nat) (distMatrix : Matrix) (people : list Person)
    (optimizationMode : OptimizationMode) (startIdx : nat) :
  full_rows distMatrix ->
  Legacy.attempt_result fuel distMatrix people optimizationMode startIdx
  = rmap (fun r : list nat * number => (as_integers r.1, r.2))
      (attempt_result fuel distMatrix people [] optimizationMode startIdx).
Proof.
  intros Hrows. unfold Legacy.attempt_result, attempt_result, attempt_order.
  rewrite legacy_nearestNeighbor_sim by done.
  destruct (nearestNeighborWithCommonThemes _ _ _ _) as [order|e]; simpl; [|done].
  rewrite legacy_twoOpt_sim.
  destruct (twoOpt _ _ _ _ _) as [order'|e]; simpl; [|done].
  unfold enforceConstantPairs. cbn [length]. rewrite decide_True by done.
  rewrite legacy_route_score.
  by destruct (route_score _ _ _ _).
Qed.

Lemma legacy_attempt_body (fuel : nat) (random : nat -> Q) (distMatrix : Matrix)
    (people : list Person) (optimizationMode : OptimizationMode) (best : Best)
    (attempt : nat) :
  full_rows distMatrix ->
  Legacy.attempt_body fuel random distMatrix people optimizationMode (as_best best) attempt
  = rmap as_best (attempt_body fuel random distMatrix people [] optimizationMode best attempt).
Proof.
  intros Hrows. unfold Legacy.attempt_body, attempt_body. cbv zeta.
  rewrite legacy_attempt_result by done.
  destruct (attempt_result _ _ _ _ _ _) as [r|e]; simpl; [|done].
  by destruct (num_lt r.2 (bestOverallScore best)).
Qed.

(** X24.  When no pair of the registry has both its names among the
    participants, the later version of [optimizeSeating] does what the
    version without the registry does: for the same values of
    [Math.random()] and the same fuel, both return the same order, score
    and participants after the same calls to [onProgress], or both throw
    the same error. *)
Theorem legacy_optimizeSeating_agrees (fuel : nat) (random : nat -> Q)
    (people : list Person) (attempts : nat)
    (distanceFunction : DistanceFunction) (optimizationMode : OptimizationMode) :
  no_pair people ->
  Legacy.optimizeSeating fuel random people attempts distanceFunction optimizationMode
  = rmap (fun r : SeatingResult * list (nat * number) => (as_legacy r.1, r.2))
      (optimizeSeating fuel random people attempts distanceFunction optimizationMode).
Proof.
  intros Hno. unfold Legacy.optimizeSeating, optimizeSeating. cbv zeta.
  rewrite (no_pair_findConstantPairs people Hno), legacy_createDistanceMatrix.
  change (Legacy.mkBest None Infinity []) with (as_best (mkBest None Infinity [])).
  rewrite (foldlM_sim
             (attempt_body fuel random
                (createDistanceMatrix people (getDistanceFunction distanceFunction) [])
                people [] optimizationMode) _ as_best).
  2:{ intros s x _. apply legacy_attempt_body, createDistanceMatrix_full_rows. }
  destruct (foldlM _ _ _) as [best|e]; simpl; [|done].
  destruct (bestOverallOrder best) as [o|]; simpl; [|done].
  unfold enforceConstantPairs. cbn [length]. by rewrite decide_True.
Qed.

Lemma legacy_optimizeSeating_agrees_witness :
  no_pair guests
  /\ Legacy.optimizeSeating 10 sample_random guests 3 commonality poor_connections
     = rmap (fun r : SeatingResult * list (nat * number) => (as_legacy r.1, r.2))
         (optimizeSeating 10 sample_random guests 3 commonality poor_connections).
Proof.
  assert (no_pair guests) as H by by_evaluation.
  split; [exact H|].
  exact (legacy_optimizeSeating_agrees 10 sample_random guests 3 commonality
           poor_connections H).
Defined.

(** *** The tables *)

Lemma legacy_fill_side (k : nat) (people : list Person) (order : list nat)
    (personIdx : nat) (side : list Seat) :
  Legacy.fill_side k people (as_integers order) personIdx side
  = fill_side k people order personIdx side.
Proof.
  revert personIdx side. induction k as [|k IH]; intros personIdx side; simpl; [done|].
  rewrite as_integers_lookup. destruct (order !! personIdx) as [o|]; simpl; [|done].
  by rewrite at_index_nat, IH.
Qed.

Lemma legacy_fill_table (people : list Person) (order : list nat)
    (personIdx seatsPerTable : nat) :
  Legacy.fill_table people (as_integers order) personIdx seatsPerTable
  = fill_table people order personIdx seatsPerTable.
Proof.
  unfold Legacy.fill_table, fill_table. cbv zeta. rewrite legacy_fill_side.
  destruct (fill_side _ _ _ _ _) as [leftSeats p]. by rewrite legacy_fill_side.
Qed.

Lemma legacy_fill_tables (people : list Person) (order : list nat)
    (personIdx : nat) (tableSizes : list nat) :
  Legacy.fill_tables people (as_integers order) personIdx tableSizes
  = fill_tables people order personIdx tableSizes.
Proof.
  revert personIdx. induction tableSizes as [|s rest IH]; intros personIdx; simpl; [done|].
  rewrite legacy_fill_table. destruct (fill_table _ _ _ _) as [table p]. by rewrite IH.
Qed.

(** X25.  When no pair of the registry has both its names among the
    participants, the later version of [assignToTables] returns the
    tables and statistics the version without the registry returns, and
    throws when it throws: the repair of the tables changes nothing. *)
Theorem legacy_assignToTables_agrees (sr : SeatingResult) (tableSizes : list nat) :
  no_pair (people sr) ->
  assignToTables sr tableSizes
  = Legacy.assignToTables (as_legacy sr) tableSizes.
Proof.
  intros Hno. unfold Legacy.assignToTables, assignToTables, as_legacy. cbv zeta.
  cbn [Legacy.order Legacy.people].
  pose proof (no_pair_findConstantPairs _ Hno) as Hnone.
  destruct (order sr) as [o|]; simpl.
  - by rewrite legacy_fill_tables, finish_assignment_plain.
  - destruct (forallb _ _); [|done].
    change (@nil Z) with (as_integers []).
    by rewrite legacy_fill_tables, finish_assignment_plain.
Qed.

Lemma legacy_assignToTables_agrees_witness :
  no_pair guests
  /\ assignToTables (mkSeatingResult (Some [3; 1; 0; 2; 4]) (Fin 0) guests) [4; 3]
     = Legacy.assignToTables
         (as_legacy (mkSeatingResult (Some [3; 1; 0; 2; 4]) (Fin 0) guests)) [4; 3].
Proof.
  assert (no_pair guests) as H by by_evaluation.
  split; [exact H|].
  exact (legacy_assignToTables_agrees
           (mkSeatingResult (Some [3; 1; 0; 2; 4]) (Fin 0) guests) [4; 3] H).
Defined.

(** ** The sizes of the tables *)

Lemma totalSeats_snoc (tableSizes : list nat) (size : nat) :
  App.totalSeats (tableSizes ++ [size]) = App.totalSeats tableSizes + size.
Proof. unfold App.totalSeats. by rewrite foldl_snoc. Qed.

Lemma removeTable_keep (index : nat) (tableSizes : list nat) (k : nat) :
  k + length tableSizes <= index ->
  omap id (imap (fun i size => if bool_decide (k + i <> index) then Some size else None)
             tableSizes) = tableSizes.
Proof.
  revert k. induction tableSizes as [|s l IH]; intros k Hlen; [done|].
  simpl in Hlen. rewrite imap_cons. csimpl.
  rewrite bool_decide_eq_true_2 by lia. simpl. f_equal.
  rewrite <- (IH (S k)) at 2 by lia. f_equal.
  apply imap_ext. intros i x _. simpl.
  apply (f_equal (fun b : bool => if b then Some x else None)).
  apply bool_decide_ext. lia.
Qed.

Lemma removeTable_last (tableSizes : list nat) (size : nat) :
  App.removeTable (length tableSizes) (tableSizes ++ [size]) = tableSizes.
Proof.
  unfold App.removeTable. rewrite imap_app, omap_app. simpl.
  rewrite bool_decide_eq_false_2 by lia. simpl. rewrite app_nil_r.
  apply (removeTable_keep (length tableSizes) tableSizes 0). lia.
Qed.

(** X26.  [addTable] adds one table with the seats that are missing, and an
    empty one when there are seats enough: afterwards the seats are the
    larger of the number of participants and the seats before, so
    [handleOptimize] does not refuse the sizes for want of seats, and a
    second table added is empty; removing the added table gives the sizes
    back. *)
Theorem addTable_makes_room (numberOfPeople : nat) (tableSizes : list nat) :
  App.totalSeats (App.addTable numberOfPeople tableSizes)
  = Nat.max numberOfPeople (App.totalSeats tableSizes)
  /\ numberOfPeople <= App.totalSeats (App.addTable numberOfPeople tableSizes)
  /\ App.addTable numberOfPeople (App.addTable numberOfPeople tableSizes)
     = App.addTable numberOfPeople tableSizes ++ [0]
  /\ App.removeTable (length tableSizes) (App.addTable numberOfPeople tableSizes)
     = tableSizes.
Proof.
  assert (App.totalSeats (App.addTable numberOfPeople tableSizes)
          = Nat.max numberOfPeople (App.totalSeats tableSizes)) as Hroom.
  { unfold App.addTable. cbv zeta. rewrite totalSeats_snoc.
    destruct (Z.ltb_spec 0 (Z.of_nat numberOfPeople - Z.of_nat (App.totalSeats tableSizes))); lia. }
  split; [done|]. split; [|split].
  - rewrite Hroom. lia.
  - unfold App.addTable at 1. cbv zeta. rewrite Hroom.
    destruct (Z.ltb_spec 0 (Z.of_nat numberOfPeople
                            - Z.of_nat (Nat.max numberOfPeople (App.totalSeats tableSizes))));
      [lia | done].
  - apply removeTable_last.
Qed.

(** ** The place cards *)

Lemma table_cards_from (tableIdx k : nat) (table : Table) :
  let cards :=
    omap id
      (imap (fun seatIdx seat =>
               match seat with
               | Seated p => Some (SeatCards.mkPlaceCard (Some p) (tableIdx + 1) (k + seatIdx + 1))
               | Undefined => Some (SeatCards.mkPlaceCard None (tableIdx + 1) (k + seatIdx + 1))
               | Null => None
               end) table) in
  cards_ordered cards
  /\ forall c, c ∈ cards <->
       exists s seat, table !! s = Some seat /\ seat <> Null
         /\ c = SeatCards.mkPlaceCard (card_person seat) (tableIdx + 1) (k + s + 1).
Proof.
  revert k. induction table as [|seat0 table IH]; intros k; cbv zeta.
  { split; [done|]. intros c. split; [by intros H%elem_of_nil | by intros (s & seat & H & _)]. }
  rewrite imap_cons.
  rewrite (imap_ext _ (fun seatIdx seat =>
               match seat with
               | Seated p => Some (SeatCards.mkPlaceCard (Some p) (tableIdx + 1) (S k + seatIdx + 1))
               | Undefined => Some (SeatCards.mkPlaceCard None (tableIdx + 1) (S k + seatIdx + 1))
               | Null => None
               end)).
  2:{ intros i x _. simpl. destruct x; try done; do 2 f_equal; lia. }
  destruct (IH (S k)) as [Hord Hin]. clear IH.
  set (rest := omap id (imap _ table)) in *.
  assert (forall c, c ∈ rest ->
            SeatCards.tableNumber c = tableIdx + 1 /\ k + 1 < SeatCards.position c) as Hlater.
  { intros c Hc. apply Hin in Hc as (s & seat & _ & _ & ->). simpl. lia. }
  assert (forall c, (exists s seat, (seat0 :: table) !! s = Some seat /\ seat <> Null
              /\ c = SeatCards.mkPlaceCard (card_person seat) (tableIdx + 1) (k + s + 1))
            <-> (seat0 <> Null
                 /\ c = SeatCards.mkPlaceCard (card_person seat0) (tableIdx + 1) (k + 0 + 1))
                \/ c ∈ rest) as Hsplit.
  { intros c. rewrite Hin. split.
    - intros (s & seat & Hs & Hne & ->). destruct s as [|s]; simpl in Hs.
      + injection Hs as <-. by left.
      + right. exists s, seat. repeat split; try done. f_equal. lia.
    - intros [[Hne ->]|(s & seat & Hs & Hne & ->)].
      + by exists 0, seat0.
      + exists (S s), seat. repeat split; try done. f_equal. lia. }
  csimpl. destruct seat0 as [p| |]; csimpl.
  - split.
    + split; [|done]. apply Forall_forall. intros c Hc.
      destruct (Hlater c Hc) as [Ht Hp]. right. simpl. split; [done | lia].
    + intros c. rewrite Hsplit, elem_of_cons. simpl.
      split.
      * intros [->|Hc]; [left; split; [done|]; f_equal; lia | by right].
      * intros [[_ ->]|Hc]; [left; f_equal; lia | by right].
  - split; [done|]. intros c. rewrite Hsplit. split; [by right|]. by intros [[? _]|?].
  - split.
    + split; [|done]. apply Forall_forall. intros c Hc.
      destruct (Hlater c Hc) as [Ht Hp]. right. simpl. split; [done | lia].
    + intros c. rewrite Hsplit, elem_of_cons. simpl. split.
      * intros [->|Hc]; [left; split; [done|]; f_equal; lia | by right].
      * intros [[_ ->]|Hc]; [left; f_equal; lia | by right].
Qed.

Lemma cards_ordered_app (l1 l2 : list SeatCards.PlaceCard) :
  cards_ordered l1 -> cards_ordered l2 ->
  (forall a b, a ∈ l1 -> b ∈ l2 -> card_before a b) ->
  cards_ordered (l1 ++ l2).
Proof.
  induction l1 as [|a l1 IH]; intros H1 H2 Hb; [done|]. destruct H1 as [Ha H1].
  simpl. split.
  - apply Forall_app. split; [done|]. apply Forall_forall. intros b Hin.
    apply Hb; [apply elem_of_cons; auto | done].
  - apply IH; [done..|]. intros x b Hx Hin. apply Hb; [apply elem_of_cons; auto | done].
Qed.

Lemma collect_cards_from (k : nat) (tables : list Table) :
  let cards := concat (imap (fun tableIdx => SeatCards.table_cards (k + tableIdx)) tables) in
  cards_ordered cards
  /\ forall c, c ∈ cards <->
       exists t table s seat, tables !! t = Some table /\ table !! s = Some seat
         /\ seat <> Null
         /\ c = SeatCards.mkPlaceCard (card_person seat) (k + t + 1) (s + 1).
Proof.
  revert k. induction tables as [|table tables IH]; intros k; cbv zeta.
  { split; [done|]. intros c. split; [by intros H%elem_of_nil | by intros (t & ? & ? & ? & H & _)]. }
  rewrite imap_cons.
  rewrite (imap_ext _ (fun tableIdx => SeatCards.table_cards (S k + tableIdx)))
    by (intros i x _; simpl; f_equal; lia).
  destruct (IH (S k)) as [Hord Hin]. clear IH.
  destruct (table_cards_from (k + 0) 0 table) as [Hord0 Hin0].
  change (concat (?a :: ?l)) with (a ++ concat l).
  set (rest := concat (imap _ tables)) in *.
  change (omap id (imap _ table)) with (SeatCards.table_cards (k + 0) table) in Hord0, Hin0.
  split.
  - apply cards_ordered_app; [done..|]. intros a b Ha Hb.
    apply Hin0 in Ha as (s & seat & _ & _ & ->).
    apply Hin in Hb as (t & table' & s' & seat' & _ & _ & _ & ->).
    left. simpl. lia.
  - intros c. rewrite elem_of_app, Hin0, Hin. split.
    + intros [(s & seat & Hs & Hne & ->)|(t & table' & s & seat & Ht & Hs & Hne & ->)].
      * exists 0, table, s, seat. done.
      * exists (S t), table', s, seat. repeat split; try done. f_equal. lia.
    + intros (t & table' & s & seat & Ht & Hs & Hne & ->). destruct t as [|t]; simpl in Ht.
      * injection Ht as <-. left. by exists s, seat.
      * right. exists t, table', s, seat. repeat split; try done. f_equal. lia.
Qed.

Lemma compare_cards_before (a b : SeatCards.PlaceCard) :
  card_before a b -> (SeatCards.compare_cards a b <= 0)%Z.
Proof.
  unfold card_before, SeatCards.compare_cards. intros H. case_bool_decide; lia.
Qed.

Lemma sort_ordered (cards : list SeatCards.PlaceCard) :
  cards_ordered cards -> SeatCards.sort SeatCards.compare_cards cards = cards.
Proof.
  unfold SeatCards.sort. induction cards as [|a l IH]; intros Hord; [done|].
  destruct Hord as [Ha Hl]. simpl. rewrite IH by done.
  destruct l as [|b l]; [done|]. simpl.
  apply Forall_cons in Ha as [Hab _].
  apply compare_cards_before in Hab. by destruct (Z.leb_spec (SeatCards.compare_cards a b) 0); [|lia].
Qed.

Lemma cards_ordered_NoDup (cards : list SeatCards.PlaceCard) :
  cards_ordered cards -> NoDup cards.
Proof.
  induction cards as [|a l IH]; intros Hord; [constructor|]. destruct Hord as [Ha Hl].
  constructor; [|by apply IH]. intros Hin. rewrite Forall_forall in Ha.
  specialize (Ha a Hin). unfold card_before in Ha. lia.
Qed.

Lemma pages_done (cards : list SeatCards.PlaceCard) (i : nat)
    (pages : list (list SeatCards.PlaceCard)) :
  length cards <= i ->
  exists more, pages = pages ++ more
    /\ concat more = drop i cards
    /\ forall k, more !! k
         = if i + 6 * k <? length cards
           then Some (SeatCards.slice cards (i + 6 * k) (i + 6 * k + 6))
           else None.
Proof.
  intros Hi. exists []. split; [by rewrite app_nil_r|]. split.
  - rewrite drop_ge; [done | lia].
  - intros k. rewrite lookup_nil. by rewrite (proj2 (Nat.ltb_ge _ _)) by lia.
Qed.

Lemma pages_loop_lookup (fuel : nat) (cards : list SeatCards.PlaceCard) (i : nat)
    (pages : list (list SeatCards.PlaceCard)) :
  length cards - i <= fuel ->
  exists more, SeatCards.pages_loop fuel cards i pages = pages ++ more
    /\ concat more = drop i cards
    /\ forall k, more !! k
         = if i + 6 * k <? length cards
           then Some (SeatCards.slice cards (i + 6 * k) (i + 6 * k + 6))
           else None.
Proof.
  revert i pages. induction fuel as [|fuel IH]; intros i pages Hfuel;
    cbn [SeatCards.pages_loop].
  - apply pages_done. lia.
  - destruct (Nat.ltb_spec i (length cards)) as [Hlt|Hge]; [|by apply pages_done].
    change SeatCards.cardsPerPage with 6.
    destruct (IH (i + 6) (pages ++ [SeatCards.slice cards i (i + 6)]))
      as (more & -> & Hcat & Hk); [lia|].
    exists (SeatCards.slice cards i (i + 6) :: more). rewrite <- app_assoc.
    split; [done|]. split.
    + cbn [concat]. rewrite Hcat. unfold SeatCards.slice.
      replace (i + 6 - i) with 6 by lia.
      rewrite <- drop_drop. apply take_drop.
    + intros [|k].
      * rewrite Nat.mul_0_r, Nat.add_0_r.
        by rewrite (proj2 (Nat.ltb_lt _ _)) by lia.
      * change ((SeatCards.slice cards i (i + 6) :: more) !! S k) with (more !! k).
        rewrite (Hk k).
        by replace (i + 6 * S k) with (i + 6 + 6 * k) by lia.
Qed.

(** X27.  [SeatCards] makes one card for every seat that is not empty, with
    the numbers of its table and seat counted from 1, and no card twice;
    the cards are made in the order of the tables and seats, so sorting
    them changes nothing.  The pages hold the cards in this order, six to
    a page: page [k] holds the cards from [6 k] up to [6 k + 5], and there
    is no page without a card. *)
Theorem SeatCards_pages (tables : list Table) :
  SeatCards.allCards tables = SeatCards.collect_cards tables
  /\ NoDup (SeatCards.allCards tables)
  /\ (forall c, c ∈ SeatCards.allCards tables <->
        exists t table s seat, tables !! t = Some table /\ table !! s = Some seat
          /\ seat <> Null
          /\ c = SeatCards.mkPlaceCard (card_person seat) (t + 1) (s + 1))
  /\ concat (SeatCards.pages tables) = SeatCards.allCards tables
  /\ (forall k, SeatCards.pages tables !! k
        = if 6 * k <? length (SeatCards.allCards tables)
          then Some (take 6 (drop (6 * k) (SeatCards.allCards tables)))
          else None)
  /\ Forall (fun page => 1 <= length page <= 6) (SeatCards.pages tables).
Proof.
  destruct (collect_cards_from 0 tables) as [Hord Hin].
  change (concat (imap _ tables)) with (SeatCards.collect_cards tables) in Hord, Hin.
  assert (SeatCards.allCards tables = SeatCards.collect_cards tables) as Hsort
    by (by apply sort_ordered).
  split; [done|]. rewrite Hsort. split; [by apply cards_ordered_NoDup|].
  split; [exact Hin|].
  unfold SeatCards.pages. cbv zeta. rewrite Hsort.
  destruct (pages_loop_lookup (length (SeatCards.collect_cards tables))
              (SeatCards.collect_cards tables) 0 []) as (more & -> & Hcat & Hk); [lia|].
  rewrite app_nil_l, drop_0 in *. split; [done|]. split.
  - intros k. rewrite Hk.
    rewrite Nat.add_0_l. destruct (_ <? _); [|done].
    unfold SeatCards.slice. do 2 f_equal. lia.
  - apply Forall_forall. intros page Hpage.
    apply list_elem_of_lookup in Hpage as [k Hpage]. rewrite Hk in Hpage.
    rewrite Nat.add_0_l in Hpage.
    destruct (Nat.ltb_spec (6 * k) (length (SeatCards.collect_cards tables)));
      [|done].
    injection Hpage as <-. unfold SeatCards.slice.
    rewrite length_take, length_drop. lia.
Qed.

(** ** The drawing of a table *)

Lemma half_step (k : nat) :
  S k / 2 = if Nat.even k then k / 2 else k / 2 + 1.
Proof.
  destruct (Nat.even k) eqn:E.
  - apply Nat.even_spec in E as [m ->].
    rewrite (Nat.mul_comm 2 m), Nat.div_mul by done.
    replace (S (m * 2)) with (1 + m * 2) by lia. by rewrite Nat.div_add.
  - assert (Nat.odd k = true) as O by (by rewrite <- Nat.negb_even, E).
    apply Nat.odd_spec in O as [m ->].
    replace (S (2 * m + 1)) with ((m + 1) * 2) by lia. rewrite Nat.div_mul by done.
    replace (2 * m + 1) with (1 + m * 2) by lia. rewrite Nat.div_add by done. simpl. lia.
Qed.

Lemma draw_seat_spec (stats : gmap string SeatingStatistics) (d : TableVisual.Drawing)
    (i : nat) (seat : Seat) :
  let k := length (TableVisual.seatData d) in
  k <= i -> TableVisual.xPos d = k / 2 -> TableVisual.onTop d = Nat.even k ->
  let d' := TableVisual.draw_seat stats d i seat in
  let k' := length (TableVisual.seatData d') in
  TableVisual.xPos d' = k' / 2 /\ TableVisual.onTop d' = Nat.even k' /\ k' <= S i
  /\ match seat with
     | Seated p =>
         exists s, TableVisual.seatData d' = TableVisual.seatData d ++ [s]
           /\ TableVisual.person s = p /\ TableVisual.position s = i
           /\ TableVisual.x s = place_x k /\ TableVisual.y s = place_y k
     | _ => d' = d
     end.
Proof.
  destruct d as [data xp top]. cbn [TableVisual.seatData TableVisual.xPos TableVisual.onTop].
  cbv zeta. intros Hk -> ->. set (k := length data) in *.
  destruct seat as [p| |];
    [|cbn [TableVisual.draw_seat TableVisual.seatData TableVisual.xPos TableVisual.onTop];
      repeat split; (done || lia)..].
  pose proof (half_step k) as Hhalf.
  unfold TableVisual.draw_seat.
  cbn [TableVisual.seatData TableVisual.xPos TableVisual.onTop].
  fold (place_x k). fold (place_y k).
  set (s := TableVisual.mkSeatData _ _ p _ _ i).
  assert (length (data ++ [s]) = S k) as Hlen by (rewrite length_app; simpl; lia).
  destruct (Nat.eqb_spec i 0) as [->|Hi].
  - assert (k = 0) as Hk0 by lia.
    cbn [TableVisual.seatData TableVisual.xPos TableVisual.onTop]. rewrite Hlen.
    split; [by rewrite Hk0|]. split; [by rewrite Hk0|]. split; [lia|]. by exists s.
  - destruct (Nat.even k) eqn:Etop; cbn [negb];
      cbn [TableVisual.seatData TableVisual.xPos TableVisual.onTop];
      rewrite Hlen, Hhalf, Nat.even_succ, <- Nat.negb_even, Etop;
      (split; [done|]); (split; [done|]); (split; [lia|]); by exists s.
Qed.

Lemma draw_seats_spec (stats : gmap string SeatingStatistics) (seats : list Seat)
    (d : TableVisual.Drawing) (i : nat) :
  let k := length (TableVisual.seatData d) in
  k <= i -> TableVisual.xPos d = k / 2 -> TableVisual.onTop d = Nat.even k ->
  exists new,
    TableVisual.seatData (TableVisual.draw_seats stats d i seats)
    = TableVisual.seatData d ++ new
    /\ (fun s => (TableVisual.person s, TableVisual.position s)) <$> new
       = omap id (imap (fun j seat =>
                          match seat with
                          | Seated p => Some (p, i + j)
                          | _ => None
                          end) seats)
    /\ forall j s, new !! j = Some s ->
         TableVisual.x s = place_x (k + j) /\ TableVisual.y s = place_y (k + j).
Proof.
  revert d i. induction seats as [|seat seats IH]; intros d i k Hk Hx Ht.
  { exists []. rewrite app_nil_r. split; [done|]. split; [done|]. by intros j s. }
  cbn [TableVisual.draw_seats].
  destruct (draw_seat_spec stats d i seat Hk Hx Ht) as (Hx' & Ht' & Hk' & Hseat).
  destruct (IH (TableVisual.draw_seat stats d i seat) (S i) Hk' Hx' Ht')
    as (new & -> & Hnew & Hplace). clear IH.
  rewrite imap_cons.
  rewrite (imap_ext _ (fun j seat0 =>
                          match seat0 with
                          | Seated p => Some (p, S i + j)
                          | _ => None
                          end)) by (intros j x _; simpl; destruct x; try done; do 2 f_equal; lia).
  destruct seat as [p| |].
  - destruct Hseat as (s & Hs & Hp & Hpos & Hsx & Hsy). rewrite Hs in *.
    exists (s :: new). rewrite <- app_assoc. split; [done|]. split.
    + csimpl. rewrite Hnew, Hp, Hpos. by rewrite Nat.add_0_r.
    + intros [|j] s' Hj.
      * injection Hj as <-. fold k in Hsx, Hsy. by rewrite Nat.add_0_r.
      * apply Hplace in Hj. rewrite length_app in Hj. cbn [length] in Hj. fold k in Hj.
        by replace (k + S j) with (k + 1 + j) by lia.
  - cbn [TableVisual.draw_seat] in *. exists new. split; [done|]. split; [done|].
    exact Hplace.
  - cbn [TableVisual.draw_seat] in *. exists new. split; [done|]. split; [done|].
    exact Hplace.
Qed.

Lemma place_x_value (k : nat) :
  (place_x k == (33 # 2) + 27 * inject_Z (Z.of_nat (k / 2)))%Q.
Proof.
  unfold place_x, TableVisual.padding, TableVisual.seatSize, TableVisual.seatGap.
  generalize (inject_Z (Z.of_nat (k / 2))). intros q. field.
Qed.

Lemma place_y_value (k : nat) : (place_y k == if Nat.even k then 5 else 48)%Q.
Proof.
  unfold place_y, TableVisual.padding, TableVisual.seatSize, TableVisual.tableHeight.
  destruct (Nat.even k); [reflexivity | by vm_compute].
Qed.

Lemma seated_length (table : Table) : length (seated table) <= length table.
Proof.
  unfold seated. etransitivity; [apply omap_length_le|]. by rewrite length_imap.
Qed.

Lemma half_below (k n : nat) : k < n -> k / 2 + 1 <= Nat.div2 (S n).
Proof.
  intros Hk. rewrite Nat.div2_div.
  replace (k / 2 + 1) with ((k + 1 * 2) / 2) by (rewrite Nat.div_add by done; lia).
  apply Nat.Div0.div_le_mono. lia.
Qed.

Lemma half_parity (k : nat) : k = 2 * (k / 2) + (if Nat.even k then 0 else 1).
Proof.
  rewrite <- Nat.div2_div. rewrite (Nat.div2_odd k) at 1. f_equal.
  rewrite <- Nat.negb_even. by destruct (Nat.even k).
Qed.

Lemma draw_spec (table : Table) (tableNumber : nat) (statistics : list SeatingStatistics) :
  (fun s => (TableVisual.person s, TableVisual.position s))
    <$> TableVisual.draw table tableNumber statistics = seated table
  /\ forall k s, TableVisual.draw table tableNumber statistics !! k = Some s ->
       k < length table
       /\ TableVisual.x s = place_x k /\ TableVisual.y s = place_y k.
Proof.
  unfold TableVisual.draw.
  destruct (draw_seats_spec (TableVisual.statsMap tableNumber statistics) table
              (TableVisual.mkDrawing [] 0 true) 0) as (new & -> & Hnew & Hplace);
    [simpl; lia | done | done |].
  cbn [TableVisual.seatData app length] in *. split; [exact Hnew|].
  intros k s Hk. split; [|by apply Hplace].
  apply lookup_lt_Some in Hk.
  pose proof (f_equal length Hnew) as Hlen. rewrite length_fmap in Hlen.
  change (omap id (imap _ table)) with (seated table) in Hlen.
  pose proof (seated_length table). lia.
Qed.

(** X28.  [TableVisual] draws the participants of a table in the order of
    their seats, each with the index of the seat, skipping the seats that
    hold nobody.  The participant drawn as number [k] (from 0) stands in
    column [k / 2], above the table when [k] is even and below it
    otherwise, so the drawing puts seat 1 across from seat 0 and seat 2
    beside seat 0.  Every circle lies inside the picture, within its
    padding, and no two participants are drawn at the same place. *)
Theorem TableVisual_places (table : Table) (tableNumber : nat)
    (statistics : list SeatingStatistics) :
  let data := TableVisual.draw table tableNumber statistics in
  (fun s => (TableVisual.person s, TableVisual.position s)) <$> data = seated table
  /\ (forall k s, data !! k = Some s ->
        (TableVisual.x s == (33 # 2) + 27 * inject_Z (Z.of_nat (k / 2)))%Q
        /\ (TableVisual.y s == if Nat.even k then 5 else 48)%Q
        /\ (TableVisual.padding <= TableVisual.x s - TableVisual.seatSize / 2)%Q
        /\ (TableVisual.x s + TableVisual.seatSize / 2
            <= TableVisual.width table - TableVisual.padding)%Q
        /\ (TableVisual.padding <= TableVisual.y s)%Q
        /\ (TableVisual.y s + TableVisual.seatSize
            <= TableVisual.height - TableVisual.padding)%Q)
  /\ (forall k k' s s', data !! k = Some s -> data !! k' = Some s' ->
        (TableVisual.x s == TableVisual.x s')%Q ->
        (TableVisual.y s == TableVisual.y s')%Q -> k = k').
Proof.
  cbv zeta. destruct (draw_spec table tableNumber statistics) as [Hseated Hplace].
  split; [done|]. split.
  - intros k s Hk. destruct (Hplace k s Hk) as (Hlt & -> & ->).
    pose proof (place_x_value k) as Hx. pose proof (place_y_value k) as Hy.
    split; [done|]. split; [done|].
    pose proof (half_below k (length table) Hlt) as Hhalf.
    assert (0 <= inject_Z (Z.of_nat (k / 2)))%Q as H0.
    { change 0%Q with (inject_Z 0). rewrite <- Zle_Qle. lia. }
    assert (inject_Z (Z.of_nat (k / 2)) + 1
            <= inject_Z (Z.of_nat (TableVisual.seatsPerSide table)))%Q as H1.
    { change 1%Q with (inject_Z 1). rewrite <- inject_Z_plus, <- Zle_Qle.
      unfold TableVisual.seatsPerSide. lia. }
    unfold TableVisual.width, TableVisual.tableWidth, TableVisual.height,
      TableVisual.padding, TableVisual.seatSize, TableVisual.seatGap,
      TableVisual.tableHeight in *.
    rewrite Hx, Hy. clear Hx Hy.
    unfold TableVisual.seatsPerSide in *. change (23 / 2)%Q with (23 # 2).
    set (a := inject_Z (Z.of_nat (k / 2))) in *.
    set (b := inject_Z (Z.of_nat (Nat.div2 (S (length table))))) in *.
    clearbody a b.
    destruct (Nat.even k); repeat split; lra.
  - intros k k' s s' Hk Hk' Ex Ey.
    destruct (Hplace k s Hk) as (_ & Hx & Hy). destruct (Hplace k' s' Hk') as (_ & Hx' & Hy').
    rewrite Hx, Hx', !place_x_value in Ex. rewrite Hy, Hy', !place_y_value in Ey.
    assert (k / 2 = k' / 2) as Ehalf.
    { assert (inject_Z (Z.of_nat (k / 2)) == inject_Z (Z.of_nat (k' / 2)))%Q as E.
      { revert Ex. generalize (inject_Z (Z.of_nat (k / 2))), (inject_Z (Z.of_nat (k' / 2))).
        intros a b Ex. apply Qle_antisym; lra. }
      apply (proj1 (inject_Z_injective _ _)) in E. by apply Nat2Z.inj in E. }
    assert (Nat.even k = Nat.even k') as Epar.
    { destruct (Nat.even k), (Nat.even k'); try done; exfalso; revert Ey; by vm_compute. }
    rewrite (half_parity k), (half_parity k'), Ehalf, Epar. done.
Qed.

(** ** More attempts, and the whole run *)

Lemma foldlM_app {A S : Type} (body : S -> A -> result S) (s : S) (l1 l2 : list A) :
  foldlM body s (l1 ++ l2) = let* s1 := foldlM body s l1 in foldlM body s1 l2.
Proof.
  revert s. induction l1 as [|x l1 IH]; intros s; simpl; [done|].
  destruct (body s x) as [s'|e]; simpl; [apply IH | done].
Qed.

(** X29.  A call of [optimizeSeating] with more attempts goes on from where the
    call with fewer attempts (and the same values of [Math.random()])
    ends: when it returns, the shorter call returns too, its calls to
    [onProgress] are the first calls of the longer one, and the longer
    call returns either the same score with the same order or a score
    that is strictly lower. *)
Theorem optimizeSeating_more_attempts (fuel : nat) (random : nat -> Q)
    (people : list Person) (attempts more : nat)
    (distanceFunction : DistanceFunction) (optimizationMode : OptimizationMode)
    (sr2 : SeatingResult) (log2 : list (nat * number)) :
  optimizeSeating fuel random people (attempts + more) distanceFunction optimizationMode
    = Ok (sr2, log2) ->
  exists sr1 log1,
    optimizeSeating fuel random people attempts distanceFunction optimizationMode
      = Ok (sr1, log1)
    /\ log1 `prefix_of` log2
    /\ ((score sr2 = score sr1 /\ order sr2 = order sr1)
        \/ num_lt (score sr2) (score sr1) = true).
Proof.
  unfold optimizeSeating. cbv zeta. intros H. inv_bind H. rename a into best2.
  injection H as <- <-.
  rewrite seq_app, foldlM_app in E. inv_bind E. rename a into best1. rewrite E0. simpl.
  eexists _, _. split; [done|]. cbn [score order].
  destruct (attempts_reported _ _ _ _ _ _ _ _ _ _ E) as (log & ->).
  split; [by exists log|].
  destruct (attempts_loop _ _ _ _ _ _ _ _ _ _ E)
    as (results & _ & _ & _ & [[-> ->]|(r & _ & _ & -> & Hlt)]); [by left | by right].
Qed.

Lemma optimizeSeating_more_attempts_witness :
  exists sr1 log1,
    optimizeSeating 25 sample_random sample_people 1 commonality poor_connections
      = Ok (sr1, log1)
    /\ log1 `prefix_of`
         [(1, Fin (inject_Z 4))]
    /\ ((score (mkSeatingResult (Some [0; 1; 3; 2]) (Fin (inject_Z 4)) sample_people)
         = score sr1
         /\ order (mkSeatingResult (Some [0; 1; 3; 2]) (Fin (inject_Z 4)) sample_people)
            = order sr1)
        \/ num_lt (score (mkSeatingResult (Some [0; 1; 3; 2]) (Fin (inject_Z 4)) sample_people))
             (score sr1) = true).
Proof.
  apply (optimizeSeating_more_attempts 25 sample_random sample_people 1 2
           commonality poor_connections).
  by vm_compute.
Defined.

Lemma optimizeSeating_permutation (fuel : nat) (random : nat -> Q)
    (people : list Person) (attempts : nat) (distanceFunction : DistanceFunction)
    (optimizationMode : OptimizationMode) :
  people <> [] -> 1 <= attempts ->
  (forall k, 0 <= random k < 1)%Q ->
  fact (length people) < fuel ->
  exists o s log,
    optimizeSeating fuel random people attempts distanceFunction optimizationMode
      = Ok (mkSeatingResult (Some o) s people, log)
    /\ o ≡ₚ seq 0 (length people).
Proof.
  intros Hne Hatt Hrand Hfuel.
  destruct (optimizeSeating_best fuel random people attempts distanceFunction
              optimizationMode Hrand Hfuel)
    as (best & results & Hbest & _ & Hres & _ & Hbestr).
  destruct (Hbestr Hatt) as (r & Hin & Ho & Hs).
  apply list_elem_of_lookup in Hin as [k Hk].
  destruct (Hres k r Hk) as (_ & _ & Hperm).
  rewrite (optimizeSeating_Ok _ _ _ _ _ _ _ Hbest), Ho.
  eexists _, _, _. split; [done|].
  rewrite enforceConstantPairs_Permutation. auto.
Qed.

Lemma omap_seat_name (people : list Person) :
  omap seat_name (Seated <$> people) = name <$> people.
Proof. induction people as [|p l IH]; [done|]. csimpl. by rewrite IH. Qed.

(** X30.  What [handleOptimize] does with the participants after its two
    checks (somebody comes; there are seats enough): for participants
    with distinct names, [optimizeSeating] followed by [assignToTables]
    returns tables whose seats hold exactly the participants, each once
    and no seat empty, with one statistics record for each participant,
    and the two members of every registry pair among the participants on
    neighbouring seats of one table; the check of the tables reports no
    error.  The fuel of [twoOpt] is any number above n!. *)
Theorem seating_run (fuel : nat) (random : nat -> Q) (people : list Person)
    (attempts : nat) (distanceFunction : DistanceFunction)
    (optimizationMode : OptimizationMode) (tableSizes : list nat) :
  people <> [] ->
  length people <= App.totalSeats tableSizes ->
  NoDup (name <$> people) ->
  1 <= attempts ->
  (forall k, 0 <= random k < 1)%Q ->
  fact (length people) < fuel ->
  exists seatingResult log result,
    optimizeSeating fuel random people attempts distanceFunction optimizationMode
      = Ok (seatingResult, log)
    /\ assignToTables seatingResult tableSizes = Ok result
    /\ concat (tables result) ≡ₚ Seated <$> people
    /\ stat_name <$> statistics result ≡ₚ name <$> people
    /\ (forall name1 name2 p1 p2,
          (name1, name2) ∈ CONSTANT_PAIRS_NAMES ->
          p1 ∈ people -> p2 ∈ people -> name p1 = name1 -> name p2 = name2 ->
          together (tables result) p1 p2)
    /\ (forall call, call ∈ validateConstantPairs (tables result) ->
          match call with
          | error_different_tables _ _ _ _ | error_not_adjacent _ _ _ _ _ => False
          | _ => True
          end).
Proof.
  intros Hne Hcap Hnames Hatt Hrand Hfuel.
  destruct (optimizeSeating_permutation fuel random people attempts distanceFunction
              optimizationMode Hne Hatt Hrand Hfuel) as (o & s & log & Hrun & Hperm).
  assert (App.totalSeats tableSizes = sum_list tableSizes) as Hsum.
  { unfold App.totalSeats.
    assert (forall a, foldl (fun sum size => sum + size) a tableSizes
                      = a + sum_list tableSizes) as H; [|apply H].
    clear. induction tableSizes as [|size l IH]; intros a; simpl; [lia|].
    rewrite IH. lia. }
  rewrite Hsum in Hcap.
  destruct (assignToTables_valid (mkSeatingResult (Some o) s people) tableSizes o
              eq_refl Hperm Hcap Hnames) as (ta & Hta & Hstat & Hall & Hpairs).
  simpl in Hall, Hpairs.
  exists (mkSeatingResult (Some o) s people), log, ta.
  split; [done|]. split; [done|]. split; [apply Hall|]. split; [|split; [exact Hpairs|]].
  - rewrite Hstat, calculateStatistics_names. destruct Hall as [_ ->].
    by rewrite omap_seat_name.
  - intros call Hcall. unfold validateConstantPairs in Hcall.
    apply list_elem_of_fmap in Hcall as ([name1 name2] & -> & Hin).
    destruct (validate_pair_seated people (tables ta) name1 name2 Hnames Hall)
      as [[-> _]|(t & table & p1 & p2 & -> & _)]; [|done..].
    intros p1 p2 Hp1 Hp2 E1 E2. by eapply Hpairs.
Qed.

Lemma seating_run_witness :
  exists seatingResult log result,
    optimizeSeating 25 sample_random sample_people 3 commonality poor_connections
      = Ok (seatingResult, log)
    /\ assignToTables seatingResult [2; 2] = Ok result
    /\ concat (tables result) ≡ₚ Seated <$> sample_people
    /\ stat_name <$> statistics result ≡ₚ name <$> sample_people
    /\ (forall name1 name2 p1 p2,
          (name1, name2) ∈ CONSTANT_PAIRS_NAMES ->
          p1 ∈ sample_people -> p2 ∈ sample_people -> name p1 = name1 -> name p2 = name2 ->
          together (tables result) p1 p2)
    /\ (forall call, call ∈ validateConstantPairs (tables result) ->
          match call with
          | error_different_tables _ _ _ _ | error_not_adjacent _ _ _ _ _ => False
          | _ => True
          end).
Proof.
  apply (seating_run 25 sample_random sample_people 3 commonality poor_connections [2; 2]).
  - discriminate.
  - vm_compute. lia.
  - apply sample_names_NoDup.
  - lia.
  - apply sample_random_range.
  - vm_compute. lia.
Defined.

From Stdlib Require Floats.

(** * Rounding to double precision *)

(** ** Powers of two *)

Lemma pow2_pos (e : Z) : (0 < Double.pow2 e)%Q.
Proof. apply Qpower_0_lt. reflexivity. Qed.

Lemma pow2_plus (a b : Z) :
  (Double.pow2 (a + b) == Double.pow2 a * Double.pow2 b)%Q.
Proof. apply Qpower_plus. discriminate. Qed.

Lemma pow2_le (a b : Z) : (a <= b)%Z -> (Double.pow2 a <= Double.pow2 b)%Q.
Proof. intros H. apply Qpower_le_compat_l; [done | discriminate]. Qed.

Lemma pow2_lt (a b : Z) : (a < b)%Z -> (Double.pow2 a < Double.pow2 b)%Q.
Proof. intros H. apply Qpower_lt_compat_l; [done | reflexivity]. Qed.

Lemma pow2_lt_inv (a b : Z) : (Double.pow2 a < Double.pow2 b)%Q -> (a < b)%Z.
Proof. intros H. eapply Qpower_lt_compat_l_inv; [exact H | reflexivity]. Qed.

Lemma pow2_Z (e : Z) : (0 <= e)%Z -> (Double.pow2 e == inject_Z (2 ^ e))%Q.
Proof. intros H. symmetry. by apply Zpower_Qpower. Qed.

Lemma pow2_scale (x : Q) (e : Z) : (x / Double.pow2 e * Double.pow2 e == x)%Q.
Proof. field. pose proof (pow2_pos e). lra. Qed.

(** ** The leading bit *)

Lemma ilog2_bracket (x : Q) :
  ~ (x == 0)%Q ->
  (Double.pow2 (Double.ilog2 x) <= Qabs x < Double.pow2 (Double.ilog2 x + 1))%Q.
Proof.
  intros Hx. destruct x as [n d].
  assert (0 < Z.abs n)%Z as Ha.
  { unfold Qeq in Hx. simpl in Hx. lia. }
  unfold Double.ilog2. cbn [Qnum Qden Qabs].
  set (a := Z.abs n) in *. set (ln := Z.log2 a). set (ld := Z.log2 (Z.pos d)).
  destruct (Z.log2_spec a Ha) as [Ha1 Ha2]. fold ln in Ha1, Ha2.
  destruct (Z.log2_spec (Z.pos d)) as [Hd1 Hd2]; [lia|]. fold ld in Hd1, Hd2.
  assert (0 <= ln)%Z as Hln by apply Z.log2_nonneg.
  assert (0 <= ld)%Z as Hld by apply Z.log2_nonneg.
  assert (inject_Z 0 < inject_Z (Z.pos d))%Q as Hdpos by (rewrite <- Zlt_Qlt; lia).
  change (inject_Z 0) with 0%Q in Hdpos.
  assert (a # d == inject_Z a / inject_Z (Z.pos d))%Q as Hq by apply Qmake_Qdiv.
  assert (Double.pow2 (ln - ld - 1) < a # d)%Q as Hlow.
  { rewrite Hq. apply Qlt_shift_div_l; [done|].
    apply Qlt_le_trans with (y := (Double.pow2 (ln - ld - 1) * Double.pow2 (ld + 1))%Q).
    - apply Qmult_lt_l; [apply pow2_pos|].
      rewrite pow2_Z by lia. rewrite <- Zlt_Qlt.
      replace (ld + 1)%Z with (Z.succ ld) by lia. done.
    - rewrite <- pow2_plus. replace (ln - ld - 1 + (ld + 1))%Z with ln by lia.
      rewrite pow2_Z by lia. by rewrite <- Zle_Qle. }
  assert (a # d < Double.pow2 (ln - ld + 1))%Q as Hhigh.
  { rewrite Hq. apply Qlt_shift_div_r; [done|].
    apply Qlt_le_trans with (y := (Double.pow2 (ln - ld + 1) * Double.pow2 ld)%Q).
    - rewrite <- pow2_plus. replace (ln - ld + 1 + ld)%Z with (Z.succ ln) by lia.
      rewrite pow2_Z by lia. by rewrite <- Zlt_Qlt.
    - apply Qmult_le_l; [apply pow2_pos|].
      rewrite pow2_Z by lia. by rewrite <- Zle_Qle. }
  destruct (Qle_bool (Double.pow2 (ln - ld)) (a # d)) eqn:E.
  - apply Qle_bool_iff in E. split; [done|]. done.
  - assert (~ (Double.pow2 (ln - ld) <= a # d)%Q) as Hno.
    { intros H. apply Qle_bool_iff in H. congruence. }
    apply Qnot_le_lt in Hno.
    replace (ln - ld - 1 + 1)%Z with (ln - ld)%Z by lia.
    split; [by apply Qlt_le_weak | done].
Qed.

Lemma ilog2_le (x y : Q) :
  ~ (x == 0)%Q -> ~ (y == 0)%Q -> (Qabs x <= Qabs y)%Q ->
  (Double.ilog2 x <= Double.ilog2 y)%Z.
Proof.
  intros Hx Hy Hle.
  destruct (ilog2_bracket x Hx) as [Hx1 _]. destruct (ilog2_bracket y Hy) as [_ Hy2].
  assert (Double.pow2 (Double.ilog2 x) < Double.pow2 (Double.ilog2 y + 1))%Q as H
    by (eapply Qle_lt_trans; [exact Hx1|]; eapply Qle_lt_trans; [exact Hle | exact Hy2]).
  apply pow2_lt_inv in H. lia.
Qed.

Lemma last_bit_le (x y : Q) :
  ~ (x == 0)%Q -> ~ (y == 0)%Q -> (Qabs x <= Qabs y)%Q ->
  (Double.last_bit x <= Double.last_bit y)%Z.
Proof.
  intros Hx Hy Hle. pose proof (ilog2_le x y Hx Hy Hle). unfold Double.last_bit. lia.
Qed.

(** What is held by 53 bits ending at the last bit. *)
Lemma last_bit_above (x : Q) :
  ~ (x == 0)%Q -> (Qabs x < Double.pow2 (Double.last_bit x + 53))%Q.
Proof.
  intros Hx. destruct (ilog2_bracket x Hx) as [_ H].
  eapply Qlt_le_trans; [exact H|]. apply pow2_le. unfold Double.last_bit. lia.
Qed.

Lemma last_bit_below (x : Q) :
  ~ (x == 0)%Q -> (-1074 < Double.last_bit x)%Z ->
  (Double.pow2 (Double.last_bit x + 52) <= Qabs x)%Q.
Proof.
  intros Hx He. destruct (ilog2_bracket x Hx) as [H _].
  eapply Qle_trans; [|exact H]. apply pow2_le. unfold Double.last_bit in *. lia.
Qed.

(** ** The nearest integer *)

Lemma nearest_even_floor (x : Q) :
  (Qfloor x <= Double.nearest_even x <= Qfloor x + 1)%Z.
Proof.
  unfold Double.nearest_even.
  destruct (x - inject_Z (Qfloor x) ?= 1 # 2)%Q; [destruct (Z.even _)|..]; lia.
Qed.

Lemma nearest_even_Z (z : Z) : Double.nearest_even (inject_Z z) = z.
Proof.
  unfold Double.nearest_even. rewrite Qfloor_Z.
  destruct (Qcompare_spec (inject_Z z - inject_Z z) (1 # 2)) as [H|H|H];
    [exfalso; lra | done | exfalso; lra].
Qed.

Lemma nearest_even_comp (x y : Q) :
  (x == y)%Q -> Double.nearest_even x = Double.nearest_even y.
Proof.
  intros E. unfold Double.nearest_even.
  rewrite (Qfloor_comp x y E).
  assert (x - inject_Z (Qfloor y) == y - inject_Z (Qfloor y))%Q as E' by (rewrite E; reflexivity).
  by rewrite (Qcompare_comp _ _ E' (1 # 2) (1 # 2) (Qeq_refl _)).
Qed.

Lemma nearest_even_mono (x y : Q) :
  (x <= y)%Q -> (Double.nearest_even x <= Double.nearest_even y)%Z.
Proof.
  intros Hle. pose proof (Qfloor_resp_le x y Hle) as Hf.
  pose proof (nearest_even_floor x) as Hx. pose proof (nearest_even_floor y) as Hy.
  destruct (decide (Qfloor x = Qfloor y)) as [E|E]; [|lia].
  unfold Double.nearest_even in *. rewrite E in *.
  destruct (Qcompare_spec (x - inject_Z (Qfloor y)) (1 # 2)) as [Hx'|Hx'|Hx'];
    destruct (Qcompare_spec (y - inject_Z (Qfloor y)) (1 # 2)) as [Hy'|Hy'|Hy'];
    try lia; try (destruct (Z.even (Qfloor y)); lia); exfalso; lra.
Qed.

(** ** Rounding *)

Lemma nearest_zero (x : Q) : (x == 0)%Q -> Double.nearest x = 0%Q.
Proof. intros H. unfold Double.nearest. by rewrite (Qeq_eq_bool _ _ H). Qed.

Lemma nearest_nonzero (x : Q) :
  ~ (x == 0)%Q ->
  Double.nearest x
  = (inject_Z (Double.nearest_even (x / Double.pow2 (Double.last_bit x)))
     * Double.pow2 (Double.last_bit x))%Q.
Proof.
  intros H. unfold Double.nearest.
  destruct (Qeq_bool x 0) eqn:E; [|done]. by apply Qeq_bool_eq in E.
Qed.

Lemma nearest_nonneg (x : Q) : (0 <= x)%Q -> (0 <= Double.nearest x)%Q.
Proof.
  intros Hx. destruct (Qeq_dec x 0) as [E|E]; [by rewrite nearest_zero|].
  rewrite nearest_nonzero by done.
  assert (Double.nearest_even (inject_Z 0)
          <= Double.nearest_even (x / Double.pow2 (Double.last_bit x)))%Z as H.
  { apply nearest_even_mono. apply Qle_shift_div_l; [apply pow2_pos|].
    change (inject_Z 0) with 0%Q. by rewrite Qmult_0_l. }
  rewrite nearest_even_Z, Zle_Qle in H. change (inject_Z 0) with 0%Q in H.
  pose proof (pow2_pos (Double.last_bit x)). nra.
Qed.

Lemma nearest_nonpos (x : Q) : (x <= 0)%Q -> (Double.nearest x <= 0)%Q.
Proof.
  intros Hx. destruct (Qeq_dec x 0) as [E|E]; [by rewrite nearest_zero|].
  rewrite nearest_nonzero by done.
  assert (Double.nearest_even (x / Double.pow2 (Double.last_bit x))
          <= Double.nearest_even (inject_Z 0))%Z as H.
  { apply nearest_even_mono. apply Qle_shift_div_r; [apply pow2_pos|].
    change (inject_Z 0) with 0%Q. by rewrite Qmult_0_l. }
  rewrite nearest_even_Z, Zle_Qle in H. change (inject_Z 0) with 0%Q in H.
  pose proof (pow2_pos (Double.last_bit x)). nra.
Qed.

(** The rounded number has at most 53 bits above the last bit. *)
Lemma nearest_bound (x : Q) :
  ~ (x == 0)%Q ->
  (- Double.pow2 (Double.last_bit x + 53) <= Double.nearest x
   <= Double.pow2 (Double.last_bit x + 53))%Q.
Proof.
  intros Hx. rewrite nearest_nonzero by done.
  set (e := Double.last_bit x).
  pose proof (last_bit_above x Hx) as Habove. fold e in Habove.
  apply Qabs_Qlt_condition in Habove as [Hlo Hhi].
  pose proof (pow2_pos e) as He.
  assert (Double.pow2 (e + 53) == inject_Z (2 ^ 53) * Double.pow2 e)%Q as Hp.
  { rewrite Z.add_comm, pow2_plus. by rewrite (pow2_Z 53). }
  rewrite Hp in *.
  assert (Double.nearest_even (inject_Z (- 2 ^ 53))
          <= Double.nearest_even (x / Double.pow2 e))%Z as H1.
  { apply nearest_even_mono. apply Qle_shift_div_l; [done|].
    rewrite inject_Z_opp. apply Qlt_le_weak. lra. }
  assert (Double.nearest_even (x / Double.pow2 e)
          <= Double.nearest_even (inject_Z (2 ^ 53)))%Z as H2.
  { apply nearest_even_mono. apply Qle_shift_div_r; [done|]. by apply Qlt_le_weak. }
  rewrite nearest_even_Z, Zle_Qle in H1, H2. rewrite inject_Z_opp in H1.
  split; nra.
Qed.

Lemma nearest_normal_pos (x : Q) :
  (0 < x)%Q -> (-1074 < Double.last_bit x)%Z ->
  (Double.pow2 (Double.last_bit x + 52) <= Double.nearest x)%Q.
Proof.
  intros Hx He.
  assert (~ (x == 0)%Q) as Hx0 by (intros E; rewrite E in Hx; by apply Qlt_irrefl in Hx).
  rewrite nearest_nonzero by done.
  pose proof (last_bit_below x Hx0 He) as Hbelow.
  rewrite Qabs_pos in Hbelow by by apply Qlt_le_weak.
  set (e := Double.last_bit x) in *.
  pose proof (pow2_pos e) as Hpe.
  assert (Double.pow2 (e + 52) == inject_Z (2 ^ 52) * Double.pow2 e)%Q as Hp.
  { rewrite Z.add_comm, pow2_plus. by rewrite (pow2_Z 52). }
  rewrite Hp in *.
  assert (Double.nearest_even (inject_Z (2 ^ 52))
          <= Double.nearest_even (x / Double.pow2 e))%Z as H1.
  { apply nearest_even_mono. by apply Qle_shift_div_l. }
  rewrite nearest_even_Z, Zle_Qle in H1. nra.
Qed.

Lemma nearest_normal_neg (x : Q) :
  (x < 0)%Q -> (-1074 < Double.last_bit x)%Z ->
  (Double.nearest x <= - Double.pow2 (Double.last_bit x + 52))%Q.
Proof.
  intros Hx He.
  assert (~ (x == 0)%Q) as Hx0 by (intros E; rewrite E in Hx; by apply Qlt_irrefl in Hx).
  rewrite nearest_nonzero by done.
  pose proof (last_bit_below x Hx0 He) as Hbelow.
  rewrite Qabs_neg in Hbelow by by apply Qlt_le_weak.
  set (e := Double.last_bit x) in *.
  pose proof (pow2_pos e) as Hpe.
  assert (Double.pow2 (e + 52) == inject_Z (2 ^ 52) * Double.pow2 e)%Q as Hp.
  { rewrite Z.add_comm, pow2_plus. by rewrite (pow2_Z 52). }
  rewrite Hp in *.
  assert (Double.nearest_even (x / Double.pow2 e)
          <= Double.nearest_even (inject_Z (- 2 ^ 52)))%Z as H1.
  { apply nearest_even_mono. apply Qle_shift_div_r; [done|].
    rewrite inject_Z_opp. lra. }
  rewrite nearest_even_Z, Zle_Qle, inject_Z_opp in H1. nra.
Qed.

(** Rounding keeps the order. *)
Lemma nearest_mono (x y : Q) : (x <= y)%Q -> (Double.nearest x <= Double.nearest y)%Q.
Proof.
  intros Hle.
  destruct (Qlt_le_dec 0 x) as [Hx|Hx].
  - (* 0 < x <= y *)
    assert (0 < y)%Q as Hy by lra.
    assert (~ (x == 0)%Q) as Hx0 by (intros E; rewrite E in Hx; by apply Qlt_irrefl in Hx).
    assert (~ (y == 0)%Q) as Hy0 by (intros E; rewrite E in Hy; by apply Qlt_irrefl in Hy).
    assert (Double.last_bit x <= Double.last_bit y)%Z as He.
    { apply last_bit_le; try done. rewrite !Qabs_pos by by apply Qlt_le_weak. done. }
    destruct (decide (Double.last_bit x = Double.last_bit y)) as [E|E].
    + rewrite !nearest_nonzero, E by done.
      pose proof (pow2_pos (Double.last_bit y)) as Hp.
      assert (Double.nearest_even (x / Double.pow2 (Double.last_bit y))
              <= Double.nearest_even (y / Double.pow2 (Double.last_bit y)))%Z as H.
      { apply nearest_even_mono. apply Qmult_le_compat_r; [done|].
        apply Qlt_le_weak, Qinv_lt_0_compat, Hp. }
      rewrite Zle_Qle in H. nra.
    + destruct (nearest_bound x Hx0) as [_ H1].
      pose proof (nearest_normal_pos y Hy ltac:(unfold Double.last_bit in *; lia)) as H2.
      pose proof (pow2_le (Double.last_bit x + 53) (Double.last_bit y + 52) ltac:(lia)).
      lra.
  - destruct (Qlt_le_dec y 0) as [Hy|Hy].
    + (* x <= y < 0 *)
      assert (x < 0)%Q as Hx' by lra.
      assert (~ (x == 0)%Q) as Hx0 by (intros E; rewrite E in Hx'; by apply Qlt_irrefl in Hx').
      assert (~ (y == 0)%Q) as Hy0 by (intros E; rewrite E in Hy; by apply Qlt_irrefl in Hy).
      assert (Double.last_bit y <= Double.last_bit x)%Z as He.
      { apply last_bit_le; try done. rewrite !Qabs_neg by by apply Qlt_le_weak. lra. }
      destruct (decide (Double.last_bit x = Double.last_bit y)) as [E|E].
      * rewrite !nearest_nonzero, E by done.
        pose proof (pow2_pos (Double.last_bit y)) as Hp.
        assert (Double.nearest_even (x / Double.pow2 (Double.last_bit y))
                <= Double.nearest_even (y / Double.pow2 (Double.last_bit y)))%Z as H.
        { apply nearest_even_mono. apply Qmult_le_compat_r; [done|].
          apply Qlt_le_weak, Qinv_lt_0_compat, Hp. }
        rewrite Zle_Qle in H. nra.
      * destruct (nearest_bound y Hy0) as [H1 _].
        pose proof (nearest_normal_neg x Hx' ltac:(unfold Double.last_bit in *; lia)) as H2.
        pose proof (pow2_le (Double.last_bit y + 53) (Double.last_bit x + 52) ltac:(lia)).
        lra.
    + (* x <= 0 <= y *)
      pose proof (nearest_nonpos x Hx). pose proof (nearest_nonneg y Hy). lra.
Qed.

(** A number with at most 53 bits above a bit of exponent -1074 or more
    is a double. *)
Lemma nearest_exact (x : Q) (m e : Z) :
  (x == inject_Z m * Double.pow2 e)%Q -> (Z.abs m < 2 ^ 53)%Z -> (-1074 <= e)%Z ->
  (Double.nearest x == x)%Q.
Proof.
  intros Hx Hm He.
  destruct (Qeq_dec x 0) as [E|E]; [rewrite nearest_zero by done; by symmetry|].
  rewrite nearest_nonzero by done.
  set (e' := Double.last_bit x).
  assert (e' <= e)%Z as Hle.
  { destruct (ilog2_bracket x E) as [Hlow _].
    assert (Qabs x < Double.pow2 (e + 53))%Q as Hup.
    { rewrite Hx, Qabs_Qmult, (Qabs_pos (Double.pow2 e)) by apply Qlt_le_weak, pow2_pos.
      rewrite Z.add_comm, pow2_plus, (pow2_Z 53) by lia.
      apply Qmult_lt_compat_r; [apply pow2_pos|].
      assert (Qabs (inject_Z m) == inject_Z (Z.abs m))%Q as -> by (symmetry; apply Zabs_Qabs).
      by rewrite <- Zlt_Qlt. }
    assert (Double.pow2 (Double.ilog2 x) < Double.pow2 (e + 53))%Q as H
      by (eapply Qle_lt_trans; [exact Hlow | exact Hup]).
    apply pow2_lt_inv in H. subst e'. unfold Double.last_bit. lia. }
  assert (x / Double.pow2 e' == inject_Z (m * 2 ^ (e - e')))%Q as Hs.
  { rewrite inject_Z_mult, <- pow2_Z by lia.
    apply Qmult_inj_r with (z := Double.pow2 e');
      [pose proof (pow2_pos e'); lra|].
    rewrite pow2_scale, <- Qmult_assoc, <- pow2_plus.
    replace (e - e' + e')%Z with e by lia. done. }
  rewrite (nearest_even_comp _ _ Hs), nearest_even_Z, <- Hs. apply pow2_scale.
Qed.

(** ** Doubles *)

Lemma round_mono (x y : Q) :
  (x <= y)%Q -> Double.lt (Double.round y) (Double.round x) = false.
Proof.
  intros Hle. apply nearest_mono in Hle. unfold Double.round.
  set (a := Double.nearest x) in *. set (b := Double.nearest y) in *.
  pose proof (pow2_pos 1024) as Hp.
  destruct (Qle_bool (Double.pow2 1024) b) eqn:Eb1; [by destruct (Double.finite a)|].
  destruct (Qle_bool (Double.pow2 1024) a) eqn:Ea1.
  { apply Qle_bool_iff in Ea1.
    assert (Double.pow2 1024 <= b)%Q as H by lra. apply Qle_bool_iff in H. congruence. }
  destruct (Qle_bool b (- Double.pow2 1024)) eqn:Eb2.
  { apply Qle_bool_iff in Eb2.
    assert (a <= - Double.pow2 1024)%Q as H by lra. apply Qle_bool_iff in H.
    by rewrite H. }
  destruct (Qle_bool a (- Double.pow2 1024)); [done|]. simpl.
  destruct (Qltb b a) eqn:E; [|done]. apply Qltb_lt in E. lra.
Qed.

(** The test [x + ... < y + ...] of the source succeeds only when the
    sum on the left is the smaller one before rounding. *)
Lemma round_lt (x y : Q) :
  Double.lt (Double.round x) (Double.round y) = true -> (x < y)%Q.
Proof.
  intros H. apply Qnot_le_lt. intros Hle. apply round_mono in Hle. congruence.
Qed.

Lemma round_exact (x : Q) (m e : Z) :
  (x == inject_Z m * Double.pow2 e)%Q -> (Z.abs m < 2 ^ 53)%Z -> (-1074 <= e)%Z ->
  (Qabs x < Double.pow2 1024)%Q ->
  exists y, Double.round x = Double.finite y /\ (y == x)%Q.
Proof.
  intros Hx Hm He Hsmall. pose proof (nearest_exact x m e Hx Hm He) as Hn.
  apply Qabs_Qlt_condition in Hsmall as [Hlo Hhi].
  exists (Double.nearest x). split; [|done]. unfold Double.round.
  destruct (Qle_bool (Double.pow2 1024) (Double.nearest x)) eqn:E1.
  { apply Qle_bool_iff in E1. exfalso. lra. }
  destruct (Qle_bool (Double.nearest x) (- Double.pow2 1024)) eqn:E2.
  { apply Qle_bool_iff in E2. exfalso. lra. }
  done.
Qed.

(** * 2-opt in double precision *)

(** Reversing the segment [i..j] changes the two links at its ends. *)
Lemma reverse_segment_cost (distMatrix : Matrix) (route : list nat) (i j a b c d : nat) :
  symmetric distMatrix ->
  1 <= i -> i < j -> j + 1 < length route ->
  route !! (i - 1) = Some a -> route !! i = Some b ->
  route !! j = Some c -> route !! (j + 1) = Some d ->
  (path_cost distMatrix (reverse_segment route i j) - path_cost distMatrix route
   == (entry distMatrix a c + entry distMatrix b d)
      - (entry distMatrix a b + entry distMatrix c d))%Q.
Proof.
  intros Hsym Hi Hij Hj Ha Hb Hc Hd.
  destruct (reverse_segment_split route i j) as (A & S & B & HR & HR' & HA & HS); [lia..|].
  assert (S <> []) as HSne by (intros ->; simpl in HS; lia).
  pose proof (path_cost_reverse_middle distMatrix Hsym A S B HSne) as Hdiff.
  rewrite <- HR, <- HR' in Hdiff.
  assert (last A = Some a) as HlA.
  { rewrite last_lookup. rewrite HR in Ha. rewrite lookup_app_l in Ha by lia.
    rewrite <- Ha. f_equal. lia. }
  assert (head S = Some b) as HhS.
  { rewrite head_lookup. rewrite HR in Hb.
    rewrite lookup_app_r, lookup_app_l in Hb by lia. rewrite <- Hb. f_equal. lia. }
  assert (last S = Some c) as HlS.
  { rewrite last_lookup. rewrite HR in Hc.
    rewrite lookup_app_r, lookup_app_l in Hc by lia. rewrite <- Hc. f_equal. lia. }
  assert (head B = Some d) as HhB.
  { rewrite head_lookup. rewrite HR in Hd.
    rewrite lookup_app_r, lookup_app_r in Hd by lia. rewrite <- Hd. f_equal. lia. }
  rewrite HlA, HhS, HlS, HhB in Hdiff. simpl in Hdiff. exact Hdiff.
Qed.

Lemma double_mat_get_entry (distMatrix : Matrix) (n a b : nat) :
  square distMatrix n -> a < n -> b < n ->
  Double.mat_get distMatrix a b = Ok (Double.finite (entry distMatrix a b)).
Proof.
  intros [Hlen Hrows] Ha Hb. unfold Double.mat_get, entry.
  destruct (lookup_lt_is_Some_2 distMatrix a) as [row Hrow]; [lia|].
  rewrite Hrow. simpl.
  rewrite Forall_forall in Hrows.
  assert (length row = n) as Hr by (apply Hrows; by eapply list_elem_of_lookup_2).
  destruct (lookup_lt_is_Some_2 row b) as [q Hq]; [lia|].
  by rewrite Hq.
Qed.

Section double_twoOpt.
Variable distMatrix : Matrix.
Variable people : list Person.
Variable constantPairs : JsMap.

(** Whatever the inputs, a move that is made is the reversal of the
    segment, and no entry of the pair map forbids it. *)
Lemma double_try_move_Some (route : list nat) (i j : nat) (route' : list nat) :
  Double.try_move distMatrix people constantPairs route i j = Ok (Some route') ->
  route' = reverse_segment route i j
  /\ wouldBreakConstantPair route i j constantPairs = false.
Proof.
  unfold Double.try_move.
  destruct (wouldBreakConstantPair route i j constantPairs); [discriminate|].
  intros H. do 8 inv_bind H.
  destruct (Double.lt _ _); [|discriminate].
  do 2 inv_bind H.
  destruct (Double.lt _ _); [|discriminate].
  by injection H as <-.
Qed.

Lemma double_twoOpt_pass_Some (route route' : list nat) :
  Double.twoOpt_pass distMatrix people constantPairs route = Ok (Some route') ->
  exists i j, 1 <= i /\ i < j /\ j + 1 < length route
    /\ Double.try_move distMatrix people constantPairs route i j = Ok (Some route').
Proof.
  unfold Double.twoOpt_pass. intros H.
  apply for_first_Some in H as (i & Hi & H).
  apply for_first_Some in H as (j & Hj & H).
  apply elem_of_seq in Hi. apply elem_of_seq in Hj.
  exists i, j. repeat split; [lia..|done].
Qed.

Variable n : nat.
Hypothesis Hsquare : square distMatrix n.
Hypothesis Hsym : symmetric distMatrix.
Hypothesis Hpeople : length people = n.

(** A move is made only when the route with the segment reversed is
    shorter, the distances being added without rounding: the first test
    of the source, [after < before], compares two rounded sums, and
    rounding keeps the order. *)
Lemma double_try_move_ok (route : list nat) (i j : nat) :
  Forall (fun x => x < n) route -> 1 <= i -> i < j -> j + 1 < length route ->
  exists r, Double.try_move distMatrix people constantPairs route i j = Ok r /\
    (r = None \/
     (r = Some (reverse_segment route i j)
      /\ wouldBreakConstantPair route i j constantPairs = false
      /\ (path_cost distMatrix (reverse_segment route i j) < path_cost distMatrix route)%Q)).
Proof.
  intros Hrange Hi Hij Hj. unfold Double.try_move.
  destruct (wouldBreakConstantPair route i j constantPairs) eqn:Hbreak; [eauto|].
  destruct (route_before_ok people n Hpeople route i) as (a & -> & Ha & Han);
    [done | lia | lia |].
  destruct (route_at_ok n route i) as (b & -> & Hb & Hbn); [done | lia |].
  destruct (route_at_ok n route j) as (c & -> & Hc & Hcn); [done | lia |].
  destruct (route_at_ok n route (j + 1)) as (d & -> & Hd & Hdn); [done | lia |].
  simpl.
  rewrite !(double_mat_get_entry distMatrix n) by done. simpl.
  destruct (Double.lt (Double.round _) (Double.round _)) eqn:Hlt; [|eauto].
  apply round_lt in Hlt.
  destruct (hasCommonThemes_total people a c) as [l ->]; [lia..|].
  destruct (hasCommonThemes_total people b d) as [r ->]; [lia..|].
  simpl.
  destruct (Double.lt _ _); [|eauto].
  eexists. split; [done|]. right. repeat split; try done.
  pose proof (reverse_segment_cost distMatrix route i j a b c d
                Hsym Hi Hij Hj Ha Hb Hc Hd) as Hdiff.
  lra.
Qed.

Lemma double_twoOpt_pass_ok (route : list nat) :
  Forall (fun x => x < n) route ->
  exists r, Double.twoOpt_pass distMatrix people constantPairs route = Ok r /\
    (r = None \/
     exists route', r = Some route' /\ route' ≡ₚ route
       /\ (path_cost distMatrix route' < path_cost distMatrix route)%Q).
Proof.
  intros Hrange.
  assert (exists r, Double.twoOpt_pass distMatrix people constantPairs route = Ok r)
    as [r Hr].
  { unfold Double.twoOpt_pass. apply for_first_total. intros i Hi.
    apply for_first_total. intros j Hj.
    apply elem_of_seq in Hi. apply elem_of_seq in Hj.
    destruct (double_try_move_ok route i j) as (r & -> & _); [done | lia.. |]. eauto. }
  exists r. split; [done|]. destruct r as [route'|]; [right | by left].
  apply double_twoOpt_pass_Some in Hr as (i & j & Hi & Hij & Hj & Hmove).
  destruct (double_try_move_ok route i j) as (r & Hr & Hcases); [done..|].
  rewrite Hmove in Hr. injection Hr as <-.
  destruct Hcases as [|(Heq & _ & Hcost)]; [done|]. injection Heq as ->.
  exists (reverse_segment route i j). repeat split; [|done].
  apply reverse_segment_Permutation.
Qed.

(** Every move goes to a permutation of the route that is strictly
    shorter, so the loop ends. *)
Lemma double_twoOpt_terminates_from (universe : list (list nat)) (fuel : nat)
    (route : list nat) :
  (forall r, r ≡ₚ route -> r ∈ universe) ->
  Forall (fun x => x < n) route ->
  rank distMatrix universe route < fuel ->
  exists route', Double.twoOpt fuel distMatrix people constantPairs route = Ok route'
    /\ route' ≡ₚ route
    /\ (path_cost distMatrix route' <= path_cost distMatrix route)%Q
    /\ Double.twoOpt_pass distMatrix people constantPairs route' = Ok None.
Proof.
  revert route. induction fuel as [|fuel IH]; intros route Huniv Hrange Hrank; [lia|].
  simpl. destruct (double_twoOpt_pass_ok route Hrange) as (r & Hr & Hcases).
  rewrite Hr. simpl.
  destruct Hcases as [->|(route1 & -> & Hperm & Hcost)].
  - exists route. repeat split; [done| |done]. apply Qle_refl.
  - destruct (IH route1) as (route' & Hrun & Hperm' & Hcost' & Hlast).
    + intros r Hr'. apply Huniv. by rewrite Hr'.
    + by rewrite Hperm.
    + pose proof (rank_decreases distMatrix universe route route1 (Huniv _ Hperm) Hcost).
      lia.
    + exists route'. split; [done|]. split; [by rewrite Hperm'|]. split; [lra | done].
Qed.

Lemma double_twoOpt_terminates (fuel : nat) (route : list nat) :
  Forall (fun x => x < n) route ->
  fact (length route) < fuel ->
  exists route', Double.twoOpt fuel distMatrix people constantPairs route = Ok route'
    /\ route' ≡ₚ route
    /\ (path_cost distMatrix route' <= path_cost distMatrix route)%Q
    /\ Double.twoOpt_pass distMatrix people constantPairs route' = Ok None.
Proof.
  intros Hrange Hfuel.
  apply (double_twoOpt_terminates_from (permutations route)); [|done|].
  - intros r Hr. by apply permutations_Permutation.
  - unfold rank. eapply Nat.le_lt_trans; [apply length_filter|].
    by rewrite length_permutations.
Qed.
End double_twoOpt.

(** * Sums that are not rounded *)

Lemma Qltb_comp (x x' y y' : Q) :
  (x == x')%Q -> (y == y')%Q -> Qltb x y = Qltb x' y'.
Proof. intros Ex Ey. unfold Qltb. by rewrite (Qleb_comp _ _ Ey _ _ Ex). Qed.

Lemma stands_for_finite (x : Q) : stands_for (Double.finite x) x.
Proof. by exists x. Qed.

Lemma stands_for_lt (a b : Double.number) (x y : Q) :
  stands_for a x -> stands_for b y -> Double.lt a b = Qltb x y.
Proof. intros (x' & -> & Ex) (y' & -> & Ey). simpl. by apply Qltb_comp. Qed.

(** The sum of two multiples of 1/4 of moderate size is a double. *)
Lemma stands_for_add (a b : Double.number) (x y : Q) (m : Z) :
  stands_for a x -> stands_for b y ->
  (x + y == inject_Z m * (1 # 4))%Q -> (Z.abs m < 2 ^ 53)%Z ->
  stands_for (Double.add a b) (x + y).
Proof.
  intros (x' & -> & Ex) (y' & -> & Ey) Hm Hsmall. simpl.
  destruct (round_exact (x' + y') m (-2)) as (z & Hz & Ez).
  - rewrite Ex, Ey, Hm. reflexivity.
  - done.
  - lia.
  - rewrite Ex, Ey, Hm, Qabs_Qmult.
    assert (Qabs (inject_Z m) == inject_Z (Z.abs m))%Q as -> by (symmetry; apply Zabs_Qabs).
    rewrite Zlt_Qlt in Hsmall.
    pose proof (pow2_lt 53 1024 ltac:(lia)) as Hp. rewrite (pow2_Z 53) in Hp by lia.
    change (Qabs (1 # 4)) with (1 # 4)%Q.
    assert (0 <= inject_Z (Z.abs m))%Q.
    { change 0%Q with (inject_Z 0). rewrite <- Zle_Qle. lia. }
    lra.
  - exists z. split; [done|]. by rewrite Ez, Ex, Ey.
Qed.

Lemma quarter_pow2 : (Double.pow2 (-2) == 1 # 4)%Q.
Proof. reflexivity. Qed.

(** ** Commonality distances *)

Lemma commonalityDistance_quarter (a b : list string) :
  exists q : Z, (0 <= q <= 4)%Z /\ (commonalityDistance a b == inject_Z q * (1 # 4))%Q.
Proof.
  unfold commonalityDistance. exists (Z.of_nat (4 - Nat.min (inter_count a b) 4)).
  split; [lia|]. rewrite Qmake_Qdiv. field.
Qed.

Lemma commonality_quarters (people : list Person) (constantPairs : JsMap) :
  quarters (createDistanceMatrix people commonalityDistance constantPairs).
Proof.
  intros a b.
  assert (exists q : Z, (0 <= q <= 4)%Z /\ (0 == inject_Z q * (1 # 4))%Q) as Hzero
    by (exists 0%Z; split; [lia | reflexivity]).
  assert (forall i j, exists q : Z, (0 <= q <= 4)%Z
            /\ (matrix_cell people commonalityDistance constantPairs i j
                == inject_Z q * (1 # 4))%Q) as Hcell.
  { intros i j. unfold matrix_cell. case_decide; [done|].
    apply commonalityDistance_quarter. }
  destruct (decide (a < length people /\ b < length people)) as [[Ha Hb]|Hout].
  - rewrite createDistanceMatrix_entry by done.
    destruct (a <? b); [apply Hcell|]. destruct (b <? a); [apply Hcell | done].
  - rewrite createDistanceMatrix_entry_out by lia. done.
Qed.

Section quarters.
Variable distMatrix : Matrix.
Variable people : list Person.
Variable constantPairs : JsMap.
Variable n : nat.
Hypothesis Hsquare : square distMatrix n.
Hypothesis Hpeople : length people = n.
Hypothesis Hquarters : quarters distMatrix.

(** ** The total distance, when no sum is rounded *)

Lemma double_calculateTotalCost_from (route : list nat) (m k : nat) (acc : Q) (z : Z) :
  Forall (fun x => x < n) route -> k + m + 1 = length route ->
  (Z.of_nat (length route) <= 2 ^ 50)%Z ->
  (acc == inject_Z z * (1 # 4))%Q -> (0 <= z <= 4 * Z.of_nat k)%Z ->
  exists c,
    foldlM (fun cost i =>
        let* a := route_at route i in
        let* b := route_at route (i + 1) in
        let* d := Double.mat_get distMatrix a b in
        Ok (Double.add cost d)) (Double.finite acc) (seq k m) = Ok (Double.finite c)
    /\ (c == acc + path_cost distMatrix (drop k route))%Q.
Proof.
  intros Hrange. revert k acc z. induction m as [|m IH]; intros k acc z Hlen Hbig Hacc Hz.
  - simpl. exists acc. split; [done|].
    destruct (lookup_lt_is_Some_2 route k) as [x Hx]; [lia|].
    rewrite (drop_S _ _ _ Hx), drop_ge by lia. simpl. ring.
  - simpl.
    destruct (route_at_ok n route k) as (a & -> & Ha & Han); [done | lia |].
    destruct (route_at_ok n route (k + 1)) as (b & -> & Hb & Hbn); [done | lia |].
    simpl. rewrite (double_mat_get_entry distMatrix n) by done. simpl.
    destruct (Hquarters a b) as (q & Hq & Eq).
    destruct (stands_for_add (Double.finite acc) (Double.finite (entry distMatrix a b))
                acc (entry distMatrix a b) (z + q))
      as (s & Hs & Es); [apply stands_for_finite.. | | |].
    { rewrite Hacc, Eq, inject_Z_plus. ring. }
    { assert (2 ^ 50 = 1125899906842624)%Z as E50 by reflexivity.
      assert (2 ^ 53 = 9007199254740992)%Z as E53 by reflexivity. lia. }
    simpl in Hs. rewrite Hs.
    destruct (IH (S k) s (z + q)%Z) as (c & -> & Hc); [lia | done | | lia |].
    { rewrite Es, Hacc, Eq, inject_Z_plus. ring. }
    exists c. split; [done|]. rewrite Hc, Es.
    rewrite (drop_S _ _ _ Ha).
    replace (k + 1) with (S k) in Hb by lia.
    rewrite (drop_S _ _ _ Hb). simpl. ring.
Qed.

(** What [calculateTotalCost] computes is the sum of the distances. *)
Lemma double_calculateTotalCost_exact (route : list nat) :
  Forall (fun x => x < n) route -> (Z.of_nat (length route) <= 2 ^ 50)%Z ->
  exists c, Double.calculateTotalCost route distMatrix = Ok (Double.finite c)
            /\ (c == path_cost distMatrix route)%Q.
Proof.
  intros Hrange Hbig. unfold Double.calculateTotalCost.
  destruct route as [|x route]; [by exists 0%Q|].
  destruct (double_calculateTotalCost_from (x :: route) (length (x :: route) - 1) 0 0%Q 0
              Hrange) as (c & -> & Hc); [simpl; lia | done | reflexivity | lia |].
  exists c. split; [done|]. rewrite Hc, drop_0. ring.
Qed.

(** ** The moves, when no sum is rounded *)

Lemma double_try_move_exact (route : list nat) (i j : nat) :
  Forall (fun x => x < n) route -> 1 <= i -> i < j -> j + 1 < length route ->
  Double.try_move distMatrix people constantPairs route i j
  = try_move distMatrix people constantPairs route i j.
Proof.
  intros Hrange Hi Hij Hj. unfold Double.try_move, try_move.
  destruct (wouldBreakConstantPair route i j constantPairs); [done|].
  destruct (route_before_ok people n Hpeople route i) as (a & -> & Ha & Han);
    [done | lia | lia |].
  destruct (route_at_ok n route i) as (b & -> & Hb & Hbn); [done | lia |].
  destruct (route_at_ok n route j) as (c & -> & Hc & Hcn); [done | lia |].
  destruct (route_at_ok n route (j + 1)) as (d & -> & Hd & Hdn); [done | lia |].
  simpl.
  rewrite !(double_mat_get_entry distMatrix n), !(mat_get_entry distMatrix n) by done.
  simpl.
  destruct (Hquarters a b) as (qab & Hab & Eab). destruct (Hquarters c d) as (qcd & Hcd & Ecd).
  destruct (Hquarters a c) as (qac & Hac & Eac). destruct (Hquarters b d) as (qbd & Hbd & Ebd).
  assert (2 ^ 53 = 9007199254740992)%Z as E53 by reflexivity.
  pose proof (stands_for_add _ _ _ _ (qab + qcd)
                (stands_for_finite (entry distMatrix a b))
                (stands_for_finite (entry distMatrix c d))) as Hbefore.
  pose proof (stands_for_add _ _ _ _ (qac + qbd)
                (stands_for_finite (entry distMatrix a c))
                (stands_for_finite (entry distMatrix b d))) as Hafter.
  simpl in Hbefore, Hafter.
  specialize (Hbefore ltac:(rewrite Eab, Ecd, inject_Z_plus; ring) ltac:(lia)).
  specialize (Hafter ltac:(rewrite Eac, Ebd, inject_Z_plus; ring) ltac:(lia)).
  rewrite (stands_for_lt _ _ _ _ Hafter Hbefore).
  destruct (Qltb _ _); [|done].
  destruct (hasCommonThemes_total people a c) as [l ->]; [lia..|].
  destruct (hasCommonThemes_total people b d) as [r ->]; [lia..|].
  simpl.
  set (p := ((if l then 0 else 1 # 2) + (if r then 0 else 1 # 2))%Q).
  match goal with
  | |- context [Double.add (Double.round _) ?P] => set (pen := P)
  end.
  assert (stands_for pen p
          /\ exists k : Z, (0 <= k <= 4)%Z /\ (p == inject_Z k * (1 # 4))%Q)
    as (Hpen & k & Hk & Ek).
  { assert (stands_for (Double.add (Double.finite 0) (Double.finite (1 # 2))) (0 + (1 # 2)))
      as Hhalf.
    { apply (stands_for_add _ _ _ _ 2); [apply stands_for_finite.. | reflexivity | lia]. }
    subst pen p. destruct l, r.
    - split; [by exists 0%Q|]. exists 0%Z. split; [lia | reflexivity].
    - split; [|exists 2%Z; split; [lia | reflexivity]].
      apply (stands_for_add _ _ _ _ 2); [apply stands_for_finite.. | reflexivity | lia].
    - split; [|exists 2%Z; split; [lia | reflexivity]].
      destruct Hhalf as (y & Hy & Ey). exists y. split; [exact Hy|].
      rewrite Ey. reflexivity.
    - split; [|exists 4%Z; split; [lia | reflexivity]].
      destruct (stands_for_add (Double.add (Double.finite 0) (Double.finite (1 # 2)))
                  (Double.finite (1 # 2)) (0 + (1 # 2)) (1 # 2) 4) as (y' & Hy' & Ey');
        [exact Hhalf | apply stands_for_finite | reflexivity | lia |].
      exists y'. split; [exact Hy'|]. rewrite Ey'. reflexivity. }
  pose proof (stands_for_add _ _ _ _ (qac + qbd + k) Hafter Hpen) as Hsum.
  specialize (Hsum ltac:(rewrite Eac, Ebd, Ek, !inject_Z_plus; ring) ltac:(lia)).
  rewrite (stands_for_lt _ _ _ _ Hsum Hbefore). done.
Qed.
End quarters.

From Stdlib Require Floats.

(** * The refiner in double precision *)

Lemma for_first_ext {A B : Type} (f g : A -> result (option B)) (l : list A) :
  (forall x, x ∈ l -> f x = g x) -> for_first f l = for_first g l.
Proof.
  induction l as [|x l IH]; intros Hstep; simpl; [done|].
  rewrite Hstep by (apply elem_of_cons; auto).
  destruct (g x) as [[b|]|e]; simpl; [done| |done].
  apply IH. intros y Hy. apply Hstep, elem_of_cons. auto.
Qed.

Section quarters_twoOpt.
Variable distMatrix : Matrix.
Variable people : list Person.
Variable constantPairs : JsMap.
Variable n : nat.
Hypothesis Hsquare : square distMatrix n.
Hypothesis Hpeople : length people = n.
Hypothesis Hquarters : quarters distMatrix.

(** On distances that are multiples of 1/4 between 0 and 1 no sum of
    the refiner is rounded: it makes the moves it would make with sums
    that are not rounded. *)
Lemma double_twoOpt_pass_exact (route : list nat) :
  Forall (fun x => x < n) route ->
  Double.twoOpt_pass distMatrix people constantPairs route
  = twoOpt_pass distMatrix people constantPairs route.
Proof.
  intros Hrange. unfold Double.twoOpt_pass, twoOpt_pass.
  apply for_first_ext. intros i Hi. apply for_first_ext. intros j Hj.
  apply elem_of_seq in Hi. apply elem_of_seq in Hj.
  apply (double_try_move_exact distMatrix people constantPairs n); try done; lia.
Qed.

Lemma double_twoOpt_exact (fuel : nat) (route : list nat) :
  Forall (fun x => x < n) route ->
  Double.twoOpt fuel distMatrix people constantPairs route
  = twoOpt fuel distMatrix people constantPairs route.
Proof.
  revert route. induction fuel as [|fuel IH]; intros route Hrange; simpl; [done|].
  rewrite double_twoOpt_pass_exact by done.
  destruct (twoOpt_pass distMatrix people constantPairs route) as [[r|]|e] eqn:E;
    simpl; try done.
  apply IH.
  apply twoOpt_pass_Some in E as (i & j & _ & _ & _ & Hmove).
  apply try_move_Some in Hmove as [-> _]. by rewrite reverse_segment_Permutation.
Qed.
End quarters_twoOpt.

(** ** The total cost can rise *)

(** C5 (the claim fails).  Five participants and the distances of
    [avgDistance].  The constructor, started at participant 0, returns
    the route 0 2 4 3 1.  [twoOpt] reverses the segment [2..3] of it: the
    sum after, 0.6 + 0.6, is the double 1.2, and the sum before,
    0.4 + 0.8, is the double 1.2000000000000002 (both penalties are 0).
    No other move follows.  The cost [calculateTotalCost] computes for
    the route returned, 1.9500000000000002, is above the cost it computes
    for the route given, 1.95. *)
Lemma twoOpt_cost_rises_counterexample :
  let constantPairs := findConstantPairs jaccard_people in
  nearestNeighborWithCommonThemes jaccard_matrix jaccard_people constantPairs 0
    = Ok [0; 2; 4; 3; 1]
  /\ Double.twoOpt 121 jaccard_matrix jaccard_people constantPairs [0; 2; 4; 3; 1]
     = Ok [0; 2; 3; 4; 1]
  /\ exists c c',
       Double.calculateTotalCost [0; 2; 4; 3; 1] jaccard_matrix = Ok (Double.finite c)
       /\ Double.calculateTotalCost [0; 2; 3; 4; 1] jaccard_matrix = Ok (Double.finite c')
       /\ (c == 8782019273372467 # 4503599627370496)%Q
       /\ (c' == 8782019273372468 # 4503599627370496)%Q
       /\ (c < c')%Q.
Proof.
  split; [by vm_compute|]. split; [by vm_compute|].
  eexists _, _. split; [by vm_compute|]. split; [by vm_compute|].
  split; [|split]; by vm_compute.
Qed.

(** C5 (amended).  [twoOpt] never increases the distance it optimises
    when the distances are added without rounding: for every route over
    the indices of the participants, [twoOpt] returns a permutation of
    the route, and the sum of the matrix distances of consecutive
    participants along it is at most that sum along the route given
    (every move made has passed the test [after < before] on two rounded
    sums, and rounding keeps the order, so every move lowers the sum).
    With the distances of [commonalityDistance] and fewer than 2^32
    participants in the route, as in every array of the source, no sum
    is rounded, and the cost that [calculateTotalCost] computes for the
    route returned is at most the cost it computes for the route given. *)
Theorem twoOpt_never_increases_cost (fuel : nat) (people : list Person)
    (distanceFunction : DistanceFunction) (route : list nat) :
  let constantPairs := findConstantPairs people in
  let distMatrix :=
    createDistanceMatrix people (Double.getDistanceFunction distanceFunction)
      constantPairs in
  Forall (fun x => x < length people) route ->
  fact (length route) < fuel ->
  exists route',
    Double.twoOpt fuel distMatrix people constantPairs route = Ok route'
    /\ route' ≡ₚ route
    /\ (path_cost distMatrix route' <= path_cost distMatrix route)%Q
    /\ (distanceFunction = commonality -> (Z.of_nat (length route) < 2 ^ 32)%Z ->
        exists c c',
          Double.calculateTotalCost route distMatrix = Ok (Double.finite c)
          /\ Double.calculateTotalCost route' distMatrix = Ok (Double.finite c')
          /\ (c' <= c)%Q).
Proof.
  intros constantPairs distMatrix Hrange Hfuel.
  assert (square distMatrix (length people)) as Hsq by apply createDistanceMatrix_square.
  assert (symmetric distMatrix) as Hsym by apply createDistanceMatrix_symmetric.
  destruct (double_twoOpt_terminates distMatrix people constantPairs (length people)
              Hsq Hsym eq_refl fuel route Hrange Hfuel)
    as (route' & Hrun & Hperm & Hcost & _).
  exists route'. split; [done|]. split; [done|]. split; [done|].
  intros -> Hsize.
  assert (quarters distMatrix) as Hq by apply commonality_quarters.
  assert (2 ^ 32 = 4294967296)%Z as E32 by reflexivity.
  assert (2 ^ 50 = 1125899906842624)%Z as E50 by reflexivity.
  destruct (double_calculateTotalCost_exact distMatrix people (length people) Hsq eq_refl Hq
              route) as (c & Hc & Ec); [done | lia |].
  destruct (double_calculateTotalCost_exact distMatrix people (length people) Hsq eq_refl Hq
              route') as (c' & Hc' & Ec'); [by rewrite Hperm | rewrite Hperm; lia |].
  exists c, c'. split; [done|]. split; [done|]. by rewrite Ec, Ec'.
Qed.

Lemma twoOpt_never_increases_cost_witness :
  let constantPairs := findConstantPairs jaccard_people in
  let distMatrix :=
    createDistanceMatrix jaccard_people (Double.getDistanceFunction avg_distance)
      constantPairs in
  let route := [0; 2; 4; 3; 1] in
  exists route',
    Double.twoOpt 121 distMatrix jaccard_people constantPairs route = Ok route'
    /\ route' ≡ₚ route
    /\ (path_cost distMatrix route' <= path_cost distMatrix route)%Q
    /\ (avg_distance = commonality -> (Z.of_nat (length route) < 2 ^ 32)%Z ->
        exists c c',
          Double.calculateTotalCost route distMatrix = Ok (Double.finite c)
          /\ Double.calculateTotalCost route' distMatrix = Ok (Double.finite c')
          /\ (c' <= c)%Q).
Proof.
  apply (twoOpt_never_increases_cost 121 jaccard_people avg_distance [0; 2; 4; 3; 1]).
  - repeat constructor; simpl; lia.
  - vm_compute. lia.
Defined.

(** ** The machine's doubles *)

Section binary64.
Import PrimFloat.
Local Open Scope float_scope.

(** The rounding of [Double] gives the doubles that the arithmetic of
    the machine gives ([float] is the binary64 type of the kernel): on
    every distance [1 - inter / union] for a union of at most six
    themes, on the sum of every two of these distances, and on the sums
    of the example above, whose two costs are the doubles printed as
    1.95 and 1.9500000000000002. *)
Lemma round_agrees_with_binary64 :
  let float_of (k : nat) := of_uint63 (Uint63.of_Z (Z.of_nat k)) in
  let fractions := (u ← seq 1 6; i ← seq 0 (S u); [(i, u)]) in
  let distance := fun '(i, u) =>
    Double.nearest (1 - Double.nearest (Z.of_nat i # Pos.of_nat u)) in
  let machine := fun '(i, u) => 1 - float_of i / float_of u in
  forallb (fun f =>
      Double.same (Double.finite (distance f)) (Double.of_float (machine f)))
    fractions = true
  /\ forallb (fun f => forallb (fun g =>
        Double.same (Double.add (Double.finite (distance f)) (Double.finite (distance g)))
          (Double.of_float (machine f + machine g))) fractions) fractions = true
  /\ Double.of_float ((1 - 3 / 5) + (1 - 1 / 5))
     = Double.finite (5404319552844596 # 4503599627370496)
  /\ Double.of_float ((1 - 2 / 5) + (1 - 2 / 5))
     = Double.finite (5404319552844595 # 4503599627370496)
  /\ Double.same (Double.of_float 0x1.f333333333333p+0)
       (Double.finite (8782019273372467 # 4503599627370496)) = true
  /\ Double.same (Double.of_float 0x1.f333333333334p+0)
       (Double.finite (8782019273372468 # 4503599627370496)) = true
  /\ Double.calculateTotalCost [0; 2; 4; 3; 1]%nat jaccard_matrix
     = Ok (Double.of_float
             (0 + (1 - 2 / 4) + (1 - 3 / 5) + (1 - 3 / 4) + (1 - 1 / 5)))
  /\ Double.calculateTotalCost [0; 2; 3; 4; 1]%nat jaccard_matrix
     = Ok (Double.of_float
             (0 + (1 - 2 / 4) + (1 - 2 / 5) + (1 - 3 / 4) + (1 - 2 / 5))).
Proof. vm_compute. repeat split. Qed.
End binary64.

(** ** A local optimum *)

(** X9.  With the distances of [commonalityDistance], whose sums are not
    rounded, the route [twoOpt] returns is a local optimum: reversing any
    segment [i..j] of it that the loops visit and no pinned pair forbids
    does not lower the total distance by more than the isolation penalty
    of that reversal (one half for each new junction without a common
    theme). *)
Theorem twoOpt_local_optimum (fuel : nat) (people : list Person) (route : list nat) :
  let constantPairs := findConstantPairs people in
  let distMatrix := createDistanceMatrix people commonalityDistance constantPairs in
  Forall (fun x => x < length people) route ->
  fact (length route) < fuel ->
  exists route',
    Double.twoOpt fuel distMatrix people constantPairs route = Ok route'
    /\ forall i j, 1 <= i -> i < j -> j + 1 < length route' ->
         wouldBreakConstantPair route' i j constantPairs = false ->
         (path_cost distMatrix route'
          <= path_cost distMatrix (reverse_segment route' i j)
             + isolation_penalty people route' i j)%Q.
Proof.
  intros constantPairs distMatrix Hrange Hfuel.
  assert (square distMatrix (length people)) as Hsq by apply createDistanceMatrix_square.
  assert (symmetric distMatrix) as Hsym by apply createDistanceMatrix_symmetric.
  assert (quarters distMatrix) as Hq by apply commonality_quarters.
  destruct (double_twoOpt_terminates distMatrix people constantPairs (length people)
              Hsq Hsym eq_refl fuel route Hrange Hfuel)
    as (route' & Hrun & Hperm & _ & Hlast).
  exists route'. split; [done|].
  intros i j Hi Hij Hj Hbreak.
  assert (Forall (fun x => x < length people) route') as Hrange' by by rewrite Hperm.
  rewrite (double_twoOpt_pass_exact distMatrix people constantPairs (length people))
    in Hlast by done.
  apply (try_move_None_cost distMatrix people constantPairs (length people)); try done.
  by apply twoOpt_pass_None.
Qed.

Lemma twoOpt_local_optimum_witness :
  let constantPairs := findConstantPairs pinned_people in
  let distMatrix := createDistanceMatrix pinned_people commonalityDistance constantPairs in
  exists route',
    Double.twoOpt 121 distMatrix pinned_people constantPairs [1; 0; 2; 3; 4] = Ok route'
    /\ forall i j, 1 <= i -> i < j -> j + 1 < length route' ->
         wouldBreakConstantPair route' i j constantPairs = false ->
         (path_cost distMatrix route'
          <= path_cost distMatrix (reverse_segment route' i j)
             + isolation_penalty pinned_people route' i j)%Q.
Proof.
  apply (twoOpt_local_optimum 121 pinned_people [1; 0; 2; 3; 4]).
  - repeat constructor; simpl; lia.
  - vm_compute. lia.
Defined.

(** * Pinned pairs in the refiner *)

Lemma double_try_move_rejected (distMatrix : Matrix) (people : list Person)
    (constantPairs : JsMap) (route : list nat) (i j : nat) :
  wouldBreakConstantPair route i j constantPairs = true ->
  Double.try_move distMatrix people constantPairs route i j = Ok None.
Proof. intros H. unfold Double.try_move. by rewrite H. Qed.

(** A pass that makes a move keeps together what was together. *)
Lemma double_twoOpt_pass_adjacent (distMatrix : Matrix) (people : list Person)
    (constantPairs : JsMap) (route route' : list nat) :
  NoDup route -> (forall e, e ∈ constantPairs -> adjacent_in route e) ->
  Double.twoOpt_pass distMatrix people constantPairs route = Ok (Some route') ->
  route' ≡ₚ route /\ forall e, e ∈ constantPairs -> adjacent_in route' e.
Proof.
  intros Hnd Hadj Hpass.
  apply double_twoOpt_pass_Some in Hpass as (i & j & Hi & Hij & Hj & Hmove).
  apply double_try_move_Some in Hmove as [-> Hbreak]. split.
  - apply reverse_segment_Permutation.
  - intros e He. apply adjacent_in_reverse_segment; auto.
    by apply (wouldBreak_false _ _ _ constantPairs).
Qed.

(** The routes of a call that starts from a route in which the pinned
    pairs are together. *)
Lemma visits_adjacent (distMatrix : Matrix) (people : list Person)
    (constantPairs : JsMap) (route0 route : list nat) :
  NoDup route0 -> (forall e, e ∈ constantPairs -> adjacent_in route0 e) ->
  Double.visits distMatrix people constantPairs route0 route ->
  route ≡ₚ route0 /\ forall e, e ∈ constantPairs -> adjacent_in route e.
Proof.
  intros Hnd Hadj Hvisits. induction Hvisits as [|route route' _ [IHp IHa] Hpass]; [done|].
  destruct (double_twoOpt_pass_adjacent distMatrix people constantPairs route route')
    as [Hperm Hadj']; [by rewrite IHp | done | done |].
  split; [by rewrite Hperm | done].
Qed.

Lemma double_twoOpt_visits (fuel : nat) (distMatrix : Matrix) (people : list Person)
    (constantPairs : JsMap) (route0 route route' : list nat) :
  Double.visits distMatrix people constantPairs route0 route ->
  Double.twoOpt fuel distMatrix people constantPairs route = Ok route' ->
  Double.visits distMatrix people constantPairs route0 route'.
Proof.
  revert route. induction fuel as [|fuel IH]; intros route Hvisits H; simpl in H;
    [discriminate|].
  inv_bind H. destruct a as [r1|]; [|by injection H as <-].
  apply (IH r1); [|done]. by eapply Double.visits_move.
Qed.

(** The route that the constructor hands to [twoOpt]. *)
Lemma constructor_route_adjacent (people : list Person)
    (distanceFunc : list string -> list string -> Q) (startIdx : nat) (route0 : list nat) :
  let constantPairs := findConstantPairs people in
  let distMatrix := createDistanceMatrix people distanceFunc constantPairs in
  startIdx < length people ->
  nearestNeighborWithCommonThemes distMatrix people constantPairs startIdx = Ok route0 ->
  route0 ≡ₚ seq 0 (length people)
  /\ forall e, e ∈ constantPairs -> adjacent_in route0 e.
Proof.
  intros constantPairs distMatrix Hs Hroute.
  assert (length distMatrix = length people) as Hlen
    by apply createDistanceMatrix_square.
  destruct (nearestNeighbor_pairs distMatrix people constantPairs startIdx)
    as (r0 & Hr0 & _ & Hperm & Hcons).
  { done. }
  { rewrite Hlen. apply findConstantPairs_bounded. }
  { apply findConstantPairs_pairing. }
  { by rewrite Hlen. }
  rewrite Hroute in Hr0. injection Hr0 as <-. rewrite Hlen in Hperm.
  split; [done|].
  pose proof Hperm as (Hnd & _ & _)%Permutation_indices.
  intros [a b] He. apply consecutive_adjacent_in; [done|]. apply Hcons.
  apply map_get_lookup; [apply findConstantPairs_pairing | done].
Qed.

(** C7.  [twoOpt] is called by [optimizeSeating] only, on the route of
    the constructor.  In every route it holds during that call, the two
    members of every pinned pair are neighbours; a candidate move with
    cut points i, j is rejected (the reversal is not made) whenever
    exactly one of the two members lies inside the segment [i..j], and
    whenever both lie inside but their mirrored positions j-(pos-i) are
    not neighbours (positions that differ by 1, or the two ends of the
    route); and the call returns a route in which the two are still
    neighbours. *)
Theorem twoOpt_keeps_pairs_together (people : list Person)
    (distanceFunction : DistanceFunction) (startIdx : nat) (route0 route : list nat)
    (e : nat * nat) :
  let constantPairs := findConstantPairs people in
  let distMatrix :=
    createDistanceMatrix people (Double.getDistanceFunction distanceFunction)
      constantPairs in
  startIdx < length people ->
  nearestNeighborWithCommonThemes distMatrix people constantPairs startIdx = Ok route0 ->
  Double.visits distMatrix people constantPairs route0 route ->
  e ∈ constantPairs ->
  let pos1 := indexOf route e.1 in
  let pos2 := indexOf route e.2 in
  adjacent_in route e
  /\ (forall i j,
      inSegment pos1 (Z.of_nat i) (Z.of_nat j) <> inSegment pos2 (Z.of_nat i) (Z.of_nat j) ->
      Double.try_move distMatrix people constantPairs route i j = Ok None)
  /\ (forall i j,
      inSegment pos1 (Z.of_nat i) (Z.of_nat j) = true ->
      inSegment pos2 (Z.of_nat i) (Z.of_nat j) = true ->
      areNeighbors (Z.of_nat j - (pos1 - Z.of_nat i)) (Z.of_nat j - (pos2 - Z.of_nat i))
        (Z.of_nat (length route)) = false ->
      Double.try_move distMatrix people constantPairs route i j = Ok None)
  /\ (forall fuel, fact (length people) < fuel ->
      exists route',
        Double.twoOpt fuel distMatrix people constantPairs route = Ok route'
        /\ adjacent_in route' e).
Proof.
  intros constantPairs distMatrix Hs Hroute Hvisits He pos1 pos2.
  destruct (constructor_route_adjacent people (Double.getDistanceFunction distanceFunction)
              startIdx route0 Hs Hroute) as [Hperm0 Hadj0].
  pose proof Hperm0 as (Hnd0 & _ & _)%Permutation_indices.
  destruct (visits_adjacent distMatrix people constantPairs route0 route Hnd0 Hadj0 Hvisits)
    as [Hperm Hall].
  pose proof (Hall e He) as Hadj. pose proof Hadj as (H1 & H2 & Hn).
  assert (forall i j, entry_breaks route (Z.of_nat i) (Z.of_nat j) e =
            if negb (eqb (inSegment pos1 (Z.of_nat i) (Z.of_nat j))
                         (inSegment pos2 (Z.of_nat i) (Z.of_nat j))) then true
            else if inSegment pos1 (Z.of_nat i) (Z.of_nat j)
                    && inSegment pos2 (Z.of_nat i) (Z.of_nat j)
            then negb (areNeighbors (Z.of_nat j - (pos1 - Z.of_nat i))
                         (Z.of_nat j - (pos2 - Z.of_nat i)) (Z.of_nat (length route)))
            else false) as Hentry.
  { intros i j. subst pos1 pos2. unfold entry_breaks. rewrite Hn.
    destruct (Z.eqb_spec (indexOf route e.1) (-1)); [done|].
    destruct (Z.eqb_spec (indexOf route e.2) (-1)); [done|]. done. }
  split; [done|]. split; [|split].
  - intros i j Hone. apply double_try_move_rejected, (wouldBreak_true _ _ _ _ e He).
    rewrite Hentry.
    destruct (inSegment pos1 _ _), (inSegment pos2 _ _); done.
  - intros i j Hin1 Hin2 Hmirror.
    apply double_try_move_rejected, (wouldBreak_true _ _ _ _ e He).
    rewrite Hentry, Hin1, Hin2, Hmirror. done.
  - intros fuel Hfuel.
    assert (square distMatrix (length people)) as Hsq by apply createDistanceMatrix_square.
    assert (symmetric distMatrix) as Hsym by apply createDistanceMatrix_symmetric.
    assert (length route = length people) as Hlen.
    { by rewrite Hperm, Hperm0, length_seq. }
    destruct (double_twoOpt_terminates distMatrix people constantPairs (length people)
                Hsq Hsym eq_refl fuel route) as (route' & Hrun & _).
    { rewrite Hperm, Hperm0. apply Forall_forall. intros x Hx%elem_of_seq. lia. }
    { by rewrite Hlen. }
    exists route'. split; [done|].
    pose proof (double_twoOpt_visits fuel distMatrix people constantPairs route0 route route'
                  Hvisits Hrun) as Hvisits'.
    destruct (visits_adjacent distMatrix people constantPairs route0 route' Hnd0 Hadj0
                Hvisits') as [_ Hall'].
    by apply Hall'.
Qed.

Lemma twoOpt_keeps_pairs_together_witness :
  let constantPairs := findConstantPairs pinned_people in
  let distMatrix :=
    createDistanceMatrix pinned_people (Double.getDistanceFunction commonality)
      constantPairs in
  let route := [1; 3; 0; 2; 4] in
  let pos1 := indexOf route 0 in
  let pos2 := indexOf route 2 in
  adjacent_in route (0, 2)
  /\ (forall i j,
      inSegment pos1 (Z.of_nat i) (Z.of_nat j) <> inSegment pos2 (Z.of_nat i) (Z.of_nat j) ->
      Double.try_move distMatrix pinned_people constantPairs route i j = Ok None)
  /\ (forall i j,
      inSegment pos1 (Z.of_nat i) (Z.of_nat j) = true ->
      inSegment pos2 (Z.of_nat i) (Z.of_nat j) = true ->
      areNeighbors (Z.of_nat j - (pos1 - Z.of_nat i)) (Z.of_nat j - (pos2 - Z.of_nat i))
        (Z.of_nat (length route)) = false ->
      Double.try_move distMatrix pinned_people constantPairs route i j = Ok None)
  /\ (forall fuel, fact (length pinned_people) < fuel ->
      exists route',
        Double.twoOpt fuel distMatrix pinned_people constantPairs route = Ok route'
        /\ adjacent_in route' (0, 2)).
Proof.
  apply (twoOpt_keeps_pairs_together pinned_people commonality 1
           [1; 3; 0; 2; 4] [1; 3; 0; 2; 4] (0, 2)).
  - simpl. lia.
  - vm_compute. reflexivity.
  - apply Double.visits_start.
  - vm_compute. left.
Defined.

